(** * mdu: concurrent disk-usage accounting

  A shallow embedding of [src/mdu] (thread.h, thread.c, worker.c, mdu.c).

  The shared [struct ThreadData] is a record; the linked list between
  [queue_head] and [queue_tail] is the list of its paths.  Every worker
  thread is a program counter into [worker_thread] and the functions it
  calls, one program point per statement that touches the shared data
  or a pthread primitive.  A step of the pool is a step of one worker;
  [pthread_mutex_lock] is enabled only while the mutex is free,
  [pthread_cond_wait] releases the mutex and parks the worker until a
  broadcast (or a spurious wake-up) lets it compete for the mutex again.

  The file system is the environment: [lstat] and [opendir] are
  functions from paths, fixed during a traversal.

  The model covers the runs in which [malloc], [realloc], [strdup] and
  the pthread calls succeed; their failure branches call [exit]. *)

From Stdlib Require Import ZArith Lia Bool.
From stdpp Require Import base tactics option list strings gmap.

Local Open Scope Z_scope.

(** ** Machine integers *)

Module CInt.

(** [int] is 32 bits and [off_t], [blkcnt_t] and [long] are 64 bits
    (LP64).  Arithmetic is two's complement with the wrap-around
    written out. *)
Definition INT_MAX : Z := 2147483647.
Definition OFF_MAX : Z := 9223372036854775807.

Definition wrap_int (z : Z) : Z := (z + 2 ^ 31) mod 2 ^ 32 - 2 ^ 31.
Definition wrap_off (z : Z) : Z := (z + 2 ^ 63) mod 2 ^ 64 - 2 ^ 63.

Definition EXIT_SUCCESS : Z := 0.
Definition EXIT_FAILURE : Z := 1.

End CInt.
Export CInt.

(** ** sys/stat.h *)

Inductive file_type :=
| S_IFREG | S_IFDIR | S_IFLNK | S_IFIFO | S_IFSOCK | S_IFCHR | S_IFBLK.

Record stat := mkStat { st_mode : file_type; st_blocks : Z }.

Definition S_ISDIR (m : file_type) : bool :=
match m with S_IFDIR => true | _ => false end.

(** ** thread.h / thread.c *)

Record ThreadData := mkThreadData {
mutex : option nat;          (* pthread_mutex_t: the owner, if any *)
queue : list string;         (* queue_head .. queue_tail *)
total_size : Z;              (* off_t *)
pending : Z;                 (* int *)
done : bool;                 (* int used as a flag *)
error_occurred : bool        (* int used as a flag *)
}.

Definition set_mutex (m : option nat) (d : ThreadData) : ThreadData :=
mkThreadData m (queue d) (total_size d) (pending d) (done d) (error_occurred d).
Definition set_queue (q : list string) (d : ThreadData) : ThreadData :=
mkThreadData (mutex d) q (total_size d) (pending d) (done d) (error_occurred d).
Definition set_total_size (t : Z) (d : ThreadData) : ThreadData :=
mkThreadData (mutex d) (queue d) t (pending d) (done d) (error_occurred d).
Definition set_pending (p : Z) (d : ThreadData) : ThreadData :=
mkThreadData (mutex d) (queue d) (total_size d) p (done d) (error_occurred d).
Definition set_done (b : bool) (d : ThreadData) : ThreadData :=
mkThreadData (mutex d) (queue d) (total_size d) (pending d) b (error_occurred d).
Definition set_error_occurred (b : bool) (d : ThreadData) : ThreadData :=
mkThreadData (mutex d) (queue d) (total_size d) (pending d) (done d) b.

(** [thread_data_init]: everything zero, mutex and condition variable fresh. *)
Definition thread_data_init : ThreadData :=
mkThreadData None [] 0 0 false false.

(** [enqueue]: a new node at the tail. *)
Definition enqueue (d : ThreadData) (path : string) : ThreadData :=
set_queue (queue d ++ [path]) d.

(** [dequeue]: the head node, or NULL on an empty queue. *)
Definition dequeue (d : ThreadData) : option string * ThreadData :=
match queue d with
| [] => (None, d)
| path :: rest => (Some path, set_queue rest d)
end.

(** [pthread_mutex_lock] returns only once the mutex is free. *)
Definition pthread_mutex_lock (w : nat) (d : ThreadData) : option ThreadData :=
match mutex d with
| None => Some (set_mutex (Some w) d)
| Some _ => None
end.

Definition pthread_mutex_unlock (d : ThreadData) : ThreadData :=
set_mutex None d.

(** ** thread.c on the heap

    The queue as thread.c stores it: nodes of [struct DirNode] chained
    through [next], every path a character array of its own.  A
    pointer is an address or NULL ([None]).  A load or a store through
    an address that is not allocated, and [free] of such an address,
    is a fault: the function has no result. *)

Module Mem.

Definition loc := positive.

Inductive block :=
| Chars (s : string)                           (* char[]: a path *)
| DirNode (path : loc) (next : option loc)     (* struct DirNode *)
| Array (cells : list loc)                     (* char *[]: paths_to_enqueue *)
| DirStream.                                   (* DIR *)

Abbreviation heap := (gmap loc block).

(** [struct ThreadData]; of the mutex and the condition variable, only
    whether they are initialised. *)
Record ThreadData := mkThreadData {
  mutex : bool;
  cond : bool;
  queue_head : option loc;
  queue_tail : option loc;
  total_size : Z;
  pending : Z;
  done : Z;
  error_occurred : Z
}.

Definition set_mutex (b : bool) (d : ThreadData) : ThreadData :=
  mkThreadData b (cond d) (queue_head d) (queue_tail d)
    (total_size d) (pending d) (done d) (error_occurred d).
Definition set_cond (b : bool) (d : ThreadData) : ThreadData :=
  mkThreadData (mutex d) b (queue_head d) (queue_tail d)
    (total_size d) (pending d) (done d) (error_occurred d).
Definition set_queue_head (l : option loc) (d : ThreadData) : ThreadData :=
  mkThreadData (mutex d) (cond d) l (queue_tail d)
    (total_size d) (pending d) (done d) (error_occurred d).
Definition set_queue_tail (l : option loc) (d : ThreadData) : ThreadData :=
  mkThreadData (mutex d) (cond d) (queue_head d) l
    (total_size d) (pending d) (done d) (error_occurred d).

Definition set_total_size (t : Z) (d : ThreadData) : ThreadData :=
  mkThreadData (mutex d) (cond d) (queue_head d) (queue_tail d)
    t (pending d) (done d) (error_occurred d).
Definition set_pending (p : Z) (d : ThreadData) : ThreadData :=
  mkThreadData (mutex d) (cond d) (queue_head d) (queue_tail d)
    (total_size d) p (done d) (error_occurred d).
Definition set_done (b : Z) (d : ThreadData) : ThreadData :=
  mkThreadData (mutex d) (cond d) (queue_head d) (queue_tail d)
    (total_size d) (pending d) b (error_occurred d).
Definition set_error_occurred (b : Z) (d : ThreadData) : ThreadData :=
  mkThreadData (mutex d) (cond d) (queue_head d) (queue_tail d)
    (total_size d) (pending d) (done d) b.

Definition free (l : loc) (h : heap) : option heap :=
  match h !! l with
  | Some _ => Some (delete l h)
  | None => None
  end.

(** [thread_data_init], lines 7-27, given what [pthread_mutex_init]
    and [pthread_cond_init] return.  The argument of the C function is
    overwritten by [memset] before it is read. *)
Definition thread_data_init (mutex_ret cond_ret : Z) : Z * ThreadData :=
  let data := mkThreadData false false None None 0 0 0 0 in
  if negb (mutex_ret =? 0) then (-1, data)
  else
    let data := set_mutex true data in
    if negb (cond_ret =? 0) then (-1, set_mutex false data)
    else (0, set_cond true data).

(** [enqueue], lines 47-62, given what [malloc] returns. *)
Definition enqueue (new_node : option loc) (h : heap) (data : ThreadData)
    (path : loc) : option (Z * heap * ThreadData) :=
  match new_node with
  | None => Some (-1, h, data)
  | Some n =>
      let h := <[n := DirNode path None]> h in
      match queue_tail data with
      | Some t =>
          match h !! t with
          | Some (DirNode p _) =>
              Some (0, <[t := DirNode p (Some n)]> h,
                    set_queue_tail (Some n) data)
          | _ => None
          end
      | None =>
          Some (0, h, set_queue_tail (Some n) (set_queue_head (Some n) data))
      end
  end.

(** [dequeue], lines 64-76. *)
Definition dequeue (h : heap) (data : ThreadData)
  : option (option loc * heap * ThreadData) :=
  match queue_head data with
  | None => Some (None, h, data)
  | Some node =>
      match h !! node with
      | Some (DirNode path next) =>
          let data := set_queue_head next data in
          let data :=
            match queue_head data with
            | None => set_queue_tail None data
            | Some _ => data
            end in
          h' ← free node h;
          Some (Some path, h', data)
      | _ => None
      end
  end.

(** The loop of [thread_data_destroy], lines 39-44.  Every turn frees
    two blocks, so it cannot take more turns than the heap has blocks. *)
Fixpoint destroy_loop (fuel : nat) (h : heap) (data : ThreadData)
  : option (heap * ThreadData) :=
  match queue_head data with
  | None => Some (h, data)
  | Some tmp =>
      match fuel with
      | O => None
      | S fuel' =>
          match h !! tmp with
          | Some (DirNode path next) =>
              let data := set_queue_head next data in
              h ← free path h;
              h ← free tmp h;
              destroy_loop fuel' h data
          | _ => None
          end
      end
  end.

(** [thread_data_destroy], lines 29-45; the two [destroy] calls on an
    initialised mutex and condition variable that nobody uses. *)
Definition thread_data_destroy (h : heap) (data : ThreadData)
  : option (heap * ThreadData) :=
  let data := set_mutex false data in
  let data := set_cond false data in
  destroy_loop (size h) h data.

(** worker.c, lines 207-214: every collected path is queued; the
    worker calls [exit] when [enqueue] fails.  [mallocs] is what the
    calls of [malloc] return, one after the other. *)
Fixpoint enqueue_paths (mallocs : list (option loc)) (h : heap)
    (data : ThreadData) (paths_to_enqueue : list loc)
  : option (Z + heap * ThreadData) :=
  match paths_to_enqueue, mallocs with
  | [], _ => Some (inr (h, data))
  | _ :: _, [] => None
  | path :: paths', new_node :: mallocs' =>
      r ← enqueue new_node h data path;
      let '(ret, h, data) := r in
      if negb (ret =? 0) then Some (inl EXIT_FAILURE)
      else enqueue_paths mallocs' h data paths'
  end.

(** The same loop with [malloc] as a function of the heap, every call
    successful. *)
Fixpoint enqueue_all (malloc : heap → loc) (h : heap) (data : ThreadData)
    (paths_to_enqueue : list loc) : option (heap * ThreadData) :=
  match paths_to_enqueue with
  | [] => Some (h, data)
  | path :: paths' =>
      r ← enqueue (Some (malloc h)) h data path;
      let '(_, h, data) := r in
      enqueue_all malloc h data paths'
  end.

(** The string behind a [char *]. *)
Definition load_chars (h : heap) (l : loc) : option string :=
  match h !! l with
  | Some (Chars s) => Some s
  | _ => None
  end.

(** The cells of [paths_to_enqueue], which is NULL as long as nothing
    has been stored. *)
Definition load_array (h : heap) (arr : option loc) : option (list loc) :=
  match arr with
  | None => Some []
  | Some a =>
      match h !! a with
      | Some (Array cells) => Some cells
      | _ => None
      end
  end.

(** The calls of [construct_path] of one readdir loop: a fresh
    character array for each path. *)
Fixpoint alloc_paths (malloc : heap → loc) (h : heap) (paths : list string)
  : heap * list loc :=
  match paths with
  | [] => (h, [])
  | s :: paths' =>
      let l := malloc h in
      let '(h', ls) := alloc_paths malloc (<[l := Chars s]> h) paths' in
      (h', l :: ls)
  end.

(** [k] calls of [dequeue] in a row, and the pointers they return. *)
Fixpoint dequeue_paths (k : nat) (h : heap) (data : ThreadData)
  : option (list (option loc) * heap * ThreadData) :=
  match k with
  | O => Some ([], h, data)
  | S k' =>
      r ← dequeue h data;
      let '(path, h, data) := r in
      r' ← dequeue_paths k' h data;
      let '(paths, h, data) := r' in
      Some (path :: paths, h, data)
  end.

(** The chain of nodes from [head] to NULL: the address of each node
    and the pointer it carries. *)
Fixpoint segment (h : heap) (head : option loc) (nodes : list (loc * loc))
  : Prop :=
  match nodes with
  | [] => head = None
  | (l, p) :: rest =>
      head = Some l ∧
      ∃ next, h !! l = Some (DirNode p next) ∧ segment h next rest
  end.

(** The heap holds the queue of the paths [paths]: a chain from
    [queue_head] to NULL whose last node is [queue_tail], nodes and
    character arrays all different blocks. *)
Record queue_rep (h : heap) (data : ThreadData)
    (nodes : list (loc * loc)) (paths : list string) : Prop := mkQueueRep {
  rep_segment : segment h (queue_head data) nodes;
  rep_tail : queue_tail data = last (nodes.*1);
  rep_nodup : NoDup (nodes.*1 ++ nodes.*2);
  rep_paths : Forall2 (λ np s, h !! np.2 = Some (Chars s)) nodes paths
}.

End Mem.

(** The shared data of the pool, as the list model has it, stored on
    the heap. *)
Definition models (h : Mem.heap) (d : Mem.ThreadData)
    (nodes : list (Mem.loc * Mem.loc)) (D : ThreadData) : Prop :=
  Mem.queue_rep h d nodes (queue D) ∧
  Mem.total_size d = total_size D ∧
  Mem.pending d = pending D ∧
  (Mem.done d ≠ 0 ↔ done D = true) ∧
  (Mem.error_occurred d ≠ 0 ↔ error_occurred D = true).


(** The fields of [struct ThreadData] the queue functions leave alone. *)
Definition scalars (d : Mem.ThreadData)
  : bool * bool * Z * Z * Z * Z :=
  (Mem.mutex d, Mem.cond d, Mem.total_size d, Mem.pending d, Mem.done d,
   Mem.error_occurred d).


(** ** worker.c *)

(** [construct_path]: snprintf of "%s/%s" into a buffer of exactly the
  right size. *)
Definition construct_path (dir_path entry_name : string) : string :=
dir_path +:+ "/" +:+ entry_name.

(** The test of the readdir loop on [d_name]. *)
Definition is_dot (name : string) : bool :=
String.eqb name "." || String.eqb name "..".

(** What the readdir loop of [handle_directory] collects in
  [paths_to_enqueue], in the order of the directory stream. *)
Definition children (path : string) (names : list string) : list string :=
map (construct_path path) (filter (λ n, is_dot n = false) names).

(** ** worker.c and mdu.c with their buffers

    The same functions with the sizes they compute and the arrays they
    grow.  [size_t] is 64 bits; a [char *] is represented by the
    string it points to; an allocation succeeds or returns NULL as an
    oracle says.  A store outside an array, and the use of a buffer
    that was never written, is a fault: the function has no result. *)

Module Buf.

Definition SIZE_MAX : Z := 18446744073709551615.
Definition wrap_size (z : Z) : Z := z mod 2 ^ 64.

(** The size of a pointer to [char]. *)
Definition sizeof_ptr : Z := 8.

Definition strlen (s : string) : Z := Z.of_nat (String.length s).

(** [snprintf(buf, size, "%s/%s", a, b)]: the first [size - 1]
    characters of the text and a terminating NUL; with [size] 0
    nothing is written. *)
Definition snprintf (size : Z) (a b : string) : option string :=
  if size =? 0 then None
  else Some (String.substring 0 (Z.to_nat (size - 1)) (a +:+ "/" +:+ b)).

(** [construct_path], lines 244-256: NULL ([None]) when [malloc]
    fails, otherwise the buffer, holding what [snprintf] wrote. *)
Definition construct_path (malloc_ok : bool) (dir_path entry_name : string)
  : option (option string) :=
  let path_len := strlen dir_path in
  let name_len := strlen entry_name in
  let new_path_len :=
    wrap_size (wrap_size (wrap_size (path_len + 1) + name_len) + 1) in
  if malloc_ok then Some (snprintf new_path_len dir_path entry_name)
  else None.

(** An array of [char *]; a cell is [None] until it is written. *)
Abbreviation cells := (list (option string)).

(** [realloc(p, size)] when it succeeds: as many cells as [size]
    bytes hold, the old ones as far as they fit. *)
Definition realloc (p : cells) (size : Z) : cells :=
  let n := Z.to_nat (size / sizeof_ptr) in
  take n p ++ replicate (n - length p) None.

(** [p[i] = x] *)
Definition store (p : cells) (i : Z) (x : string) : option cells :=
  if (0 <=? i) && (i <? Z.of_nat (length p))
  then Some (<[Z.to_nat i := Some x]> p)
  else None.

(** The local variables of [handle_directory], lines 162-165. *)
Record collected := mkCollected {
  pending_increment : Z;         (* int *)
  paths_capacity : Z;            (* size_t *)
  paths_count : Z;               (* size_t *)
  paths_to_enqueue : cells
}.

(** The readdir loop of [handle_directory], lines 167-200, over the
    names the directory stream yields.  [alloc_ok k] tells whether the
    allocation call number [k] of the loop succeeds, [calls] counts
    the calls made so far; [inl code] is [exit(code)]. *)
Fixpoint readdir_loop (alloc_ok : nat → bool) (calls : nat) (path : string)
    (entries : list string) (c : collected) : option (Z + collected) :=
  match entries with
  | [] => Some (inr c)
  | d_name :: entries' =>
      if is_dot d_name then readdir_loop alloc_ok calls path entries' c
      else
        match construct_path (alloc_ok calls) path d_name with
        | None => Some (inl EXIT_FAILURE)
        | Some None => None
        | Some (Some new_path) =>
            let calls := S calls in
            if paths_count c =? paths_capacity c then
              let capacity :=
                if paths_capacity c =? 0 then 16
                else wrap_size (paths_capacity c * 2) in
              if alloc_ok calls then
                let tmp :=
                  realloc (paths_to_enqueue c)
                    (wrap_size (capacity * sizeof_ptr)) in
                p ← store tmp (paths_count c) new_path;
                readdir_loop alloc_ok (S calls) path entries'
                  (mkCollected (wrap_int (pending_increment c + 1))
                     capacity (wrap_size (paths_count c + 1)) p)
              else Some (inl EXIT_FAILURE)
            else
              p ← store (paths_to_enqueue c) (paths_count c) new_path;
              readdir_loop alloc_ok calls path entries'
                (mkCollected (wrap_int (pending_increment c + 1))
                   (paths_capacity c) (wrap_size (paths_count c + 1)) p)
        end
  end.

(** The local variables of [parse_paths], lines 127-129. *)
Record parsed := mkParsed {
  paths_size : Z;                (* int *)
  num_paths : Z;                 (* int, [paths_count] in the function *)
  paths : cells
}.

(** The loop of [parse_paths], lines 131-149, over [argv[optind]] ..
    [argv[argc - 1]].  [inl code] is the return of NULL with
    [*exit_code = code]. *)
Fixpoint parse_loop (alloc_ok : nat → bool) (calls : nat)
    (operands : list string) (c : parsed) : option (Z + parsed) :=
  match operands with
  | [] => Some (inr c)
  | arg :: operands' =>
      if num_paths c =? paths_size c then
        let size :=
          if paths_size c =? 0 then 10 else wrap_int (paths_size c * 2) in
        if alloc_ok calls then
          let tmp := realloc (paths c) (wrap_size (size * sizeof_ptr)) in
          p ← store tmp (num_paths c) arg;
          parse_loop alloc_ok (S calls) operands'
            (mkParsed size (wrap_int (num_paths c + 1)) p)
        else Some (inl EXIT_FAILURE)
      else
        p ← store (paths c) (num_paths c) arg;
        parse_loop alloc_ok calls operands'
          (mkParsed (paths_size c) (wrap_int (num_paths c + 1)) p)
  end.

(** [parse_paths], lines 126-164. *)
Definition parse_paths (alloc_ok : nat → bool) (operands : list string)
  : option (Z + parsed) :=
  r ← parse_loop alloc_ok 0 operands (mkParsed 0 0 []);
  match r with
  | inl code => Some (inl code)
  | inr c =>
      if num_paths c =? 0 then
        if alloc_ok 0%nat then
          let p := realloc [] (wrap_size sizeof_ptr) in
          p ← store p 0 ".";
          Some (inr (mkParsed (paths_size c) 1 p))
        else Some (inl EXIT_FAILURE)
      else Some (inr c)
  end.

End Buf.

(** Program points of a worker.  The comments give the line of worker.c
  the worker is about to execute. *)
Inductive pc :=
| WT_lock                              (* 43: pthread_mutex_lock *)
| WT_loop                              (* 49, 57: the two tests, mutex held *)
| WT_wait                              (* 50: parked inside pthread_cond_wait *)
| WT_woken                             (* 50: signalled, re-acquiring the mutex *)
| WT_unlock_exit                       (* 58: unlock, then pthread_exit *)
| WT_dequeue                           (* 66: path = dequeue(data) *)
| WT_unlock (path : option string)     (* 67: unlock *)
| PP_lstat (path : string)             (* 96: lstat *)
| HF_lock (path : string) (st : stat)  (* 121: handle_file, lock *)
| HF_add (path : string) (st : stat)   (* 126: total_size += size *)
| HF_unlock (path : string) (st : stat)(* 127: unlock; 102: S_ISDIR *)
| HD_opendir (path : string)           (* 144: opendir; 167-200: readdir loop *)
| HD_err_lock                          (* 147: lock *)
| HD_err_set                           (* 152: error_occurred = 1 *)
| HD_err_unlock                        (* 153: unlock *)
| HD_lock (paths : list string)        (* 202: lock *)
| HD_enqueue (paths : list string)     (* 207-214: enqueue every child *)
| HD_pending (paths : list string)     (* 215: pending += pending_increment *)
| HD_broadcast                         (* 216: pthread_cond_broadcast *)
| HD_unlock                            (* 221: unlock *)
| UES_lock (err : bool)                (* 267: update_error_status, lock *)
| UES_dec (err : bool)                 (* 273: pending-- *)
| UES_err (err : bool)                 (* 275: if (error_in_this_call) *)
| UES_check                            (* 279-280: the test and done = 1 *)
| UES_broadcast                        (* 281: pthread_cond_broadcast *)
| UES_unlock                           (* 288: unlock *)
| WT_exit.                             (* after pthread_exit *)

(** The pool: the shared data and one program counter per thread. *)
Record state := mkState { data : ThreadData; pcs : list pc }.

(** [pthread_cond_broadcast]: every parked worker is signalled. *)
Definition wake (p : pc) : pc :=
match p with WT_wait => WT_woken | _ => p end.
Definition pthread_cond_broadcast (ps : list pc) : list pc := map wake ps.

(** The program counters after a step of worker [w] to [p'], with or
    without a broadcast. *)
Definition pcs_after (w : nat) (p' : pc) (bc : bool) (ps : list pc) : list pc :=
  <[w := p']> (if bc then pthread_cond_broadcast ps else ps).

(** The scheduler runs a worker for one step, or wakes a parked worker
  up for no reason, which POSIX allows. *)
Inductive choice := Run (w : nat) | Spurious (w : nat).

(** ** mdu.c: what goes in and what comes out *)

(** What one call of [getopt(argc, argv, "j:")] returns before it
  returns -1: option j with its argument, or anything else. *)
Inductive getopt_result := Opt_j (optarg : string) | Opt_other.

(** The exit status and the lines printed on standard output, each a
  block count and a path. *)
Record outcome := mkOutcome {
exit_code : Z;
stdout : list (Z * string)
}.

(** ** The pool on the heap

    The same workers with the pointers they hold.  A worker owns the
    character array of the task it has taken until it frees it at
    line 75; in [handle_directory] it owns the directory stream, the
    array [paths_to_enqueue] and the character arrays of the children
    until they are queued.  [malloc] is a function of the heap; the
    runs covered are those in which every allocation succeeds. *)

(** Program points with the local pointers; the comments give the
    line of worker.c the worker is about to execute. *)
Inductive mpc :=
| M_lock                                         (* 43 *)
| M_loop                                         (* 49, 57 *)
| M_wait                                         (* 50, parked *)
| M_woken                                        (* 50, signalled *)
| M_unlock_exit                                  (* 58 *)
| M_dequeue                                      (* 66 *)
| M_unlock (path : option Mem.loc)               (* 67 *)
| M_lstat (path : Mem.loc)                       (* 96 *)
| M_hf_lock (path : Mem.loc) (st : stat)         (* 121 *)
| M_hf_add (path : Mem.loc) (st : stat)          (* 126 *)
| M_hf_unlock (path : Mem.loc) (st : stat)       (* 127; 102 *)
| M_opendir (path : Mem.loc)                     (* 144; 167-200 *)
| M_err_lock (path : Mem.loc)                    (* 147 *)
| M_err_set (path : Mem.loc)                     (* 152 *)
| M_err_unlock (path : Mem.loc)                  (* 153 *)
| M_hd_lock (path dir : Mem.loc) (arr : option Mem.loc) (n : nat)     (* 202 *)
| M_hd_enqueue (path dir : Mem.loc) (arr : option Mem.loc) (n : nat)  (* 207-214 *)
| M_hd_pending (path dir : Mem.loc) (arr : option Mem.loc) (n : nat)  (* 215 *)
| M_hd_broadcast (path dir : Mem.loc) (arr : option Mem.loc)          (* 216 *)
| M_hd_unlock (path dir : Mem.loc) (arr : option Mem.loc)             (* 221 *)
| M_hd_cleanup (path dir : Mem.loc) (arr : option Mem.loc)            (* 227-231 *)
| M_ues_lock (path : Mem.loc) (err : bool)       (* 267 *)
| M_ues_dec (path : Mem.loc) (err : bool)        (* 273 *)
| M_ues_err (path : Mem.loc) (err : bool)        (* 275 *)
| M_ues_check (path : Mem.loc)                   (* 279-280 *)
| M_ues_broadcast (path : Mem.loc)               (* 281 *)
| M_ues_unlock (path : Mem.loc)                  (* 288 *)
| M_free (path : Mem.loc)                        (* 75 *)
| M_exit.                                        (* after pthread_exit *)

(** What the workers share: the heap, the context, and the owner of
    the mutex. *)
Record shared := mkShared {
  sh_heap : Mem.heap;
  sh_data : Mem.ThreadData;
  sh_owner : option nat
}.

Record mstate := mkMState { mshared : shared; mpcs : list mpc }.

(** A statement is executed, or has to wait, or goes wrong. *)
Inductive step_result (A : Type) :=
| Ok (a : A)
| Blocked
| Fault.
Global Arguments Ok {A} a.
Global Arguments Blocked {A}.
Global Arguments Fault {A}.

Definition mlock (w : nat) (sh : shared) (next : mpc)
  : step_result (shared * mpc * bool) :=
  match sh_owner sh with
  | None => Ok (mkShared (sh_heap sh) (sh_data sh) (Some w), next, false)
  | Some _ => Blocked
  end.

Definition munlock (sh : shared) : shared :=
  mkShared (sh_heap sh) (sh_data sh) None.

Definition with_data (d : Mem.ThreadData) (sh : shared) : shared :=
  mkShared (sh_heap sh) d (sh_owner sh).

Definition is_null (l : option Mem.loc) : bool :=
  match l with None => true | Some _ => false end.

Definition mwake (p : mpc) : mpc :=
  match p with M_wait => M_woken | _ => p end.

Definition mpcs_after (w : nat) (p' : mpc) (bc : bool) (ps : list mpc)
  : list mpc :=
  <[w := p']> (if bc then map mwake ps else ps).

Definition mspurious (w : nat) (s : mstate) : step_result mstate :=
  match mpcs s !! w with
  | Some M_wait => Ok (mkMState (mshared s) (<[w := M_woken]> (mpcs s)))
  | _ => Blocked
  end.

(** mdu.c, lines 58-85, on the heap [h0]: the context is initialised,
    [pending] set to 1, the top-level path duplicated by [strdup] and
    queued, and [num_threads] workers are about to start. *)
Definition minit (malloc : Mem.heap → Mem.loc) (num_threads : nat)
    (h0 : Mem.heap) (path : string) : option mstate :=
  let data := (Mem.thread_data_init 0 0).2 in
  let data := Mem.set_pending 1 data in
  let dup := malloc h0 in
  let h := <[dup := Mem.Chars path]> h0 in
  r ← Mem.enqueue (Some (malloc h)) h data dup;
  let '(_, h, data) := r in
  Some (mkMState (mkShared h data None) (replicate num_threads M_lock)).

Definition is_mexit (p : mpc) : bool :=
  match p with M_exit => true | _ => false end.
Definition all_mexited (s : mstate) : bool := forallb is_mexit (mpcs s).

(** ** mdu.c on the heap *)

(** What the calls that can fail return during one turn of the loop
    of [main], lines 53-85. *)
Record setup_oracle := mkOracle {
  data_ok : bool;           (* malloc, line 54 *)
  mutex_ret : Z;            (* pthread_mutex_init *)
  cond_ret : Z;             (* pthread_cond_init *)
  strdup_ok : bool;         (* strdup, line 65 *)
  node_ok : bool;           (* malloc of enqueue, line 73 *)
  threads_ok : bool;        (* malloc of start_worker_threads *)
  create_ret : nat → Z      (* pthread_create for worker t *)
}.

(** The loop of [start_worker_threads], lines 186-193, from worker [t]
    on: what the function returns and how many workers run. *)
Fixpoint create_loop (create_ret : nat → Z) (remaining t : nat) : Z * nat :=
  match remaining with
  | O => (0, t)
  | S remaining' =>
      if negb (create_ret t =? 0) then (-1, t)
      else create_loop create_ret remaining' (S t)
  end.

(** [start_worker_threads], lines 179-196: the value returned and
    the number of workers created. *)
Definition start_worker_threads (threads_ok : bool) (create_ret : nat → Z)
    (num_threads : nat) : Z * nat :=
  if negb threads_ok then (-1, 0%nat)
  else create_loop create_ret num_threads 0.

(** How the lines 53-85 end: the workers run on a heap with the
    queue; or [main] has called [exit] with no worker created; or it
    has called [exit], after [thread_data_destroy] and [free(data)],
    with [created] workers running. *)
Inductive setup_result :=
| Started (h : Mem.heap) (data : Mem.ThreadData)
| Exited (code : Z) (h : Mem.heap)
| Exited_running (code : Z) (created : nat).

(** mdu.c, lines 53-85, for one top-level path.  The block of
    [struct ThreadData] and the array of thread handles are not part
    of the heap. *)
Definition main_setup (malloc : Mem.heap → Mem.loc) (o : setup_oracle)
    (num_threads : nat) (h0 : Mem.heap) (path : string)
  : option setup_result :=
  if negb (data_ok o) then Some (Exited EXIT_FAILURE h0)
  else
    let '(ret, data) := Mem.thread_data_init (mutex_ret o) (cond_ret o) in
    if negb (ret =? 0) then Some (Exited EXIT_FAILURE h0)
    else
      let data := Mem.set_pending 1 data in
      if negb (strdup_ok o) then
        r ← Mem.thread_data_destroy h0 data;
        Some (Exited EXIT_FAILURE r.1)
      else
        let dup := malloc h0 in
        let h := <[dup := Mem.Chars path]> h0 in
        r ← Mem.enqueue (if node_ok o then Some (malloc h) else None)
              h data dup;
        let '(ret, h, data) := r in
        if negb (ret =? 0) then
          h ← Mem.free dup h;
          r ← Mem.thread_data_destroy h data;
          Some (Exited EXIT_FAILURE r.1)
        else
          let '(ret, created) :=
            start_worker_threads (threads_ok o) (create_ret o) num_threads in
          if negb (ret =? 0) then
            match created with
            | O =>
                r ← Mem.thread_data_destroy h data;
                Some (Exited EXIT_FAILURE r.1)
            | S _ => Some (Exited_running EXIT_FAILURE created)
            end
          else Some (Started h data).

(** How one turn of the loop of [main] ends: with a call of [exit],
    or with a line printed, the exit code so far, and the heap after
    [thread_data_destroy]. *)
Inductive turn :=
| Turn_exit (code : Z) (h : Mem.heap)
| Turn_exit_running (code : Z) (created : nat)
| Turn_done (exit_code : Z) (line : Z * string) (h : Mem.heap).

(** Nothing fails. *)
Definition setup_ok (o : setup_oracle) (num_threads : nat) : Prop :=
  data_ok o = true ∧ mutex_ret o = 0 ∧ cond_ret o = 0 ∧
  strdup_ok o = true ∧ node_ok o = true ∧ threads_ok o = true ∧
  ∀ t, (t < num_threads)%nat → create_ret o t = 0.

(** The strings behind the cells of an array. *)
Definition load_all (h : Mem.heap) (cells : list Mem.loc)
  : option (list string) :=
  mapM (Mem.load_chars h) cells.

(** What [handle_directory] holds after the readdir loop: the path it
    was called with, an open directory stream, and the array with its
    cells. *)
Definition load_dir (h : Mem.heap) (l dir : Mem.loc) (arr : option Mem.loc)
    (n : nat) : option (list Mem.loc) :=
  _ ← Mem.load_chars h l;
  match h !! dir with
  | Some Mem.DirStream =>
      cells ← Mem.load_array h arr;
      if bool_decide (length cells = n) then Some cells else None
  | _ => None
  end.

Definition load_dir_done (h : Mem.heap) (l dir : Mem.loc)
    (arr : option Mem.loc) : option unit :=
  _ ← Mem.load_chars h l;
  match h !! dir with
  | Some Mem.DirStream => _ ← Mem.load_array h arr; Some ()
  | _ => None
  end.

(** The program point of the list model a worker on the heap stands
    for: the pointers it holds replaced by what they point to.  The
    two statements that only free memory have no counterpart and
    stand for the statement that follows them. *)
Definition erase (h : Mem.heap) (p : mpc) : option pc :=
  match p with
  | M_lock => Some WT_lock
  | M_loop => Some WT_loop
  | M_wait => Some WT_wait
  | M_woken => Some WT_woken
  | M_unlock_exit => Some WT_unlock_exit
  | M_dequeue => Some WT_dequeue
  | M_unlock None => Some (WT_unlock None)
  | M_unlock (Some l) => s ← Mem.load_chars h l; Some (WT_unlock (Some s))
  | M_lstat l => s ← Mem.load_chars h l; Some (PP_lstat s)
  | M_hf_lock l st => s ← Mem.load_chars h l; Some (HF_lock s st)
  | M_hf_add l st => s ← Mem.load_chars h l; Some (HF_add s st)
  | M_hf_unlock l st => s ← Mem.load_chars h l; Some (HF_unlock s st)
  | M_opendir l => s ← Mem.load_chars h l; Some (HD_opendir s)
  | M_err_lock l => _ ← Mem.load_chars h l; Some HD_err_lock
  | M_err_set l => _ ← Mem.load_chars h l; Some HD_err_set
  | M_err_unlock l => _ ← Mem.load_chars h l; Some HD_err_unlock
  | M_hd_lock l dir arr n =>
      cells ← load_dir h l dir arr n;
      paths ← load_all h cells;
      Some (HD_lock paths)
  | M_hd_enqueue l dir arr n =>
      cells ← load_dir h l dir arr n;
      paths ← load_all h cells;
      Some (HD_enqueue paths)
  | M_hd_pending l dir arr n =>
      cells ← load_dir h l dir arr n;
      paths ← load_all h cells;
      Some (HD_pending paths)
  | M_hd_broadcast l dir arr => _ ← load_dir_done h l dir arr; Some HD_broadcast
  | M_hd_unlock l dir arr => _ ← load_dir_done h l dir arr; Some HD_unlock
  | M_hd_cleanup l dir arr =>
      _ ← load_dir_done h l dir arr; Some (UES_lock false)
  | M_ues_lock l err => _ ← Mem.load_chars h l; Some (UES_lock err)
  | M_ues_dec l err => _ ← Mem.load_chars h l; Some (UES_dec err)
  | M_ues_err l err => _ ← Mem.load_chars h l; Some (UES_err err)
  | M_ues_check l => _ ← Mem.load_chars h l; Some UES_check
  | M_ues_broadcast l => _ ← Mem.load_chars h l; Some UES_broadcast
  | M_ues_unlock l => _ ← Mem.load_chars h l; Some UES_unlock
  | M_free l => _ ← Mem.load_chars h l; Some WT_lock
  | M_exit => Some WT_exit
  end.

Definition opt_list (l : option Mem.loc) : list Mem.loc :=
  match l with Some a => [a] | None => [] end.

(** The blocks a worker owns: nobody else reads, writes or frees them. *)
Definition owned (h : Mem.heap) (p : mpc) : list Mem.loc :=
  match p with
  | M_unlock (Some l) | M_lstat l
  | M_hf_lock l _ | M_hf_add l _ | M_hf_unlock l _
  | M_opendir l | M_err_lock l | M_err_set l | M_err_unlock l
  | M_ues_lock l _ | M_ues_dec l _ | M_ues_err l _ | M_ues_check l
  | M_ues_broadcast l | M_ues_unlock l | M_free l => [l]
  | M_hd_lock l dir arr _ | M_hd_enqueue l dir arr _ =>
      l :: dir :: opt_list arr ++ default [] (Mem.load_array h arr)
  | M_hd_pending l dir arr _ | M_hd_broadcast l dir arr
  | M_hd_unlock l dir arr | M_hd_cleanup l dir arr =>
      l :: dir :: opt_list arr
  | _ => []
  end.

(** Every block of the pool: the nodes of the queue, the character
    arrays they carry, and what the workers own. *)
Definition pool_blocks (h : Mem.heap) (nodes : list (Mem.loc * Mem.loc))
    (ps : list mpc) : list Mem.loc :=
  nodes.*1 ++ nodes.*2 ++ concat (owned h <$> ps).

(** The blocks the program point of a worker depends on: what the
    worker owns and, between line 214 and line 215, the character
    arrays it has just queued. *)
Definition footprint (h : Mem.heap) (p : mpc) : list Mem.loc :=
  match p with
  | M_hd_pending l dir arr _ =>
      l :: dir :: opt_list arr ++ default [] (Mem.load_array h arr)
  | _ => owned h p
  end.

(** The heap [h'] after a step of worker [w] has the blocks of the
    other workers as they were. *)
Definition untouched (ms : mstate) (w : nat) (h' : Mem.heap) : Prop :=
  ∀ v q l,
    v ≠ w → mpcs ms !! v = Some q →
    l ∈ owned (sh_heap (mshared ms)) q →
    h' !! l = sh_heap (mshared ms) !! l.

(** The blocks [B] are what the heap [h] holds beyond the heap [h0]:
    they are all different, allocated in [h] and free in [h0], and
    the rest of [h] is as in [h0]. *)
Definition heap_inv (h0 h : Mem.heap) (B : list Mem.loc) : Prop :=
  NoDup B ∧
  (∀ l, l ∈ B → is_Some (h !! l) ∧ h0 !! l = None) ∧
  (∀ l, l ∉ B → h !! l = h0 !! l).

(** The pool on the heap [h], started on the heap [h0], stands for
    the state [s] of the list model: worker by worker, field by
    field, with the queue stored in the heap; the blocks of the pool
    are what the heap holds beyond [h0]; and the character arrays a
    worker has queued and not yet counted are in the queue. *)
Definition sim (h0 : Mem.heap) (ms : mstate) (s : state) : Prop :=
  let h := sh_heap (mshared ms) in
  Forall2 (λ mp p, erase h mp = Some p) (mpcs ms) (pcs s) ∧
  sh_owner (mshared ms) = mutex (data s) ∧
  ∃ nodes,
    models h (sh_data (mshared ms)) nodes (data s) ∧
    heap_inv h0 h (pool_blocks h nodes (mpcs ms)) ∧
    (∀ w l dir arr n c,
       mpcs ms !! w = Some (M_hd_pending l dir arr n) →
       c ∈ default [] (Mem.load_array h arr) → c ∈ nodes.*2).

(** An upper bound on the statements that only free memory which a
    worker executes before it takes its next task. *)
Definition frees_ahead (p : mpc) : Z :=
  match p with
  | M_unlock (Some _) | M_lstat _
  | M_hf_lock _ _ | M_hf_add _ _ | M_hf_unlock _ _
  | M_opendir _ | M_err_lock _ | M_err_set _ | M_err_unlock _
  | M_hd_lock _ _ _ _ | M_hd_enqueue _ _ _ _ | M_hd_pending _ _ _ _
  | M_hd_broadcast _ _ _ | M_hd_unlock _ _ _ | M_hd_cleanup _ _ _ => 2
  | M_ues_lock _ _ | M_ues_dec _ _ | M_ues_err _ _ | M_ues_check _
  | M_ues_broadcast _ | M_ues_unlock _ | M_free _ => 1
  | _ => 0
  end.

Fixpoint mranks (ps : list mpc) : Z :=
  match ps with
  | [] => 0
  | p :: ps' => frees_ahead p + mranks ps'
  end.

(** The statements that only free memory: lines 227-231 and line 75. *)
Definition only_frees (p : mpc) : bool :=
  match p with
  | M_hd_cleanup _ _ _ | M_free _ => true
  | _ => false
  end.

(** The statements that allocate or free memory, or follow the chain of
    nodes. *)
Definition changes_heap (p : mpc) : bool :=
  match p with
  | M_dequeue | M_opendir _ | M_hd_enqueue _ _ _ _ | M_hd_cleanup _ _ _
  | M_free _ => true
  | _ => false
  end.

(** ** A file system to run the model on *)

Module Example.

(** The tree [root/{a.txt, b/{c.txt}}] of regular files and
    directories; [vault], a directory that cannot be opened; [link],
    a symbolic link.  Every other path does not exist. *)
Definition lstat (path : string) : option stat :=
  if String.eqb path "root" then Some (mkStat S_IFDIR 8)
  else if String.eqb path "root/a.txt" then Some (mkStat S_IFREG 8)
  else if String.eqb path "root/b" then Some (mkStat S_IFDIR 8)
  else if String.eqb path "root/b/c.txt" then Some (mkStat S_IFREG 16)
  else if String.eqb path "vault" then Some (mkStat S_IFDIR 8)
  else if String.eqb path "link" then Some (mkStat S_IFLNK 8)
  else None.

Definition opendir (path : string) : option (list string) :=
  if String.eqb path "root" then Some ["."; ".."; "a.txt"; "b"]
  else if String.eqb path "root/b" then Some ["."; ".."; "c.txt"]
  else None.

(** [atoi] of the C library, which is [(int) strtol (s, NULL, 10)]:
    white space as [isspace] has it in the C locale (the blank and the
    codes 9 to 13), one optional sign, the decimal digits; a value out
    of the range of [long] becomes [LONG_MIN] or [LONG_MAX], and the
    conversion to [int] keeps the low 32 bits. *)
Definition code (c : Ascii.ascii) : Z := Z.of_nat (Ascii.nat_of_ascii c).

Definition LONG_MAX : Z := 9223372036854775807.
Definition LONG_MIN : Z := -9223372036854775808.

Definition isspace (c : Ascii.ascii) : bool :=
  (code c =? 32) || ((9 <=? code c) && (code c <=? 13)).

Definition is_digit (c : Ascii.ascii) : bool :=
  (48 <=? code c) && (code c <=? 57).

Fixpoint digits (s : string) (acc : Z) : Z :=
  match s with
  | EmptyString => acc
  | String c s' =>
      if is_digit c
      then digits s' (10 * acc + (code c - 48))
      else acc
  end.

Fixpoint numeral (s : string) : Z :=
  match s with
  | EmptyString => 0
  | String c s' =>
      if isspace c then numeral s'
      else if code c =? 45 then - digits s' 0  (* minus *)
      else if code c =? 43 then digits s' 0    (* plus *)
      else digits s 0
  end.

Definition strtol (s : string) : Z :=
  Z.max LONG_MIN (Z.min LONG_MAX (numeral s)).

Definition atoi (s : string) : Z := wrap_int (strtol s).

(** Two workers on [root]; they take turns whenever both can move. *)
Definition sched_root : list choice :=
  map Run
    [0; 0; 0; 0; 1; 0; 1; 0; 0; 0; 0; 0; 0; 0; 0; 0; 1; 1; 1; 1; 0; 1; 0; 0;
     0; 0; 1; 1; 1; 0; 0; 0; 0; 1; 0; 1; 1; 1; 1; 0; 0; 0; 1; 0; 1; 0; 0; 0;
     0; 0; 1; 1; 1; 1; 0; 1; 0; 0; 0; 0; 1; 1; 1; 0; 0; 1; 1; 1; 1; 1; 1; 0;
     0; 0; 1; 1; 1]%nat.

(** One worker on [root]. *)
Definition sched_root_solo : list choice := replicate 68 (Run 0).

(** Two workers on [vault], taking turns. *)
Definition sched_vault : list choice :=
  map Run
    [0; 0; 0; 0; 1; 0; 1; 0; 0; 0; 0; 0; 0; 0; 0; 0; 0; 0; 0; 0; 1; 1; 1; 0;
     0; 0]%nat.

(** The pool of two after the traversal of [root]. *)
Definition finished_root : state :=
  mkState (mkThreadData None [] 20480 0 true false) [WT_exit; WT_exit].

(** The pool of one after the traversal of [root]. *)
Definition finished_root_solo : state :=
  mkState (mkThreadData None [] 20480 0 true false) [WT_exit].

(** Worker 0 of two has measured and listed [root] and is about to
    lock at line 202; worker 1 has not started. *)
Definition listed : state :=
  mkState (mkThreadData None [] 4096 1 false false)
    [HD_lock ["root/a.txt"; "root/b"]; WT_lock].

(** Worker 0 of two, on the single task [root/a.txt], has executed
    [pending--] and is about to test line 279. *)
Definition deciding_state : state :=
  mkState (mkThreadData (Some 0%nat) [] 4096 0 false false) [UES_check; WT_lock].

(** The only worker is about to call [lstat] on [link]. *)
Definition at_link : state :=
  mkState (mkThreadData None [] 0 1 false false) [PP_lstat "link"].

(** The only worker is about to call [lstat] on [vault]. *)
Definition at_vault : state :=
  mkState (mkThreadData None [] 0 1 false false) [PP_lstat "vault"].

(** Worker 0 of two has taken [root] and is about to call [lstat];
    worker 1 has found the queue empty and is parked. *)
Definition parked : state :=
  mkState (mkThreadData None [] 0 1 false false)
    [PP_lstat "root"; WT_wait].

(** Worker 0 of two holds the mutex and is about to take [root] from
    the queue. *)
Definition taking : state :=
  mkState (mkThreadData (Some 0%nat) ["root"] 0 1 false false)
    [WT_dequeue; WT_lock].

(** The pool of two after the traversal of [vault]. *)
Definition finished_vault : state :=
  mkState (mkThreadData None [] 4096 0 true true) [WT_exit; WT_exit].


(** A heap with the paths of the two children of [root] as character
    arrays, and the context [thread_data_init] leaves. *)
Definition heap0 : Mem.heap :=
  <[1%positive := Mem.Chars "root/a.txt"]>
    (<[2%positive := Mem.Chars "root/b"]> ∅).

Definition data0 : Mem.ThreadData :=
  Mem.mkThreadData true true None None 0 0 0 0.

(** The same heap with the two paths in the queue. *)
Definition heap2 : Mem.heap :=
  <[3%positive := Mem.DirNode 1%positive (Some 4%positive)]>
    (<[4%positive := Mem.DirNode 2%positive None]> heap0).

Definition data2 : Mem.ThreadData :=
  Mem.mkThreadData true true (Some 3%positive) (Some 4%positive) 0 0 0 0.

Definition nodes2 : list (Mem.loc * Mem.loc) :=
  [(3%positive, 1%positive); (4%positive, 2%positive)].

Definition queued2 : ThreadData :=
  fold_left enqueue ["root/a.txt"; "root/b"] thread_data_init.


(** An allocator: the first address that is not in use. *)
Definition malloc (h : Mem.heap) : Mem.loc := fresh (dom h).

(** The pool of two on the heap [heap0]: worker 0 has listed [root]
    and holds the mutex, about to queue the two children; worker 1 is
    parked. *)
Definition sched_heap_listed : list choice :=
  map Run [0; 0; 0; 0; 1; 1; 0; 0; 0; 0; 0; 0]%nat.

Definition heap_listed : mstate :=
  mkMState
    (mkShared
       (<[3%positive := Mem.Chars "root"]>
          (<[4%positive := Mem.DirStream]>
             (<[5%positive := Mem.Chars "root/a.txt"]>
                (<[6%positive := Mem.Chars "root/b"]>
                   (<[7%positive := Mem.Array [5%positive; 6%positive]]>
                      heap0)))))
       (Mem.mkThreadData true true None None 4096 1 0 0)
       (Some 0%nat))
    [M_hd_enqueue 3%positive 4%positive (Some 7%positive) 2; M_wait].

(** From there worker 0 does all the work, and worker 1 leaves. *)
Definition sched_heap_rest : list choice :=
  replicate 64 (Run 0) ++ replicate 3 (Run 1).

Definition heap_finished : mstate :=
  mkMState
    (mkShared heap0 (Mem.mkThreadData true true None None 20480 0 1 0) None)
    [M_exit; M_exit].

(** Nothing fails at the start of [main]; or the second
    [pthread_create] does. *)
Definition oracle_ok : setup_oracle :=
  mkOracle true 0 0 true true true (λ _, 0).

Definition oracle_second_create_fails : setup_oracle :=
  mkOracle true 0 0 true true true (λ t, if (t =? 1)%nat then 11 else 0).

End Example.

Section Traversal.

(** The file system during one traversal. [lstat path] is [None] when
    the call fails; [opendir path] is [None] when the directory cannot
    be opened, and otherwise the names the directory stream yields,
    "." and ".." among them. *)
Variable lstat : string → option stat.
Variable opendir : string → option (list string).

(** One statement of worker [w] standing at [p]: the new shared data,
    the next program point, and whether the statement broadcast on the
    condition variable.  [None] when the worker cannot move. *)
Definition local_step (w : nat) (p : pc) (d : ThreadData)
  : option (ThreadData * pc * bool) :=
  match p with
  (* worker_thread *)
  | WT_lock =>
      d' ← pthread_mutex_lock w d; Some (d', WT_loop, false)
  | WT_loop =>
      if bool_decide (queue d = []) && negb (done d)
      then Some (pthread_mutex_unlock d, WT_wait, false)
      else if bool_decide (queue d = []) && done d
           then Some (d, WT_unlock_exit, false)
           else Some (d, WT_dequeue, false)
  | WT_wait => None
  | WT_woken =>
      d' ← pthread_mutex_lock w d; Some (d', WT_loop, false)
  | WT_unlock_exit =>
      Some (pthread_mutex_unlock d, WT_exit, false)
  | WT_dequeue =>
      let '(path, d') := dequeue d in Some (d', WT_unlock path, false)
  | WT_unlock path =>
      Some (pthread_mutex_unlock d,
            match path with Some p => PP_lstat p | None => WT_lock end,
            false)
  (* process_path *)
  | PP_lstat path =>
      match lstat path with
      | None => Some (d, UES_lock true, false)
      | Some st => Some (d, HF_lock path st, false)
      end
  (* handle_file *)
  | HF_lock path st =>
      d' ← pthread_mutex_lock w d; Some (d', HF_add path st, false)
  | HF_add path st =>
      let size := wrap_off (st_blocks st * 512) in
      Some (set_total_size (wrap_off (total_size d + size)) d,
            HF_unlock path st, false)
  | HF_unlock path st =>
      Some (pthread_mutex_unlock d,
            if S_ISDIR (st_mode st) then HD_opendir path else UES_lock false,
            false)
  (* handle_directory *)
  | HD_opendir path =>
      match opendir path with
      | None => Some (d, HD_err_lock, false)
      | Some names => Some (d, HD_lock (children path names), false)
      end
  | HD_err_lock =>
      d' ← pthread_mutex_lock w d; Some (d', HD_err_set, false)
  | HD_err_set =>
      Some (set_error_occurred true d, HD_err_unlock, false)
  | HD_err_unlock =>
      Some (pthread_mutex_unlock d, UES_lock false, false)
  | HD_lock paths =>
      d' ← pthread_mutex_lock w d; Some (d', HD_enqueue paths, false)
  | HD_enqueue paths =>
      Some (fold_left enqueue paths d, HD_pending paths, false)
  | HD_pending paths =>
      let pending_increment := wrap_int (Z.of_nat (length paths)) in
      Some (set_pending (wrap_int (pending d + pending_increment)) d,
            HD_broadcast, false)
  | HD_broadcast =>
      Some (d, HD_unlock, true)
  | HD_unlock =>
      Some (pthread_mutex_unlock d, UES_lock false, false)
  (* update_error_status *)
  | UES_lock err =>
      d' ← pthread_mutex_lock w d; Some (d', UES_dec err, false)
  | UES_dec err =>
      Some (set_pending (wrap_int (pending d - 1)) d, UES_err err, false)
  | UES_err err =>
      Some (if err then set_error_occurred true d else d, UES_check, false)
  | UES_check =>
      if (pending d =? 0) && bool_decide (queue d = [])
      then Some (set_done true d, UES_broadcast, false)
      else Some (d, UES_unlock, false)
  | UES_broadcast =>
      Some (d, UES_unlock, true)
  | UES_unlock =>
      Some (pthread_mutex_unlock d, WT_lock, false)
  | WT_exit => None
  end.

(** A step of worker [w] in the pool. *)
Definition wstep (w : nat) (s : state) : option state :=
  p ← pcs s !! w;
  '(d', p', bc) ← local_step w p (data s);
  Some (mkState d' (pcs_after w p' bc (pcs s))).

(** A spurious wake-up of a parked worker, which POSIX allows. *)
Definition spurious (w : nat) (s : state) : option state :=
  match pcs s !! w with
  | Some WT_wait => Some (mkState (data s) (<[w := WT_woken]> (pcs s)))
  | _ => None
  end.

Definition cstep (c : choice) (s : state) : option state :=
  match c with
  | Run w => wstep w s
  | Spurious w => spurious w s
  end.

Definition step (s s' : state) : Prop := ∃ c, cstep c s = Some s'.

(** A schedule is the list of choices the scheduler makes. *)
Fixpoint exec (sched : list choice) (s : state) : option state :=
  match sched with
  | [] => Some s
  | c :: sched' => s' ← cstep c s; exec sched' s'
  end.

(** [n] consecutive steps of the same worker. *)
Fixpoint run_worker (w : nat) (n : nat) (s : state) : option state :=
  match n with
  | O => Some s
  | S n' => s' ← wstep w s; run_worker w n' s'
  end.

(** mdu.c, lines 53-85: a fresh context, [pending = 1], the top-level
    path in the queue, and [num_threads] workers about to start. *)
Definition seed (path : string) : ThreadData :=
  enqueue (set_pending 1 thread_data_init) path.

Definition init (num_threads : nat) (path : string) : state :=
  mkState (seed path) (replicate num_threads WT_lock).

Inductive reachable (num_threads : nat) (path : string) : state → Prop :=
| reachable_init : reachable num_threads path (init num_threads path)
| reachable_step s s' :
    reachable num_threads path s → step s s' → reachable num_threads path s'.

(** All workers have left [worker_thread]: [pthread_join] returns for
    each of them. *)
Definition is_exit (p : pc) : bool :=
  match p with WT_exit => true | _ => false end.
Definition all_exited (s : state) : bool := forallb is_exit (pcs s).

(** ** mdu.c *)

(** Lines 33-44, with [atoi] of stdlib.h as a parameter.  [inr code] is
    [exit(code)]. *)
Fixpoint getopt_loop (atoi : string → Z) (opts : list getopt_result)
    (num_threads : Z) : Z + Z :=
  match opts with
  | [] => inl num_threads
  | Opt_j optarg :: opts' =>
      let num_threads := atoi optarg in
      if num_threads <? 1 then inr EXIT_FAILURE
      else getopt_loop atoi opts' num_threads
  | Opt_other :: _ => inr EXIT_FAILURE
  end.

(** [parse_paths]: the operands, or "." when there are none. *)
Definition parse_paths (operands : list string) : list string :=
  match operands with
  | [] => ["."]
  | _ => operands
  end.

(** Line 99. The operands are [off_t]; C division truncates. *)
Definition total_blocks (total_size : Z) : Z :=
  Z.quot (wrap_off (total_size + 511)) 512.

(** Lines 52-105, one top-level path after the other.  The workers of
    a path run under the schedule given for it; [pthread_join] returns
    once all of them have exited, so a schedule that leaves a worker
    running gives no result. *)
Fixpoint main_loop (num_threads : nat) (paths : list string)
    (scheds : list (list choice)) (code : Z) (out : list (Z * string))
  : option outcome :=
  match paths with
  | [] => Some (mkOutcome code out)
  | path :: paths' =>
      match scheds with
      | [] => None
      | sched :: scheds' =>
          s ← exec sched (init num_threads path);
          if all_exited s then
            let code' :=
              if error_occurred (data s) then EXIT_FAILURE else code in
            main_loop num_threads paths' scheds' code'
              (out ++ [(total_blocks (total_size (data s)), path)])
          else None
      end
  end.

Definition main (atoi : string → Z) (opts : list getopt_result)
    (operands : list string) (scheds : list (list choice)) : option outcome :=
  match getopt_loop atoi opts 1 with
  | inr code => Some (mkOutcome code [])
  | inl num_threads =>
      main_loop (Z.to_nat num_threads) (parse_paths operands) scheds
        EXIT_SUCCESS []
  end.

(** ** The ground truth of a traversal

    [usage path B e n]: the tree below [path] has [n] nodes to visit,
    the nodes whose metadata can be read have [B] allocated blocks in
    total, and [e] tells whether some node could not be read or some
    directory could not be listed. *)
Inductive usage : string → Z → bool → nat → Prop :=
| usage_noaccess path :
    lstat path = None → usage path 0 true 1
| usage_leaf path st :
    lstat path = Some st → S_ISDIR (st_mode st) = false →
    usage path (st_blocks st) false 1
| usage_unreadable path st :
    lstat path = Some st → S_ISDIR (st_mode st) = true →
    opendir path = None →
    usage path (st_blocks st) true 1
| usage_dir path st names B e n :
    lstat path = Some st → S_ISDIR (st_mode st) = true →
    opendir path = Some names →
    usage_list (children path names) B e n →
    usage path (st_blocks st + B) e (S n)
with usage_list : list string → Z → bool → nat → Prop :=
| usage_nil : usage_list [] 0 false 0
| usage_cons path paths B1 e1 n1 B2 e2 n2 :
    usage path B1 e1 n1 → usage_list paths B2 e2 n2 →
    usage_list (path :: paths) (B1 + B2) (e1 || e2) (n1 + n2).

(** ** Bookkeeping on program points *)

(** The worker owns the mutex at this point. *)
Definition holds (p : pc) : bool :=
  match p with
  | WT_loop | WT_unlock_exit | WT_dequeue | WT_unlock _
  | HF_add _ _ | HF_unlock _ _
  | HD_err_set | HD_err_unlock
  | HD_enqueue _ | HD_pending _ | HD_broadcast | HD_unlock
  | UES_dec _ | UES_err _ | UES_check | UES_broadcast | UES_unlock => true
  | _ => false
  end.

(** The worker has taken a task from the queue and has not yet
    executed [pending--] for it. *)
Definition in_flight (p : pc) : bool :=
  match p with
  | WT_unlock (Some _) | PP_lstat _
  | HF_lock _ _ | HF_add _ _ | HF_unlock _ _
  | HD_opendir _ | HD_err_lock | HD_err_set | HD_err_unlock
  | HD_lock _ | HD_enqueue _ | HD_pending _ | HD_broadcast | HD_unlock
  | UES_lock _ | UES_dec _ => true
  | _ => false
  end.

(** Children already in the queue and not yet added to [pending]. *)
Definition uncounted (p : pc) : Z :=
  match p with
  | HD_pending paths => Z.of_nat (length paths)
  | _ => 0
  end.

Definition credit (p : pc) : Z :=
  (if in_flight p then 1 else 0) - uncounted p.

Fixpoint credits (ps : list pc) : Z :=
  match ps with
  | [] => 0
  | p :: ps' => credit p + credits ps'
  end.

(** Program points a worker can be at once the traversal is over. *)
Definition quiet (p : pc) : bool :=
  match p with
  | WT_lock | WT_loop | WT_wait | WT_woken | WT_unlock_exit | WT_exit
  | UES_broadcast | UES_unlock => true
  | _ => false
  end.

(** Between [pending--] and the test that follows it. *)
Definition deciding (p : pc) : bool :=
  match p with
  | UES_err _ | UES_check => true
  | _ => false
  end.

(** The mutex is owned by exactly the worker whose program point is
    inside a critical section. *)
Definition mutex_inv (s : state) : Prop :=
  ∀ w p, pcs s !! w = Some p →
         (holds p = true ↔ mutex (data s) = Some w).

(** [pending] counts the queued tasks and the tasks in flight. *)
Definition pending_inv (s : state) : Prop :=
  pending (data s)
  = wrap_int (Z.of_nat (length (queue (data s))) + credits (pcs s)).

(** [done] is set only when nothing is left, and then stays. *)
Definition done_inv (s : state) : Prop :=
  done (data s) = true →
  queue (data s) = [] ∧ pending (data s) = 0 ∧
  ∀ w p, pcs s !! w = Some p → quiet p = true.

(** Nothing left and nobody about to notice it: [done] is set. *)
Definition idle_inv (s : state) : Prop :=
  queue (data s) = [] →
  (∀ w p, pcs s !! w = Some p → in_flight p = false ∧ deciding p = false) →
  done (data s) = true.

(** After the broadcast that follows [done = 1] nobody is parked. *)
Definition parked_inv (s : state) : Prop :=
  done (data s) = true →
  (∀ w p, pcs s !! w = Some p → p ≠ UES_broadcast) →
  ∀ w p, pcs s !! w = Some p → p ≠ WT_wait.

(** A worker leaves only after [done]. *)
Definition exit_inv (s : state) : Prop :=
  ∀ w p, pcs s !! w = Some p →
         (p = WT_unlock_exit ∨ p = WT_exit) → done (data s) = true.

Record pool_inv (s : state) : Prop := mkPoolInv {
  inv_mutex : mutex_inv s;
  inv_pending : pending_inv s;
  inv_done : done_inv s;
  inv_idle : idle_inv s;
  inv_parked : parked_inv s;
  inv_exit : exit_inv s
}.

(** What a worker at [p] still has to contribute: [B] blocks to
    [total_size] (its own task and, before they are queued, the
    children it has collected), the error [e], and [n] tasks that will
    be queued later on (the nodes below its own). *)
Definition owes (p : pc) (B : Z) (e : bool) (n : nat) : Prop :=
  match p with
  | WT_unlock (Some path) | PP_lstat path =>
      usage path B e (S n)
  | HF_lock path st | HF_add path st =>
      lstat path = Some st ∧ usage path B e (S n)
  | HF_unlock path st =>
      lstat path = Some st ∧ usage path (st_blocks st + B) e (S n)
  | HD_opendir path =>
      ∃ st, lstat path = Some st ∧ S_ISDIR (st_mode st) = true ∧
            usage path (st_blocks st + B) e (S n)
  | HD_err_lock | HD_err_set => B = 0 ∧ e = true ∧ n = 0%nat
  | HD_lock paths | HD_enqueue paths => usage_list paths B e n
  | UES_lock err | UES_dec err | UES_err err => B = 0 ∧ e = err ∧ n = 0%nat
  | _ => B = 0 ∧ e = false ∧ n = 0%nat
  end.

Inductive owes_all : list pc → Z → bool → nat → Prop :=
| owes_nil : owes_all [] 0 false 0
| owes_cons p ps B1 e1 n1 B2 e2 n2 :
    owes p B1 e1 n1 → owes_all ps B2 e2 n2 →
    owes_all (p :: ps) (B1 + B2) (e1 || e2) (n1 + n2).

(** The blocks counted so far and the blocks still owed add up to the
    [B] blocks of the tree; likewise for the error flag; and [T] tasks
    are in the queue or still to be queued. *)
Definition settle_inv (B : Z) (e : bool) (T : nat) (s : state) : Prop :=
  ∃ Bq eq nq Bw ew nw,
    usage_list (queue (data s)) Bq eq nq ∧
    owes_all (pcs s) Bw ew nw ∧
    total_size (data s) = wrap_off (512 * (B - Bq - Bw)) ∧
    error_occurred (data s) || eq || ew = e ∧
    T = (nq + nw)%nat.

Definition is_dequeue (p : pc) : bool :=
  match p with WT_dequeue => true | _ => false end.

(** A worker is at line 66 only with a task to take. *)
Definition dequeue_inv (s : state) : Prop :=
  ∀ w p, pcs s !! w = Some p →
         (p = WT_dequeue → queue (data s) ≠ []) ∧ p ≠ WT_unlock None.

(** ** A measure of the work left

    The statements a worker has before it comes back to line 43, parks
    or leaves, not counting the tasks it will take later; [N] is the
    number of workers, and a statement that broadcasts is charged for
    the workers it may wake. *)
Definition rank_base (p : pc) : Z :=
  match p with
  | WT_wait | WT_exit => 0
  | WT_unlock_exit => 2
  | WT_unlock None => 4
  | WT_dequeue => 5
  | WT_loop => 6
  | WT_lock | WT_woken => 7
  | UES_unlock => 8
  | UES_broadcast => 9
  | UES_check => 10
  | UES_err _ => 11
  | UES_dec _ => 12
  | UES_lock _ => 13
  | HD_unlock => 14
  | HD_broadcast => 15
  | HD_pending _ | HD_err_unlock => 16
  | HD_enqueue _ | HD_err_set => 17
  | HD_lock _ | HD_err_lock => 18
  | HD_opendir _ => 19
  | HF_unlock _ _ => 20
  | HF_add _ _ => 21
  | HF_lock _ _ => 22
  | PP_lstat _ => 23
  | WT_unlock (Some _) => 24
  end.

Definition broadcasts_ahead (p : pc) : Z :=
  match p with
  | WT_unlock (Some _) | PP_lstat _ | HF_lock _ _ | HF_add _ _ | HF_unlock _ _
  | HD_opendir _ | HD_lock _ | HD_enqueue _ | HD_pending _ | HD_broadcast => 2
  | HD_err_lock | HD_err_set | HD_err_unlock | HD_unlock
  | UES_lock _ | UES_dec _ | UES_err _ | UES_check | UES_broadcast => 1
  | _ => 0
  end.

Definition rank (N : Z) (p : pc) : Z :=
  rank_base p + 7 * N * broadcasts_ahead p.

Fixpoint ranks (N : Z) (ps : list pc) : Z :=
  match ps with
  | [] => 0
  | p :: ps' => rank N p + ranks N ps'
  end.

(** What a task still in the queue costs. *)
Definition task_weight (N : Z) : Z := 20 + 14 * N.

Definition potential (s : state) (T : nat) : Z :=
  let N := Z.of_nat (length (pcs s)) in
  ranks N (pcs s) + task_weight N * Z.of_nat T.

Fixpoint spurious_count (sched : list choice) : Z :=
  match sched with
  | [] => 0
  | Run _ :: sched' => spurious_count sched'
  | Spurious _ :: sched' => 1 + spurious_count sched'
  end.

(** Worker [w] alone takes the pool from [s] to [s']. *)
Definition solo (w : nat) (s s' : state) : Prop :=
  ∃ k, run_worker w k s = Some s'.


(** The owner of the mutex is one of the workers. *)
Definition owner_inv (s : state) : Prop :=
  ∀ w, mutex (data s) = Some w → is_Some (pcs s !! w).

(** Between line 214 and line 215 the children the worker has queued
    are the tail of the queue. *)
Definition suffix_inv (s : state) : Prop :=
  ∀ w paths, pcs s !! w = Some (HD_pending paths) →
             ∃ q0, queue (data s) = q0 ++ paths.

(** Between the enqueue of line 208 and the broadcast of line 216. *)
Definition filling (p : pc) : bool :=
  match p with
  | HD_pending _ | HD_broadcast => true
  | _ => false
  end.

(** A worker stays parked only while the queue is empty, or while the
    worker that has just filled the queue is about to broadcast. *)
Definition waiter_inv (s : state) : Prop :=
  ∀ w, pcs s !! w = Some WT_wait →
       queue (data s) = [] ∨
       ∃ w' p', pcs s !! w' = Some p' ∧ filling p' = true.

Record queue_inv (s : state) : Prop := mkQueueInv {
  inv_owner : owner_inv s;
  inv_suffix : suffix_inv s;
  inv_waiter : waiter_inv s;
  inv_dequeue : dequeue_inv s
}.

(** A worker that is parked or has left takes no step of its own. *)
Definition blocked (p : pc) : bool :=
  match p with
  | WT_wait | WT_exit => true
  | _ => false
  end.

(** A critical section of worker [w] with [k] statements between the
    lock and the unlock: the first step takes the mutex, the worker
    owns it after each of the [k] statements, and the last step gives
    it back. *)
Fixpoint holding (w : nat) (k : nat) (s : state) : option state :=
  match k with
  | O => Some s
  | S k' =>
      s' ← wstep w s;
      if bool_decide (mutex (data s') = Some w) then holding w k' s' else None
  end.

Definition critical_section (w : nat) (k : nat) (s : state) : option state :=
  match mutex (data s) with
  | Some _ => None
  | None =>
      s1 ← wstep w s;
      if bool_decide (mutex (data s1) = Some w) then
        s2 ← holding w k s1;
        s' ← wstep w s2;
        if bool_decide (mutex (data s') = None) then Some s' else None
      else None
  end.


(** The body of [update_error_status] between its lock and its
    unlock (lines 273-286), as a function on the shared data; the
    boolean tells whether line 281 broadcast. *)
Definition update_error_status (d : ThreadData) (error_in_this_call : bool)
  : ThreadData * bool :=
  let d := set_pending (wrap_int (pending d - 1)) d in
  let d := if error_in_this_call then set_error_occurred true d else d in
  if (pending d =? 0) && bool_decide (queue d = [])
  then (set_done true d, true)
  else (d, false).

(** The body of the critical section of [handle_directory] (lines
    207-216). *)
Definition handle_directory_enqueue (d : ThreadData) (paths : list string)
  : ThreadData :=
  let d := fold_left enqueue paths d in
  set_pending (wrap_int (pending d + wrap_int (Z.of_nat (length paths)))) d.

(** The body of the critical section of [handle_file] (line 126). *)
Definition handle_file (st : stat) (d : ThreadData) : ThreadData :=
  set_total_size (wrap_off (total_size d + wrap_off (st_blocks st * 512))) d.


(** The fifth step of the spec's worker, read literally: after a
    directory has been listed, ONE critical section of the worker
    queues the children, adds their number to [pending] and takes 1
    from it for the directory itself. *)
Definition single_section_claim : Prop :=
  ∀ n root s w paths,
    Z.of_nat n ≤ INT_MAX → reachable n root s →
    pcs s !! w = Some (HD_lock paths) → mutex (data s) = None →
    ∃ k s',
      critical_section w k s = Some s' ∧
      queue (data s') = queue (data s) ++ paths ∧
      pending (data s')
      = wrap_int (pending (data s) + Z.of_nat (length paths) - 1).

(** ** What the pool is measured by

    Two states of the shared data that differ at most in the owner of
    the mutex. *)
Definition same_shared (d d' : ThreadData) : Prop :=
  queue d' = queue d ∧ total_size d' = total_size d ∧
  pending d' = pending d ∧ done d' = done d ∧
  error_occurred d' = error_occurred d.

(** The number of tasks in flight. *)
Definition in_flight_count (ps : list pc) : Z :=
  Z.of_nat (length (filter (λ p, in_flight p = true) ps)).



(** The paths a worker has in its local variables. *)
Definition paths_of (p : pc) : list string :=
  match p with
  | WT_unlock (Some path) | PP_lstat path
  | HF_lock path _ | HF_add path _ | HF_unlock path _
  | HD_opendir path => [path]
  | HD_lock paths | HD_enqueue paths | HD_pending paths => paths
  | _ => []
  end.

(** The path reached from [root] through the entries [names]. *)
Definition descend (root : string) (names : list string) : string :=
  fold_left construct_path names root.

(** The character '/', code 47. *)
Definition slash : Ascii.ascii :=
  Ascii.Ascii true true true true false true false false.

(** A name of one component: no '/' in it. *)
Fixpoint no_slash (name : string) : bool :=
  match name with
  | EmptyString => true
  | String c name' => negb (Ascii.eqb c slash) && no_slash name'
  end.

(** A path the traversal of [root] can come to: [root] itself, or a
    path it can come to that [lstat] reports as a directory and
    [opendir] opens, extended by one of the names the stream of that
    directory yields, other than "." and "..". *)
Inductive below (root : string) : string → Prop :=
| below_here : below root root
| below_entry dir st names name :
    below root dir →
    lstat dir = Some st → S_ISDIR (st_mode st) = true →
    opendir dir = Some names →
    name ∈ names → is_dot name = false →
    below root (construct_path dir name).

(** What a worker has learnt about the path it holds. *)
Definition placed (p : pc) : Prop :=
  match p with
  | HF_lock path st | HF_add path st | HF_unlock path st =>
      lstat path = Some st
  | HD_opendir path =>
      ∃ st, lstat path = Some st ∧ S_ISDIR (st_mode st) = true
  | _ => True
  end.


(** ** The pool on the heap, step by step *)

(** One statement of worker [w] standing at [p]. *)
Definition mlocal_step (malloc : Mem.heap → Mem.loc) (w : nat) (p : mpc)
    (sh : shared) : step_result (shared * mpc * bool) :=
  let h := sh_heap sh in
  let d := sh_data sh in
  match p with
  (* worker_thread *)
  | M_lock => mlock w sh M_loop
  | M_loop =>
      if is_null (Mem.queue_head d) && (Mem.done d =? 0)
      then Ok (munlock sh, M_wait, false)
      else if is_null (Mem.queue_head d) && negb (Mem.done d =? 0)
           then Ok (sh, M_unlock_exit, false)
           else Ok (sh, M_dequeue, false)
  | M_wait => Blocked
  | M_woken => mlock w sh M_loop
  | M_unlock_exit => Ok (munlock sh, M_exit, false)
  | M_dequeue =>
      match Mem.dequeue h d with
      | Some (path, h', d') =>
          Ok (mkShared h' d' (sh_owner sh), M_unlock path, false)
      | None => Fault
      end
  | M_unlock path =>
      Ok (munlock sh,
          match path with Some p => M_lstat p | None => M_lock end,
          false)
  (* process_path *)
  | M_lstat path =>
      match Mem.load_chars h path with
      | None => Fault
      | Some s =>
          match lstat s with
          | None => Ok (sh, M_ues_lock path true, false)
          | Some st => Ok (sh, M_hf_lock path st, false)
          end
      end
  (* handle_file *)
  | M_hf_lock path st => mlock w sh (M_hf_add path st)
  | M_hf_add path st =>
      let size := wrap_off (st_blocks st * 512) in
      Ok (with_data
            (Mem.set_total_size (wrap_off (Mem.total_size d + size)) d) sh,
          M_hf_unlock path st, false)
  | M_hf_unlock path st =>
      Ok (munlock sh,
          if S_ISDIR (st_mode st) then M_opendir path
          else M_ues_lock path false,
          false)
  (* handle_directory *)
  | M_opendir path =>
      match Mem.load_chars h path with
      | None => Fault
      | Some s =>
          match opendir s with
          | None => Ok (sh, M_err_lock path, false)
          | Some names =>
              let dir := malloc h in
              let h := <[dir := Mem.DirStream]> h in
              let '(h, paths) := Mem.alloc_paths malloc h (children s names) in
              let '(h, arr) :=
                match paths with
                | [] => (h, None)
                | _ :: _ =>
                    let a := malloc h in
                    (<[a := Mem.Array paths]> h, Some a)
                end in
              Ok (mkShared h d (sh_owner sh),
                  M_hd_lock path dir arr (length paths), false)
          end
      end
  | M_err_lock path => mlock w sh (M_err_set path)
  | M_err_set path =>
      Ok (with_data (Mem.set_error_occurred 1 d) sh, M_err_unlock path, false)
  | M_err_unlock path => Ok (munlock sh, M_ues_lock path false, false)
  | M_hd_lock path dir arr n => mlock w sh (M_hd_enqueue path dir arr n)
  | M_hd_enqueue path dir arr n =>
      match Mem.load_array h arr with
      | None => Fault
      | Some cells =>
          if (n <=? length cells)%nat then
            match Mem.enqueue_all malloc h d (take n cells) with
            | Some (h', d') =>
                Ok (mkShared h' d' (sh_owner sh),
                    M_hd_pending path dir arr n, false)
            | None => Fault
            end
          else Fault
      end
  | M_hd_pending path dir arr n =>
      let pending_increment := wrap_int (Z.of_nat n) in
      Ok (with_data
            (Mem.set_pending (wrap_int (Mem.pending d + pending_increment)) d)
            sh,
          M_hd_broadcast path dir arr, false)
  | M_hd_broadcast path dir arr => Ok (sh, M_hd_unlock path dir arr, true)
  | M_hd_unlock path dir arr => Ok (munlock sh, M_hd_cleanup path dir arr, false)
  | M_hd_cleanup path dir arr =>
      (* free(paths_to_enqueue), which may be NULL; closedir(dir) *)
      match (match arr with
             | None => Some h
             | Some a => Mem.free a h
             end) with
      | None => Fault
      | Some h1 =>
          match h1 !! dir with
          | Some Mem.DirStream =>
              Ok (mkShared (delete dir h1) d (sh_owner sh),
                  M_ues_lock path false, false)
          | _ => Fault
          end
      end
  (* update_error_status *)
  | M_ues_lock path err => mlock w sh (M_ues_dec path err)
  | M_ues_dec path err =>
      Ok (with_data (Mem.set_pending (wrap_int (Mem.pending d - 1)) d) sh,
          M_ues_err path err, false)
  | M_ues_err path err =>
      Ok (if err then with_data (Mem.set_error_occurred 1 d) sh else sh,
          M_ues_check path, false)
  | M_ues_check path =>
      if (Mem.pending d =? 0) && is_null (Mem.queue_head d)
      then Ok (with_data (Mem.set_done 1 d) sh, M_ues_broadcast path, false)
      else Ok (sh, M_ues_unlock path, false)
  | M_ues_broadcast path => Ok (sh, M_ues_unlock path, true)
  | M_ues_unlock path => Ok (munlock sh, M_free path, false)
  (* worker_thread, line 75 *)
  | M_free path =>
      match Mem.free path h with
      | Some h' => Ok (mkShared h' d (sh_owner sh), M_lock, false)
      | None => Fault
      end
  | M_exit => Blocked
  end.

(** A step of worker [w] in the pool; a worker that does not exist
    cannot move. *)
Definition mwstep (malloc : Mem.heap → Mem.loc) (w : nat) (s : mstate)
  : step_result mstate :=
  match mpcs s !! w with
  | None => Blocked
  | Some p =>
      match mlocal_step malloc w p (mshared s) with
      | Ok (sh, p', bc) => Ok (mkMState sh (mpcs_after w p' bc (mpcs s)))
      | Blocked => Blocked
      | Fault => Fault
      end
  end.

Definition mcstep (malloc : Mem.heap → Mem.loc) (c : choice) (s : mstate)
  : step_result mstate :=
  match c with
  | Run w => mwstep malloc w s
  | Spurious w => mspurious w s
  end.

Fixpoint mexec (malloc : Mem.heap → Mem.loc) (sched : list choice)
    (s : mstate) : step_result mstate :=
  match sched with
  | [] => Ok s
  | c :: sched' =>
      match mcstep malloc c s with
      | Ok s' => mexec malloc sched' s'
      | Blocked => Blocked
      | Fault => Fault
      end
  end.

Inductive mreachable (malloc : Mem.heap → Mem.loc) (num_threads : nat)
    (h0 : Mem.heap) (path : string) : mstate → Prop :=
| mreachable_init s :
    minit malloc num_threads h0 path = Some s →
    mreachable malloc num_threads h0 path s
| mreachable_step s c s' :
    mreachable malloc num_threads h0 path s →
    mcstep malloc c s = Ok s' →
    mreachable malloc num_threads h0 path s'.

(** mdu.c, lines 53-106, for one top-level path: the workers run
    under the schedule [sched]; every [pthread_join] returns 0, and
    returns only when the worker has left. *)
Definition main_turn (malloc : Mem.heap → Mem.loc) (o : setup_oracle)
    (num_threads : nat) (h0 : Mem.heap) (path : string)
    (sched : list choice) (exit_code : Z) : option turn :=
  r ← main_setup malloc o num_threads h0 path;
  match r with
  | Exited code h => Some (Turn_exit code h)
  | Exited_running code created => Some (Turn_exit_running code created)
  | Started h data =>
      match mexec malloc sched
              (mkMState (mkShared h data None)
                 (replicate num_threads M_lock)) with
      | Ok ms =>
          if all_mexited ms then
            let data := sh_data (mshared ms) in
            let exit_code :=
              if negb (Mem.error_occurred data =? 0) then EXIT_FAILURE
              else exit_code in
            let total_blocks := total_blocks (Mem.total_size data) in
            r ← Mem.thread_data_destroy (sh_heap (mshared ms)) data;
            Some (Turn_done exit_code (total_blocks, path) r.1)
          else None
      | _ => None
      end
  end.


(** ** Arithmetic of the wrap-around *)

Lemma wrap_int_add_l a b : wrap_int (wrap_int a + b) = wrap_int (a + b).
Proof.
  unfold wrap_int. f_equal.
  replace (((a + 2 ^ 31) mod 2 ^ 32 - 2 ^ 31) + b + 2 ^ 31)
    with ((a + 2 ^ 31) mod 2 ^ 32 + b) by lia.
  rewrite Zplus_mod_idemp_l. f_equal. lia.
Qed.

Lemma wrap_int_add_r a b : wrap_int (a + wrap_int b) = wrap_int (a + b).
Proof. rewrite (Z.add_comm a), wrap_int_add_l. f_equal. lia. Qed.

Lemma wrap_int_small z : - 2 ^ 31 ≤ z < 2 ^ 31 → wrap_int z = z.
Proof. intros. unfold wrap_int. rewrite Z.mod_small by lia. lia. Qed.

Lemma wrap_int_range z : - 2 ^ 31 ≤ wrap_int z < 2 ^ 31.
Proof.
  unfold wrap_int.
  pose proof (Z.mod_pos_bound (z + 2 ^ 31) (2 ^ 32)). lia.
Qed.

Lemma wrap_int_zero z : 0 ≤ z ≤ INT_MAX → wrap_int z = 0 → z = 0.
Proof.
  unfold INT_MAX. intros Hz H. rewrite wrap_int_small in H by lia. done.
Qed.

Lemma wrap_off_add_l a b : wrap_off (wrap_off a + b) = wrap_off (a + b).
Proof.
  unfold wrap_off. f_equal.
  replace (((a + 2 ^ 63) mod 2 ^ 64 - 2 ^ 63) + b + 2 ^ 63)
    with ((a + 2 ^ 63) mod 2 ^ 64 + b) by lia.
  rewrite Zplus_mod_idemp_l. f_equal. lia.
Qed.

Lemma wrap_off_add_r a b : wrap_off (a + wrap_off b) = wrap_off (a + b).
Proof. rewrite (Z.add_comm a), wrap_off_add_l. f_equal. lia. Qed.

Lemma wrap_off_small z : - 2 ^ 63 ≤ z < 2 ^ 63 → wrap_off z = z.
Proof. intros. unfold wrap_off. rewrite Z.mod_small by lia. lia. Qed.

Lemma wrap_off_mod_512 z : wrap_off z mod 512 = z mod 512.
Proof.
  unfold wrap_off.
  pose proof (Z.div_mod (z + 2 ^ 63) (2 ^ 64) ltac:(lia)) as E.
  set (q := (z + 2 ^ 63) / 2 ^ 64) in *.
  replace ((z + 2 ^ 63) mod 2 ^ 64 - 2 ^ 63) with (z + (- q * 2 ^ 55) * 512) by lia.
  apply Z_mod_plus_full.
Qed.

(** ** The queue *)

Lemma fold_enqueue paths d :
  fold_left enqueue paths d = set_queue (queue d ++ paths) d.
Proof.
  revert d. induction paths as [|x paths IH]; intros d; simpl.
  - rewrite app_nil_r. by destruct d.
  - rewrite IH. destruct d; simpl. unfold set_queue; simpl.
    by rewrite <- app_assoc.
Qed.

(** ** Program counters under update and broadcast *)

Lemma credits_insert ps w p p' :
  ps !! w = Some p →
  credits (<[w := p']> ps) = credits ps - credit p + credit p'.
Proof.
  revert w. induction ps as [|x ps IH]; intros [|w] H; simplify_eq/=; try lia.
  rewrite (IH _ H). lia.
Qed.

Lemma credit_wake p : credit (wake p) = credit p.
Proof. by destruct p. Qed.

Lemma credits_broadcast ps : credits (pthread_cond_broadcast ps) = credits ps.
Proof. induction ps; simpl; [done|]. rewrite credit_wake. unfold pthread_cond_broadcast in *. lia. Qed.

(** The tasks in flight are at most as many as the workers. *)
Lemma credits_bound ps :
  (∀ w p, ps !! w = Some p → 0 ≤ credit p ≤ 1) →
  0 ≤ credits ps ≤ Z.of_nat (length ps).
Proof.
  induction ps as [|x ps IH]; intros H; simpl; [lia|].
  pose proof (H 0%nat x eq_refl).
  assert (0 ≤ credits ps ≤ Z.of_nat (length ps)).
  { apply IH. intros w p Hw. apply (H (S w) p Hw). }
  lia.
Qed.

Lemma credits_zero ps :
  (∀ w p, ps !! w = Some p → 0 ≤ credit p) →
  credits ps = 0 →
  ∀ w p, ps !! w = Some p → credit p = 0.
Proof.
  induction ps as [|x ps IH]; intros H H0 w p Hw; [done|].
  simpl in H0.
  pose proof (H 0%nat x eq_refl).
  assert (0 ≤ credits ps).
  { clear -H. induction ps as [|y ps IH]; simpl; [lia|].
    pose proof (H 1%nat y eq_refl).
    assert (0 ≤ credits ps); [|lia].
    apply IH. intros [|w] p Hw; [apply (H 0%nat p Hw)|apply (H (S (S w)) p Hw)]. }
  destruct w as [|w]; simplify_eq/=; [lia|].
  apply (IH (λ w p Hw, H (S w) p Hw) ltac:(lia) w p Hw).
Qed.

Lemma wstep_inv w s s' :
  wstep w s = Some s' →
  ∃ p d' p' bc,
    pcs s !! w = Some p ∧
    local_step w p (data s) = Some (d', p', bc) ∧
    s' = mkState d' (pcs_after w p' bc (pcs s)).
Proof.
  unfold wstep. intros H.
  destruct (pcs s !! w) as [p|] eqn:Hp; simplify_eq/=.
  destruct (local_step w p (data s)) as [[[d' p'] bc]|] eqn:Hl; simplify_eq/=.
  by exists p, d', p', bc.
Qed.

Lemma pcs_after_length w p' bc ps : length (pcs_after w p' bc ps) = length ps.
Proof.
  unfold pcs_after, pthread_cond_broadcast.
  rewrite length_insert. destruct bc; [apply length_map|done].
Qed.

Lemma pcs_after_self w p p' bc ps :
  ps !! w = Some p → pcs_after w p' bc ps !! w = Some p'.
Proof.
  intros H. unfold pcs_after. apply list_lookup_insert_eq.
  apply lookup_lt_Some in H.
  destruct bc; [unfold pthread_cond_broadcast; by rewrite length_map|done].
Qed.

Lemma pcs_after_other w w' p' bc ps q' :
  w ≠ w' → pcs_after w p' bc ps !! w' = Some q' →
  ∃ q, ps !! w' = Some q ∧ q' = (if bc then wake q else q).
Proof.
  intros Hne. unfold pcs_after. rewrite list_lookup_insert_ne by done.
  destruct bc; [|by eauto].
  unfold pthread_cond_broadcast. rewrite list_lookup_fmap.
  destruct (ps !! w') as [q|]; intros; simplify_eq/=. by eauto.
Qed.

Lemma pcs_after_credits w p p' bc ps :
  ps !! w = Some p →
  credits (pcs_after w p' bc ps) = credits ps - credit p + credit p'.
Proof.
  intros H. unfold pcs_after. destruct bc.
  - rewrite (credits_insert _ w (wake p)).
    + rewrite credits_broadcast, credit_wake. lia.
    + unfold pthread_cond_broadcast. by rewrite list_lookup_fmap, H.
  - by apply credits_insert.
Qed.

(** ** One statement at a time *)

Ltac unfold_data :=
  unfold pthread_mutex_lock, pthread_mutex_unlock, dequeue, set_mutex,
    set_queue, set_total_size, set_pending, set_done, set_error_occurred in *;
  simpl in *.

Ltac local_cases H :=
  match type of H with
  | local_step _ ?p ?d = Some _ =>
      revert H;
      destruct d as [mx qu ts pe dn er]; destruct p; simpl;
      rewrite ?fold_enqueue; unfold_data; intros H;
      repeat case_match; simplify_eq/=
  end.

(** Who owns the mutex after the statement. *)
Lemma local_step_mutex w p d d' p' bc :
  local_step w p d = Some (d', p', bc) →
  (holds p = true ↔ mutex d = Some w) →
  (holds p' = true ↔ mutex d' = Some w) ∧
  (mutex d' = mutex d ∨
   (mutex d = None ∧ mutex d' = Some w) ∨
   (mutex d = Some w ∧ mutex d' = None)).
Proof.
  intros H Hm. local_cases H; intuition congruence.
Qed.


(** [pending] follows the length of the queue and the tasks in flight. *)
Lemma local_step_pending w p d d' p' bc c :
  local_step w p d = Some (d', p', bc) →
  pending d = wrap_int (Z.of_nat (length (queue d)) + c + credit p) →
  pending d' = wrap_int (Z.of_nat (length (queue d')) + c + credit p').
Proof.
  intros H Hp. local_cases H; unfold credit; simpl;
    rewrite <- ?Z.add_opp_r, ?length_app, ?wrap_int_add_l, ?wrap_int_add_r;
    f_equal; lia.
Qed.

(** No statement clears [done]. *)
Lemma local_step_done_mono w p d d' p' bc :
  local_step w p d = Some (d', p', bc) → done d = true → done d' = true.
Proof. intros H Hd. local_cases H; done. Qed.

(** Once [done] is set the quiet program points lead to quiet ones
    and leave the data alone. *)
Lemma local_step_done_quiet w p d d' p' bc :
  local_step w p d = Some (d', p', bc) →
  done d = true → queue d = [] → quiet p = true →
  queue d' = [] ∧ pending d' = pending d ∧ quiet p' = true ∧ p' ≠ WT_wait.
Proof. intros H Hd Hq Hp. local_cases H; done. Qed.

(** [done] is set by line 280 only, under its test. *)
Lemma local_step_done_set w p d d' p' bc :
  local_step w p d = Some (d', p', bc) →
  done d = false → done d' = true →
  p = UES_check ∧ p' = UES_broadcast ∧ bc = false ∧
  pending d = 0 ∧ queue d = [] ∧ pending d' = 0 ∧ queue d' = [].
Proof.
  intros H Hd Hd'. local_cases H; try done.
  match goal with
  | H : _ && _ = true |- _ => apply andb_true_iff in H as [?%Z.eqb_eq ?%bool_decide_eq_true]
  end.
  by subst.
Qed.

(** How a worker gets to a point where it neither owes a decrement nor
    is about to test [pending]. *)
Lemma local_step_idle w p d d' p' bc :
  local_step w p d = Some (d', p', bc) →
  in_flight p' = false → deciding p' = false →
  done d' = true ∨
  (in_flight p = false ∧ deciding p = false ∧
   queue d' = queue d ∧ done d' = done d) ∨
  (p = UES_check ∧ queue d' = queue d ∧ ¬ (pending d = 0 ∧ queue d = [])).
Proof.
  intros H Hf Hc. local_cases H; try done; try (by right; left);
    try (by left).
  right; right. repeat split.
  intros [-> ->]. done.
Qed.

(** The two broadcasts. *)
Lemma local_step_broadcast w p d d' p' :
  local_step w p d = Some (d', p', true) →
  d' = d ∧ p' ≠ WT_wait ∧ p' ≠ UES_broadcast ∧ holds p = true.
Proof. intros H. local_cases H; done. Qed.

(** A worker parks only on an empty queue before [done]. *)
Lemma local_step_wait w p d d' bc :
  local_step w p d = Some (d', WT_wait, bc) →
  p = WT_loop ∧ done d = false ∧ queue d = [].
Proof.
  intros H. local_cases H.
  match goal with
  | H : _ && _ = true |- _ => apply andb_true_iff in H as [?%bool_decide_eq_true ?%negb_true_iff]
  end.
  by subst.
Qed.

(** A worker leaves only after it has seen [done]. *)
Lemma local_step_exit w p d d' p' bc :
  local_step w p d = Some (d', p', bc) →
  p' = WT_unlock_exit ∨ p' = WT_exit →
  done d' = true ∨ (p = WT_unlock_exit ∧ done d' = done d).
Proof.
  intros H [?|?]; local_cases H; try (by right).
  left.
  match goal with
  | H : _ && _ = true |- _ => apply andb_true_iff in H as [_ ?]
  end.
  done.
Qed.

Lemma wake_holds q : holds (wake q) = holds q.
Proof. by destruct q. Qed.
Lemma wake_quiet q : quiet (wake q) = quiet q.
Proof. by destruct q. Qed.
Lemma wake_in_flight q : in_flight (wake q) = in_flight q.
Proof. by destruct q. Qed.
Lemma wake_deciding q : deciding (wake q) = deciding q.
Proof. by destruct q. Qed.
Lemma wake_not_wait q : wake q ≠ WT_wait.
Proof. by destruct q. Qed.

(** Outside the critical sections a worker owes one decrement or none. *)
Lemma credit_unlocked q :
  holds q = false → credit q = if in_flight q then 1 else 0.
Proof. by destruct q. Qed.

Lemma unlocked_settled_quiet q :
  holds q = false → in_flight q = false → quiet q = true.
Proof. by destruct q. Qed.


Lemma pcs_after_other_2 w w' p' bc ps q :
  w ≠ w' → ps !! w' = Some q →
  pcs_after w p' bc ps !! w' = Some (if bc then wake q else q).
Proof.
  intros Hne Hq. unfold pcs_after. rewrite list_lookup_insert_ne by done.
  destruct bc; [|done].
  unfold pthread_cond_broadcast. by rewrite list_lookup_fmap, Hq.
Qed.

Lemma credits_all_zero ps :
  (∀ w q, ps !! w = Some q → credit q = 0) → credits ps = 0.
Proof.
  induction ps as [|x ps IH]; intros H; simpl; [done|].
  rewrite (H 0%nat x eq_refl), IH; [done|].
  intros w q Hq. apply (H (S w) q Hq).
Qed.

(** ** The invariant of the pool *)

(** While worker [w] is inside a critical section, the other workers
    are outside, so each of them accounts for one task or none. *)
Lemma holder_credits s w p :
  mutex_inv s → pcs s !! w = Some p → holds p = true →
  0 ≤ credits (pcs s) - credit p ≤ Z.of_nat (length (pcs s)) ∧
  (credits (pcs s) - credit p = 0 →
   ∀ w' q, w' ≠ w → pcs s !! w' = Some q → quiet q = true).
Proof.
  intros Hm Hw Hp.
  assert (Ho : ∀ w' q, w' ≠ w → pcs s !! w' = Some q → holds q = false).
  { intros w' q Hne Hq. destruct (holds q) eqn:Hh; [|done].
    apply (Hm w' q Hq) in Hh. apply (Hm w p Hw) in Hp. congruence. }
  set (ps0 := <[w := WT_lock]> (pcs s)).
  assert (Hc : credits ps0 = credits (pcs s) - credit p).
  { unfold ps0. rewrite (credits_insert _ _ _ _ Hw). unfold credit at 2. simpl. lia. }
  assert (H0 : ∀ w' q, ps0 !! w' = Some q → holds q = false).
  { intros w' q. unfold ps0. destruct (decide (w = w')) as [->|Hne].
    - rewrite list_lookup_insert_eq by (by eapply lookup_lt_Some).
      by intros [= <-].
    - rewrite list_lookup_insert_ne by done. by apply Ho. }
  rewrite <- Hc. split.
  - replace (length (pcs s)) with (length ps0) by apply length_insert.
    apply credits_bound. intros w' q Hq.
    rewrite (credit_unlocked q (H0 _ _ Hq)). destruct (in_flight q); lia.
  - intros Hz w' q Hne Hq.
    assert (Hq0 : ps0 !! w' = Some q).
    { unfold ps0. by rewrite list_lookup_insert_ne. }
    apply unlocked_settled_quiet; [by eapply H0|].
    assert (credit q = 0) as Hcq.
    { apply (credits_zero ps0 ) with (w := w'); [|done|done].
      intros w'' q'' Hq''. rewrite (credit_unlocked q'' (H0 _ _ Hq'')).
      destruct (in_flight q''); lia. }
    rewrite (credit_unlocked q (H0 _ _ Hq0)) in Hcq.
    destruct (in_flight q); [lia|done].
Qed.

Lemma not_in_flight_credit q : in_flight q = false → credit q = 0.
Proof.
  intros H. destruct q; try discriminate H; try reflexivity.
  destruct path; [discriminate H|reflexivity].
Qed.

Lemma pool_inv_init n path : pool_inv (init n path).
Proof.
  assert (Hl : ∀ w p, replicate n WT_lock !! w = Some p → p = WT_lock).
  { intros w p H. by apply lookup_replicate in H as [-> _]. }
  split.
  - intros w p H%Hl. subst. simpl. split; done.
  - unfold pending_inv. simpl.
    rewrite credits_all_zero; [done|]. by intros w q ->%Hl.
  - intros H. done.
  - intros H. done.
  - intros H. done.
  - intros w p ->%Hl [?|?]; done.
Qed.

Lemma pool_inv_wstep w s s' :
  Z.of_nat (length (pcs s)) ≤ INT_MAX →
  pool_inv s → wstep w s = Some s' → pool_inv s'.
Proof.
  intros HN [Hmx Hpe Hdn Hid Hpk Hex] Hs.
  apply wstep_inv in Hs as (p & d' & p' & bc & Hw & Hl & ->).
  destruct s as [d ps]. simpl in *.
  pose proof (local_step_mutex _ _ _ _ _ _ Hl (Hmx w p Hw)) as [Hm' Hch].
  split.
  - (* mutex_inv *)
    intros w' q' Hq'. simpl in *.
    destruct (decide (w = w')) as [<-|Hne].
    + rewrite (pcs_after_self _ _ _ _ _ Hw) in Hq'. by simplify_eq.
    + apply pcs_after_other in Hq' as (q & Hq & ->); [|done].
      assert (holds (if bc then wake q else q) = holds q) as ->.
      { destruct bc; [apply wake_holds|done]. }
      pose proof (Hmx w' q Hq) as Hq'. simpl in Hq'.
      pose proof (Hmx w p Hw) as Hp'. simpl in Hp'.
      destruct Hch as [->|[[H1 ->]|[H1 ->]]]; [done|..].
      * rewrite H1 in Hq'. intuition congruence.
      * rewrite H1 in Hq'. rewrite H1 in Hp'. intuition congruence.
  - (* pending_inv *)
    unfold pending_inv in *. simpl in *.
    rewrite (pcs_after_credits _ _ _ _ _ Hw).
    replace (Z.of_nat (length (queue d')) + (credits ps - credit p + credit p'))
      with (Z.of_nat (length (queue d')) + (credits ps - credit p) + credit p') by lia.
    eapply local_step_pending; [done|]. rewrite Hpe. f_equal. lia.
  - (* done_inv *)
    intros Hd'. simpl in *.
    destruct (done d) eqn:Hd.
    + destruct (Hdn Hd) as (Hq & Hp0 & Hqu). simpl in *.
      destruct (local_step_done_quiet _ _ _ _ _ _ Hl Hd Hq (Hqu w p Hw))
        as (Hq' & Hp' & Hqp' & _).
      split; [done|]. split; [congruence|].
      intros w' q' Hq''. destruct (decide (w = w')) as [<-|Hne].
      * rewrite (pcs_after_self _ _ _ _ _ Hw) in Hq''. by simplify_eq.
      * apply pcs_after_other in Hq'' as (q & Hq0 & ->); [|done].
        destruct bc; [rewrite wake_quiet|]; by eapply Hqu.
    + destruct (local_step_done_set _ _ _ _ _ _ Hl Hd Hd')
        as (-> & -> & -> & Hp0 & Hq0 & Hp0' & Hq0').
      split; [done|]. split; [done|].
      destruct (holder_credits (mkState d ps) w UES_check Hmx Hw eq_refl)
        as [Hb Hz]. simpl in *.
      unfold pending_inv in Hpe. simpl in Hpe.
      rewrite Hq0, Hp0 in Hpe. simpl in Hpe.
      assert (credits ps - credit UES_check = 0) as Hc0.
      { unfold credit in *. simpl in *. symmetry in Hpe.
        apply wrap_int_zero in Hpe; lia. }
      intros w' q' Hq''. destruct (decide (w = w')) as [<-|Hne].
      * rewrite (pcs_after_self _ _ _ _ _ Hw) in Hq''. by simplify_eq.
      * apply pcs_after_other in Hq'' as (q & Hq1 & ->); [|done].
        by eapply (Hz Hc0 w').
  - (* idle_inv *)
    intros Hq' Hall. simpl in *.
    destruct (Hall w p' (pcs_after_self _ _ _ _ _ Hw)) as [Hf Hc].
    destruct (local_step_idle _ _ _ _ _ _ Hl Hf Hc)
      as [?|[(Hf0 & Hc0 & Hqq & Hdd)|(-> & Hqq & Hn)]]; [done|..].
    + rewrite Hdd. apply Hid; simpl; [congruence|].
      intros w' q Hq. destruct (decide (w = w')) as [<-|Hne]; [by simplify_eq|].
      pose proof (Hall w' _ (pcs_after_other_2 _ _ p' bc _ _ Hne Hq)) as [H1 H2].
      destruct bc; [by rewrite wake_in_flight, wake_deciding in *|done].
    + exfalso. apply Hn. rewrite Hqq in Hq'. split; [|done].
      unfold pending_inv in Hpe. simpl in Hpe. rewrite Hpe, Hq'. simpl.
      rewrite credits_all_zero; [done|].
      intros w' q Hq. destruct (decide (w = w')) as [<-|Hne]; [by simplify_eq|].
      pose proof (Hall w' _ (pcs_after_other_2 _ _ p' bc _ _ Hne Hq)) as [H1 H2].
      apply not_in_flight_credit.
      destruct bc; [by rewrite wake_in_flight in *|done].
  - (* parked_inv *)
    intros Hd' Hnb w' q' Hq'. simpl in *.
    destruct bc.
    + destruct (local_step_broadcast _ _ _ _ _ Hl) as (_ & Hnw & _).
      destruct (decide (w = w')) as [<-|Hne].
      * rewrite (pcs_after_self _ _ _ _ _ Hw) in Hq'. by simplify_eq.
      * apply pcs_after_other in Hq' as (q & Hq1 & ->); [|done].
        apply wake_not_wait.
    + pose proof (Hnb w p' (pcs_after_self _ _ _ _ _ Hw)) as Hp'.
      destruct (done d) eqn:Hd.
      2:{ by destruct (local_step_done_set _ _ _ _ _ _ Hl Hd Hd') as (_ & ? & _). }
      assert (∀ w0 q, ps !! w0 = Some q → q ≠ WT_wait) as Hnw.
      { apply Hpk; [done|]. intros w0 q Hq.
        destruct (decide (w = w0)) as [<-|Hne].
        - simplify_eq/=. intros ->. simpl in Hl. by simplify_eq.
        - apply (Hnb w0). by rewrite (pcs_after_other_2 _ _ _ false _ _ Hne Hq). }
      destruct (decide (w = w')) as [<-|Hne].
      * rewrite (pcs_after_self _ _ _ _ _ Hw) in Hq'. simplify_eq.
        intros ->. apply local_step_wait in Hl as (_ & ? & _). congruence.
      * apply pcs_after_other in Hq' as (q & Hq1 & ->); [|done].
        by eapply Hnw.
  - (* exit_inv *)
    intros w' q' Hq' Hx. simpl in *.
    destruct (decide (w = w')) as [<-|Hne].
    + rewrite (pcs_after_self _ _ _ _ _ Hw) in Hq'. simplify_eq.
      destruct (local_step_exit _ _ _ _ _ _ Hl Hx) as [?|[-> ->]]; [done|].
      eapply (Hex w); [done|by left].
    + apply pcs_after_other in Hq' as (q & Hq1 & ->); [|done].
      eapply local_step_done_mono; [done|].
      apply (Hex w' q Hq1). destruct bc; [|done].
      destruct q; simpl in Hx; intuition congruence.
Qed.


Lemma spurious_inv w s s' :
  spurious w s = Some s' →
  pcs s !! w = Some WT_wait ∧
  s' = mkState (data s) (pcs_after w WT_woken false (pcs s)).
Proof.
  unfold spurious. destruct (pcs s !! w) as [[]|]; intros; by simplify_eq.
Qed.

Lemma pool_inv_spurious w s s' :
  pool_inv s → spurious w s = Some s' → pool_inv s'.
Proof.
  intros [Hmx Hpe Hdn Hid Hpk Hex] (Hw & ->)%spurious_inv.
  destruct s as [d ps]. simpl in *.
  assert (Hold : ∀ w' q', pcs_after w WT_woken false ps !! w' = Some q' →
                 (w' = w ∧ q' = WT_woken) ∨ (w' ≠ w ∧ ps !! w' = Some q')).
  { intros w' q' Hq'. destruct (decide (w = w')) as [<-|Hne].
    - rewrite (pcs_after_self _ _ _ _ _ Hw) in Hq'. left. by simplify_eq.
    - apply pcs_after_other in Hq' as (q & Hq & ->); auto. }
  split.
  - intros w' q' [[-> ->]|[Hne Hq]]%Hold; simpl.
    + pose proof (Hmx w _ Hw) as H. simpl in H. done.
    + apply (Hmx w' q' Hq).
  - unfold pending_inv in *. simpl in *.
    rewrite (pcs_after_credits _ _ _ _ _ Hw), Hpe. unfold credit. simpl.
    f_equal. lia.
  - intros Hd. destruct (Hdn Hd) as (? & ? & Hq). simpl in *.
    repeat split; [done..|].
    intros w' q' [[-> ->]|[Hne Hq']]%Hold; [done|by eapply Hq].
  - intros Hq Hall. apply Hid; [done|]. simpl in *.
    intros w' q Hq'. destruct (decide (w = w')) as [<-|Hne]; [by simplify_eq|].
    apply (Hall w'). by rewrite (pcs_after_other_2 _ _ _ false _ _ Hne Hq').
  - intros Hd Hnb. simpl in *. exfalso.
    eapply (Hpk Hd); [|exact Hw|done].
    intros w' q Hq'. simpl in *.
    destruct (decide (w = w')) as [<-|Hne]; [by simplify_eq|].
    apply (Hnb w'). by rewrite (pcs_after_other_2 _ _ _ false _ _ Hne Hq').
  - intros w' q' [[-> ->]|[Hne Hq']]%Hold Hx; simpl in *.
    + by destruct Hx.
    + by eapply Hex.
Qed.

Lemma step_length s s' : step s s' → length (pcs s') = length (pcs s).
Proof.
  intros [[w|w] H]; simpl in H.
  - apply wstep_inv in H as (p & d' & p' & bc & _ & _ & ->).
    apply pcs_after_length.
  - apply spurious_inv in H as (_ & ->). apply pcs_after_length.
Qed.

Lemma reachable_length n path s :
  reachable n path s → length (pcs s) = n.
Proof.
  induction 1 as [|s s' _ IH Hs]; simpl.
  - apply length_replicate.
  - by rewrite (step_length _ _ Hs).
Qed.

Lemma pool_inv_step s s' :
  Z.of_nat (length (pcs s)) ≤ INT_MAX →
  pool_inv s → step s s' → pool_inv s'.
Proof.
  intros HN Hi [[w|w] H]; simpl in H.
  - by eapply pool_inv_wstep.
  - by eapply pool_inv_spurious.
Qed.

(** The invariant holds in every state a pool of at most [INT_MAX]
    workers can reach. *)
Lemma reachable_inv n path s :
  Z.of_nat n ≤ INT_MAX → reachable n path s → pool_inv s.
Proof.
  intros HN. induction 1 as [|s s' Hr IH Hs].
  - apply pool_inv_init.
  - eapply pool_inv_step; [|done..].
    by rewrite (reachable_length _ _ _ Hr).
Qed.


(** ** The ground truth, read backwards *)

Lemma usage_inv_none path B e n :
  lstat path = None → usage path B e n → B = 0 ∧ e = true.
Proof. intros Hl H. inversion H; subst; by simplify_eq. Qed.

Lemma usage_inv_leaf path st B e n :
  lstat path = Some st → S_ISDIR (st_mode st) = false →
  usage path B e n → B = st_blocks st ∧ e = false.
Proof. intros Hl Hd H. inversion H; subst; simplify_eq; try done; congruence. Qed.

Lemma usage_inv_unreadable path st B e n :
  lstat path = Some st → S_ISDIR (st_mode st) = true → opendir path = None →
  usage path B e n → B = st_blocks st ∧ e = true.
Proof. intros Hl Hd Ho H. inversion H; subst; simplify_eq; try done; congruence. Qed.

Lemma usage_inv_dir path st names B e n :
  lstat path = Some st → S_ISDIR (st_mode st) = true →
  opendir path = Some names →
  usage path B e n →
  ∃ B' n', B = st_blocks st + B' ∧ n = S n' ∧
           usage_list (children path names) B' e n'.
Proof.
  intros Hl Hd Ho H. inversion H; subst; simplify_eq; try congruence.
  by eauto.
Qed.

Lemma usage_list_inv_nil B e n : usage_list [] B e n → B = 0 ∧ e = false ∧ n = 0%nat.
Proof. by inversion 1. Qed.

Lemma usage_list_inv_cons path paths B e n :
  usage_list (path :: paths) B e n →
  ∃ B1 e1 n1 B2 e2 n2,
    usage path B1 e1 n1 ∧ usage_list paths B2 e2 n2 ∧
    B = B1 + B2 ∧ e = e1 || e2 ∧ n = (n1 + n2)%nat.
Proof. inversion 1; subst. eauto 12. Qed.

Lemma usage_list_app q1 q2 B1 e1 n1 B2 e2 n2 :
  usage_list q1 B1 e1 n1 → usage_list q2 B2 e2 n2 →
  usage_list (q1 ++ q2) (B1 + B2) (e1 || e2) (n1 + n2).
Proof.
  revert B1 e1 n1. induction q1 as [|x q1 IH]; intros B1 e1 n1 H1 H2.
  - apply usage_list_inv_nil in H1 as (-> & -> & ->). done.
  - apply usage_list_inv_cons in H1
      as (Bx & ex & nx & Br & er & nr & Hx & Hr & -> & -> & ->).
    simpl.
    replace (Bx + Br + B2) with (Bx + (Br + B2)) by lia.
    replace (ex || er || e2) with (ex || (er || e2)) by by destruct ex, er.
    replace (nx + nr + n2)%nat with (nx + (nr + n2))%nat by lia.
    constructor; [done|]. by apply IH.
Qed.

Lemma usage_positive path B e n : usage path B e n → (0 < n)%nat.
Proof. inversion 1; lia. Qed.


(** ** Schedules *)

Lemma exec_app sched1 sched2 s :
  exec (sched1 ++ sched2) s = exec sched1 s ≫= exec sched2.
Proof.
  revert s. induction sched1 as [|c sched1 IH]; intros s; simpl; [done|].
  destruct (cstep c s); simpl; [apply IH|done].
Qed.

Lemma exec_reachable n path sched s s' :
  reachable n path s → exec sched s = Some s' → reachable n path s'.
Proof.
  revert s. induction sched as [|c sched IH]; intros s Hr H; simpl in H.
  - by simplify_eq.
  - destruct (cstep c s) as [s1|] eqn:Hc; simplify_eq/=.
    apply (IH s1); [|done]. eapply reachable_step; [done|by exists c].
Qed.

Lemma run_worker_exec w k s :
  run_worker w k s = exec (replicate k (Run w)) s.
Proof.
  revert s. induction k as [|k IH]; intros s; simpl; [done|].
  destruct (wstep w s); simpl; [apply IH|done].
Qed.

Lemma solo_exec w s s' : solo w s s' → ∃ sched, exec sched s = Some s'.
Proof. intros [k H]. exists (replicate k (Run w)). by rewrite <- run_worker_exec. Qed.

Lemma solo_refl w s : solo w s s.
Proof. by exists 0%nat. Qed.

Lemma solo_step w s s1 s' : wstep w s = Some s1 → solo w s1 s' → solo w s s'.
Proof. intros H [k Hk]. exists (S k). simpl. by rewrite H. Qed.

(** A step of the worker standing in the middle of the list. *)
Lemma wstep_middle l1 p l2 d :
  wstep (length l1) (mkState d (l1 ++ p :: l2)) =
  '(d', p', bc) ← local_step (length l1) p d;
  Some (mkState d'
          (if bc : bool
           then pthread_cond_broadcast l1 ++ p' :: pthread_cond_broadcast l2
           else l1 ++ p' :: l2)).
Proof.
  unfold wstep, pcs_after. simpl. rewrite list_lookup_middle by done. simpl.
  destruct (local_step (length l1) p d) as [[[d' p'] bc]|]; simpl; [|done].
  do 2 f_equal. destruct bc.
  - unfold pthread_cond_broadcast. rewrite fmap_app. simpl.
    rewrite <- (length_map wake l1) at 1.
    replace (length (map wake l1)) with (length (map wake l1) + 0)%nat by lia.
    by rewrite insert_app_r.
  - replace (length l1) with (length l1 + 0)%nat at 1 by lia.
    by rewrite insert_app_r.
Qed.

Lemma broadcast_replicate_lock m :
  pthread_cond_broadcast (replicate m WT_lock) = replicate m WT_lock.
Proof. unfold pthread_cond_broadcast. induction m; simpl; congruence. Qed.

Lemma broadcast_replicate_exit m :
  pthread_cond_broadcast (replicate m WT_exit) = replicate m WT_exit.
Proof. unfold pthread_cond_broadcast. induction m; simpl; congruence. Qed.

(** The first worker while the others have not started yet. *)
Lemma wstep_first p m d :
  wstep 0 (mkState d (p :: replicate m WT_lock)) =
  '(d', p', bc) ← local_step 0 p d;
  Some (mkState d' (p' :: replicate m WT_lock)).
Proof.
  pose proof (wstep_middle [] p (replicate m WT_lock) d) as H.
  simpl in H. rewrite H. clear H.
  destruct (local_step 0 p d) as [[[d' p'] bc]|]; simpl; [|done].
  destruct bc; [|done]. by rewrite broadcast_replicate_lock.
Qed.

Ltac solo_next :=
  eapply solo_step;
  [rewrite wstep_first; simpl; unfold_data; reflexivity|].

(** [update_error_status] run by the first worker alone. *)
Lemma solo_update_error_status err m d :
  mutex d = None →
  ∃ d', solo 0 (mkState d (UES_lock err :: replicate m WT_lock))
               (mkState d' (replicate (S m) WT_lock)) ∧
        mutex d' = None ∧ queue d' = queue d.
Proof.
  destruct d as [mx qu ts pe dn er]. simpl. intros ->.
  destruct ((wrap_int (pe - 1) =? 0) && bool_decide (qu = [])) eqn:Hc;
    destruct err.
  1,2: eexists; split;
    [do 3 solo_next; eapply solo_step;
     [rewrite wstep_first; simpl; unfold_data; rewrite Hc; reflexivity|];
     do 2 solo_next; apply solo_refl|done].
  1,2: eexists; split;
    [do 3 solo_next; eapply solo_step;
     [rewrite wstep_first; simpl; unfold_data; rewrite Hc; reflexivity|];
     solo_next; apply solo_refl|done].
Qed.


Ltac solo_with H :=
  eapply solo_step;
  [rewrite wstep_first; simpl; unfold_data; rewrite ?H; reflexivity|].

(** The first worker alone takes the task at the head of the queue,
    processes it and comes back for the next one. *)
Lemma solo_task m d path q :
  mutex d = None → queue d = path :: q →
  ∃ d' kids,
    solo 0 (mkState d (replicate (S m) WT_lock))
           (mkState d' (replicate (S m) WT_lock)) ∧
    mutex d' = None ∧ queue d' = q ++ kids ∧
    ∀ B e n, usage path B e n →
             ∃ B' e' n', usage_list kids B' e' n' ∧ n = S n'.
Proof.
  destruct d as [mx qu ts pe dn er]. simpl. intros -> ->.
  destruct (lstat path) as [st|] eqn:Hl.
  - destruct (S_ISDIR (st_mode st)) eqn:Hd.
    + destruct (opendir path) as [names|] eqn:Ho.
      * (* a directory and its entries *)
        set (kids := children path names).
        destruct (solo_update_error_status false m
                    (mkThreadData None (q ++ kids)
                       (wrap_off (ts + wrap_off (st_blocks st * 512)))
                       (wrap_int (pe + wrap_int (Z.of_nat (length kids))))
                       dn er) eq_refl)
          as (d' & Hs & Hm & Hq).
        exists d', kids. repeat split; [|done|done|].
        -- do 4 solo_next. solo_with Hl. do 2 solo_next. solo_with Hd.
           solo_with Ho. solo_next.
           eapply solo_step.
           { rewrite wstep_first. simpl. rewrite fold_enqueue.
             unfold_data. reflexivity. }
           do 3 solo_next. exact Hs.
        -- intros B e n Hu.
           destruct (usage_inv_dir _ _ _ _ _ _ Hl Hd Ho Hu)
             as (B' & n' & -> & -> & Hc).
           by exists B', e, n'.
      * (* a directory that cannot be opened *)
        destruct (solo_update_error_status false m
                    (mkThreadData None q
                       (wrap_off (ts + wrap_off (st_blocks st * 512)))
                       pe dn true) eq_refl)
          as (d' & Hs & Hm & Hq).
        exists d', []. rewrite app_nil_r. repeat split; [|done|done|].
        -- do 4 solo_next. solo_with Hl. do 2 solo_next. solo_with Hd.
           solo_with Ho. do 3 solo_next. exact Hs.
        -- intros B e n Hu. exists 0, false, 0%nat. split; [constructor|].
           inversion Hu; subst; simplify_eq; try done; congruence.
    + (* not a directory *)
      destruct (solo_update_error_status false m
                  (mkThreadData None q
                     (wrap_off (ts + wrap_off (st_blocks st * 512)))
                     pe dn er) eq_refl)
        as (d' & Hs & Hm & Hq).
      exists d', []. rewrite app_nil_r. repeat split; [|done|done|].
      * do 4 solo_next. solo_with Hl. do 2 solo_next. solo_with Hd.
        exact Hs.
      * intros B e n Hu. exists 0, false, 0%nat. split; [constructor|].
        inversion Hu; subst; simplify_eq; try done; congruence.
  - (* lstat fails *)
    destruct (solo_update_error_status true m
                (mkThreadData None q ts pe dn er) eq_refl)
      as (d' & Hs & Hm & Hq).
    exists d', []. rewrite app_nil_r. repeat split; [|done|done|].
    + do 4 solo_next. solo_with Hl. exact Hs.
    + intros B e n Hu. exists 0, false, 0%nat. split; [constructor|].
      inversion Hu; subst; simplify_eq; done.
Qed.


(** The first worker alone empties the queue and sets [done]. *)
Lemma solo_all n path m nq :
  Z.of_nat n ≤ INT_MAX →
  ∀ s Bq eq,
    reachable n path s →
    pcs s = replicate (S m) WT_lock → mutex (data s) = None →
    usage_list (queue (data s)) Bq eq nq →
    ∃ sched s',
      exec sched s = Some s' ∧ pcs s' = replicate (S m) WT_lock ∧
      mutex (data s') = None ∧ done (data s') = true ∧
      queue (data s') = [].
Proof.
  intros HN. induction nq as [nq IH] using lt_wf_ind.
  intros [d ps] Bq eq Hr Hps Hm Hq. simpl in *. subst ps.
  destruct (queue d) as [|task q] eqn:Hqu.
  - exists [], (mkState d (replicate (S m) WT_lock)). simpl.
    repeat split; try done.
    pose proof (reachable_inv _ _ _ HN Hr) as [_ _ _ Hid _ _].
    apply Hid; [done|]. intros w p Hp.
    change (WT_lock :: replicate m WT_lock) with (replicate (S m) WT_lock) in Hp.
    by apply lookup_replicate in Hp as [-> _].
  - apply usage_list_inv_cons in Hq
      as (B1 & e1 & n1 & B2 & e2 & n2 & H1 & H2 & -> & -> & ->).
    destruct (solo_task m d task q Hm Hqu) as (d' & kids & Hs & Hm' & Hq' & Hk).
    destruct (Hk _ _ _ H1) as (B' & e' & n' & Hu' & ->).
    destruct (solo_exec _ _ _ Hs) as [sched1 Hx1].
    destruct (IH (n2 + n')%nat ltac:(lia)
                (mkState d' (replicate (S m) WT_lock)) (B2 + B') (e2 || e'))
      as (sched2 & s' & Hx2 & Hfin); simpl.
    + by eapply exec_reachable.
    + done.
    + done.
    + rewrite Hq'. by apply usage_list_app.
    + exists (sched1 ++ sched2), s'. split; [|done].
      rewrite exec_app. simpl in *. by rewrite Hx1.
Qed.

(** A step of the first worker that has not left yet. *)
Lemma wstep_exited a p l2 d :
  wstep a (mkState d (replicate a WT_exit ++ p :: l2)) =
  '(d', p', bc) ← local_step a p d;
  Some (mkState d'
          (replicate a WT_exit ++
           p' :: (if bc : bool then pthread_cond_broadcast l2 else l2))).
Proof.
  pose proof (wstep_middle (replicate a WT_exit) p l2 d) as H.
  rewrite length_replicate in H. rewrite H.
  destruct (local_step a p d) as [[[d' p'] bc]|]; simpl; [|done].
  destruct bc; [|done]. by rewrite broadcast_replicate_exit.
Qed.

Lemma replicate_app_cons {A} a (x : A) l :
  replicate a x ++ x :: l = replicate (S a) x ++ l.
Proof. induction a; simpl in *; congruence. Qed.

(** Once [done] is set the workers leave one after the other. *)
Lemma exit_all d b :
  mutex d = None → done d = true → queue d = [] →
  ∀ a, ∃ sched,
    exec sched (mkState d (replicate a WT_exit ++ replicate b WT_lock))
    = Some (mkState d (replicate (a + b) WT_exit)).
Proof.
  intros Hm Hd Hq. induction b as [|b IH]; intros a.
  - exists []. simpl. by rewrite app_nil_r, Nat.add_0_r.
  - destruct (IH (S a)) as [sched Hs].
    exists ([Run a; Run a; Run a] ++ sched).
    rewrite exec_app.
    assert (exec [Run a; Run a; Run a]
              (mkState d (replicate a WT_exit ++ replicate (S b) WT_lock))
            = Some (mkState d (replicate (S a) WT_exit ++ replicate b WT_lock)))
      as ->.
    { destruct d as [mx qu ts pe dn er]. simpl in Hm, Hd, Hq. subst.
      rewrite <- replicate_app_cons.
      simpl. rewrite wstep_exited. simpl.
      rewrite wstep_exited. simpl.
      rewrite wstep_exited. simpl. done. }
    replace (a + S b)%nat with (S a + b)%nat by lia.
    exact Hs.
Qed.

(** Every finite tree has a schedule under which all workers leave. *)
Lemma terminating_schedule n path B e nn :
  (0 < n)%nat → Z.of_nat n ≤ INT_MAX →
  usage path B e nn →
  ∃ sched s, exec sched (init n path) = Some s ∧ all_exited s = true.
Proof.
  intros Hn HN Hu. destruct n as [|m]; [lia|].
  destruct (solo_all (S m) path m (nn + 0) HN (init (S m) path)
              (B + 0) (e || false))
    as (sched1 & [d1 ps1] & Hx1 & Hps & Hm & Hd & Hq); simpl in *.
  - constructor.
  - done.
  - done.
  - constructor; [done|constructor].
  - subst ps1.
    destruct (exit_all d1 (S m) Hm Hd Hq 0) as [sched2 Hx2].
    simpl in Hx2.
    exists (sched1 ++ sched2), (mkState d1 (replicate (S m) WT_exit)).
    split.
    + rewrite exec_app, Hx1. simpl. exact Hx2.
    + unfold all_exited. simpl.
      clear. induction m; simpl; [done|]. done.
Qed.


(** ** The owner of the mutex and the tail of the queue *)

(** Outside a critical section, with the mutex taken, a statement
    leaves the shared data alone. *)
Lemma local_step_locked_out w p d d' p' bc :
  local_step w p d = Some (d', p', bc) →
  holds p = false → mutex d ≠ None → d' = d.
Proof. intros H Hh Hm. local_cases H; done. Qed.

Lemma local_step_to_pending w p d d' paths bc :
  local_step w p d = Some (d', HD_pending paths, bc) →
  queue d' = queue d ++ paths.
Proof. intros H. local_cases H; done. Qed.

Lemma wake_eq_pending q paths : wake q = HD_pending paths → q = HD_pending paths.
Proof. by destruct q. Qed.

Lemma local_step_fill w p d d' p' bc :
  local_step w p d = Some (d', p', bc) →
  queue d = [] → queue d' = [] ∨ filling p' = true.
Proof. intros H Hq. local_cases H; auto. Qed.

Lemma local_step_filling w p d d' p' :
  local_step w p d = Some (d', p', false) →
  filling p = true → filling p' = true.
Proof. intros H Hf. local_cases H; done. Qed.

Lemma local_step_to_dequeue w p d d' bc :
  local_step w p d = Some (d', WT_dequeue, bc) → queue d' ≠ [].
Proof.
  intros H. local_cases H.
  destruct qu; [|done].
  rewrite bool_decide_eq_true_2 in * by done. simpl in *. by destruct dn.
Qed.

Lemma local_step_to_unlock_none w p d d' bc :
  local_step w p d = Some (d', WT_unlock None, bc) →
  p = WT_dequeue ∧ queue d = [].
Proof. intros H. local_cases H. done. Qed.

Lemma wake_eq_dequeue q : wake q = WT_dequeue → q = WT_dequeue.
Proof. by destruct q. Qed.

Lemma wake_eq_unlock q path : wake q = WT_unlock path → q = WT_unlock path.
Proof. by destruct q. Qed.

Lemma queue_inv_init n path : queue_inv (init n path).
Proof.
  split.
  - intros w H. done.
  - intros w paths H. by apply lookup_replicate in H as [? _].
  - intros w H. by apply lookup_replicate in H as [? _].
  - intros w p H. by apply lookup_replicate in H as [-> _].
Qed.

Lemma queue_inv_wstep w s s' :
  pool_inv s → queue_inv s → wstep w s = Some s' → queue_inv s'.
Proof.
  intros [Hmx _ _ _ _ _] [Hown Hsuf Hwait Hdq] Hs.
  apply wstep_inv in Hs as (p & d' & p' & bc & Hw & Hl & ->).
  destruct s as [d ps]. simpl in *.
  pose proof (local_step_mutex _ _ _ _ _ _ Hl (Hmx w p Hw)) as [Hm' Hch].
  assert (Hout : ∀ w' q, w ≠ w' → ps !! w' = Some q → holds q = true → d' = d).
  { intros w' q Hne Hq Hh.
    eapply local_step_locked_out; [done| |].
    - destruct (holds p) eqn:Hhp; [|done].
      apply (Hmx w p Hw) in Hhp. apply (Hmx w' q Hq) in Hh. simpl in *.
      congruence.
    - apply (Hmx w' q Hq) in Hh. simpl in *. congruence. }
  split; [| |intros w' Hw'; simpl in *; destruct bc|].
  5:{ (* line 66 is reached with a task to take *)
      intros w' q' Hq'. simpl in *.
      destruct (decide (w = w')) as [<-|Hne].
      - rewrite (pcs_after_self _ _ _ _ _ Hw) in Hq'. simplify_eq. split.
        + intros ->. by eapply local_step_to_dequeue.
        + intros ->. apply local_step_to_unlock_none in Hl as [-> Hq].
          by destruct (Hdq w _ Hw) as [Hne _]; apply Hne.
      - apply pcs_after_other in Hq' as (q & Hq & ->); [|done].
        destruct (Hdq w' q Hq) as [Hne1 Hne2]. simpl in *. split.
        + intros Heq.
          assert (q = WT_dequeue) as ->.
          { destruct bc; [by apply wake_eq_dequeue|done]. }
          rewrite (Hout w' WT_dequeue Hne Hq eq_refl). by apply Hne1.
        + intros Heq. apply Hne2.
          destruct bc; [by apply wake_eq_unlock|done]. }
  3:{ (* after a broadcast nobody is parked *)
      exfalso. destruct (local_step_broadcast _ _ _ _ _ Hl) as (_ & Hnw & _).
      destruct (decide (w = w')) as [<-|Hne].
      - rewrite (pcs_after_self _ _ _ _ _ Hw) in Hw'. by simplify_eq.
      - apply pcs_after_other in Hw' as (q & _ & Hq'); [|done].
        symmetry in Hq'. by apply wake_not_wait in Hq'. }
  3:{ destruct (decide (w = w')) as [<-|Hne].
      - rewrite (pcs_after_self _ _ _ _ _ Hw) in Hw'. simplify_eq.
        left. pose proof Hl as Hl'.
        apply local_step_wait in Hl as (-> & _ & Hq).
        simpl in Hl'. rewrite Hq in Hl'. simpl in Hl'.
        destruct (done d); simplify_eq/=. by destruct d.
      - apply pcs_after_other in Hw' as (q & Hq & Hq'); [|done]. subst q.
        destruct (Hwait w' Hq) as [Hq0|(w'' & p'' & Hp'' & Hf)]; simpl in *.
        + destruct (local_step_fill _ _ _ _ _ _ Hl Hq0) as [?|Hf]; [by left|].
          right. exists w, p'. split; [|done]. by eapply pcs_after_self.
        + right. destruct (decide (w = w'')) as [<-|Hne'].
          * simplify_eq. exists w, p'. split; [by eapply pcs_after_self|].
            by eapply local_step_filling.
          * exists w'', p''. split; [|done].
            by rewrite (pcs_after_other_2 _ _ _ false _ _ Hne' Hp''). }
  - intros w' Hw'. simpl in *. apply lookup_lt_is_Some.
    rewrite pcs_after_length.
    destruct Hch as [Heq|[[_ Heq]|[_ Heq]]].
    + apply lookup_lt_is_Some. apply Hown. simpl. congruence.
    + assert (w' = w) as -> by congruence. by eapply lookup_lt_Some.
    + congruence.
  - intros w' paths Hw'. simpl in *.
    destruct (decide (w = w')) as [<-|Hne].
    + rewrite (pcs_after_self _ _ _ _ _ Hw) in Hw'. simplify_eq.
      exists (queue d). by eapply local_step_to_pending.
    + apply pcs_after_other in Hw' as (q & Hq & Hq'); [|done].
      assert (q = HD_pending paths) as ->.
      { destruct bc; [by apply wake_eq_pending|done]. }
      destruct (Hsuf w' paths Hq) as [q0 Hq0]. simpl in *.
      exists q0. rewrite <- Hq0. f_equal.
      eapply local_step_locked_out; [done| |].
      * destruct (holds p) eqn:Hh; [|done].
        apply (Hmx w p Hw) in Hh. pose proof (Hmx w' _ Hq) as H'.
        simpl in *. assert (Some w = Some w') by (rewrite <- Hh; by apply H').
        congruence.
      * pose proof (Hmx w' _ Hq) as H'. simpl in H'.
        destruct H' as [H' _]. specialize (H' eq_refl). congruence.
Qed.

Lemma queue_inv_spurious w s s' :
  queue_inv s → spurious w s = Some s' → queue_inv s'.
Proof.
  intros [Hown Hsuf Hwait Hdq] (Hw & ->)%spurious_inv. split.
  4:{ intros w' q' Hq'. simpl in *.
      destruct (decide (w = w')) as [<-|Hne].
      - rewrite (pcs_after_self _ _ _ _ _ Hw) in Hq'. by simplify_eq.
      - apply pcs_after_other in Hq' as (q & Hq & ->); [|done].
        by apply (Hdq w' q Hq). }
  3:{ intros w' Hw'. simpl in *.
      destruct (decide (w = w')) as [<-|Hne].
      - rewrite (pcs_after_self _ _ _ _ _ Hw) in Hw'. by simplify_eq.
      - apply pcs_after_other in Hw' as (q & Hq & Heq); [|done].
        simpl in Heq. subst q.
        destruct (Hwait w' Hq) as [?|(w'' & p'' & Hp'' & Hf)]; [by left|].
        right. exists w'', p''. split; [|done].
        destruct (decide (w = w'')) as [<-|Hne']; [by simplify_eq|].
        by rewrite (pcs_after_other_2 _ _ _ false _ _ Hne' Hp''). }
  - intros w' Hw'. simpl in *. apply lookup_lt_is_Some.
    rewrite pcs_after_length. apply lookup_lt_is_Some. by apply Hown.
  - intros w' paths Hw'. simpl in *.
    destruct (decide (w = w')) as [<-|Hne].
    + rewrite (pcs_after_self _ _ _ _ _ Hw) in Hw'. by simplify_eq.
    + apply pcs_after_other in Hw' as (q & Hq & Heq); [|done].
      simpl in Heq. subst q. by eapply Hsuf.
Qed.

Lemma reachable_queue_inv n path s :
  Z.of_nat n ≤ INT_MAX → reachable n path s → queue_inv s.
Proof.
  intros HN. induction 1 as [|s s' Hr IH [[w|w] Hs]]; simpl in *.
  - apply queue_inv_init.
  - eapply queue_inv_wstep; [|done..]. by eapply reachable_inv.
  - by eapply queue_inv_spurious.
Qed.

(** ** What is counted and what is still owed *)

Lemma owes_wake p B e n : owes (wake p) B e n ↔ owes p B e n.
Proof. by destruct p. Qed.

Lemma owes_all_broadcast ps B e n :
  owes_all (pthread_cond_broadcast ps) B e n ↔ owes_all ps B e n.
Proof.
  unfold pthread_cond_broadcast. split.
  - revert B e n. induction ps as [|p ps IH]; intros B e n H; simpl in *.
    + inversion H; subst. constructor.
    + inversion H; subst. constructor; [by apply owes_wake|by apply IH].
  - induction 1; simpl; constructor; [by apply owes_wake|done].
Qed.

Lemma owes_all_lookup ps w p B e n :
  owes_all ps B e n → ps !! w = Some p →
  ∃ Bp ep np Br er nr,
    owes p Bp ep np ∧ B = Bp + Br ∧ e = ep || er ∧ n = (np + nr)%nat ∧
    ∀ p' Bp' ep' np',
      owes p' Bp' ep' np' →
      owes_all (<[w := p']> ps) (Bp' + Br) (ep' || er) (np' + nr).
Proof.
  intros H. revert w.
  induction H as [|x ps B1 e1 n1 B2 e2 n2 Hx Hps IH]; intros w Hw.
  - done.
  - destruct w as [|w]; simplify_eq/=.
    + exists B1, e1, n1, B2, e2, n2. repeat split; [done|].
      intros p' Bp' ep' np' Hp'. by constructor.
    + destruct (IH w Hw) as (Bp & ep & np & Br & er & nr & Hp & -> & -> & -> & Hins).
      exists Bp, ep, np, (B1 + Br), (e1 || er), (n1 + nr)%nat.
      repeat split; [done|lia| |lia|].
      * by destruct e1, ep, er.
      * intros p' Bp' ep' np' Hp'.
        replace (Bp' + (B1 + Br)) with (B1 + (Bp' + Br)) by lia.
        replace (ep' || (e1 || er)) with (e1 || (ep' || er))
          by by destruct e1, ep', er.
        replace (np' + (n1 + nr))%nat with (n1 + (np' + nr))%nat by lia.
        constructor; [done|]. by apply Hins.
Qed.

(** The same after a step of worker [w], broadcast or not. *)
Lemma owes_all_after ps w p B e n bc :
  owes_all ps B e n → ps !! w = Some p →
  ∃ Bp ep np Br er nr,
    owes p Bp ep np ∧ B = Bp + Br ∧ e = ep || er ∧ n = (np + nr)%nat ∧
    ∀ p' Bp' ep' np',
      owes p' Bp' ep' np' →
      owes_all (pcs_after w p' bc ps) (Bp' + Br) (ep' || er) (np' + nr).
Proof.
  intros H Hw. unfold pcs_after. destruct bc; [|by apply owes_all_lookup].
  apply owes_all_broadcast in H.
  destruct (owes_all_lookup _ w (wake p) _ _ _ H)
    as (Bp & ep & np & Br & er & nr & Hp & ? & ? & ? & Hins).
  { unfold pthread_cond_broadcast. by rewrite list_lookup_fmap, Hw. }
  exists Bp, ep, np, Br, er, nr. repeat split; try done.
  by apply owes_wake.
Qed.

Lemma owes_all_exited ps B e n :
  forallb is_exit ps = true → owes_all ps B e n →
  B = 0 ∧ e = false ∧ n = 0%nat.
Proof.
  intros Hx H. induction H as [|p ps B1 e1 n1 B2 e2 n2 Hp Hps IH]; [done|].
  simpl in Hx. apply andb_true_iff in Hx as [Hp1 Hx].
  destruct (IH Hx) as (-> & -> & ->).
  destruct p; try done. by destruct Hp as (-> & -> & ->).
Qed.

Lemma owes_all_replicate n : owes_all (replicate n WT_lock) 0 false 0.
Proof.
  induction n as [|n IH]; simpl; [constructor|].
  by apply (owes_cons WT_lock _ 0 false 0 0 false 0).
Qed.

(** A statement moves blocks from what is owed to [total_size], and
    errors from what is owed to [error_occurred]; line 66 takes one
    task from those that are left. *)
Lemma local_step_settle w p d d' p' bc T Bp ep np Bq eq nq :
  local_step w p d = Some (d', p', bc) →
  (p = WT_dequeue → queue d ≠ []) →
  owes p Bp ep np → usage_list (queue d) Bq eq nq →
  total_size d = wrap_off (512 * (T - Bq - Bp)) →
  ∃ Bp' ep' np' Bq' eq' nq',
    owes p' Bp' ep' np' ∧ usage_list (queue d') Bq' eq' nq' ∧
    total_size d' = wrap_off (512 * (T - Bq' - Bp')) ∧
    error_occurred d' || eq' || ep' = error_occurred d || eq || ep ∧
    (nq' + np' + (if is_dequeue p then 1 else 0) = nq + np)%nat.
Proof.
  intros H Hne Ho Hq Ht.
  local_cases H; simpl in *;
    try solve [exists Bp, ep, np, Bq, eq, nq;
               split; [done|split; [done|split; [done|split; [done|lia]]]]].
  - (* dequeue on an empty queue *)
    by destruct Hne.
  - (* dequeue *)
    destruct Ho as (-> & -> & ->).
    apply usage_list_inv_cons in Hq
      as (B1 & e1 & n1 & B2 & e2 & n2 & H1 & H2 & -> & -> & ->).
    pose proof (usage_positive _ _ _ _ H1) as Hpos.
    destruct n1 as [|n1]; [lia|].
    exists B1, e1, n1, B2, e2, n2.
    split; [done|]. split; [done|]. split; [f_equal; lia|].
    split; [by destruct er, e1, e2|lia].
  - (* lstat fails *)
    destruct (usage_inv_none _ _ _ _ ltac:(done) Ho) as [-> ->].
    assert (np = 0%nat) as -> by (inversion Ho; subst; simplify_eq; done).
    exists 0, true, 0%nat, Bq, eq, nq.
    split; [done|]. split; [done|]. split; [done|]. split; [done|lia].
  - (* total_size += size *)
    destruct Ho as [Hl Hu].
    exists (Bp - st_blocks st), ep, np, Bq, eq, nq.
    split. { split; [done|]. by replace (st_blocks st + (Bp - st_blocks st)) with Bp by lia. }
    split; [done|].
    split. { rewrite wrap_off_add_l, wrap_off_add_r. f_equal. lia. }
    split; [done|lia].
  - (* S_ISDIR holds *)
    destruct Ho as [Hl Hu].
    exists Bp, ep, np, Bq, eq, nq.
    split; [by exists st|]. split; [done|]. split; [done|]. split; [done|lia].
  - (* S_ISDIR fails *)
    destruct Ho as [Hl Hu].
    destruct (usage_inv_leaf _ _ _ _ _ Hl ltac:(done) Hu) as [HB ->].
    assert (Bp = 0) as -> by lia.
    assert (np = 0%nat) as ->
      by (inversion Hu; subst; simplify_eq; first [done|congruence]).
    exists 0, false, 0%nat, Bq, eq, nq.
    split; [done|]. split; [done|]. split; [done|]. split; [done|lia].
  - (* opendir succeeds *)
    destruct Ho as (st & Hl & Hd & Hu).
    destruct (usage_inv_dir _ _ _ _ _ _ Hl Hd ltac:(done) Hu)
      as (B' & n' & HB & Hn & Hc).
    assert (B' = Bp) as -> by lia. assert (n' = np) as -> by lia.
    exists Bp, ep, np, Bq, eq, nq.
    split; [done|]. split; [done|]. split; [done|]. split; [done|lia].
  - (* opendir fails *)
    destruct Ho as (st & Hl & Hd & Hu).
    destruct (usage_inv_unreadable _ _ _ _ _ Hl Hd ltac:(done) Hu) as [HB ->].
    assert (Bp = 0) as -> by lia.
    assert (np = 0%nat) as ->
      by (inversion Hu; subst; simplify_eq; first [done|congruence]).
    exists 0, true, 0%nat, Bq, eq, nq.
    split; [done|]. split; [done|]. split; [done|]. split; [done|lia].
  - (* error_occurred = 1 *)
    destruct Ho as (-> & -> & ->).
    exists 0, false, 0%nat, Bq, eq, nq.
    split; [done|]. split; [done|]. split; [done|].
    split; [by destruct er, eq|lia].
  - (* the children enter the queue *)
    exists 0, false, 0%nat, (Bq + Bp), (eq || ep), (nq + np)%nat.
    split; [done|]. split; [by apply usage_list_app|].
    split; [f_equal; lia|]. split; [by destruct er, eq, ep|lia].
  - (* the error of this call *)
    destruct Ho as (-> & -> & ->).
    exists 0, false, 0%nat, Bq, eq, nq.
    split; [done|]. split; [done|]. split; [done|].
    split; [by destruct er, eq|lia].
Qed.

Lemma settle_inv_init B e n num_threads path :
  usage path B e n → settle_inv B e n (init num_threads path).
Proof.
  intros Hu. exists (B + 0), (e || false), (n + 0)%nat, 0, false, 0%nat. simpl.
  repeat split.
  - constructor; [done|constructor].
  - apply owes_all_replicate.
  - by replace (512 * (B - (B + 0) - 0)) with 0 by lia.
  - by destruct e.
  - lia.
Qed.

(** ** The measure goes down *)

Lemma rank_nonneg N p : 0 ≤ N → 0 ≤ rank N p.
Proof. intros. unfold rank. destruct p as [| | | | | |[?|]| | | | | | | | | | | | | | | | | | | |]; simpl; lia. Qed.

Lemma ranks_nonneg N ps : 0 ≤ N → 0 ≤ ranks N ps.
Proof.
  intros HN. induction ps as [|p ps IH]; simpl; [lia|].
  pose proof (rank_nonneg N p HN). lia.
Qed.

Lemma ranks_insert N ps w p p' :
  ps !! w = Some p →
  ranks N (<[w := p']> ps) = ranks N ps - rank N p + rank N p'.
Proof.
  revert w. induction ps as [|x ps IH]; intros [|w] H; simplify_eq/=; try lia.
  rewrite (IH _ H). lia.
Qed.

Lemma rank_wake N p : rank N p ≤ rank N (wake p) ≤ rank N p + 7.
Proof. unfold rank. destruct p; simpl; lia. Qed.

Lemma ranks_broadcast N ps :
  ranks N (pthread_cond_broadcast ps) ≤ ranks N ps + 7 * Z.of_nat (length ps).
Proof.
  unfold pthread_cond_broadcast. induction ps as [|p ps IH]; simpl; [lia|].
  pose proof (rank_wake N p). simpl in IH. lia.
Qed.

Lemma ranks_after N ps w p p' bc :
  ps !! w = Some p →
  ranks N (pcs_after w p' bc ps)
  ≤ ranks N ps - rank N p + rank N p'
    + (if bc then 7 * Z.of_nat (length ps) else 0).
Proof.
  intros Hw. unfold pcs_after. destruct bc.
  - rewrite (ranks_insert _ _ _ (wake p)).
    + pose proof (ranks_broadcast N ps). pose proof (rank_wake N p). lia.
    + unfold pthread_cond_broadcast. by rewrite list_lookup_fmap, Hw.
  - rewrite (ranks_insert _ _ _ p) by done. lia.
Qed.

Lemma local_step_rank N w p d d' p' bc :
  0 ≤ N → local_step w p d = Some (d', p', bc) → p ≠ WT_unlock None →
  rank N p' + (if bc then 7 * N else 0) + 1
  ≤ rank N p + (if is_dequeue p then task_weight N else 0).
Proof.
  intros HN H Hne. unfold rank, task_weight.
  local_cases H; simpl; try lia; try done.
Qed.

(** Every step of a worker takes at least 1 from the measure; a
    spurious wake-up adds 7 to it. *)
Lemma settle_inv_cstep B e T c s s' :
  dequeue_inv s → settle_inv B e T s → cstep c s = Some s' →
  ∃ T', settle_inv B e T' s' ∧
        potential s' T' + 1
        ≤ potential s T + (match c with Spurious _ => 8 | Run _ => 0 end).
Proof.
  intros Hdq (Bq & eq & nq & Bw & ew & nw & Hq & Hw & Ht & He & ->) Hs.
  destruct c as [w|w]; simpl in Hs.
  - apply wstep_inv in Hs as (p & d' & p' & bc & Hp & Hl & ->).
    destruct (owes_all_after _ _ _ _ _ _ bc Hw Hp)
      as (Bp & ep & np & Br & er & nr & Ho & -> & -> & -> & Hins).
    destruct (Hdq w p Hp) as [Hne Hnone].
    destruct (local_step_settle _ _ _ _ _ _ (B - Br) Bp ep np Bq eq nq Hl Hne Ho Hq)
      as (Bp' & ep' & np' & Bq' & eq' & nq' & Ho' & Hq' & Ht' & He' & Hn').
    { rewrite Ht. f_equal. lia. }
    exists (nq' + (np' + nr))%nat. split.
    + exists Bq', eq', nq', (Bp' + Br), (ep' || er), (np' + nr)%nat. simpl.
      repeat split; [done|by apply Hins| | ].
      * rewrite Ht'. f_equal. lia.
      * rewrite <- He. rewrite <- orb_assoc in He'.
        destruct (error_occurred d'), (error_occurred (data s)),
          eq, eq', ep, ep', er; simpl in *; congruence.
    + unfold potential. simpl. rewrite pcs_after_length.
      set (N := Z.of_nat (length (pcs s))).
      assert (0 ≤ N) as HN by lia.
      pose proof (ranks_after N _ _ _ p' bc Hp) as Hr. fold N in Hr.
      pose proof (local_step_rank N _ _ _ _ _ _ HN Hl Hnone) as Hk.
      assert (task_weight N * Z.of_nat (nq' + (np' + nr))
              + (if is_dequeue p then task_weight N else 0)
              = task_weight N * Z.of_nat (nq + (np + nr))) as Htw.
      { destruct (is_dequeue p); nia. }
      destruct bc; lia.
  - apply spurious_inv in Hs as (Hp & ->).
    destruct (owes_all_after _ _ _ _ _ _ false Hw Hp)
      as (Bp & ep & np & Br & er & nr & (-> & -> & ->) & -> & -> & -> & Hins).
    exists (nq + (0 + nr))%nat. split.
    + exists Bq, eq, nq, (0 + Br), (false || er), (0 + nr)%nat. simpl.
      repeat split; try done. by apply (Hins WT_woken 0 false 0%nat).
    + unfold potential. simpl. rewrite pcs_after_length.
      pose proof (ranks_after (Z.of_nat (length (pcs s))) _ _ _ WT_woken false Hp).
      unfold rank in *. simpl in *. lia.
Qed.

Lemma reachable_settle n path s B e nn :
  Z.of_nat n ≤ INT_MAX →
  usage path B e nn → reachable n path s → ∃ T, settle_inv B e T s.
Proof.
  intros HN Hu. induction 1 as [|s s' Hr [T IH] [c Hs]].
  - exists nn. by eapply settle_inv_init.
  - pose proof (reachable_queue_inv _ _ _ HN Hr) as [_ _ _ Hdq].
    destruct (settle_inv_cstep _ _ _ _ _ _ Hdq IH Hs) as (T' & ? & _).
    by exists T'.
Qed.

(** The length of a run is bounded by the measure it starts from, plus
    8 for every spurious wake-up. *)
Lemma exec_bounded n path B e sched :
  Z.of_nat n ≤ INT_MAX →
  ∀ s T s',
    reachable n path s → settle_inv B e T s → exec sched s = Some s' →
    ∃ T', settle_inv B e T' s' ∧
          potential s' T' + Z.of_nat (length sched)
          ≤ potential s T + 8 * spurious_count sched.
Proof.
  intros HN. induction sched as [|c sched IH]; intros s T s' Hr Hi Hx.
  - simpl in *. simplify_eq. exists T. split; [done|lia].
  - simpl in Hx. destruct (cstep c s) as [s1|] eqn:Hc; simplify_eq/=.
    pose proof (reachable_queue_inv _ _ _ HN Hr) as [_ _ _ Hdq].
    destruct (settle_inv_cstep _ _ _ _ _ _ Hdq Hi Hc) as (T1 & Hi1 & Hle).
    destruct (IH s1 T1 s') as (T' & Hi' & Hle'); [|done|done|].
    { eapply reachable_step; [done|by exists c]. }
    exists T'. split; [done|].
    destruct c; lia.
Qed.

Lemma potential_nonneg s T : 0 ≤ potential s T.
Proof.
  unfold potential, task_weight.
  pose proof (ranks_nonneg (Z.of_nat (length (pcs s))) (pcs s)). nia.
Qed.

Lemma ranks_replicate_lock N n :
  ranks N (replicate n WT_lock) = 7 * Z.of_nat n.
Proof.
  induction n as [|n IH]; simpl; [lia|].
  rewrite IH. unfold rank. simpl. lia.
Qed.

Lemma potential_init n path nn :
  potential (init n path) nn
  = 7 * Z.of_nat n + (20 + 14 * Z.of_nat n) * Z.of_nat nn.
Proof.
  unfold potential, task_weight. simpl.
  by rewrite length_replicate, ranks_replicate_lock.
Qed.

(** A run from the start has at most [7n + (20 + 14n) * nn] steps, and
    8 more for each spurious wake-up. *)
Lemma run_length_bounded n path B e nn sched s :
  Z.of_nat n ≤ INT_MAX → usage path B e nn →
  exec sched (init n path) = Some s →
  Z.of_nat (length sched)
  ≤ 7 * Z.of_nat n + (20 + 14 * Z.of_nat n) * Z.of_nat nn
    + 8 * spurious_count sched.
Proof.
  intros HN Hu Hx.
  destruct (exec_bounded n path B e sched HN (init n path) nn s)
    as (T' & _ & Hle); [constructor|by eapply settle_inv_init|done|].
  rewrite potential_init in Hle. pose proof (potential_nonneg s T'). lia.
Qed.

(** When every worker has left, everything owed has been counted. *)
Lemma exited_settled n path s B e nn :
  (0 < n)%nat → Z.of_nat n ≤ INT_MAX →
  usage path B e nn → reachable n path s → all_exited s = true →
  done (data s) = true ∧ queue (data s) = [] ∧ pending (data s) = 0 ∧
  total_size (data s) = wrap_off (512 * B) ∧ error_occurred (data s) = e.
Proof.
  intros Hn HN Hu Hr Hx.
  pose proof (reachable_inv _ _ _ HN Hr) as [_ _ Hdn _ _ Hex].
  pose proof (reachable_length _ _ _ Hr) as Hlen.
  destruct (reachable_settle _ _ _ _ _ _ HN Hu Hr)
    as (T & Bq & eq & nq & Bw & ew & nw & Hq & Hw & Ht & He & _).
  assert (Hd : done (data s) = true).
  { destruct (pcs s) as [|p ps] eqn:Hps; [simpl in Hlen; lia|].
    unfold all_exited in Hx. rewrite Hps in Hx. simpl in Hx.
    apply andb_true_iff in Hx as [Hp _].
    apply (Hex 0%nat p); [by rewrite Hps|]. destruct p; try done. by right. }
  destruct (Hdn Hd) as (Hq0 & Hp0 & _).
  rewrite Hq0 in Hq. apply usage_list_inv_nil in Hq as (-> & -> & ->).
  destruct (owes_all_exited _ _ _ _ Hx Hw) as (-> & -> & _).
  repeat split; try done.
  - rewrite Ht. f_equal. lia.
  - rewrite <- He. by destruct (error_occurred (data s)).
Qed.

Lemma credits_upper ps : credits ps ≤ Z.of_nat (length ps).
Proof.
  induction ps as [|p ps IH]; simpl; [lia|].
  assert (credit p ≤ 1); [|lia].
  unfold credit. destruct (in_flight p); destruct p; simpl; lia.
Qed.

Lemma credits_lower ps :
  (∀ w p, ps !! w = Some p → 0 ≤ credit p) → 0 ≤ credits ps.
Proof.
  induction ps as [|x ps IH]; intros H; simpl; [lia|].
  pose proof (H 0%nat x eq_refl).
  assert (0 ≤ credits ps); [|lia].
  apply IH. intros w p Hw. apply (H (S w) p Hw).
Qed.

Lemma credit_suffix s w p :
  suffix_inv s → pcs s !! w = Some p →
  - Z.of_nat (length (queue (data s))) ≤ credit p - (if in_flight p then 1 else 0).
Proof.
  intros Hsuf Hw. unfold credit.
  destruct (in_flight p); destruct p; simpl; try lia.
  all: destruct (Hsuf w paths Hw) as [q0 ->]; rewrite length_app; lia.
Qed.

(** While a task is in flight, the queued tasks and the tasks in
    flight together are at least one. *)
Lemma in_flight_registered s w p :
  mutex_inv s → queue_inv s →
  pcs s !! w = Some p → in_flight p = true →
  1 ≤ Z.of_nat (length (queue (data s))) + credits (pcs s)
    ≤ Z.of_nat (length (queue (data s))) + Z.of_nat (length (pcs s)).
Proof.
  intros Hmx [Hown Hsuf _ _] Hw Hf.
  split; [|pose proof (credits_upper (pcs s)); lia].
  assert (Hfree : ∀ ps : list pc,
             (∀ w' q, ps !! w' = Some q → holds q = false) →
             ps !! w = Some p → 1 ≤ credits ps).
  { intros ps Hall Hp.
    assert (credits ps = credits (<[w := WT_lock]> ps) + credit p) as ->.
    { rewrite (credits_insert _ _ _ _ Hp). change (credit WT_lock) with 0. lia. }
    rewrite (credit_unlocked p (Hall _ _ Hp)), Hf.
    assert (0 ≤ credits (<[w:=WT_lock]> ps)); [|lia].
    apply credits_lower. intros w' q Hq.
    destruct (decide (w = w')) as [<-|Hne].
    - rewrite list_lookup_insert_eq in Hq by (by eapply lookup_lt_Some).
      by simplify_eq.
    - rewrite list_lookup_insert_ne in Hq by done.
      rewrite (credit_unlocked q (Hall _ _ Hq)). destruct (in_flight q); lia. }
  destruct (mutex (data s)) as [h|] eqn:Hm.
  - destruct (Hown h Hm) as [ph Hh].
    assert (holds ph = true) as Hph by (by apply (Hmx h ph Hh)).
    pose proof (credit_suffix s h ph Hsuf Hh) as Hcs.
    destruct (holder_credits s h ph Hmx Hh Hph) as [[Hlo _] _].
    destruct (decide (h = w)) as [->|Hne].
    + simplify_eq. rewrite Hf in Hcs. lia.
    + assert (1 ≤ credits (<[h := WT_lock]> (pcs s))).
      { apply Hfree.
        - intros w' q Hq. destruct (decide (h = w')) as [<-|Hne'].
          + rewrite list_lookup_insert_eq in Hq by (by eapply lookup_lt_Some).
            by simplify_eq.
          + rewrite list_lookup_insert_ne in Hq by done.
            destruct (holds q) eqn:Hhq; [|done].
            apply (Hmx w' q Hq) in Hhq. congruence.
        - by rewrite list_lookup_insert_ne. }
      rewrite (credits_insert _ _ _ _ Hh) in H.
      change (credit WT_lock) with 0 in H. destruct (in_flight ph); lia.
  - assert (1 ≤ credits (pcs s)); [|lia].
    apply Hfree; [|done]. intros w' q Hq.
    destruct (holds q) eqn:Hhq; [|done].
    apply (Hmx w' q Hq) in Hhq. congruence.
Qed.


(** ** Critical sections *)

Local Arguments wstep : simpl never.

Lemma wstep_at w s p :
  pcs s !! w = Some p →
  wstep w s =
  '(d', p', bc) ← local_step w p (data s);
  Some (mkState d' (pcs_after w p' bc (pcs s))).
Proof. intros H. unfold wstep. by rewrite H. Qed.

Lemma wake_wake q : wake (wake q) = wake q.
Proof. by destruct q. Qed.

Lemma pcs_after_twice w p1 b1 p2 b2 ps :
  pcs_after w p2 b2 (pcs_after w p1 b1 ps) = pcs_after w p2 (b1 || b2) ps.
Proof.
  unfold pcs_after, pthread_cond_broadcast.
  destruct b1, b2; simpl;
    rewrite ?list_fmap_insert, ?list_insert_insert_eq; try done.
  f_equal. rewrite <- list_fmap_compose. apply list_fmap_ext.
  intros i q _. simpl. apply wake_wake.
Qed.

Ltac section_step Hw :=
  erewrite wstep_at by (simpl; eauto using pcs_after_self);
  simpl; unfold_data; simpl;
  rewrite ?Hw; simpl;
  rewrite ?bool_decide_eq_true_2 by done;
  rewrite ?pcs_after_twice;
  cbn [mbind option_bind orb].

(** [handle_file] is one critical section with one statement. *)
Lemma handle_file_section w s path st :
  pcs s !! w = Some (HF_lock path st) → mutex (data s) = None →
  critical_section w 1 s
  = Some (mkState (handle_file st (data s))
            (pcs_after w (if S_ISDIR (st_mode st) then HD_opendir path
                          else UES_lock false) false (pcs s))).
Proof.
  intros Hw Hm. destruct s as [[mx qu ts pe dn er] ps]. simpl in *. subst mx.
  unfold critical_section, holding, handle_file. simpl.
  section_step Hw. section_step Hw. section_step Hw.
  done.
Qed.

(** The children are queued and counted in one critical section with
    three statements, the last of them the broadcast. *)
Lemma handle_directory_section w s paths :
  pcs s !! w = Some (HD_lock paths) → mutex (data s) = None →
  critical_section w 3 s
  = Some (mkState (handle_directory_enqueue (data s) paths)
            (pcs_after w (UES_lock false) true (pcs s))).
Proof.
  intros Hw Hm. destruct s as [[mx qu ts pe dn er] ps]. simpl in *. subst mx.
  unfold critical_section, holding, handle_directory_enqueue. simpl.
  rewrite !fold_enqueue. unfold_data.
  section_step Hw. section_step Hw. rewrite fold_enqueue. unfold_data.
  rewrite bool_decide_eq_true_2 by done.
  section_step Hw. section_step Hw. section_step Hw.
  done.
Qed.

(** The failure branch of [handle_directory]. *)
Lemma handle_directory_error_section w s :
  pcs s !! w = Some HD_err_lock → mutex (data s) = None →
  critical_section w 1 s
  = Some (mkState (set_error_occurred true (data s))
            (pcs_after w (UES_lock false) false (pcs s))).
Proof.
  intros Hw Hm. destruct s as [[mx qu ts pe dn er] ps]. simpl in *. subst mx.
  unfold critical_section, holding. simpl.
  section_step Hw. section_step Hw. section_step Hw.
  done.
Qed.

(** [update_error_status] is one critical section, with three
    statements, or four when it sets [done] and broadcasts. *)
Lemma update_error_status_section w s err :
  pcs s !! w = Some (UES_lock err) → mutex (data s) = None →
  let '(d', bc) := update_error_status (data s) err in
  critical_section w (if bc then 4 else 3) s
  = Some (mkState d' (pcs_after w WT_lock bc (pcs s))).
Proof.
  intros Hw Hm. destruct s as [[mx qu ts pe dn er] ps]. simpl in *. subst mx.
  unfold update_error_status. simpl.
  destruct err; simpl;
    destruct ((wrap_int (pe - 1) =? 0) && bool_decide (qu = [])) eqn:Hc;
    unfold critical_section, holding; simpl;
    section_step Hw; section_step Hw; section_step Hw; section_step Hc;
    section_step Hw; try section_step Hw;
    done.
Qed.


Lemma holding_reachable n root w k s s' :
  reachable n root s → holding w k s = Some s' → reachable n root s'.
Proof.
  revert s. induction k as [|k IH]; intros s Hr H; simpl in H.
  - by simplify_eq.
  - destruct (wstep w s) as [s1|] eqn:Hs; simplify_eq/=.
    case_bool_decide; [|done].
    apply (IH s1); [|done].
    eapply reachable_step; [done|]. by exists (Run w).
Qed.

Lemma critical_section_reachable n root w k s s' :
  reachable n root s → critical_section w k s = Some s' →
  reachable n root s'.
Proof.
  unfold critical_section. intros Hr H.
  destruct (mutex (data s)); [done|].
  destruct (wstep w s) as [s1|] eqn:Hs1; simplify_eq/=.
  case_bool_decide; [|done].
  destruct (holding w k s1) as [s2|] eqn:Hs2; simplify_eq/=.
  destruct (wstep w s2) as [s3|] eqn:Hs3; simplify_eq/=.
  case_bool_decide; [|done]. simplify_eq.
  eapply reachable_step; [|by exists (Run w)].
  eapply holding_reachable; [|done].
  eapply reachable_step; [done|by exists (Run w)].
Qed.

Lemma in_flight_not_quiet p : in_flight p = true → quiet p = false.
Proof. by destruct p. Qed.

(** ** [total_size] *)

Lemma local_step_total w p d d' p' bc :
  local_step w p d = Some (d', p', bc) →
  (∃ path st, p = HF_add path st ∧ d' = handle_file st d) ∨
  total_size d' = total_size d.
Proof.
  intros H. local_cases H; try (by right).
  left. by eauto.
Qed.

Lemma handle_file_mod_512 st d :
  total_size d mod 512 = 0 → total_size (handle_file st d) mod 512 = 0.
Proof.
  intros H. unfold handle_file. simpl.
  rewrite wrap_off_add_r, wrap_off_mod_512.
  rewrite Z.add_mod, H, Z_mod_mult by lia. done.
Qed.

Lemma reachable_total_mod_512 n root s :
  reachable n root s → total_size (data s) mod 512 = 0.
Proof.
  induction 1 as [|s s' Hr IH [[w|w] Hs]]; simpl in *; [done|..].
  - apply wstep_inv in Hs as (p & d' & p' & bc & Hw & Hl & ->). simpl.
    destruct (local_step_total _ _ _ _ _ _ Hl) as [(? & st & -> & ->)|Heq].
    + by apply handle_file_mod_512.
    + by rewrite Heq.
  - by apply spurious_inv in Hs as (_ & ->).
Qed.

Lemma wrap_off_range z : - 2 ^ 63 ≤ wrap_off z < 2 ^ 63.
Proof.
  unfold wrap_off.
  pose proof (Z.mod_pos_bound (z + 2 ^ 63) (2 ^ 64)). lia.
Qed.

Lemma reachable_total_range n root s :
  reachable n root s → - 2 ^ 63 ≤ total_size (data s) < 2 ^ 63.
Proof.
  induction 1 as [|s s' Hr IH [[w|w] Hs]]; simpl in *; [lia|..].
  - apply wstep_inv in Hs as (p & d' & p' & bc & Hw & Hl & ->). simpl.
    destruct (local_step_total _ _ _ _ _ _ Hl) as [(? & st & -> & ->)|Heq].
    + apply wrap_off_range.
    + by rewrite Heq.
  - by apply spurious_inv in Hs as (_ & ->).
Qed.

(** Line 99 on a non-negative multiple of 512 that fits in [off_t]. *)
Lemma total_blocks_exact B :
  0 ≤ B → 512 * B ≤ OFF_MAX → total_blocks (512 * B) = B.
Proof.
  unfold OFF_MAX, total_blocks. intros H0 H1.
  rewrite wrap_off_small by lia.
  rewrite Z.quot_div_nonneg by lia.
  replace (512 * B + 511) with (B * 512 + 511) by lia.
  rewrite Z.div_add_l by lia. replace (511 / 512) with 0 by done. lia.
Qed.

Lemma total_blocks_multiple t :
  t mod 512 = 0 → 0 ≤ t < 2 ^ 63 → 512 * total_blocks t = t.
Proof.
  intros Hmod Ht. apply Z.mod_divide in Hmod as [B HB]; [|done].
  assert (t = 512 * B) as -> by lia.
  rewrite total_blocks_exact; [done|lia|unfold OFF_MAX; lia].
Qed.

(** ** The orchestrator *)

Lemma getopt_loop_valid atoi opts num_threads n :
  (∀ optarg, atoi optarg ≤ INT_MAX) →
  1 ≤ num_threads ≤ INT_MAX →
  getopt_loop atoi opts num_threads = inl n → 1 ≤ n ≤ INT_MAX.
Proof.
  intros Hatoi. revert num_threads.
  induction opts as [|[optarg|] opts IH]; intros num_threads Hn H; simpl in H.
  - by simplify_eq.
  - destruct (atoi optarg <? 1) eqn:Hlt; [done|].
    apply Z.ltb_ge in Hlt. apply (IH (atoi optarg)); [|done].
    split; [done|apply Hatoi].
  - done.
Qed.

Lemma getopt_loop_invalid atoi opts num_threads optarg :
  In (Opt_j optarg) opts → atoi optarg < 1 →
  getopt_loop atoi opts num_threads = inr EXIT_FAILURE.
Proof.
  revert num_threads.
  induction opts as [|[a|] opts IH]; intros num_threads Hin Hlt; simpl.
  - done.
  - destruct (atoi a <? 1) eqn:Ha; [done|].
    destruct Hin as [Heq|Hin]; [|by apply IH].
    simplify_eq. apply Z.ltb_ge in Ha. lia.
  - done.
Qed.

(** One round of the loop of [main]. *)
Lemma main_loop_cons n root paths sched scheds code out s :
  exec sched (init n root) = Some s → all_exited s = true →
  main_loop n (root :: paths) (sched :: scheds) code out
  = main_loop n paths scheds
      (if error_occurred (data s) then EXIT_FAILURE else code)
      (out ++ [(total_blocks (total_size (data s)), root)]).
Proof. intros Hx Ha. simpl. rewrite Hx. simpl. by rewrite Ha. Qed.

(** What [main] prints and returns after its loop: one line per path,
    and failure as soon as one path had an error. *)
Lemma main_loop_outcome n paths :
  (0 < n)%nat → Z.of_nat n ≤ INT_MAX →
  ∀ results scheds code out o,
    Forall2 (λ root (r : Z * bool), ∃ nn, usage root r.1 r.2 nn) paths results →
    main_loop n paths scheds code out = Some o →
    stdout o
    = out ++ zip_with (λ root (r : Z * bool),
                         (total_blocks (wrap_off (512 * r.1)), root))
               paths results ∧
    exit_code o = if existsb snd results then EXIT_FAILURE else code.
Proof.
  intros Hn HN results. revert paths.
  induction results as [|[B e] results IH];
    intros paths scheds code out o HF H.
  - apply Forall2_nil_inv_r in HF as ->. simpl in *. simplify_eq. simpl.
    by rewrite app_nil_r.
  - apply Forall2_cons_inv_r in HF as (root & paths' & [nn Hu] & HF & ->).
    simpl in Hu. simpl in H.
    destruct scheds as [|sched scheds]; [done|].
    destruct (exec sched (init n root)) as [s|] eqn:Hx; simplify_eq/=.
    destruct (all_exited s) eqn:Ha; [|done].
    destruct (exited_settled n root s B e nn Hn HN Hu) as (_ & _ & _ & Ht & He);
      [by eapply exec_reachable; [constructor|]|done|].
    destruct (IH _ _ _ _ _ HF H) as [Hout Hcode].
    rewrite Hout, Hcode, Ht, He, <- app_assoc. simpl. split; [done|].
    destruct e; simpl; [|done]. by destruct (existsb snd results).
Qed.

(** With schedules that let every pool finish, [main] finishes. *)
Lemma main_loop_terminates n paths :
  (0 < n)%nat → Z.of_nat n ≤ INT_MAX →
  Forall (λ root, ∃ B e nn, usage root B e nn) paths →
  ∃ scheds, ∀ code out, is_Some (main_loop n paths scheds code out).
Proof.
  intros Hn HN. induction 1 as [|root paths (B & e & nn & Hu) _ [scheds IH]].
  - exists []. intros code out. simpl. by eexists.
  - destruct (terminating_schedule n root B e nn Hn HN Hu)
      as (sched & s & Hx & Ha).
    exists (sched :: scheds). intros code out.
    rewrite (main_loop_cons _ _ _ _ _ _ _ _ Hx Ha). apply IH.
Qed.


(** ** No deadlock *)

Lemma local_step_enabled w p d :
  mutex d = None ∨ holds p = true → blocked p = false →
  is_Some (local_step w p d).
Proof.
  intros Hm Hb. destruct d as [mx qu ts pe dn er].
  destruct p; simpl in *; unfold_data;
    repeat case_match; simplify_eq/=; try done;
    destruct Hm; simplify_eq.
Qed.

Lemma forallb_false_lookup {A} (f : A → bool) (l : list A) :
  forallb f l = false → ∃ i x, l !! i = Some x ∧ f x = false.
Proof.
  induction l as [|x l IH]; simpl; [done|].
  destruct (f x) eqn:Hx; simpl.
  - intros (i & y & Hy & Hf)%IH. by exists (S i), y.
  - intros _. by exists 0%nat, x.
Qed.

Lemma forallb_true_lookup {A} (f : A → bool) (l : list A) i x :
  forallb f l = true → l !! i = Some x → f x = true.
Proof.
  revert i. induction l as [|y l IH]; intros i; simpl; [done|].
  intros [Hy Hl]%andb_true_iff. destruct i as [|i]; simpl.
  - by intros [= <-].
  - by apply IH.
Qed.

(** As long as some worker has not left, some worker can take a step:
    no worker waits for a mutex nobody gives back, and no worker is
    parked waiting for a broadcast that has already happened. *)
Lemma no_deadlock n root s :
  Z.of_nat n ≤ INT_MAX → reachable n root s → all_exited s = false →
  ∃ w s', wstep w s = Some s'.
Proof.
  intros HN Hr Hx.
  pose proof (reachable_inv _ _ _ HN Hr) as [Hmx _ _ Hid Hpk _].
  pose proof (reachable_queue_inv _ _ _ HN Hr) as [Hown _ Hwait _].
  assert (Hgo : ∀ w p, pcs s !! w = Some p →
                       mutex (data s) = None ∨ holds p = true →
                       blocked p = false → ∃ s', wstep w s = Some s').
  { intros w p Hw Hm Hb.
    destruct (local_step_enabled w p (data s) Hm Hb) as [[[d' p'] bc] Hl].
    eexists. rewrite (wstep_at _ _ _ Hw), Hl. done. }
  destruct (mutex (data s)) as [h|] eqn:Hm.
  - destruct (Hown h Hm) as [p Hp].
    assert (holds p = true) as Hh by (by apply (Hmx h p Hp)).
    exists h. apply (Hgo h p Hp); [by right|by destruct p].
  - destruct (forallb blocked (pcs s)) eqn:Hb.
    + exfalso.
      apply forallb_false_lookup in Hx as (w & p & Hw & Hp).
      pose proof (forallb_true_lookup _ _ _ _ Hb Hw) as Hbp.
      assert (p = WT_wait) as -> by (by destruct p).
      assert (Hq : queue (data s) = []).
      { destruct (Hwait w Hw) as [?|(w' & p' & Hw' & Hf)]; [done|].
        pose proof (forallb_true_lookup _ _ _ _ Hb Hw'). by destruct p'. }
      assert (Hd : done (data s) = true).
      { apply Hid; [done|]. intros w' p' Hw'.
        pose proof (forallb_true_lookup _ _ _ _ Hb Hw'). by destruct p'. }
      eapply (Hpk Hd); [|exact Hw|done].
      intros w' p' Hw' ->.
      by pose proof (forallb_true_lookup _ _ _ _ Hb Hw').
    + apply forallb_false_lookup in Hb as (w & p & Hw & Hp).
      exists w. apply (Hgo w p Hw); [by left|done].
Qed.

(** ** The properties of the specification *)

(** C1. A worker that has listed a directory with K children queues
    all K paths and adds K to [pending] inside one critical section
    (lines 202-221), and that section ends before the same worker
    executes [pending--] for the directory (line 273, inside
    [update_error_status]).  While one worker is inside a critical
    section no other worker changes the shared data.  Hence, as long as
    a task is in flight (taken from the queue, its own decrement not
    yet executed: in particular a directory that has been measured and
    whose children are not queued or not counted yet), [done] is not
    set, and [pending] is at least 1 unless the counter has wrapped. *)
Theorem children_registered_before_decrement n root s :
  Z.of_nat n ≤ INT_MAX → reachable n root s →
  (∀ w paths,
     pcs s !! w = Some (HD_lock paths) → mutex (data s) = None →
     ∃ s', critical_section w 3 s = Some s' ∧ reachable n root s' ∧
           queue (data s') = queue (data s) ++ paths ∧
           pending (data s')
           = wrap_int (pending (data s) + Z.of_nat (length paths)) ∧
           pcs s' !! w = Some (UES_lock false)) ∧
  (∀ w err s',
     pcs s !! w = Some (UES_dec err) → wstep w s = Some s' →
     pending (data s') = wrap_int (pending (data s) - 1)) ∧
  (∀ w p w' s',
     pcs s !! w = Some p → holds p = true → w' ≠ w →
     wstep w' s = Some s' → data s' = data s) ∧
  (∀ w p,
     pcs s !! w = Some p → in_flight p = true →
     done (data s) = false ∧
     (Z.of_nat (length (queue (data s))) + Z.of_nat n ≤ INT_MAX →
      1 ≤ pending (data s))).
Proof.
  intros HN Hr.
  pose proof (reachable_inv _ _ _ HN Hr) as [Hmx Hpe Hdn _ _ _].
  pose proof (reachable_queue_inv _ _ _ HN Hr) as Hqi.
  pose proof (reachable_length _ _ _ Hr) as Hlen.
  split; [|split; [|split]].
  - intros w paths Hw Hm.
    pose proof (handle_directory_section w s paths Hw Hm) as Hcs.
    eexists. split; [exact Hcs|]. split.
    { by eapply critical_section_reachable. }
    unfold handle_directory_enqueue. rewrite fold_enqueue. simpl.
    split; [done|]. split; [by rewrite wrap_int_add_r|].
    by eapply pcs_after_self.
  - intros w err s' Hw Hs.
    rewrite (wstep_at _ _ _ Hw) in Hs. simpl in Hs. by simplify_eq.
  - intros w p w' s' Hw Hh Hne Hs.
    apply wstep_inv in Hs as (q & d' & q' & bc & Hq & Hl & ->). simpl.
    eapply local_step_locked_out; [done| |].
    + destruct (holds q) eqn:Hhq; [|done].
      apply (Hmx w' q Hq) in Hhq. apply (Hmx w p Hw) in Hh. congruence.
    + apply (Hmx w p Hw) in Hh. congruence.
  - intros w p Hw Hf. split.
    + destruct (done (data s)) eqn:Hd; [|done].
      destruct (Hdn Hd) as (_ & _ & Hq). specialize (Hq w p Hw).
      by rewrite (in_flight_not_quiet p Hf) in Hq.
    + intros Hb.
      pose proof (in_flight_registered s w p Hmx Hqi Hw Hf) as [Hlo Hhi].
      rewrite Hpe, wrap_int_small; [done|].
      unfold INT_MAX in *. rewrite Hlen in Hhi. lia.
Qed.

(** C2, amended.  After a directory with K children has been listed,
    one critical section (lines 202-221) queues the K paths, adds K to
    [pending], broadcasts and unlocks; [pending] is then larger by K,
    the decrement for the directory itself is still to come.  That
    decrement is executed by the same worker in the next critical
    section it enters ([update_error_status], lines 267-288), which
    leaves the queue alone, takes 1 from [pending], and sets [done] and
    broadcasts when [pending] has become 0 on an empty queue. *)
Theorem enqueue_then_decrement_sections n root s w paths :
  Z.of_nat n ≤ INT_MAX → reachable n root s →
  pcs s !! w = Some (HD_lock paths) → mutex (data s) = None →
  ∃ s1 k s2,
    critical_section w 3 s = Some s1 ∧
    data s1 = handle_directory_enqueue (data s) paths ∧
    queue (data s1) = queue (data s) ++ paths ∧
    pending (data s1)
    = wrap_int (pending (data s) + Z.of_nat (length paths)) ∧
    mutex (data s1) = None ∧
    pcs s1 !! w = Some (UES_lock false) ∧
    (∀ w' p, pcs s1 !! w' = Some p → p ≠ WT_wait) ∧
    critical_section w k s1 = Some s2 ∧
    data s2 = (update_error_status (data s1) false).1 ∧
    queue (data s2) = queue (data s1) ∧
    pending (data s2) = wrap_int (pending (data s1) - 1) ∧
    pcs s2 !! w = Some WT_lock ∧
    reachable n root s2.
Proof.
  intros HN Hr Hw Hm.
  pose proof (handle_directory_section w s paths Hw Hm) as Hcs.
  set (s1 := mkState (handle_directory_enqueue (data s) paths)
               (pcs_after w (UES_lock false) true (pcs s))) in *.
  assert (Hw1 : pcs s1 !! w = Some (UES_lock false)).
  { by eapply pcs_after_self. }
  assert (Hm1 : mutex (data s1) = None).
  { simpl. unfold handle_directory_enqueue. rewrite fold_enqueue.
    by destruct (data s). }
  pose proof (update_error_status_section w s1 false Hw1 Hm1) as Hcs2.
  destruct (update_error_status (data s1) false) as [d2 bc] eqn:Hu.
  exists s1, (if bc then 4%nat else 3%nat),
    (mkState d2 (pcs_after w WT_lock bc (pcs s1))).
  split; [done|]. split; [done|].
  split. { simpl. unfold handle_directory_enqueue. by rewrite fold_enqueue. }
  split. { simpl. unfold handle_directory_enqueue.
           rewrite fold_enqueue. simpl. by rewrite wrap_int_add_r. }
  split; [done|]. split; [done|].
  split.
  { intros w' p Hp. simpl in Hp.
    destruct (decide (w = w')) as [<-|Hne].
    - rewrite (pcs_after_self _ _ _ _ _ Hw) in Hp. by simplify_eq.
    - apply pcs_after_other in Hp as (q & _ & ->); [|done].
      apply wake_not_wait. }
  split; [done|].
  assert (d2 = (update_error_status (data s1) false).1) as Hd2
    by (by rewrite Hu).
  split; [done|].
  assert (queue d2 = queue (data s1) ∧
          pending d2 = wrap_int (pending (data s1) - 1)) as [Hq2 Hp2].
  { rewrite Hd2. unfold update_error_status. simpl.
    destruct (_ && _); simpl; done. }
  split; [done|]. split; [done|].
  split. { by eapply pcs_after_self. }
  eapply critical_section_reachable; [|exact Hcs2].
  by eapply critical_section_reachable.
Qed.


(** C3. For a fixed tree with [nn] nodes to visit and [B] allocated
    blocks in its readable nodes, and a pool of [n >= 1] workers: some
    schedule lets all workers leave; a run that has not ended with all
    workers gone can always go on with a step of some worker; a run has
    at most [7n + (20 + 14n) * nn] steps, and 8 more for each spurious
    wake-up; and whatever the schedules, two pools of any sizes that
    have finished report the same number of blocks, which is [B] when
    [512 * B] fits in [off_t]. *)
Theorem total_independent_of_worker_count root B e nn :
  usage root B e nn →
  (∀ n, (0 < n)%nat → Z.of_nat n ≤ INT_MAX →
        ∃ sched s, exec sched (init n root) = Some s ∧ all_exited s = true) ∧
  (∀ n sched s,
     Z.of_nat n ≤ INT_MAX →
     exec sched (init n root) = Some s → all_exited s = false →
     ∃ w s', wstep w s = Some s') ∧
  (∀ n sched s,
     Z.of_nat n ≤ INT_MAX →
     exec sched (init n root) = Some s →
     Z.of_nat (length sched)
     ≤ 7 * Z.of_nat n + (20 + 14 * Z.of_nat n) * Z.of_nat nn
       + 8 * spurious_count sched) ∧
  (∀ n1 n2 sched1 sched2 s1 s2,
     (0 < n1)%nat → Z.of_nat n1 ≤ INT_MAX →
     (0 < n2)%nat → Z.of_nat n2 ≤ INT_MAX →
     exec sched1 (init n1 root) = Some s1 → all_exited s1 = true →
     exec sched2 (init n2 root) = Some s2 → all_exited s2 = true →
     total_size (data s1) = wrap_off (512 * B) ∧
     total_blocks (total_size (data s1)) = total_blocks (total_size (data s2)) ∧
     (0 ≤ B → 512 * B ≤ OFF_MAX → total_blocks (total_size (data s1)) = B)).
Proof.
  intros Hu. split; [|split; [|split]].
  - intros n Hn HN. by eapply terminating_schedule.
  - intros n sched s HN Hx Ha.
    eapply no_deadlock; [done| |done].
    by eapply exec_reachable; [constructor|].
  - intros n sched s HN Hx. by eapply run_length_bounded.
  - intros n1 n2 sched1 sched2 s1 s2 Hn1 HN1 Hn2 HN2 Hx1 Ha1 Hx2 Ha2.
    destruct (exited_settled n1 root s1 B e nn Hn1 HN1 Hu) as (_ & _ & _ & Ht1 & _);
      [by eapply exec_reachable; [constructor|]|done|].
    destruct (exited_settled n2 root s2 B e nn Hn2 HN2 Hu) as (_ & _ & _ & Ht2 & _);
      [by eapply exec_reachable; [constructor|]|done|].
    rewrite Ht1, Ht2. repeat split.
    intros H0 H1. unfold OFF_MAX in *. rewrite wrap_off_small by lia.
    by apply total_blocks_exact.
Qed.

(** C4. No step clears [done].  The only step that sets it is the
    test of line 279 taken with [pending == 0] and the queue empty,
    and that test sets it whenever it finds them so; the broadcast
    that follows leaves no worker parked.  Whenever the mutex is free,
    [done] is set exactly when [pending] is 0 and the queue is empty,
    and once it is set no worker is parked any more. *)
Theorem done_monotone_and_exact n root s :
  Z.of_nat n ≤ INT_MAX → reachable n root s →
  (∀ s', step s s' → done (data s) = true → done (data s') = true) ∧
  (∀ s', step s s' → done (data s) = false → done (data s') = true →
         ∃ w, pcs s !! w = Some UES_check ∧ wstep w s = Some s' ∧
              pending (data s) = 0 ∧ queue (data s) = [] ∧
              pending (data s') = 0 ∧ queue (data s') = [] ∧
              pcs s' !! w = Some UES_broadcast) ∧
  (∀ w, pcs s !! w = Some UES_check →
        pending (data s) = 0 → queue (data s) = [] →
        ∃ s', wstep w s = Some s' ∧ done (data s') = true ∧
              pcs s' !! w = Some UES_broadcast) ∧
  (∀ w, pcs s !! w = Some UES_broadcast →
        ∃ s', wstep w s = Some s' ∧
              ∀ w' p, pcs s' !! w' = Some p → p ≠ WT_wait) ∧
  (mutex (data s) = None →
   (done (data s) = true ↔ pending (data s) = 0 ∧ queue (data s) = [])) ∧
  (mutex (data s) = None → done (data s) = true →
   ∀ w p, pcs s !! w = Some p → p ≠ WT_wait).
Proof.
  intros HN Hr.
  pose proof (reachable_inv _ _ _ HN Hr) as [Hmx Hpe Hdn Hid Hpk _].
  pose proof (reachable_queue_inv _ _ _ HN Hr) as Hqi.
  pose proof (reachable_length _ _ _ Hr) as Hlen.
  split; [|split; [|split; [|split; [|split]]]].
  - intros s' [[w|w] Hs] Hd; simpl in Hs.
    + apply wstep_inv in Hs as (p & d' & p' & bc & Hw & Hl & ->). simpl.
      by eapply local_step_done_mono.
    + by apply spurious_inv in Hs as (_ & ->).
  - intros s' [[w|w] Hs] Hd Hd'; simpl in Hs.
    + pose proof Hs as Hs0.
      apply wstep_inv in Hs as (p & d' & p' & bc & Hw & Hl & ->).
      simpl in Hd'.
      destruct (local_step_done_set _ _ _ _ _ _ Hl Hd Hd')
        as (-> & -> & -> & ? & ? & ? & ?).
      exists w. repeat split; try done. by eapply pcs_after_self.
    + apply spurious_inv in Hs as (_ & ->). simpl in Hd'. congruence.
  - intros w Hw Hp Hq.
    rewrite (wstep_at _ _ _ Hw). simpl. rewrite Hp, Hq. simpl.
    eexists. split; [done|]. split; [by destruct (data s)|].
    by eapply pcs_after_self.
  - intros w Hw. rewrite (wstep_at _ _ _ Hw). simpl.
    eexists. split; [done|]. intros w' p Hp. simpl in Hp.
    destruct (decide (w = w')) as [<-|Hne].
    + rewrite (pcs_after_self _ _ _ _ _ Hw) in Hp. by simplify_eq.
    + apply pcs_after_other in Hp as (q & _ & ->); [|done].
      apply wake_not_wait.
  - intros Hm. split.
    + intros Hd. by destruct (Hdn Hd) as (? & ? & _).
    + intros [Hp Hq]. apply Hid; [done|]. intros w p Hw.
      assert (holds p = false) as Hh.
      { destruct (holds p) eqn:Hh; [|done].
        apply (Hmx w p Hw) in Hh. congruence. }
      split; [|by destruct p].
      destruct (in_flight p) eqn:Hf; [|done]. exfalso.
      pose proof (in_flight_registered s w p Hmx Hqi Hw Hf) as [Hlo Hhi].
      rewrite Hq in Hlo, Hhi. simpl in Hlo, Hhi.
      unfold pending_inv in Hpe. rewrite Hp, Hq in Hpe. simpl in Hpe.
      rewrite wrap_int_small in Hpe; [lia|].
      unfold INT_MAX in *. lia.
  - intros Hm Hd. apply Hpk; [done|]. intros w p Hw ->.
    pose proof (Hmx w _ Hw) as [H _]. specialize (H eq_refl). congruence.
Qed.

(** Every line of the output is there, in the order of the paths, and
    carries what line 99 makes of the total of its path. *)
Lemma main_loop_lines n paths :
  ∀ scheds code out o,
    main_loop n paths scheds code out = Some o →
    length (stdout o) = (length out + length paths)%nat ∧
    (∀ i line, out !! i = Some line → stdout o !! i = Some line) ∧
    ∀ i root,
      paths !! i = Some root →
      ∃ sched s,
        scheds !! i = Some sched ∧
        exec sched (init n root) = Some s ∧ all_exited s = true ∧
        stdout o !! (length out + i)%nat
        = Some (total_blocks (total_size (data s)), root).
Proof.
  induction paths as [|root paths IH]; intros scheds code out o H.
  - cbn [main_loop] in H. injection H as <-. cbn [stdout length].
    split; [lia|]. split; [done|]. intros i root' Hi. by destruct i.
  - cbn [main_loop] in H. destruct scheds as [|sched scheds]; [done|].
    destruct (exec sched (init n root)) as [s|] eqn:Hx; [|done].
    cbn [mbind option_bind] in H.
    destruct (all_exited s) eqn:Ha; [|done].
    destruct (IH _ _ _ _ H) as (Hlen & Hpre & Hlines).
    rewrite length_app in Hlen. cbn [length] in *.
    split; [lia|]. split.
    + intros i line Hi. apply Hpre. by apply lookup_app_l_Some.
    + intros [|i] root' Hi; cbn [lookup list_lookup] in Hi.
      * injection Hi as <-. exists sched, s.
        split; [done|]. split; [done|]. split; [done|].
        apply Hpre. rewrite Nat.add_0_r. by apply list_lookup_middle.
      * destruct (Hlines i root' Hi) as (sched' & s' & Hs & Hx' & Ha' & Hl).
        exists sched', s'. split; [done|]. split; [done|]. split; [done|].
        rewrite <- Hl. f_equal. rewrite length_app. cbn [length]. lia.
Qed.

(** C5. Line 99 computes, of every byte count that is not negative,
    the least number of 512-byte blocks that cover it.  For every
    top-level path [main] prints one line, in the order of the paths
    and after the workers of the path have all been joined, and the
    line carries what line 99 makes of the [total_size] of that path:
    the least number of blocks that cover it whenever it is not
    negative, which it is when the blocks of the tree are not
    negative and fit in [off_t].  Some schedules let [main] get
    there. *)
Theorem report_is_ceiling n paths :
  (∀ t, 0 ≤ t ≤ OFF_MAX - 511 →
        512 * (total_blocks t - 1) < t ≤ 512 * total_blocks t) ∧
  ((0 < n)%nat → Z.of_nat n ≤ INT_MAX →
   Forall (λ root, ∃ B e nn, usage root B e nn) paths →
   ∃ scheds, ∀ code out, is_Some (main_loop n paths scheds code out)) ∧
  (∀ scheds code out o,
     main_loop n paths scheds code out = Some o →
     length (stdout o) = (length out + length paths)%nat ∧
     (∀ i line, out !! i = Some line → stdout o !! i = Some line) ∧
     ∀ i root,
       paths !! i = Some root →
       ∃ sched s,
         scheds !! i = Some sched ∧
         exec sched (init n root) = Some s ∧ all_exited s = true ∧
         stdout o !! (length out + i)%nat
         = Some (total_blocks (total_size (data s)), root) ∧
         (0 ≤ total_size (data s) →
          512 * (total_blocks (total_size (data s)) - 1)
          < total_size (data s)
          ≤ 512 * total_blocks (total_size (data s))) ∧
         (∀ B e nn,
            (0 < n)%nat → Z.of_nat n ≤ INT_MAX →
            usage root B e nn → 0 ≤ B → 512 * B ≤ OFF_MAX →
            0 ≤ total_size (data s) ∧
            total_blocks (total_size (data s)) = B)) ∧
  (∀ atoi opts operands scheds o,
     main atoi opts operands scheds = Some o →
     ∀ num_threads,
       getopt_loop atoi opts 1 = inl num_threads →
       length (stdout o) = length (parse_paths operands) ∧
       ∀ i root,
         parse_paths operands !! i = Some root →
         ∃ sched s,
           scheds !! i = Some sched ∧
           exec sched (init (Z.to_nat num_threads) root) = Some s ∧
           all_exited s = true ∧
           stdout o !! i
           = Some (total_blocks (total_size (data s)), root)).
Proof.
  split; [|split; [|split]].
  - intros t Ht. unfold total_blocks, OFF_MAX in *.
    rewrite wrap_off_small by lia.
    rewrite Z.quot_div_nonneg by lia.
    pose proof (Z.div_mod (t + 511) 512 ltac:(lia)).
    pose proof (Z.mod_pos_bound (t + 511) 512 ltac:(lia)). lia.
  - intros Hn HN HF. by apply main_loop_terminates.
  - intros scheds code out o H.
    destruct (main_loop_lines n paths scheds code out o H)
      as (Hlen & Hpre & Hlines).
    split; [done|]. split; [done|]. intros i root Hi.
    destruct (Hlines i root Hi) as (sched & s & Hs & Hx & Ha & Hl).
    exists sched, s. split; [done|]. split; [done|]. split; [done|].
    split; [done|].
    assert (Hr : reachable n root s)
      by (by eapply exec_reachable; [constructor|]).
    split.
    + intros H0.
      pose proof (reachable_total_mod_512 _ _ _ Hr) as Hmod.
      pose proof (reachable_total_range _ _ _ Hr) as [_ Hhi].
      pose proof (total_blocks_multiple _ Hmod (conj H0 Hhi)). lia.
    + intros B e nn Hn HN Hu H0 H1.
      destruct (exited_settled n root s B e nn Hn HN Hu Hr Ha)
        as (_ & _ & _ & Ht & _).
      rewrite Ht. unfold OFF_MAX in *. rewrite wrap_off_small by lia.
      split; [lia|]. by apply total_blocks_exact.
  - intros atoi opts operands scheds o H num_threads Hopt.
    unfold main in H. rewrite Hopt in H.
    destruct (main_loop_lines _ _ _ _ _ _ H) as (Hlen & _ & Hlines).
    cbn [length] in *. split; [lia|]. intros i root Hi.
    destruct (Hlines i root Hi) as (sched & s & Hs & Hx & Ha & Hl).
    by exists sched, s.
Qed.

(** C6. When every top-level path roots a finite tree, [main] returns
    under suitable schedules, and whenever it returns: the exit code
    is 0 exactly when the options were accepted and no node of any
    tree failed its metadata query or its enumeration; and once the
    options are accepted there is one output line per top-level path,
    in order, errors or not. *)
Theorem exit_code_reflects_errors atoi opts operands results :
  (∀ optarg, atoi optarg ≤ INT_MAX) →
  Forall2 (λ root (r : Z * bool), ∃ nn, usage root r.1 r.2 nn)
    (parse_paths operands) results →
  (∃ scheds, is_Some (main atoi opts operands scheds)) ∧
  (∀ scheds o,
     main atoi opts operands scheds = Some o →
     (exit_code o = 0 ↔
      (∃ n, getopt_loop atoi opts 1 = inl n) ∧
      Forall (λ r, r.2 = false) results) ∧
     ((∃ n, getopt_loop atoi opts 1 = inl n) →
      map snd (stdout o) = parse_paths operands)).
Proof.
  intros Hatoi HF. unfold main.
  destruct (getopt_loop atoi opts 1) as [n|code] eqn:Hg.
  - assert (1 ≤ 1 ≤ INT_MAX) as H1 by (unfold INT_MAX; lia).
    pose proof (getopt_loop_valid atoi opts 1 n Hatoi H1 Hg) as [Hn1 Hn2].
    assert (Hn : (0 < Z.to_nat n)%nat) by lia.
    assert (HN : Z.of_nat (Z.to_nat n) ≤ INT_MAX) by lia.
    split.
    + destruct (main_loop_terminates (Z.to_nat n) (parse_paths operands) Hn HN)
        as [scheds Hs].
      * clear -HF. induction HF as [|root [B e] ? ? [nn Hu] _ IH];
          constructor; [by eauto|done].
      * exists scheds. apply Hs.
    + intros scheds o Ho.
      destruct (main_loop_outcome _ _ Hn HN _ _ _ _ _ HF Ho) as [Hout Hcode].
      split.
      * rewrite Hcode. split.
        -- intros H. split; [by eauto|].
           destruct (existsb snd results) eqn:Hex; [done|].
           clear -Hex. induction results as [|[B e] rs IH]; constructor.
           ++ simpl in *. by destruct e.
           ++ apply IH. simpl in Hex. by destruct e.
        -- intros [_ H].
           assert (existsb snd results = false) as ->; [|done].
           clear -H. induction H as [|[B e] rs He _ IH]; [done|].
           simpl in *. by subst.
      * intros _. rewrite Hout. simpl.
        apply Forall2_length in HF. revert HF. clear.
        generalize (parse_paths operands) as paths. intros paths.
        revert results.
        induction paths as [|root paths IH]; intros [|r results] Hlen;
          simpl in *; try done.
        f_equal. apply IH. lia.
  - split.
    + exists []. by eexists.
    + intros scheds o Ho. simplify_eq. simpl. split.
      * split; [|by intros [[n ?] _]].
        assert (code = EXIT_FAILURE) as ->; [|done].
        clear -Hg. revert Hg. generalize 1.
        induction opts as [|[a|] opts IH]; intros z Hg; simpl in Hg.
        -- done.
        -- destruct (atoi a <? 1); [by simplify_eq|by eapply IH].
        -- by simplify_eq.
      * by intros [n ?].
Qed.

(** C7. Without option j the pool has one worker.  If some option j
    carries an argument that [atoi] reads as less than 1, [main] exits
    with [EXIT_FAILURE], a non-zero status, whatever the schedules:
    no pool is started and nothing is printed. *)
Theorem invalid_thread_count_is_usage_error atoi :
  (∀ operands scheds,
     main atoi [] operands scheds
     = main_loop 1 (parse_paths operands) scheds EXIT_SUCCESS []) ∧
  (∀ opts optarg operands scheds,
     In (Opt_j optarg) opts → atoi optarg < 1 →
     main atoi opts operands scheds = Some (mkOutcome EXIT_FAILURE [])) ∧
  EXIT_FAILURE ≠ 0.
Proof.
  split; [done|]. split; [|done].
  intros opts optarg operands scheds Hin Hlt. unfold main.
  by rewrite (getopt_loop_invalid _ _ _ _ Hin Hlt).
Qed.


(** C8. The only statement that changes [total_size] is line 126,
    which adds [st_blocks * 512], a multiple of 512; so [total_size]
    is a multiple of 512 in every state, line 99 never rounds up when
    [total_size] is not negative, and the number printed for a finished
    traversal is the sum of [st_blocks] over the measured nodes when
    that sum times 512 fits in [off_t]. *)
Theorem total_size_multiple_of_512 n root s :
  reachable n root s →
  total_size (data s) mod 512 = 0 ∧
  (∀ w p s',
     pcs s !! w = Some p → wstep w s = Some s' →
     (∃ path st,
        p = HF_add path st ∧
        total_size (data s')
        = wrap_off (total_size (data s) + wrap_off (st_blocks st * 512)) ∧
        wrap_off (st_blocks st * 512) mod 512 = 0) ∨
     total_size (data s') = total_size (data s)) ∧
  (0 ≤ total_size (data s) →
   total_blocks (total_size (data s)) = total_size (data s) / 512 ∧
   512 * total_blocks (total_size (data s)) = total_size (data s)) ∧
  (∀ B e nn,
     (0 < n)%nat → Z.of_nat n ≤ INT_MAX →
     usage root B e nn → 0 ≤ B → 512 * B ≤ OFF_MAX →
     all_exited s = true →
     total_blocks (total_size (data s)) = B).
Proof.
  intros Hr. pose proof (reachable_total_mod_512 _ _ _ Hr) as Hmod.
  split; [done|]. split; [|split].
  - intros w p s' Hw Hs.
    apply wstep_inv in Hs as (q & d' & p' & bc & Hq & Hl & ->).
    simplify_eq/=.
    destruct (local_step_total _ _ _ _ _ _ Hl) as [(path & st & -> & ->)|Heq].
    + left. exists path, st. repeat split.
      rewrite wrap_off_mod_512. by apply Z_mod_mult.
    + by right.
  - intros H0.
    pose proof (reachable_total_range _ _ _ Hr) as [_ Hhi].
    pose proof (total_blocks_multiple _ Hmod (conj H0 Hhi)) as Hex.
    split; [|done].
    rewrite <- Hex at 2. rewrite Z.mul_comm, Z.div_mul; lia.
  - intros B e nn Hn HN Hu H0 H1 Ha.
    destruct (exited_settled n root s B e nn Hn HN Hu Hr Ha) as (_ & _ & _ & Ht & _).
    rewrite Ht. unfold OFF_MAX in *. rewrite wrap_off_small by lia.
    by apply total_blocks_exact.
Qed.

(** C9. Whatever the type of the node, once [lstat] has succeeded on
    a path the worker goes through [handle_file], whose critical
    section adds [st_blocks * 512] to [total_size]; only then is
    [S_ISDIR] consulted. *)
Theorem every_node_type_is_counted w s path st :
  lstat path = Some st →
  pcs s !! w = Some (PP_lstat path) → mutex (data s) = None →
  ∃ s1 s2,
    wstep w s = Some s1 ∧ data s1 = data s ∧
    pcs s1 !! w = Some (HF_lock path st) ∧
    critical_section w 1 s1 = Some s2 ∧
    data s2 = handle_file st (data s) ∧
    total_size (data s2)
    = wrap_off (total_size (data s) + wrap_off (st_blocks st * 512)) ∧
    pcs s2 !! w
    = Some (if S_ISDIR (st_mode st) then HD_opendir path else UES_lock false).
Proof.
  intros Hl Hw Hm.
  set (s1 := mkState (data s) (pcs_after w (HF_lock path st) false (pcs s))).
  assert (Hw1 : pcs s1 !! w = Some (HF_lock path st)) by (by eapply pcs_after_self).
  pose proof (handle_file_section w s1 path st Hw1 Hm) as Hcs.
  eexists s1, _. split.
  { rewrite (wstep_at _ _ _ Hw). simpl. by rewrite Hl. }
  split; [done|]. split; [done|]. split; [exact Hcs|].
  split; [done|]. split; [done|]. by eapply pcs_after_self.
Qed.

(** C10. A directory whose metadata can be read and which cannot be
    opened: its own blocks are added by [handle_file] before [opendir]
    is tried; the failure sets [error_occurred]; then
    [update_error_status] takes 1 from [pending].  The worker ends up
    back at the head of its loop with the directory's blocks counted
    and the queue as it was. *)
Theorem unreadable_directory_still_counted w s path st :
  lstat path = Some st → S_ISDIR (st_mode st) = true →
  opendir path = None →
  pcs s !! w = Some (PP_lstat path) → mutex (data s) = None →
  ∃ s1 s2 s3 s4 k s5,
    wstep w s = Some s1 ∧
    critical_section w 1 s1 = Some s2 ∧
    pcs s2 !! w = Some (HD_opendir path) ∧
    total_size (data s2)
    = wrap_off (total_size (data s) + wrap_off (st_blocks st * 512)) ∧
    wstep w s2 = Some s3 ∧ pcs s3 !! w = Some HD_err_lock ∧
    critical_section w 1 s3 = Some s4 ∧
    error_occurred (data s4) = true ∧
    pending (data s4) = pending (data s) ∧
    critical_section w k s4 = Some s5 ∧
    pcs s5 !! w = Some WT_lock ∧
    total_size (data s5)
    = wrap_off (total_size (data s) + wrap_off (st_blocks st * 512)) ∧
    error_occurred (data s5) = true ∧
    pending (data s5) = wrap_int (pending (data s) - 1) ∧
    queue (data s5) = queue (data s).
Proof.
  intros Hl Hd Ho Hw Hm.
  set (s1 := mkState (data s) (pcs_after w (HF_lock path st) false (pcs s))).
  assert (Hw1 : pcs s1 !! w = Some (HF_lock path st)) by (by eapply pcs_after_self).
  pose proof (handle_file_section w s1 path st Hw1 Hm) as Hcs1.
  rewrite Hd in Hcs1.
  set (s2 := mkState (handle_file st (data s1))
               (pcs_after w (HD_opendir path) false (pcs s1))) in *.
  assert (Hw2 : pcs s2 !! w = Some (HD_opendir path)) by (by eapply pcs_after_self).
  set (s3 := mkState (data s2) (pcs_after w HD_err_lock false (pcs s2))).
  assert (Hw3 : pcs s3 !! w = Some HD_err_lock) by (by eapply pcs_after_self).
  assert (Hm3 : mutex (data s3) = None).
  { simpl. by destruct (data s). }
  pose proof (handle_directory_error_section w s3 Hw3 Hm3) as Hcs3.
  set (s4 := mkState (set_error_occurred true (data s3))
               (pcs_after w (UES_lock false) false (pcs s3))) in *.
  assert (Hw4 : pcs s4 !! w = Some (UES_lock false)) by (by eapply pcs_after_self).
  assert (Hm4 : mutex (data s4) = None).
  { simpl. by destruct (data s). }
  pose proof (update_error_status_section w s4 false Hw4 Hm4) as Hcs4.
  destruct (update_error_status (data s4) false) as [d5 bc] eqn:Hu.
  exists s1, s2, s3, s4, (if bc then 4%nat else 3%nat),
    (mkState d5 (pcs_after w WT_lock bc (pcs s4))).
  split. { rewrite (wstep_at _ _ _ Hw). simpl. by rewrite Hl. }
  split; [done|]. split; [done|]. split; [done|].
  split. { rewrite (wstep_at _ _ _ Hw2). simpl. by rewrite Ho. }
  split; [done|]. split; [done|]. split; [done|]. split; [done|].
  split; [done|]. split; [by eapply pcs_after_self|].
  assert (d5 = (update_error_status (data s4) false).1) as -> by (by rewrite Hu).
  unfold update_error_status. simpl.
  destruct (_ && _); simpl; done.
Qed.


(** ** Further properties of the pool *)

(** A statement executed without the mutex, or one that takes or gives
    the mutex, leaves the other shared fields alone. *)
Lemma local_step_unlocked_same w p d d' p' bc :
  local_step w p d = Some (d', p', bc) →
  holds p = false ∨ holds p' = false → same_shared d d'.
Proof.
  intros H Hh. unfold same_shared.
  local_cases H; simpl in *; destruct Hh; done.
Qed.

Lemma same_shared_refl d : same_shared d d.
Proof. by unfold same_shared. Qed.

Lemma same_shared_trans d1 d2 d3 :
  same_shared d1 d2 → same_shared d2 d3 → same_shared d1 d3.
Proof. unfold same_shared. intuition congruence. Qed.

(** X1. In every reachable state at most one worker is between a lock
    and its unlock, the mutex names that worker, and a statement that
    changes the queue, [total_size], [pending], [done] or
    [error_occurred] is executed by the owner of the mutex, who still
    owns it afterwards. *)
Theorem mutual_exclusion n root s :
  Z.of_nat n ≤ INT_MAX → reachable n root s →
  (∀ w1 p1 w2 p2,
     pcs s !! w1 = Some p1 → pcs s !! w2 = Some p2 →
     holds p1 = true → holds p2 = true → w1 = w2) ∧
  (∀ w p, pcs s !! w = Some p →
          (holds p = true ↔ mutex (data s) = Some w)) ∧
  (∀ w s',
     wstep w s = Some s' → ¬ same_shared (data s) (data s') →
     mutex (data s) = Some w ∧ mutex (data s') = Some w).
Proof.
  intros HN Hr.
  pose proof (reachable_inv _ _ _ HN Hr) as [Hmx _ _ _ _ _].
  split; [|split].
  - intros w1 p1 w2 p2 H1 H2 Hh1 Hh2.
    apply (Hmx w1 p1 H1) in Hh1. apply (Hmx w2 p2 H2) in Hh2. congruence.
  - exact Hmx.
  - intros w s' Hs Hne.
    apply wstep_inv in Hs as (p & d' & p' & bc & Hw & Hl & ->). simpl in *.
    destruct (holds p) eqn:Hp.
    + destruct (holds p') eqn:Hp'.
      * destruct (local_step_mutex _ _ _ _ _ _ Hl (Hmx w p Hw)) as [Hm' _].
        split; [by apply (Hmx w p Hw)|].
        apply Hm'. done.
      * destruct Hne. eapply local_step_unlocked_same; [done|by right].
    + destruct Hne. eapply local_step_unlocked_same; [done|by left].
Qed.

(** The tasks in the queue are nodes of the tree, each with at least
    itself below it. *)
Lemma usage_list_length paths B e n :
  usage_list paths B e n → (length paths ≤ n)%nat.
Proof.
  revert B e n. induction paths as [|path paths IH]; intros B e n H.
  - simpl. lia.
  - apply usage_list_inv_cons in H
      as (B1 & e1 & n1 & B2 & e2 & n2 & H1 & H2 & _ & _ & ->).
    apply usage_positive in H1. apply IH in H2. simpl. lia.
Qed.

(** The tasks that are queued or still to be queued never grow in
    number. *)
Lemma settle_inv_cstep_tasks B e T c s s' :
  dequeue_inv s → settle_inv B e T s → cstep c s = Some s' →
  ∃ T', settle_inv B e T' s' ∧ (T' ≤ T)%nat.
Proof.
  intros Hdq Hi Hs.
  destruct Hi as (Bq & eq & nq & Bw & ew & nw & Hq & Hw & Ht & He & ->).
  destruct c as [w|w]; simpl in Hs.
  - apply wstep_inv in Hs as (p & d' & p' & bc & Hp & Hl & ->).
    destruct (owes_all_after _ _ _ _ _ _ bc Hw Hp)
      as (Bp & ep & np & Br & er & nr & Ho & -> & -> & -> & Hins).
    destruct (Hdq w p Hp) as [Hne Hnone].
    destruct (local_step_settle _ _ _ _ _ _ (B - Br) Bp ep np Bq eq nq Hl Hne Ho Hq)
      as (Bp' & ep' & np' & Bq' & eq' & nq' & Ho' & Hq' & Ht' & He' & Hn').
    { rewrite Ht. f_equal. lia. }
    exists (nq' + (np' + nr))%nat. split; [|lia].
    exists Bq', eq', nq', (Bp' + Br), (ep' || er), (np' + nr)%nat. simpl.
    split; [done|]. split; [by apply Hins|]. split; [|split; [|done]].
    + rewrite Ht'. f_equal. lia.
    + rewrite <- He. rewrite <- orb_assoc in He'.
      destruct (error_occurred d'), (error_occurred (data s)),
        eq, eq', ep, ep', er; simpl in *; congruence.
  - apply spurious_inv in Hs as (Hp & ->).
    destruct (owes_all_after _ _ _ _ _ _ false Hw Hp)
      as (Bp & ep & np & Br & er & nr & (-> & -> & ->) & -> & -> & -> & Hins).
    exists (nq + (0 + nr))%nat. split; [|lia].
    exists Bq, eq, nq, (0 + Br), (false || er), (0 + nr)%nat. simpl.
    split; [done|]. split; [by apply (Hins WT_woken 0 false 0%nat)|].
    done.
Qed.

Lemma reachable_tasks n path s B e nn :
  Z.of_nat n ≤ INT_MAX →
  usage path B e nn → reachable n path s →
  ∃ T, settle_inv B e T s ∧ (T ≤ nn)%nat.
Proof.
  intros HN Hu. induction 1 as [|s s' Hr (T & IH & HT) [c Hs]].
  - exists nn. split; [by eapply settle_inv_init|lia].
  - pose proof (reachable_queue_inv _ _ _ HN Hr) as [_ _ _ Hdq].
    destruct (settle_inv_cstep_tasks _ _ _ _ _ _ Hdq IH Hs) as (T' & ? & ?).
    exists T'. split; [done|lia].
Qed.

(** Outside the critical sections the credits count the tasks in
    flight. *)
Lemma credits_unlocked ps :
  (∀ w q, ps !! w = Some q → holds q = false) →
  credits ps = in_flight_count ps.
Proof.
  unfold in_flight_count.
  induction ps as [|p ps IH]; intros H; [done|].
  simpl. rewrite filter_cons.
  rewrite (credit_unlocked p (H 0%nat p eq_refl)).
  rewrite IH by (intros w q Hq; apply (H (S w) q Hq)).
  destruct (in_flight p); simpl; lia.
Qed.

(** The queued tasks and the credits together are never negative. *)
Lemma registered_nonneg s :
  mutex_inv s → queue_inv s →
  0 ≤ Z.of_nat (length (queue (data s))) + credits (pcs s).
Proof.
  intros Hmx [Hown Hsuf _ _].
  destruct (mutex (data s)) as [h|] eqn:Hm.
  - destruct (Hown h Hm) as [ph Hh].
    assert (holds ph = true) as Hph by (by apply (Hmx h ph Hh)).
    pose proof (credit_suffix s h ph Hsuf Hh) as Hcs.
    destruct (holder_credits s h ph Hmx Hh Hph) as [[Hlo _] _].
    destruct (in_flight ph); lia.
  - assert (0 ≤ credits (pcs s)); [|lia].
    apply credits_lower. intros w q Hq.
    assert (holds q = false) as Hh.
    { destruct (holds q) eqn:Hhq; [|done].
      apply (Hmx w q Hq) in Hhq. congruence. }
    rewrite (credit_unlocked q Hh). destruct (in_flight q); lia.
Qed.

(** X2. In a tree of [nn] nodes the queue never holds more than [nn]
    paths and [pending] stays between 0 and [nn] plus the number of
    workers, so the counter does not wrap; whenever the mutex is free,
    [pending] is the number of queued paths plus the number of tasks
    in flight. *)
Theorem pending_counts_tasks n root s B e nn :
  usage root B e nn → Z.of_nat nn + Z.of_nat n ≤ INT_MAX →
  reachable n root s →
  (length (queue (data s)) ≤ nn)%nat ∧
  0 ≤ pending (data s) ≤ Z.of_nat nn + Z.of_nat n ∧
  (mutex (data s) = None →
   pending (data s)
   = Z.of_nat (length (queue (data s))) + in_flight_count (pcs s)).
Proof.
  intros Hu Hb Hr.
  assert (HN : Z.of_nat n ≤ INT_MAX) by lia.
  pose proof (reachable_inv _ _ _ HN Hr) as [Hmx Hpe _ _ _ _].
  pose proof (reachable_queue_inv _ _ _ HN Hr) as Hqi.
  pose proof (reachable_length _ _ _ Hr) as Hlen.
  destruct (reachable_tasks _ _ _ _ _ _ HN Hu Hr)
    as (T & (Bq & eq & nq & Bw & ew & nw & Hq & _ & _ & _ & ->) & HT).
  apply usage_list_length in Hq.
  pose proof (registered_nonneg s Hmx Hqi) as Hlo.
  pose proof (credits_upper (pcs s)) as Hhi. rewrite Hlen in Hhi.
  assert (Hp : pending (data s)
               = Z.of_nat (length (queue (data s))) + credits (pcs s)).
  { rewrite Hpe. apply wrap_int_small. unfold INT_MAX in *. lia. }
  split; [lia|]. split; [lia|].
  intros Hm. rewrite Hp. f_equal. apply credits_unlocked.
  intros w q Hw. destruct (holds q) eqn:Hh; [|done].
  apply (Hmx w q Hw) in Hh. congruence.
Qed.

(** X3. A worker sleeps in [pthread_cond_wait] only while there is
    nothing to take: whenever the mutex is free and a worker is parked,
    the queue is empty, [done] is not set, and some other worker has a
    task in flight, whose [update_error_status] or [handle_directory]
    will broadcast. *)
Theorem parked_only_when_idle n root s w :
  Z.of_nat n ≤ INT_MAX → reachable n root s →
  pcs s !! w = Some WT_wait → mutex (data s) = None →
  queue (data s) = [] ∧ done (data s) = false ∧
  ∃ w' p', w' ≠ w ∧ pcs s !! w' = Some p' ∧ in_flight p' = true.
Proof.
  intros HN Hr Hw Hm.
  pose proof (reachable_inv _ _ _ HN Hr) as [Hmx _ _ Hid Hpk _].
  pose proof (reachable_queue_inv _ _ _ HN Hr) as [_ _ Hwt _].
  assert (Hfree : ∀ w' q, pcs s !! w' = Some q → holds q = false).
  { intros w' q Hq. destruct (holds q) eqn:Hh; [|done].
    apply (Hmx w' q Hq) in Hh. congruence. }
  assert (Hq : queue (data s) = []).
  { destruct (Hwt w Hw) as [?|(w' & p' & Hp' & Hf)]; [done|].
    apply Hfree in Hp'. by destruct p'. }
  assert (Hd : done (data s) = false).
  { destruct (done (data s)) eqn:Hd; [|done]. exfalso.
    apply (Hpk Hd) with (w := w) (p := WT_wait); [|done..].
    intros w' p' Hp' ->. by apply Hfree in Hp'. }
  split; [done|]. split; [done|].
  destruct (decide (Exists (λ p, in_flight p = true) (pcs s))) as [Hex|Hno].
  - apply Exists_exists in Hex as (p' & Hin & Hf).
    apply list_elem_of_lookup in Hin as [w' Hp'].
    exists w', p'. split; [|done].
    intros ->. rewrite Hw in Hp'. by simplify_eq.
  - exfalso. rewrite Hid in Hd; [done|done|].
    intros w' p' Hp'. split.
    + destruct (in_flight p') eqn:Hf; [|done]. destruct Hno.
      apply Exists_exists. exists p'. split; [|done].
      apply list_elem_of_lookup. by exists w'.
    + apply Hfree in Hp'. by destruct p'.
Qed.

Lemma owes_all_quiet ps B e n :
  (∀ w p, ps !! w = Some p → quiet p = true) → owes_all ps B e n →
  B = 0 ∧ e = false ∧ n = 0%nat.
Proof.
  intros Hq H. induction H as [|p ps B1 e1 n1 B2 e2 n2 Hp Hps IH]; [done|].
  destruct IH as (-> & -> & ->).
  { intros w q Hw. apply (Hq (S w) q Hw). }
  pose proof (Hq 0%nat p eq_refl) as Hqp.
  destruct p; try done; by destruct Hp as (-> & -> & ->).
Qed.

(** Once [done] is set the statements that are left change nothing
    but the owner of the mutex. *)
Lemma local_step_done_same w p d d' p' bc :
  local_step w p d = Some (d', p', bc) →
  done d = true → queue d = [] → quiet p = true → same_shared d d'.
Proof. intros H Hd Hq Hp. unfold same_shared. local_cases H; done. Qed.

Lemma done_frozen n root sched :
  Z.of_nat n ≤ INT_MAX →
  ∀ s s', reachable n root s → done (data s) = true →
          exec sched s = Some s' → same_shared (data s) (data s').
Proof.
  intros HN. induction sched as [|c sched IH]; intros s s' Hr Hd Hx.
  - simpl in Hx. simplify_eq. apply same_shared_refl.
  - simpl in Hx. destruct (cstep c s) as [s1|] eqn:Hc; simplify_eq/=.
    pose proof (reachable_inv _ _ _ HN Hr) as [_ _ Hdn _ _ _].
    destruct (Hdn Hd) as (Hq & _ & Hquiet).
    assert (Hr1 : reachable n root s1).
    { eapply reachable_step; [done|by exists c]. }
    assert (H1 : same_shared (data s) (data s1)).
    { destruct c as [w|w]; simpl in Hc.
      - apply wstep_inv in Hc as (p & d' & p' & bc & Hw & Hl & ->). simpl.
        eapply local_step_done_same; [done..|by eapply Hquiet].
      - apply spurious_inv in Hc as (_ & ->). apply same_shared_refl. }
    eapply same_shared_trans; [done|].
    apply IH; [done| |done].
    destruct H1 as (_ & _ & _ & -> & _). done.
Qed.

(** X4. [done] is never set early: in a state where it is set, the
    queue is empty, [pending] is 0, [total_size] already holds the
    blocks of the whole tree and [error_occurred] its error flag, and
    whatever the workers do from then on changes none of the shared
    fields but the owner of the mutex; these are the values [main]
    reads after the join. *)
Theorem result_final_once_done n root s B e nn :
  Z.of_nat n ≤ INT_MAX → usage root B e nn → reachable n root s →
  done (data s) = true →
  queue (data s) = [] ∧ pending (data s) = 0 ∧
  total_size (data s) = wrap_off (512 * B) ∧
  error_occurred (data s) = e ∧
  (∀ sched s', exec sched s = Some s' → same_shared (data s) (data s')).
Proof.
  intros HN Hu Hr Hd.
  pose proof (reachable_inv _ _ _ HN Hr) as [_ _ Hdn _ _ _].
  destruct (Hdn Hd) as (Hq0 & Hp0 & Hquiet).
  destruct (reachable_settle _ _ _ _ _ _ HN Hu Hr)
    as (T & Bq & eq & nq & Bw & ew & nw & Hq & Hw & Ht & He & _).
  rewrite Hq0 in Hq. apply usage_list_inv_nil in Hq as (-> & -> & ->).
  destruct (owes_all_quiet _ _ _ _ Hquiet Hw) as (-> & -> & _).
  split; [done|]. split; [done|]. split; [|split].
  - rewrite Ht. f_equal. lia.
  - rewrite <- He. by destruct (error_occurred (data s)).
  - intros sched s' Hx. by eapply done_frozen.
Qed.

(** X5. No worker leaves while work remains: a worker that has passed
    the test of line 57, or has called [pthread_exit], has seen [done],
    and then no task is queued or in flight and [pending] is 0. *)
Theorem no_worker_leaves_early n root s w p :
  Z.of_nat n ≤ INT_MAX → reachable n root s →
  pcs s !! w = Some p → p = WT_unlock_exit ∨ p = WT_exit →
  done (data s) = true ∧ queue (data s) = [] ∧ pending (data s) = 0 ∧
  ∀ w' p', pcs s !! w' = Some p' → in_flight p' = false.
Proof.
  intros HN Hr Hw Hp.
  pose proof (reachable_inv _ _ _ HN Hr) as [_ _ Hdn _ _ Hex].
  pose proof (Hex w p Hw Hp) as Hd.
  destruct (Hdn Hd) as (Hq & Hp0 & Hquiet).
  split; [done|]. split; [done|]. split; [done|].
  intros w' p' Hw'. apply Hquiet in Hw'. by destruct p'.
Qed.

(** X6. The call of [dequeue] at line 66 always finds a task: it
    returns the head of the queue, never NULL, so the test of line 73
    never fails. *)
Theorem dequeue_never_null n root s w p :
  Z.of_nat n ≤ INT_MAX → reachable n root s → pcs s !! w = Some p →
  p ≠ WT_unlock None ∧
  (p = WT_dequeue →
   ∃ path rest,
     queue (data s) = path :: rest ∧
     dequeue (data s) = (Some path, set_queue rest (data s)) ∧
     wstep w s
     = Some (mkState (set_queue rest (data s))
               (<[w := WT_unlock (Some path)]> (pcs s)))).
Proof.
  intros HN Hr Hw.
  pose proof (reachable_queue_inv _ _ _ HN Hr) as [_ _ _ Hdq].
  destruct (Hdq w p Hw) as [Hne Hnone].
  split; [done|]. intros ->.
  destruct (queue (data s)) as [|path rest] eqn:Hq; [by destruct Hne|].
  exists path, rest. split; [done|].
  assert (Hd : dequeue (data s) = (Some path, set_queue rest (data s))).
  { unfold dequeue. by rewrite Hq. }
  split; [done|].
  rewrite (wstep_at _ _ _ Hw). simpl. by rewrite Hd.
Qed.

(** No statement leads to the point where a worker has been
    signalled: only a broadcast or a spurious wake-up does. *)
Lemma local_step_not_woken w p d d' p' bc :
  local_step w p d = Some (d', p', bc) → p' ≠ WT_woken.
Proof. intros H. local_cases H; done. Qed.

(** X7. A pool of one worker, which is the default, never calls
    [pthread_cond_wait]: when its only worker finds the queue empty,
    [done] is set. *)
Theorem single_worker_never_waits root s w p :
  reachable 1 root s → pcs s !! w = Some p →
  p ≠ WT_wait ∧ p ≠ WT_woken.
Proof.
  intros Hr. revert w p.
  induction Hr as [|s s' Hr IH [[v|v] Hs]]; intros w p Hw.
  - simpl in Hw. destruct w as [|[|w]]; simplify_eq/=. done.
  - assert (HN : Z.of_nat 1 ≤ INT_MAX) by (unfold INT_MAX; lia).
    pose proof (reachable_inv _ _ _ HN Hr) as [_ _ _ Hid _ _].
    pose proof (reachable_length _ _ _ Hr) as Hlen.
    simpl in Hs.
    apply wstep_inv in Hs as (q & d' & q' & bc & Hv & Hl & ->).
    simpl in Hw.
    assert (v = 0%nat) as -> by (apply lookup_lt_Some in Hv; lia).
    assert (w = 0%nat) as ->.
    { apply lookup_lt_Some in Hw. rewrite pcs_after_length in Hw. lia. }
    rewrite (pcs_after_self _ _ _ _ _ Hv) in Hw. simplify_eq.
    split; [|by eapply local_step_not_woken].
    intros ->. apply local_step_wait in Hl as (-> & Hd & Hq).
    rewrite (Hid Hq) in Hd; [done|].
    intros w' p' Hw'.
    assert (w' = 0%nat) as -> by (apply lookup_lt_Some in Hw'; lia).
    rewrite Hv in Hw'. by simplify_eq.
  - simpl in Hs. apply spurious_inv in Hs as (Hv & _).
    by destruct (IH v WT_wait Hv) as [? _].
Qed.

(** No statement clears [error_occurred]. *)
Lemma local_step_error_mono w p d d' p' bc :
  local_step w p d = Some (d', p', bc) →
  error_occurred d = true → error_occurred d' = true.
Proof. intros H He. local_cases H; done. Qed.

(** X8. [error_occurred] is never a false alarm and is never taken
    back: it is set only if some node of the tree fails [lstat] or
    some directory fails [opendir], and no step clears it. *)
Theorem error_flag_sound n root s B e nn :
  Z.of_nat n ≤ INT_MAX → usage root B e nn → reachable n root s →
  (error_occurred (data s) = true → e = true) ∧
  (∀ s', step s s' → error_occurred (data s) = true →
         error_occurred (data s') = true).
Proof.
  intros HN Hu Hr. split.
  - intros He.
    destruct (reachable_settle _ _ _ _ _ _ HN Hu Hr)
      as (T & Bq & eq & nq & Bw & ew & nw & _ & _ & _ & <- & _).
    by rewrite He.
  - intros s' [[w|w] Hs] He; simpl in Hs.
    + apply wstep_inv in Hs as (p & d' & p' & bc & Hw & Hl & ->). simpl.
      by eapply local_step_error_mono.
    + by apply spurious_inv in Hs as (_ & ->).
Qed.



(** ** The discipline of the lock *)






(** ** The paths of a traversal *)

Lemma below_children root path st names :
  below root path → lstat path = Some st → S_ISDIR (st_mode st) = true →
  opendir path = Some names →
  Forall (below root) (children path names).
Proof.
  intros Hb Hl Hd Ho. unfold children. apply Forall_fmap, Forall_forall.
  intros name Hin. apply list_elem_of_filter in Hin as [Hdot Hin].
  cbn. eapply below_entry; try done; by destruct (is_dot name).
Qed.

Lemma paths_of_wake p : paths_of (wake p) = paths_of p.
Proof. by destruct p. Qed.

Lemma placed_wake p : placed p → placed (wake p).
Proof. by destruct p. Qed.

(** A statement moves paths between the queue and the local variables
    of the worker, and finds new ones only in the stream of a
    directory it holds. *)
Lemma local_step_below root w p d d' p' bc :
  local_step w p d = Some (d', p', bc) →
  Forall (below root) (queue d) →
  Forall (below root) (paths_of p) → placed p →
  Forall (below root) (queue d') ∧
  Forall (below root) (paths_of p') ∧ placed p'.
Proof.
  intros H Hq Hp Hpl. local_cases H; simpl in *; try done.
  - apply Forall_cons in Hq as [? ?]. split; [done|].
    split; [by repeat constructor|done].
  - split; [done|]. split; [done|]. by eexists.
  - destruct Hpl as (st & Hl & Hd). split; [done|]. split; [|done].
    apply Forall_cons in Hp as [Hb _]. by eapply below_children.
  - split; [|done]. by apply Forall_app.
Qed.

Lemma append_nil_l (b : string) : "" +:+ b = b.
Proof. reflexivity. Qed.

Lemma append_cons c (a b : string) : String c a +:+ b = String c (a +:+ b).
Proof. reflexivity. Qed.

Lemma no_slash_app a b :
  no_slash (a +:+ "/" +:+ b) = false.
Proof.
  induction a as [|c a IH];
    rewrite ?append_cons, ?append_nil_l; cbn [no_slash].
  - done.
  - rewrite ?append_cons, ?append_nil_l in IH. rewrite IH.
    apply andb_false_r.
Qed.

(** A path is cut into its directory and its last component at its
    last '/'. *)
Lemma construct_path_inj dir name dir' name' :
  no_slash name = true → no_slash name' = true →
  construct_path dir name = construct_path dir' name' →
  dir = dir' ∧ name = name'.
Proof.
  unfold construct_path. intros Hn Hn'. revert dir'.
  induction dir as [|c dir IH]; intros [|c' dir'] H.
  - rewrite ?append_cons, ?append_nil_l in H. injection H as H. by split.
  - rewrite (append_nil_l ("/" +:+ name)), (append_cons c') in H.
    rewrite append_cons, append_nil_l in H. injection H as _ H.
    rewrite H, no_slash_app in Hn. done.
  - rewrite (append_nil_l ("/" +:+ name')), (append_cons c) in H.
    rewrite (append_cons _ "" name'), append_nil_l in H. injection H as _ H.
    rewrite <- H, no_slash_app in Hn'. done.
  - rewrite !append_cons in H. injection H as <- H.
    destruct (IH dir' H) as [-> ->]. by split.
Qed.

Lemma is_dot_no_slash name : is_dot name = true → no_slash name = true.
Proof.
  unfold is_dot. intros [H|H]%orb_true_iff; apply String.eqb_eq in H;
    by subst.
Qed.

(** Once more, as the path is written. *)
Lemma below_names root path :
  (∀ dir names name,
     opendir dir = Some names → name ∈ names → no_slash name = true) →
  below root path →
  ∃ names,
    path = descend root names ∧
    Forall (λ name, is_dot name = false ∧ no_slash name = true) names.
Proof.
  intros Hfs. induction 1 as [|dir st names name _ IH Hl Hd Ho Hin Hdot].
  - exists []. by split.
  - destruct IH as (ns & -> & HF). exists (ns ++ [name]). split.
    + unfold descend. by rewrite fold_left_app.
    + apply Forall_app. split; [done|]. constructor; [|done].
      split; [done|]. by eapply Hfs.
Qed.

(** X19. The traversal stays below its operand and never follows "."
    or "..".  Every path in the queue and every path a worker holds,
    in particular every path handed to [lstat] or [opendir], is the
    top-level path, or comes from such a path, one that [lstat]
    reported as a directory and [opendir] opened, by appending a name
    which the stream of that directory yielded and which is neither
    "." nor "..".  On a file system whose entries have no '/' in
    their names, such a path is the top-level path followed by
    components none of which is "." or "..", and the only such path
    that ends in the component "." or ".." is the top-level path
    itself. *)
Theorem traversal_stays_below n root s :
  reachable n root s →
  Forall (below root) (queue (data s)) ∧
  (∀ w p, pcs s !! w = Some p → Forall (below root) (paths_of p)) ∧
  (∀ w path, pcs s !! w = Some (PP_lstat path) ∨
             pcs s !! w = Some (HD_opendir path) → below root path) ∧
  ((∀ dir names name,
      opendir dir = Some names → name ∈ names → no_slash name = true) →
   (∀ path,
      below root path →
      ∃ names,
        path = descend root names ∧
        Forall (λ name, is_dot name = false ∧ no_slash name = true) names) ∧
   (∀ dir name,
      is_dot name = true → below root (construct_path dir name) →
      construct_path dir name = root)).
Proof.
  intros Hr.
  assert (H : Forall (below root) (queue (data s)) ∧
              ∀ w p, pcs s !! w = Some p →
                     Forall (below root) (paths_of p) ∧ placed p).
  { induction Hr as [|s s' Hr [IHq IHp] [[v|v] Hs]].
    - split.
      + simpl. repeat constructor.
      + intros w p Hw. simpl in Hw. by apply lookup_replicate in Hw as [-> _].
    - simpl in Hs.
      apply wstep_inv in Hs as (q & d' & q' & bc & Hv & Hl & ->). simpl.
      destruct (IHp v q Hv) as [Hbq Hplq].
      destruct (local_step_below root _ _ _ _ _ _ Hl IHq Hbq Hplq)
        as (Hq' & Hp' & Hpl').
      split; [done|]. intros w p Hw.
      destruct (decide (v = w)) as [<-|Hne].
      + rewrite (pcs_after_self _ _ _ _ _ Hv) in Hw. by simplify_eq.
      + apply pcs_after_other in Hw as (q0 & Hq0 & ->); [|done].
        destruct (IHp w q0 Hq0) as [Hb0 Hpl0].
        destruct bc; [|done]. rewrite paths_of_wake.
        split; [done|]. by apply placed_wake.
    - simpl in Hs. apply spurious_inv in Hs as (Hv & ->). simpl.
      split; [done|]. intros w p Hw.
      destruct (decide (v = w)) as [<-|Hne].
      + rewrite (pcs_after_self _ _ _ _ _ Hv) in Hw. by simplify_eq.
      + apply pcs_after_other in Hw as (q0 & Hq0 & ->); [|done].
        by eapply IHp. }
  destruct H as [Hq Hp]. split; [done|].
  split; [intros w p Hw; by apply Hp in Hw as [? _]|]. split.
  - intros w path [Hw|Hw]; apply Hp in Hw as [Hw _];
      by apply Forall_cons in Hw as [? _].
  - intros Hfs. split; [intros path; by apply below_names|].
    intros dir name Hdot Hb. inversion Hb as [Heq|dir' st names name' Hb' Hl Hd Ho Hin Hdot' Heq];
      [done|].
    apply construct_path_inj in Heq as [_ ->].
    + by rewrite Hdot in Hdot'.
    + by eapply Hfs.
    + by apply is_dot_no_slash.
Qed.


End Traversal.


(** ** The queue on the heap *)

Lemma segment_agree h h' head nodes :
  Mem.segment h head nodes →
  (∀ l, l ∈ nodes.*1 → h' !! l = h !! l) →
  Mem.segment h' head nodes.
Proof.
  revert head. induction nodes as [|[l p] rest IH]; intros head.
  - done.
  - intros [-> (next & Hl & Hs)] Hag. split; [done|].
    exists next. split.
    + rewrite Hag; [done|]. apply elem_of_cons. by left.
    + apply IH; [done|]. intros l' Hl'. apply Hag.
      apply elem_of_cons. by right.
Qed.

Lemma segment_allocated h head nodes l :
  Mem.segment h head nodes → l ∈ nodes.*1 →
  ∃ p next, h !! l = Some (Mem.DirNode p next).
Proof.
  revert head. induction nodes as [|[l0 p0] rest IH]; intros head.
  - intros _ Hin. by apply elem_of_nil in Hin.
  - intros [-> (next & Hl & Hs)] [->|Hin]%elem_of_cons; [by eauto|].
    by eapply IH.
Qed.

Lemma segment_end h head nodes l p :
  Mem.segment h head (nodes ++ [(l, p)]) →
  h !! l = Some (Mem.DirNode p None).
Proof.
  revert head. induction nodes as [|[l0 p0] rest IH]; intros head.
  - by intros [-> (next & Hl & ->)].
  - intros [-> (next & Hl & Hs)]. by eapply IH.
Qed.

(** A node appended behind the last one. *)
Lemma segment_snoc h h' head nodes l p n q :
  Mem.segment h head (nodes ++ [(l, p)]) →
  (∀ l', l' ∈ nodes.*1 → h' !! l' = h !! l') →
  h' !! l = Some (Mem.DirNode p (Some n)) →
  h' !! n = Some (Mem.DirNode q None) →
  Mem.segment h' head ((nodes ++ [(l, p)]) ++ [(n, q)]).
Proof.
  revert head. induction nodes as [|[l0 p0] rest IH]; intros head.
  - intros [-> (next & Hl & ->)] _ Hl' Hn'. split; [done|].
    exists (Some n). split; [done|].
    split; [done|]. by exists None.
  - intros [-> (next & Hl & Hs)] Hag Hl' Hn'.
    split; [done|]. exists next. split.
    + rewrite Hag; [done|]. apply elem_of_cons. by left.
    + apply IH; [done| |done|done]. intros l' Hin. apply Hag.
      apply elem_of_cons. by right.
Qed.

Lemma scalars_eq d d' :
  Mem.queue_head d' = Mem.queue_head d →
  Mem.queue_tail d' = Mem.queue_tail d →
  scalars d' = scalars d → d' = d.
Proof.
  destruct d, d'. unfold scalars. simpl. intros. by simplify_eq.
Qed.

Lemma paths_allocated (h : Mem.heap) (nodes : list (Mem.loc * Mem.loc)) paths p :
  Forall2 (λ np s, h !! np.2 = Some (Mem.Chars s)) nodes paths →
  p ∈ nodes.*2 → ∃ s, h !! p = Some (Mem.Chars s).
Proof.
  induction 1 as [|[l0 p0] s0 nodes paths H0 _ IH].
  - intros Hin. by apply elem_of_nil in Hin.
  - intros [->|Hin]%elem_of_cons; [by eauto|]. by apply IH.
Qed.

Lemma paths_agree (h h' : Mem.heap) (nodes : list (Mem.loc * Mem.loc)) paths :
  Forall2 (λ np s, h !! np.2 = Some (Mem.Chars s)) nodes paths →
  (∀ p, p ∈ nodes.*2 → h' !! p = h !! p) →
  Forall2 (λ np s, h' !! np.2 = Some (Mem.Chars s)) nodes paths.
Proof.
  induction 1 as [|[l0 p0] s0 nodes paths H0 _ IH]; intros Hag.
  - constructor.
  - constructor.
    + cbn [snd] in *. rewrite Hag; [done|]. apply elem_of_cons. by left.
    + apply IH. intros p Hp. apply Hag. apply elem_of_cons. by right.
Qed.

Lemma nodup_snoc (A B : list Mem.loc) n p :
  NoDup (A ++ B) → n ∉ A → n ∉ B → p ∉ A → p ∉ B → n ≠ p →
  NoDup ((A ++ [n]) ++ (B ++ [p])).
Proof.
  intros Hnd HnA HnB HpA HpB Hnp.
  assert ((A ++ [n]) ++ (B ++ [p]) ≡ₚ n :: p :: (A ++ B)) as ->.
  { rewrite <- !app_assoc. cbn [app].
    rewrite <- Permutation_middle. f_equiv.
    rewrite app_assoc. by rewrite <- Permutation_cons_append. }
  apply NoDup_cons. split.
  { intros [->|Hin]%elem_of_cons; [done|].
    apply elem_of_app in Hin as [?|?]; done. }
  apply NoDup_cons. split; [|done].
  intros Hin. apply elem_of_app in Hin as [?|?]; done.
Qed.

Lemma fst_snoc (nodes : list (Mem.loc * Mem.loc)) l p :
  (nodes ++ [(l, p)]).*1 = nodes.*1 ++ [l].
Proof. by rewrite fmap_app. Qed.

Lemma snd_snoc (nodes : list (Mem.loc * Mem.loc)) l p :
  (nodes ++ [(l, p)]).*2 = nodes.*2 ++ [p].
Proof. by rewrite fmap_app. Qed.

(** What [enqueue] does to a heap that holds a queue. *)
Lemma enqueue_rep h d nodes paths n path s :
  Mem.queue_rep h d nodes paths →
  h !! n = None → h !! path = Some (Mem.Chars s) → path ∉ nodes.*2 →
  ∃ h' d',
    Mem.enqueue (Some n) h d path = Some (0, h', d') ∧
    Mem.queue_rep h' d' (nodes ++ [(n, path)]) (paths ++ [s]) ∧
    scalars d' = scalars d ∧
    (∀ l, l ≠ n → l ∉ nodes.*1 → h' !! l = h !! l).
Proof.
  intros [Hseg Htail Hnd Hpaths] Hn Hpath Hfresh.
  assert (Hnp : n ≠ path) by (intros ->; congruence).
  assert (Hnn : n ∉ nodes.*1).
  { intros Hin. destruct (segment_allocated _ _ _ _ Hseg Hin) as (? & ? & ?).
    congruence. }
  assert (Hpn : path ∉ nodes.*1).
  { intros Hin. destruct (segment_allocated _ _ _ _ Hseg Hin) as (? & ? & ?).
    congruence. }
  assert (Hn2 : n ∉ nodes.*2).
  { intros Hin. destruct (paths_allocated _ _ _ _ Hpaths Hin) as [? ?].
    congruence. }
  assert (Hnd' : NoDup ((nodes ++ [(n, path)]).*1 ++ (nodes ++ [(n, path)]).*2)).
  { rewrite fst_snoc, snd_snoc. by apply nodup_snoc. }
  unfold Mem.enqueue. rewrite Htail.
  destruct nodes as [|[t p] nodes0 _] using rev_ind.
  - cbn [fmap list_fmap last] in *.
    eexists _, _. split; [reflexivity|]. split; [|split; [by destruct d|]].
    + split.
      * split; [reflexivity|]. exists None. split; [|done].
        apply lookup_insert_eq.
      * reflexivity.
      * done.
      * apply Forall2_nil_inv_l in Hpaths as ->.
        constructor; [|constructor].
        cbn [snd]. by rewrite lookup_insert_ne.
    + intros l Hl _. by rewrite lookup_insert_ne.
  - rewrite fst_snoc, last_snoc.
    pose proof (segment_end _ _ _ _ _ Hseg) as Ht.
    assert (Htn : n ≠ t) by (intros ->; congruence).
    rewrite lookup_insert_ne by done. rewrite Ht.
    rewrite fst_snoc, snd_snoc in Hnd. rewrite fst_snoc in Hnn, Hpn.
    rewrite snd_snoc in Hn2, Hfresh.
    assert (Htl : t ∉ nodes0.*1).
    { apply NoDup_app in Hnd as (Hnd & _ & _).
      apply NoDup_app in Hnd as (_ & Hd & _). intros Hin.
      apply (Hd t Hin). apply list_elem_of_singleton. done. }
    eexists _, _. split; [reflexivity|]. split; [|split; [by destruct d|]].
    + split.
      * eapply segment_snoc; [done| | |].
        -- intros l' Hin. rewrite !lookup_insert_ne; [done| |].
           ++ intros ->. apply Hnn. apply elem_of_app. by left.
           ++ intros ->. done.
        -- apply lookup_insert_eq.
        -- rewrite lookup_insert_ne by done. apply lookup_insert_eq.
      * cbn [Mem.queue_tail Mem.set_queue_tail]. by rewrite !fst_snoc, last_snoc.
      * done.
      * apply Forall2_app.
        -- eapply paths_agree; [done|]. intros q Hq.
           destruct (paths_allocated _ _ _ _ Hpaths Hq) as [sq Hsq].
           rewrite !lookup_insert_ne; [done| |].
           ++ intros ->. congruence.
           ++ intros ->. congruence.
        -- constructor; [|constructor]. cbn [snd].
           rewrite !lookup_insert_ne; [done|done|]. intros ->. congruence.
    + intros l Hl Hl'. rewrite !lookup_insert_ne; [done|done|].
      intros ->. apply Hl'. apply elem_of_app. right.
      by apply list_elem_of_singleton.
Qed.

Lemma nodup_head (A B : list Mem.loc) l p :
  NoDup ((l :: A) ++ (p :: B)) →
  l ≠ p ∧ (l ∉ A) ∧ (l ∉ B) ∧ (p ∉ A) ∧ (p ∉ B) ∧ NoDup (A ++ B).
Proof.
  intros H.
  assert ((l :: A) ++ (p :: B) ≡ₚ l :: p :: (A ++ B)) as Hp.
  { cbn [app]. f_equiv. by rewrite <- Permutation_middle. }
  rewrite Hp in H.
  apply NoDup_cons in H as [Hl H]. apply NoDup_cons in H as [Hpp H].
  split. { intros ->. apply Hl. apply elem_of_cons. by left. }
  split. { intros Hin. apply Hl. apply elem_of_cons. right.
           apply elem_of_app. by left. }
  split. { intros Hin. apply Hl. apply elem_of_cons. right.
           apply elem_of_app. by right. }
  split. { intros Hin. apply Hpp. apply elem_of_app. by left. }
  split. { intros Hin. apply Hpp. apply elem_of_app. by right. }
  done.
Qed.

(** What [dequeue] does to a heap that holds a queue. *)
Lemma dequeue_rep h d l p rest s paths :
  Mem.queue_rep h d ((l, p) :: rest) (s :: paths) →
  ∃ d',
    Mem.dequeue h d = Some (Some p, delete l h, d') ∧
    Mem.queue_rep (delete l h) d' rest paths ∧
    scalars d' = scalars d ∧
    delete l h !! p = Some (Mem.Chars s).
Proof.
  intros [Hseg Htail Hnd Hpaths].
  destruct Hseg as [Hh (next & Hl & Hseg)].
  apply Forall2_cons in Hpaths as [Hp Hpaths]. cbn [snd] in Hp.
  change (((l, p) :: rest).*1) with (l :: rest.*1) in *.
  change (((l, p) :: rest).*2) with (p :: rest.*2) in *.
  apply nodup_head in Hnd as (Hlp & Hl1 & Hl2 & Hp1 & Hp2 & Hnd).
  unfold Mem.dequeue. rewrite Hh, Hl. unfold Mem.free. rewrite Hl.
  cbn [mbind option_bind].
  eexists. split; [reflexivity|].
  assert (Hseg' : Mem.segment (delete l h) next rest).
  { eapply segment_agree; [done|]. intros l' Hin.
    apply lookup_delete_ne. by intros ->. }
  assert (Hpaths' : Forall2 (λ np s, delete l h !! np.2 = Some (Mem.Chars s))
                      rest paths).
  { eapply paths_agree; [done|]. intros q Hq.
    apply lookup_delete_ne. by intros ->. }
  split; [|split].
  - destruct rest as [|[l1 p1] rest'].
    + cbn [Mem.segment] in Hseg. subst next. by split.
    + destruct Hseg as [-> _]. by split.
  - destruct next; by destruct d.
  - rewrite lookup_delete_ne; done.
Qed.

Lemma dequeue_empty h d paths :
  Mem.queue_rep h d [] paths →
  Mem.dequeue h d = Some (None, h, d) ∧ paths = [].
Proof.
  intros [Hseg _ _ Hpaths]. cbn [Mem.segment] in Hseg.
  unfold Mem.dequeue. rewrite Hseg.
  by apply Forall2_nil_inv_l in Hpaths as ->.
Qed.

Lemma size_pos (h : Mem.heap) l x : h !! l = Some x → (0 < size h)%nat.
Proof.
  intros Hl. destruct (size h) eqn:Hs; [|lia].
  apply map_size_empty_iff in Hs. subst. by rewrite lookup_empty in Hl.
Qed.

(** The loop of [thread_data_destroy] on a heap that holds a queue. *)
Lemma destroy_loop_rep nodes :
  ∀ fuel h d paths,
    Mem.segment h (Mem.queue_head d) nodes →
    NoDup (nodes.*1 ++ nodes.*2) →
    Forall2 (λ np s, h !! np.2 = Some (Mem.Chars s)) nodes paths →
    (size h ≤ fuel)%nat →
    ∃ h',
      Mem.destroy_loop fuel h d = Some (h', Mem.set_queue_head None d) ∧
      (∀ l, l ∈ nodes.*1 ++ nodes.*2 → h' !! l = None) ∧
      (∀ l, l ∉ nodes.*1 ++ nodes.*2 → h' !! l = h !! l).
Proof.
  induction nodes as [|[l p] rest IH]; intros fuel h d paths Hseg Hnd Hpaths Hfuel.
  - cbn [Mem.segment] in Hseg. exists h. split; [|split].
    + destruct d as [m c qh qt ts pe dn er].
      cbn [Mem.queue_head] in Hseg. subst qh. by destruct fuel.
    + intros l Hin. by apply elem_of_nil in Hin.
    + done.
  - destruct Hseg as [Hh (next & Hl & Hseg)].
    apply Forall2_cons_inv_l in Hpaths as (s & paths' & Hp & Hpaths & ->).
    cbn [snd] in Hp.
    change (((l, p) :: rest).*1) with (l :: rest.*1) in *.
    change (((l, p) :: rest).*2) with (p :: rest.*2) in *.
    apply nodup_head in Hnd as (Hlp & Hl1 & Hl2 & Hp1 & Hp2 & Hnd).
    pose proof (size_pos _ _ _ Hl) as Hpos.
    destruct fuel as [|fuel]; [lia|].
    cbn [Mem.destroy_loop]. rewrite Hh, Hl. unfold Mem.free. rewrite Hp.
    cbn [mbind option_bind].
    rewrite lookup_delete_ne by done. rewrite Hl. cbn [mbind option_bind].
    destruct (IH fuel (delete l (delete p h)) (Mem.set_queue_head next d) paths')
      as (h' & Hrun & Hin & Hout).
    + eapply segment_agree; [done|]. intros l' Hl'.
      rewrite !lookup_delete_ne; [done| |]; by intros ->.
    + done.
    + eapply paths_agree; [done|]. intros q Hq.
      rewrite !lookup_delete_ne; [done| |]; by intros ->.
    + rewrite map_size_delete_Some by (by rewrite lookup_delete_ne).
      rewrite map_size_delete_Some by done. lia.
    + exists h'. split; [|split].
      * rewrite Hrun. by destruct d.
      * intros l' Hl'.
        destruct (decide (l' ∈ rest.*1 ++ rest.*2)) as [?|Hno]; [by apply Hin|].
        rewrite (Hout l' Hno).
        apply elem_of_app in Hl' as [Hl'|Hl']; apply elem_of_cons in Hl' as [->|Hl'].
        -- apply lookup_delete_eq.
        -- destruct Hno. apply elem_of_app. by left.
        -- rewrite lookup_delete_ne by done. apply lookup_delete_eq.
        -- destruct Hno. apply elem_of_app. by right.
      * intros l' Hl'.
        assert (l' ≠ l).
        { intros ->. apply Hl'. apply elem_of_app. left. apply elem_of_cons. by left. }
        assert (l' ≠ p).
        { intros ->. apply Hl'. apply elem_of_app. right. apply elem_of_cons. by left. }
        rewrite Hout.
        -- by rewrite !lookup_delete_ne.
        -- intros Hin'. apply Hl'.
           apply elem_of_app in Hin' as [?|?]; apply elem_of_app;
             [left|right]; apply elem_of_cons; by right.
Qed.

Lemma chars_agree (h h' : Mem.heap) (paths : list Mem.loc) ss :
  Forall2 (λ p s, h !! p = Some (Mem.Chars s)) paths ss →
  (∀ p, p ∈ paths → h' !! p = h !! p) →
  Forall2 (λ p s, h' !! p = Some (Mem.Chars s)) paths ss.
Proof.
  induction 1 as [|p s paths ss Hp _ IH]; intros Hag; constructor.
  - rewrite Hag; [done|]. apply elem_of_cons. by left.
  - apply IH. intros q Hq. apply Hag. apply elem_of_cons. by right.
Qed.

Lemma chars_allocated (h : Mem.heap) (paths : list Mem.loc) ss p :
  Forall2 (λ p s, h !! p = Some (Mem.Chars s)) paths ss →
  p ∈ paths → ∃ s, h !! p = Some (Mem.Chars s).
Proof.
  induction 1 as [|p0 s0 paths ss Hp _ IH].
  - intros Hin. by apply elem_of_nil in Hin.
  - intros [->|Hin]%elem_of_cons; [by eauto|]. by apply IH.
Qed.

(** One turn of the loop of lines 207-214: the call of [enqueue]
    succeeds and leaves the remaining nodes fresh and the remaining
    paths allocated and outside the queue. *)
Lemma enqueue_paths_step h d nodes strs n news path paths s ss :
  Mem.queue_rep h d nodes strs →
  NoDup (n :: news) → (∀ n', n' ∈ n :: news → h !! n' = None) →
  NoDup (path :: paths) →
  Forall2 (λ p s, h !! p = Some (Mem.Chars s)) (path :: paths) (s :: ss) →
  (∀ p, p ∈ path :: paths → p ∉ nodes.*2) →
  ∃ h1 d1,
    Mem.enqueue (Some n) h d path = Some (0, h1, d1) ∧
    Mem.queue_rep h1 d1 (nodes ++ [(n, path)]) (strs ++ [s]) ∧
    scalars d1 = scalars d ∧
    (∀ l, l ≠ n → l ∉ nodes.*1 → h1 !! l = h !! l) ∧
    NoDup news ∧ (∀ n', n' ∈ news → h1 !! n' = None) ∧
    NoDup paths ∧
    Forall2 (λ p s, h1 !! p = Some (Mem.Chars s)) paths ss ∧
    (∀ p, p ∈ paths → p ∉ (nodes ++ [(n, path)]).*2).
Proof.
  intros Hrep Hnn Hfresh Hnp Hpaths Hdisj.
  apply Forall2_cons in Hpaths as [Hp Hpaths].
  apply NoDup_cons in Hnn as [Hn Hnn].
  apply NoDup_cons in Hnp as [Hpath Hnp].
  destruct (enqueue_rep h d nodes strs n path s Hrep)
    as (h1 & d1 & Hrun & Hrep1 & Hsc1 & Hframe1).
  { apply Hfresh. apply elem_of_cons. by left. }
  { done. }
  { apply Hdisj. apply elem_of_cons. by left. }
  assert (Hnodes : ∀ l, l ∈ nodes.*1 → ∃ q nx, h !! l = Some (Mem.DirNode q nx)).
  { intros l Hl. eapply segment_allocated; [|done]. apply Hrep. }
  exists h1, d1. split; [done|]. split; [done|]. split; [done|].
  split; [done|]. split; [done|]. split; [|split; [done|split]].
  - intros n' Hn'. rewrite Hframe1.
    + apply Hfresh. apply elem_of_cons. by right.
    + by intros ->.
    + intros Hin. destruct (Hnodes n' Hin) as (q & nx & Hq).
      rewrite Hfresh in Hq; [done|]. apply elem_of_cons. by right.
  - eapply chars_agree; [exact Hpaths|].
    intros p' Hin. destruct (chars_allocated _ _ _ _ Hpaths Hin) as [s' Hp'].
    rewrite Hframe1; [done| |].
    + intros ->. rewrite Hfresh in Hp'; [done|]. apply elem_of_cons. by left.
    + intros Hin'. destruct (Hnodes p' Hin') as (q & nx & Hq). congruence.
  - intros p' Hp'. rewrite snd_snoc. intros Hin.
    apply elem_of_app in Hin as [Hin|Hin].
    + revert Hin. apply Hdisj. apply elem_of_cons. by right.
    + apply list_elem_of_singleton in Hin as ->. done.
Qed.

(** The loop of lines 207-214 on a heap that holds a queue, when every
    [malloc] succeeds. *)
Lemma enqueue_paths_rep news :
  ∀ h d nodes strs paths ss,
    length news = length paths →
    Mem.queue_rep h d nodes strs →
    NoDup news → (∀ n, n ∈ news → h !! n = None) →
    NoDup paths →
    Forall2 (λ p s, h !! p = Some (Mem.Chars s)) paths ss →
    (∀ p, p ∈ paths → p ∉ nodes.*2) →
    ∃ h' d',
      Mem.enqueue_paths (Some <$> news) h d paths = Some (inr (h', d')) ∧
      Mem.queue_rep h' d' (nodes ++ zip news paths) (strs ++ ss) ∧
      scalars d' = scalars d ∧
      (∀ l, l ∉ news → l ∉ nodes.*1 → h' !! l = h !! l).
Proof.
  induction news as [|n news IH];
    intros h d nodes strs paths ss Hlen Hrep Hnn Hfresh Hnp Hpaths Hdisj.
  - destruct paths; [|done].
    apply Forall2_nil_inv_l in Hpaths as ->.
    exists h, d. cbn [zip zip_with]. rewrite !app_nil_r.
    split; [reflexivity|]. split; [done|]. split; [done|]. done.
  - destruct paths as [|path paths]; [done|].
    destruct ss as [|s ss]; [by apply Forall2_nil_inv_r in Hpaths|].
    destruct (enqueue_paths_step _ _ _ _ _ _ _ _ _ _ Hrep Hnn Hfresh Hnp Hpaths Hdisj)
      as (h1 & d1 & Hrun & Hrep1 & Hsc1 & Hframe1 & Hnn1 & Hfresh1 & Hnp1
          & Hpaths1 & Hdisj1).
    destruct (IH h1 d1 (nodes ++ [(n, path)]) (strs ++ [s]) paths ss)
      as (h2 & d2 & Hrun2 & Hrep2 & Hsc2 & Hframe2); try done.
    { simpl in Hlen. lia. }
    exists h2, d2. split; [|split; [|split]].
    + cbn [fmap list_fmap Mem.enqueue_paths]. rewrite Hrun.
      cbn [mbind option_bind]. exact Hrun2.
    + cbn [zip zip_with]. rewrite <- !app_assoc in Hrep2. exact Hrep2.
    + congruence.
    + intros l Hl Hl'. rewrite Hframe2.
      * apply Hframe1; [|done]. intros ->. apply Hl. apply elem_of_cons. by left.
      * intros Hin. apply Hl. apply elem_of_cons. by right.
      * rewrite fst_snoc. intros Hin.
        apply elem_of_app in Hin as [Hin|Hin]; [done|].
        apply list_elem_of_singleton in Hin as ->.
        apply Hl. apply elem_of_cons. by left.
Qed.

(** The same loop when some [malloc] returns NULL: the worker calls
    [exit]. *)
Lemma enqueue_paths_fail news :
  ∀ h d nodes strs paths ss mallocs,
    (length news < length paths)%nat →
    Mem.queue_rep h d nodes strs →
    NoDup news → (∀ n, n ∈ news → h !! n = None) →
    NoDup paths →
    Forall2 (λ p s, h !! p = Some (Mem.Chars s)) paths ss →
    (∀ p, p ∈ paths → p ∉ nodes.*2) →
    Mem.enqueue_paths ((Some <$> news) ++ None :: mallocs) h d paths
    = Some (inl EXIT_FAILURE).
Proof.
  induction news as [|n news IH];
    intros h d nodes strs paths ss mallocs Hlen Hrep Hnn Hfresh Hnp Hpaths Hdisj.
  - destruct paths as [|path paths]; [simpl in Hlen; lia|]. done.
  - destruct paths as [|path paths]; [simpl in Hlen; lia|].
    destruct ss as [|s ss]; [by apply Forall2_nil_inv_r in Hpaths|].
    destruct (enqueue_paths_step _ _ _ _ _ _ _ _ _ _ Hrep Hnn Hfresh Hnp Hpaths Hdisj)
      as (h1 & d1 & Hrun & Hrep1 & Hsc1 & Hframe1 & Hnn1 & Hfresh1 & Hnp1
          & Hpaths1 & Hdisj1).
    cbn [fmap list_fmap app Mem.enqueue_paths]. rewrite Hrun.
    cbn [mbind option_bind].
    eapply (IH h1 d1); try done. simpl in Hlen. lia.
Qed.

(** As many calls of [dequeue] as the queue has nodes. *)
Lemma dequeue_paths_rep nodes :
  ∀ h d strs,
    Mem.queue_rep h d nodes strs →
    ∃ h' d',
      Mem.dequeue_paths (length nodes) h d
      = Some (Some <$> nodes.*2, h', d') ∧
      Mem.queue_rep h' d' [] [] ∧
      scalars d' = scalars d ∧
      (∀ l, l ∈ nodes.*1 → h' !! l = None) ∧
      (∀ l, l ∉ nodes.*1 → h' !! l = h !! l).
Proof.
  induction nodes as [|[l p] rest IH]; intros h d strs Hrep.
  - destruct (dequeue_empty _ _ _ Hrep) as [_ ->].
    exists h, d. split; [done|]. split; [done|]. split; [done|].
    split; [|done]. intros l Hl. by apply elem_of_nil in Hl.
  - destruct strs as [|s strs].
    { destruct Hrep as [_ _ _ H]. by apply Forall2_nil_inv_r in H. }
    destruct (dequeue_rep _ _ _ _ _ _ _ Hrep) as (d1 & Hrun & Hrep1 & Hsc1 & _).
    destruct (IH _ _ _ Hrep1) as (h2 & d2 & Hrun2 & Hrep2 & Hsc2 & Hin2 & Hout2).
    exists h2, d2. split; [|split; [|split; [|split]]].
    + cbn [length Mem.dequeue_paths]. rewrite Hrun. cbn [mbind option_bind].
      rewrite Hrun2. done.
    + done.
    + congruence.
    + intros l' Hl'.
      destruct (decide (l' ∈ rest.*1)) as [?|Hno]; [by apply Hin2|].
      rewrite (Hout2 l' Hno).
      apply elem_of_cons in Hl' as [->|?]; [|done].
      apply lookup_delete_eq.
    + intros l' Hl'. apply not_elem_of_cons in Hl' as [? ?].
      rewrite Hout2 by done. by apply lookup_delete_ne.
Qed.

Lemma models_with h d nodes D h' d' nodes' q' :
  models h d nodes D → scalars d' = scalars d →
  Mem.queue_rep h' d' nodes' q' →
  models h' d' nodes' (set_queue q' D).
Proof.
  intros (_ & Ht & Hp & Hd & He) Hsc Hrep.
  unfold scalars in Hsc. injection Hsc as _ _ Ht' Hp' Hd' He'.
  split; [done|]. simpl. rewrite Ht', Hp', Hd', He'. done.
Qed.

(** X9. The queue functions on the heap refine the queue functions on
    lists.  [enqueue]: on a heap that holds the queue, with a fresh
    node from [malloc] and a path that is a character array of its
    own, the call returns 0 and the heap holds the queue with the path
    appended; no block outside the queue is touched.  When [malloc]
    returns NULL the call returns -1 and nothing has changed. *)
Theorem enqueue_refines h d nodes D n path s :
  models h d nodes D →
  h !! n = None → h !! path = Some (Mem.Chars s) → path ∉ nodes.*2 →
  (∃ h' d',
     Mem.enqueue (Some n) h d path = Some (0, h', d') ∧
     models h' d' (nodes ++ [(n, path)]) (enqueue D s) ∧
     (∀ l, l ≠ n → l ∉ nodes.*1 → h' !! l = h !! l)) ∧
  Mem.enqueue None h d path = Some (-1, h, d).
Proof.
  intros Hm Hn Hpath Hfresh. split; [|done].
  destruct (enqueue_rep _ _ _ _ _ _ _ (proj1 Hm) Hn Hpath Hfresh)
    as (h' & d' & Hrun & Hrep' & Hsc & Hframe).
  exists h', d'. split; [done|]. split; [|done].
  by eapply models_with.
Qed.

(** X10. [dequeue]: on a heap that holds the queue, the call returns NULL
    and changes nothing when the queue is empty; otherwise it returns
    the pointer of the first node, frees that node and nothing else,
    and the character array it returns is still allocated and holds
    the path the list model returns. *)
Theorem dequeue_refines h d nodes D :
  models h d nodes D →
  ∃ r h' d',
    Mem.dequeue h d = Some (r, h', d') ∧
    models h' d' (tail nodes) (dequeue D).2 ∧
    match (dequeue D).1 with
    | None => r = None ∧ h' = h ∧ d' = d
    | Some s =>
        ∃ l p, head nodes = Some (l, p) ∧ r = Some p ∧
               h' = delete l h ∧ h' !! p = Some (Mem.Chars s)
    end.
Proof.
  intros Hm. pose proof (proj1 Hm) as Hrep.
  unfold dequeue. destruct (queue D) as [|s paths] eqn:Hq.
  - destruct nodes as [|np nodes].
    + destruct (dequeue_empty _ _ _ Hrep) as [Hrun _].
      exists None, h, d. split; [done|]. split; [|done]. done.
    + destruct Hrep as [_ _ _ H]. by apply Forall2_nil_inv_r in H.
  - destruct nodes as [|[l p] nodes].
    { destruct Hrep as [_ _ _ H]. by apply Forall2_nil_inv_l in H. }
    destruct (dequeue_rep _ _ _ _ _ _ _ Hrep) as (d' & Hrun & Hrep' & Hsc & Hl).
    exists (Some p), (delete l h), d'. split; [done|]. split.
    + by eapply models_with.
    + simpl. by exists l, p.
Qed.

(** X11. [thread_data_destroy] on a heap that holds a queue: the call
    returns, frees every node left in the queue and the character
    array of each, and no other block; the mutex and the condition
    variable are destroyed, [queue_head] is NULL, and [queue_tail] is
    left as it was. *)
Theorem thread_data_destroy_frees h d nodes paths :
  Mem.queue_rep h d nodes paths →
  ∃ h' d',
    Mem.thread_data_destroy h d = Some (h', d') ∧
    Mem.mutex d' = false ∧ Mem.cond d' = false ∧
    Mem.queue_head d' = None ∧ Mem.queue_tail d' = Mem.queue_tail d ∧
    (∀ l, l ∈ nodes.*1 ++ nodes.*2 → h' !! l = None) ∧
    (∀ l, l ∉ nodes.*1 ++ nodes.*2 → h' !! l = h !! l).
Proof.
  intros [Hseg Htail Hnd Hpaths]. unfold Mem.thread_data_destroy.
  destruct (destroy_loop_rep nodes (size h) h
              (Mem.set_cond false (Mem.set_mutex false d)) paths)
    as (h' & Hrun & Hin & Hout); [done..|].
  exists h', (Mem.set_queue_head None
                (Mem.set_cond false (Mem.set_mutex false d))).
  split; [done|]. by repeat split.
Qed.

(** X12. The queue is first in, first out, and gives back what it takes:
    on a heap that holds the empty queue, queueing the paths of a
    directory (lines 207-214, every [malloc] successful) and calling
    [dequeue] once for each returns the same pointers in the same
    order and leaves the heap and the queue as they were; a further
    call returns NULL.  When a [malloc] of the loop returns NULL the
    worker exits with [EXIT_FAILURE]. *)
Theorem queue_round_trip h d news paths ss :
  Mem.queue_rep h d [] [] →
  length news = length paths →
  NoDup news → (∀ n, n ∈ news → h !! n = None) →
  NoDup paths →
  Forall2 (λ p s, h !! p = Some (Mem.Chars s)) paths ss →
  (∃ h1 d1,
     Mem.enqueue_paths (Some <$> news) h d paths = Some (inr (h1, d1)) ∧
     Mem.queue_rep h1 d1 (zip news paths) ss ∧
     Mem.dequeue_paths (length paths) h1 d1 = Some (Some <$> paths, h, d)) ∧
  Mem.dequeue h d = Some (None, h, d) ∧
  (∀ k mallocs,
     (k < length paths)%nat →
     Mem.enqueue_paths ((Some <$> take k news) ++ None :: mallocs) h d paths
     = Some (inl EXIT_FAILURE)).
Proof.
  intros Hrep Hlen Hnn Hfresh Hnp Hpaths.
  assert (Hdisj : ∀ p, p ∈ paths → p ∉ ([] : list (Mem.loc * Mem.loc)).*2).
  { intros p _ Hin. by apply elem_of_nil in Hin. }
  split; [|split].
  - destruct (enqueue_paths_rep news h d [] [] paths ss)
      as (h1 & d1 & Hrun & Hrep1 & Hsc1 & Hframe1); try done.
    cbn [app] in Hrep1.
    destruct (dequeue_paths_rep _ _ _ _ Hrep1)
      as (h2 & d2 & Hrun2 & Hrep2 & Hsc2 & Hin2 & Hout2).
    rewrite length_zip, Hlen, Nat.min_id in Hrun2.
    rewrite snd_zip in Hrun2 by lia.
    rewrite fst_zip in Hin2, Hout2 by lia.
    exists h1, d1. split; [done|]. split; [done|].
    assert (h2 = h) as ->.
    { apply map_eq. intros l.
      destruct (decide (l ∈ news)) as [Hl|Hl].
      - rewrite Hin2 by done. symmetry. by apply Hfresh.
      - rewrite Hout2 by done. apply Hframe1; [done|].
        intros Hin. by apply elem_of_nil in Hin. }
    assert (d2 = d) as ->; [|done].
    destruct Hrep as [Hh Ht _ _]. destruct Hrep2 as [Hh2 Ht2 _ _].
    cbn [Mem.segment] in Hh, Hh2.
    apply scalars_eq; congruence.
  - by destruct (dequeue_empty _ _ _ Hrep).
  - intros k mallocs Hk.
    eapply (enqueue_paths_fail (take k news) h d [] []); try done.
    + rewrite length_take. lia.
    + eapply sublist_NoDup; [exact Hnn|apply sublist_take].
    + intros n Hn. apply Hfresh.
      apply elem_of_take in Hn as (i & Hi & _).
      apply list_elem_of_lookup. by exists i.
Qed.

(** X13. [thread_data_init] returns 0 when both primitives can be
    initialised and -1 otherwise.  On 0 the context is that of the
    list model: the empty queue, every counter and flag zero, the
    mutex and the condition variable initialised; and
    [thread_data_destroy] on it leaves the heap alone and destroys
    both.  On -1 neither primitive is left initialised: a mutex that
    was initialised before [pthread_cond_init] failed has been
    destroyed. *)
Theorem thread_data_init_result mutex_ret cond_ret :
  let '(ret, d) := Mem.thread_data_init mutex_ret cond_ret in
  (ret = 0 ∨ ret = -1) ∧
  (ret = 0 ↔ mutex_ret = 0 ∧ cond_ret = 0) ∧
  (ret = 0 →
   Mem.mutex d = true ∧ Mem.cond d = true ∧
   ∀ h, models h d [] thread_data_init ∧
        ∃ d', Mem.thread_data_destroy h d = Some (h, d') ∧
              Mem.mutex d' = false ∧ Mem.cond d' = false) ∧
  (ret = -1 → Mem.mutex d = false ∧ Mem.cond d = false).
Proof.
  unfold Mem.thread_data_init.
  destruct (mutex_ret =? 0) eqn:Hm; simpl.
  - destruct (cond_ret =? 0) eqn:Hc; simpl.
    + apply Z.eqb_eq in Hm, Hc. split; [by left|]. split; [done|].
      split; [|done]. intros _. split; [done|]. split; [done|].
      intros h. split.
      * split; [|done]. split; try done. constructor.
      * unfold Mem.thread_data_destroy. eexists. split.
        -- destruct (size h); reflexivity.
        -- done.
    + apply Z.eqb_neq in Hc. split; [by right|]. split; [|done].
      split; [done|]. by intros [_ ?].
  - apply Z.eqb_neq in Hm. split; [by right|]. split; [|done].
    split; [done|]. by intros [? _].
Qed.


(** ** Sizes and arrays *)

Lemma length_append (a b : string) :
  String.length (a +:+ b) = (String.length a + String.length b)%nat.
Proof. induction a as [|c a IH]; simpl; [done|]. by rewrite IH. Qed.

Lemma substring_all (s : string) (n : nat) :
  (String.length s ≤ n)%nat → String.substring 0 n s = s.
Proof.
  revert n. induction s as [|c s IH]; intros n Hn.
  - by destruct n.
  - destruct n as [|n]; simpl in *; [lia|]. rewrite IH; [done|lia].
Qed.

Lemma wrap_size_small z : 0 ≤ z ≤ Buf.SIZE_MAX → Buf.wrap_size z = z.
Proof.
  unfold Buf.wrap_size, Buf.SIZE_MAX. intros. apply Z.mod_small. lia.
Qed.

Lemma append_inj (a b c : string) : a +:+ b = a +:+ c → b = c.
Proof. induction a as [|x a IH]; simpl; [done|]. intros [= H]. by apply IH. Qed.

(** X14. [construct_path] never truncates: when the two lengths and
    the two extra bytes fit in [size_t], the buffer it allocates is
    filled exactly by the directory, a slash, the entry name and the
    terminating NUL, so the result is the path of the list model;
    different entry names of one directory give different paths; and
    the result is NULL exactly when [malloc] fails. *)
Theorem construct_path_exact dir_path entry_name :
  Buf.strlen dir_path + Buf.strlen entry_name + 2 ≤ Buf.SIZE_MAX →
  Buf.construct_path true dir_path entry_name
  = Some (Some (construct_path dir_path entry_name)) ∧
  Buf.strlen (construct_path dir_path entry_name) + 1
  = Buf.strlen dir_path + 1 + Buf.strlen entry_name + 1 ∧
  Buf.construct_path false dir_path entry_name = None ∧
  (∀ other, construct_path dir_path other
            = construct_path dir_path entry_name → other = entry_name).
Proof.
  intros Hfit. unfold Buf.construct_path, Buf.strlen in *.
  assert (Hlen : String.length (construct_path dir_path entry_name)
               = (String.length dir_path + 1 + String.length entry_name)%nat).
  { unfold construct_path. rewrite !length_append. simpl. lia. }
  split; [|split; [|split]].
  - set (a := Z.of_nat (String.length dir_path)) in *.
    set (b := Z.of_nat (String.length entry_name)) in *.
    rewrite (wrap_size_small (a + 1)) by (unfold Buf.SIZE_MAX in *; lia).
    rewrite (wrap_size_small (a + 1 + b)) by (unfold Buf.SIZE_MAX in *; lia).
    rewrite (wrap_size_small (a + 1 + b + 1))
      by (unfold Buf.SIZE_MAX in *; lia).
    unfold Buf.snprintf, Buf.SIZE_MAX in *.
    destruct (_ =? 0) eqn:H0; [apply Z.eqb_eq in H0; lia|].
    do 2 f_equal. apply substring_all.
    fold (construct_path dir_path entry_name). rewrite Hlen. lia.
  - rewrite Hlen. lia.
  - done.
  - unfold construct_path. intros other H.
    apply append_inj in H. by apply (append_inj "/") in H.
Qed.

Lemma children_cons_dot path name names :
  is_dot name = true → children path (name :: names) = children path names.
Proof.
  intros H. unfold children. rewrite filter_cons.
  destruct (decide (is_dot name = false)); [congruence|done].
Qed.

Lemma children_cons path name names :
  is_dot name = false →
  children path (name :: names)
  = construct_path path name :: children path names.
Proof.
  intros H. unfold children. rewrite filter_cons.
  destruct (decide (is_dot name = false)); [done|congruence].
Qed.

(** A successful [realloc] to a larger size keeps the cells. *)
Lemma realloc_grow (p : Buf.cells) n :
  Z.of_nat (length p) ≤ n → n * 8 ≤ Buf.SIZE_MAX →
  Buf.realloc p (Buf.wrap_size (n * Buf.sizeof_ptr))
  = p ++ replicate (Z.to_nat n - length p) None.
Proof.
  intros Hn Hfit. unfold Buf.realloc, Buf.sizeof_ptr.
  rewrite wrap_size_small by lia.
  rewrite Z.div_mul by lia.
  rewrite take_ge by lia. done.
Qed.

(** A store into the first free cell. *)
Lemma store_free (pre : list string) j junk x :
  Buf.store ((Some <$> pre) ++ j :: junk) (Z.of_nat (length pre)) x
  = Some ((Some <$> (pre ++ [x])) ++ junk).
Proof.
  unfold Buf.store. rewrite length_app, length_fmap. cbn [length].
  destruct (_ && _) eqn:Hb.
  - f_equal. rewrite Nat2Z.id.
    rewrite insert_app_r_alt by (rewrite length_fmap; lia).
    rewrite length_fmap, Nat.sub_diag.
    rewrite fmap_app, <- app_assoc. done.
  - apply andb_false_iff in Hb as [Hb|Hb]; [apply Z.leb_gt in Hb|apply Z.ltb_ge in Hb]; lia.
Qed.

(** The readdir loop from any state it can be in. *)
Lemma readdir_loop_inv alloc_ok path :
  ∀ entries calls c pre junk,
    (∀ name, name ∈ entries →
             Buf.strlen path + Buf.strlen name + 2 ≤ Buf.SIZE_MAX) →
    Z.of_nat (length pre) + Z.of_nat (length entries) ≤ 2 ^ 58 →
    Buf.paths_to_enqueue c = (Some <$> pre) ++ junk →
    Buf.paths_capacity c = Z.of_nat (length pre + length junk) →
    Buf.paths_count c = Z.of_nat (length pre) →
    Buf.pending_increment c = wrap_int (Z.of_nat (length pre)) →
    Buf.paths_capacity c < 2 * Buf.paths_count c + 16 →
    ∃ r,
      Buf.readdir_loop alloc_ok calls path entries c = Some r ∧
      match r with
      | inl code => code = EXIT_FAILURE ∧ ∃ k, alloc_ok k = false
      | inr c' =>
          ∃ junk',
            Buf.paths_to_enqueue c'
            = (Some <$> (pre ++ children path entries)) ++ junk' ∧
            Buf.paths_capacity c'
            = Z.of_nat (length (pre ++ children path entries) + length junk') ∧
            Buf.paths_count c'
            = Z.of_nat (length (pre ++ children path entries)) ∧
            Buf.pending_increment c'
            = wrap_int (Z.of_nat (length (pre ++ children path entries))) ∧
            Buf.paths_capacity c' < 2 * Buf.paths_count c' + 16
      end.
Proof.
  induction entries as [|name entries IH];
    intros calls c pre junk Hfit Hlen Hcells Hcap Hcount Hpend Hbound.
  - exists (inr c). split; [done|]. exists junk.
    unfold children. simpl. rewrite app_nil_r. done.
  - assert (Hfit' : ∀ name', name' ∈ entries →
              Buf.strlen path + Buf.strlen name' + 2 ≤ Buf.SIZE_MAX).
    { intros name' Hin. apply Hfit. apply elem_of_cons. by right. }
    cbn [Buf.readdir_loop]. destruct (is_dot name) eqn:Hdot.
    { rewrite (children_cons_dot _ _ _ Hdot).
      apply (IH calls c pre junk); try done. simpl in Hlen. lia. }
    rewrite (children_cons _ _ _ Hdot).
    destruct (alloc_ok calls) eqn:Hok1.
    2:{ exists (inl EXIT_FAILURE). split; [done|]. split; [done|]. by exists calls. }
    destruct (construct_path_exact path name) as (-> & _).
    { apply Hfit. apply elem_of_cons. by left. }
    set (x := construct_path path name).
    assert (Hnext : ∀ c1 junk1,
              Buf.paths_to_enqueue c1 = (Some <$> (pre ++ [x])) ++ junk1 →
              Buf.paths_capacity c1
              = Z.of_nat (length (pre ++ [x]) + length junk1) →
              Buf.paths_count c1 = Z.of_nat (length (pre ++ [x])) →
              Buf.pending_increment c1
              = wrap_int (Z.of_nat (length (pre ++ [x]))) →
              Buf.paths_capacity c1 < 2 * Buf.paths_count c1 + 16 →
              ∀ calls1,
              ∃ r,
                Buf.readdir_loop alloc_ok calls1 path entries c1 = Some r ∧
                match r with
                | inl code => code = EXIT_FAILURE ∧ ∃ k, alloc_ok k = false
                | inr c' =>
                    ∃ junk',
                      Buf.paths_to_enqueue c'
                      = (Some <$> (pre ++ x :: children path entries)) ++ junk' ∧
                      Buf.paths_capacity c'
                      = Z.of_nat (length (pre ++ x :: children path entries)
                                  + length junk') ∧
                      Buf.paths_count c'
                      = Z.of_nat (length (pre ++ x :: children path entries)) ∧
                      Buf.pending_increment c'
                      = wrap_int
                          (Z.of_nat (length (pre ++ x :: children path entries))) ∧
                      Buf.paths_capacity c' < 2 * Buf.paths_count c' + 16
                end).
    { intros c1 junk1 H1 H2 H3 H4 H5 calls1.
      destruct (IH calls1 c1 (pre ++ [x]) junk1) as (r & Hr & Hres); try done.
      { rewrite length_app. simpl in *. lia. }
      exists r. split; [done|]. destruct r as [code|c']; [done|].
      rewrite <- app_assoc in Hres. exact Hres. }
    assert (Hpend' : wrap_int (Buf.pending_increment c + 1)
                     = wrap_int (Z.of_nat (length (pre ++ [x])))).
    { rewrite Hpend, wrap_int_add_l, length_app. simpl. f_equal. lia. }
    assert (Hcount' : Buf.wrap_size (Buf.paths_count c + 1)
                      = Z.of_nat (length (pre ++ [x]))).
    { rewrite Hcount, length_app. simpl.
      rewrite wrap_size_small by (unfold Buf.SIZE_MAX; lia). lia. }
    destruct (Buf.paths_count c =? Buf.paths_capacity c) eqn:Hfull.
    + apply Z.eqb_eq in Hfull.
      assert (junk = []) as ->.
      { destruct junk; [done|]. simpl in *. lia. }
      rewrite app_nil_r in Hcells.
      set (capacity := if Buf.paths_capacity c =? 0 then 16
                       else Buf.wrap_size (Buf.paths_capacity c * 2)).
      assert (Hcapacity : capacity = if Buf.paths_capacity c =? 0 then 16
                                     else Buf.paths_capacity c * 2).
      { unfold capacity. destruct (_ =? 0); [done|].
        apply wrap_size_small. unfold Buf.SIZE_MAX. lia. }
      assert (Hgrow : Z.of_nat (length pre) + 1 ≤ capacity
                      ∧ capacity < 2 * (Z.of_nat (length pre) + 1) + 16).
      { rewrite Hcapacity. destruct (_ =? 0) eqn:H0.
        - apply Z.eqb_eq in H0. lia.
        - apply Z.eqb_neq in H0. lia. }
      destruct (alloc_ok (S calls)) eqn:Hok2.
      2:{ exists (inl EXIT_FAILURE). split; [done|]. split; [done|].
          by exists (S calls). }
      rewrite Hcells, realloc_grow;
        [|rewrite length_fmap; lia|unfold Buf.SIZE_MAX; lia].
      rewrite length_fmap.
      destruct (Z.to_nat capacity - length pre)%nat as [|m] eqn:Hm; [lia|].
      cbn [replicate]. rewrite Hcount, store_free. cbn [mbind option_bind].
      apply (Hnext _ (replicate m None)); cbn [Buf.paths_to_enqueue
        Buf.paths_capacity Buf.paths_count Buf.pending_increment]; try done.
      * rewrite length_app, length_replicate. simpl. lia.
      * by rewrite <- Hcount.
      * rewrite <- Hcount, Hcount', length_app. simpl. lia.
    + apply Z.eqb_neq in Hfull.
      destruct junk as [|j junk]; [simpl in *; lia|].
      rewrite Hcells, Hcount, store_free. cbn [mbind option_bind].
      apply (Hnext _ junk); cbn [Buf.paths_to_enqueue
        Buf.paths_capacity Buf.paths_count Buf.pending_increment]; try done.
      * rewrite Hcap, !length_app. simpl. lia.
      * by rewrite <- Hcount.
      * rewrite <- Hcount, Hcount', length_app. simpl. lia.
Qed.

Lemma is_dot_spec name : is_dot name = false ↔ name ≠ "." ∧ name ≠ "..".
Proof.
  unfold is_dot. rewrite orb_false_iff, !String.eqb_neq. done.
Qed.

(** X15. The readdir loop of [handle_directory] never writes outside
    the array it grows and never reads a cell it has not written:
    for any outcome of the allocations it either exits with
    [EXIT_FAILURE] after a failed allocation or ends with
    [paths_count] cells filled, in the order of the directory stream,
    with exactly the paths [children] gives the list model, in an
    array of [paths_capacity] cells that is less than twice as large
    as needed plus 16; [pending_increment] is their number.  The
    paths collected are those of the entries other than "." and "..". *)
Theorem readdir_loop_collects alloc_ok path entries :
  Z.of_nat (length entries) ≤ 2 ^ 58 →
  (∀ name, name ∈ entries →
           Buf.strlen path + Buf.strlen name + 2 ≤ Buf.SIZE_MAX) →
  (∃ r,
     Buf.readdir_loop alloc_ok 0 path entries (Buf.mkCollected 0 0 0 [])
     = Some r ∧
     match r with
     | inl code => code = EXIT_FAILURE ∧ ∃ k, alloc_ok k = false
     | inr c =>
         Buf.paths_count c = Z.of_nat (length (children path entries)) ∧
         take (length (children path entries)) (Buf.paths_to_enqueue c)
         = Some <$> children path entries ∧
         Buf.pending_increment c
         = wrap_int (Z.of_nat (length (children path entries))) ∧
         Z.of_nat (length (Buf.paths_to_enqueue c)) = Buf.paths_capacity c ∧
         Buf.paths_count c ≤ Buf.paths_capacity c
         < 2 * Buf.paths_count c + 16
     end) ∧
  (∀ p, p ∈ children path entries ↔
        ∃ name, name ∈ entries ∧ name ≠ "." ∧ name ≠ ".." ∧
                p = construct_path path name).
Proof.
  intros Hlen Hfit. split.
  - destruct (readdir_loop_inv alloc_ok path entries 0
                (Buf.mkCollected 0 0 0 []) [] [])
      as (r & Hr & Hres); try done.
    exists r. split; [done|]. destruct r as [code|c]; [done|].
    destruct Hres as (junk & Hcells & Hcap & Hcount & Hpend & Hbound).
    cbn [app] in *.
    split; [done|]. split.
    { rewrite Hcells. apply take_app_length'. by rewrite length_fmap. }
    split; [done|]. split.
    { rewrite Hcells, Hcap, length_app, length_fmap. lia. }
    lia.
  - intros p. unfold children. rewrite list_elem_of_fmap. split.
    + intros (name & -> & Hin). apply list_elem_of_filter in Hin as [Hd Hin].
      apply is_dot_spec in Hd as [? ?]. by exists name.
    + intros (name & Hin & H1 & H2 & ->). exists name. split; [done|].
      apply list_elem_of_filter. split; [|done]. by apply is_dot_spec.
Qed.

(** The loop of [parse_paths] from any state it can be in. *)
Lemma parse_loop_inv alloc_ok :
  ∀ operands calls c pre junk,
    Z.of_nat (length pre) + Z.of_nat (length operands) ≤ 2 ^ 29 →
    Buf.paths c = (Some <$> pre) ++ junk →
    Buf.paths_size c = Z.of_nat (length pre + length junk) →
    Buf.num_paths c = Z.of_nat (length pre) →
    Buf.paths_size c < 2 * Buf.num_paths c + 10 →
    ∃ r,
      Buf.parse_loop alloc_ok calls operands c = Some r ∧
      match r with
      | inl code => code = EXIT_FAILURE ∧ ∃ k, alloc_ok k = false
      | inr c' =>
          ∃ junk',
            Buf.paths c' = (Some <$> (pre ++ operands)) ++ junk' ∧
            Buf.paths_size c'
            = Z.of_nat (length (pre ++ operands) + length junk') ∧
            Buf.num_paths c' = Z.of_nat (length (pre ++ operands)) ∧
            Buf.paths_size c' < 2 * Buf.num_paths c' + 10
      end.
Proof.
  induction operands as [|arg operands IH];
    intros calls c pre junk Hlen Hcells Hcap Hcount Hbound.
  - exists (inr c). split; [done|]. exists junk. rewrite app_nil_r. done.
  - cbn [Buf.parse_loop].
    assert (Hnext : ∀ c1 junk1,
              Buf.paths c1 = (Some <$> (pre ++ [arg])) ++ junk1 →
              Buf.paths_size c1
              = Z.of_nat (length (pre ++ [arg]) + length junk1) →
              Buf.num_paths c1 = Z.of_nat (length (pre ++ [arg])) →
              Buf.paths_size c1 < 2 * Buf.num_paths c1 + 10 →
              ∀ calls1,
              ∃ r,
                Buf.parse_loop alloc_ok calls1 operands c1 = Some r ∧
                match r with
                | inl code => code = EXIT_FAILURE ∧ ∃ k, alloc_ok k = false
                | inr c' =>
                    ∃ junk',
                      Buf.paths c'
                      = (Some <$> (pre ++ arg :: operands)) ++ junk' ∧
                      Buf.paths_size c'
                      = Z.of_nat (length (pre ++ arg :: operands)
                                  + length junk') ∧
                      Buf.num_paths c'
                      = Z.of_nat (length (pre ++ arg :: operands)) ∧
                      Buf.paths_size c' < 2 * Buf.num_paths c' + 10
                end).
    { intros c1 junk1 H1 H2 H3 H4 calls1.
      destruct (IH calls1 c1 (pre ++ [arg]) junk1) as (r & Hr & Hres); try done.
      { rewrite length_app. simpl in *. lia. }
      exists r. split; [done|]. destruct r as [code|c']; [done|].
      rewrite <- app_assoc in Hres. exact Hres. }
    assert (Hcount' : wrap_int (Buf.num_paths c + 1)
                      = Z.of_nat (length (pre ++ [arg]))).
    { rewrite Hcount, length_app. simpl in *.
      rewrite wrap_int_small by lia. lia. }
    destruct (Buf.num_paths c =? Buf.paths_size c) eqn:Hfull.
    + apply Z.eqb_eq in Hfull.
      assert (junk = []) as ->.
      { destruct junk; [done|]. simpl in *. lia. }
      rewrite app_nil_r in Hcells.
      set (size := if Buf.paths_size c =? 0 then 10
                   else wrap_int (Buf.paths_size c * 2)).
      assert (Hsize : size = if Buf.paths_size c =? 0 then 10
                             else Buf.paths_size c * 2).
      { unfold size. destruct (_ =? 0); [done|].
        apply wrap_int_small. simpl in *. lia. }
      assert (Hgrow : Z.of_nat (length pre) + 1 ≤ size
                      ∧ size < 2 * (Z.of_nat (length pre) + 1) + 10).
      { rewrite Hsize. destruct (_ =? 0) eqn:H0.
        - apply Z.eqb_eq in H0. lia.
        - apply Z.eqb_neq in H0. lia. }
      destruct (alloc_ok calls) eqn:Hok.
      2:{ exists (inl EXIT_FAILURE). split; [done|]. split; [done|].
          by exists calls. }
      rewrite Hcells, realloc_grow;
        [|rewrite length_fmap; lia|unfold Buf.SIZE_MAX; simpl in *; lia].
      rewrite length_fmap.
      destruct (Z.to_nat size - length pre)%nat as [|m] eqn:Hm; [lia|].
      cbn [replicate]. rewrite Hcount, store_free. cbn [mbind option_bind].
      apply (Hnext _ (replicate m None));
        cbn [Buf.paths Buf.paths_size Buf.num_paths]; try done.
      * rewrite length_app, length_replicate. simpl. lia.
      * by rewrite <- Hcount.
      * rewrite <- Hcount, Hcount', length_app. simpl. lia.
    + apply Z.eqb_neq in Hfull.
      destruct junk as [|j junk]; [simpl in *; lia|].
      rewrite Hcells, Hcount, store_free. cbn [mbind option_bind].
      apply (Hnext _ junk); cbn [Buf.paths Buf.paths_size Buf.num_paths];
        try done.
      * rewrite Hcap, !length_app. simpl. lia.
      * by rewrite <- Hcount.
      * rewrite <- Hcount, Hcount', length_app. simpl. lia.
Qed.

(** X16. [parse_paths] with its array: for any outcome of the
    allocations it either returns NULL with [EXIT_FAILURE] as the
    exit code, after a failed allocation, or an array whose first
    [num_paths] cells are the operands in order, or the single path
    "." when there is no operand; no store goes outside the array. *)
Theorem parse_paths_collects alloc_ok operands :
  Z.of_nat (length operands) ≤ 2 ^ 29 →
  ∃ r,
    Buf.parse_paths alloc_ok operands = Some r ∧
    match r with
    | inl code => code = EXIT_FAILURE ∧ ∃ k, alloc_ok k = false
    | inr c =>
        Buf.num_paths c = Z.of_nat (length (parse_paths operands)) ∧
        1 ≤ Buf.num_paths c ∧
        take (length (parse_paths operands)) (Buf.paths c)
        = Some <$> parse_paths operands
    end.
Proof.
  intros Hlen. unfold Buf.parse_paths.
  destruct (parse_loop_inv alloc_ok operands 0 (Buf.mkParsed 0 0 []) [] [])
    as (r & Hr & Hres); try done.
  rewrite Hr. cbn [mbind option_bind].
  destruct r as [code|c].
  { exists (inl code). done. }
  destruct Hres as (junk & Hcells & Hcap & Hcount & Hbound). cbn [app] in *.
  destruct operands as [|arg operands].
  - rewrite Hcount. cbn [length Z.of_nat Z.eqb].
    destruct (alloc_ok 0%nat) eqn:Hok.
    + eexists. split; [reflexivity|]. done.
    + exists (inl EXIT_FAILURE). split; [done|]. split; [done|]. by exists 0%nat.
  - destruct (Buf.num_paths c =? 0) eqn:H0.
    { apply Z.eqb_eq in H0. simpl in *. lia. }
    exists (inr c). split; [done|]. cbn [parse_paths].
    split; [done|]. split; [simpl in *; lia|].
    rewrite Hcells. apply take_app_length'. by rewrite length_fmap.
Qed.

(** ** The options *)

Lemma last_valid atoi (opts : list getopt_result) o d1 d2 :
  Forall (λ o, ∃ optarg, o = Opt_j optarg ∧ 1 ≤ atoi optarg) (o :: opts) →
  match last (o :: opts) with
  | Some (Opt_j optarg) => atoi optarg
  | _ => d1
  end
  = match last (o :: opts) with
    | Some (Opt_j optarg) => atoi optarg
    | _ => d2
    end.
Proof.
  intros HF. destruct (last (o :: opts)) as [o'|] eqn:Hl.
  - apply last_Some_elem_of in Hl. rewrite Forall_forall in HF.
    by destruct (HF o' Hl) as (a & -> & _).
  - by apply last_None in Hl.
Qed.

(** X17. The option loop of [main]: it accepts the options exactly
    when every one of them is option j with an argument that [atoi]
    reads as at least 1, and then the worker count is the value of the
    last one, or the default when there is none; in every other case
    it exits with [EXIT_FAILURE].  Options are handled one after the
    other: a list of options followed by another behaves like the
    second list started with the count the first has reached. *)
Theorem getopt_loop_last_wins atoi opts num_threads :
  (∀ n,
     getopt_loop atoi opts num_threads = inl n ↔
     Forall (λ o, ∃ optarg, o = Opt_j optarg ∧ 1 ≤ atoi optarg) opts ∧
     n = match last opts with
         | Some (Opt_j optarg) => atoi optarg
         | _ => num_threads
         end) ∧
  (∀ code, getopt_loop atoi opts num_threads = inr code →
           code = EXIT_FAILURE) ∧
  (∀ opts',
     getopt_loop atoi (opts ++ opts') num_threads
     = match getopt_loop atoi opts num_threads with
       | inl n => getopt_loop atoi opts' n
       | inr code => inr code
       end).
Proof.
  revert num_threads. induction opts as [|o opts IH]; intros num_threads.
  - split; [|split]; try done. intros n. simpl. split.
    + intros [= <-]. by split.
    + by intros [_ ->].
  - destruct o as [optarg|]; simpl.
    + destruct (atoi optarg <? 1) eqn:Hlt.
      * apply Z.ltb_lt in Hlt. split; [|split].
        -- intros n. split; [done|]. intros [HF _].
           apply Forall_cons in HF as [(a & [= <-] & ?) _]. lia.
        -- by intros code [= <-].
        -- done.
      * apply Z.ltb_ge in Hlt.
        destruct (IH (atoi optarg)) as (Hinl & Hinr & Happ).
        split; [|split]; [|done|done].
        intros n. rewrite Hinl. split.
        -- intros [HF ->]. split.
           ++ constructor; [|done]. exists optarg. by split.
           ++ destruct opts as [|o' opts']; [reflexivity|].
              rewrite last_cons_cons. by apply last_valid.
        -- intros [HF ->]. apply Forall_cons in HF as [_ HF]. split; [done|].
           destruct opts as [|o' opts']; [reflexivity|].
           rewrite last_cons_cons. by apply last_valid.
    + split; [|split].
      * intros n. split; [done|]. intros [HF _].
        by apply Forall_cons in HF as [(a & ? & ?) _].
      * by intros code [= <-].
      * done.
Qed.


(** ** The pool on the heap and the list model *)

(** *** Blocks beyond the initial heap *)

Lemma heap_inv_perm h0 h B B' :
  B ≡ₚ B' → heap_inv h0 h B → heap_inv h0 h B'.
Proof.
  intros HP (Hnd & Hin & Hout). split; [|split].
  - by rewrite <- HP.
  - intros l Hl. apply Hin. by rewrite HP.
  - intros l Hl. apply Hout. by rewrite HP.
Qed.

Lemma heap_inv_alloc h0 (h : Mem.heap) B l b :
  heap_inv h0 h B → h !! l = None → heap_inv h0 (<[l := b]> h) (l :: B).
Proof.
  intros (Hnd & Hin & Hout) Hl.
  assert (HlB : l ∉ B).
  { intros HB. destruct (Hin l HB) as [[x Hx] _]. congruence. }
  split; [|split].
  - by apply NoDup_cons.
  - intros l' [->|Hl']%elem_of_cons.
    + split; [by rewrite lookup_insert_eq|]. rewrite <- Hout; done.
    + destruct (Hin l' Hl') as [Ha H0]. split; [|done].
      rewrite lookup_insert_ne; [done|]. by intros ->.
  - intros l' Hl'. apply not_elem_of_cons in Hl' as [Hne Hl'].
    rewrite lookup_insert_ne by done. by apply Hout.
Qed.

Lemma heap_inv_free h0 (h : Mem.heap) B l :
  heap_inv h0 h (l :: B) → heap_inv h0 (delete l h) B.
Proof.
  intros (Hnd & Hin & Hout). apply NoDup_cons in Hnd as [HlB Hnd].
  split; [done|split].
  - intros l' Hl'. destruct (Hin l') as [Ha H0].
    { apply elem_of_cons. by right. }
    split; [|done]. rewrite lookup_delete_ne; [done|]. by intros ->.
  - intros l' Hl'. destruct (decide (l' = l)) as [->|Hne].
    + rewrite lookup_delete_eq. symmetry. apply Hin. apply elem_of_cons. by left.
    + rewrite lookup_delete_ne by done. apply Hout.
      intros [?|?]%elem_of_cons; done.
Qed.

Lemma heap_inv_update h0 (h : Mem.heap) B l b :
  heap_inv h0 h B → l ∈ B → heap_inv h0 (<[l := b]> h) B.
Proof.
  intros (Hnd & Hin & Hout) Hl. split; [done|split].
  - intros l' Hl'. destruct (Hin l' Hl') as [Ha H0]. split; [|done].
    destruct (decide (l = l')) as [->|Hne].
    + by rewrite lookup_insert_eq.
    + by rewrite lookup_insert_ne.
  - intros l' Hl'. rewrite lookup_insert_ne; [by apply Hout|]. by intros ->.
Qed.

Lemma heap_inv_nil h0 h : heap_inv h0 h [] → h = h0.
Proof.
  intros (_ & _ & Hout). apply map_eq. intros l. apply Hout.
  apply not_elem_of_nil.
Qed.

(** *** Program points and the heap *)

Lemma load_all_agree (h h' : Mem.heap) cells :
  (∀ l, l ∈ cells → h' !! l = h !! l) → load_all h' cells = load_all h cells.
Proof.
  intros Hag. unfold load_all. apply Forall_mapM_ext, Forall_forall.
  intros l Hl. unfold Mem.load_chars. by rewrite Hag.
Qed.

Lemma load_array_agree (h h' : Mem.heap) arr :
  (∀ l, l ∈ opt_list arr → h' !! l = h !! l) →
  Mem.load_array h' arr = Mem.load_array h arr.
Proof.
  intros Hag. destruct arr as [a|]; [|done]. simpl.
  rewrite Hag; [done|]. apply elem_of_cons. by left.
Qed.

Ltac in_list :=
  repeat first
    [ assumption
    | apply elem_of_cons; left; reflexivity
    | apply elem_of_cons; right
    | apply elem_of_app; left; assumption
    | apply elem_of_app; right ].

(** The program point a worker stands for, and what it owns, depend
    only on its footprint. *)
Lemma erase_agree (h h' : Mem.heap) p :
  (∀ l, l ∈ footprint h p → h' !! l = h !! l) →
  erase h' p = erase h p ∧ owned h' p = owned h p ∧
  footprint h' p = footprint h p.
Proof.
  intros Hag.
  assert (Hc : ∀ l, l ∈ footprint h p → Mem.load_chars h' l = Mem.load_chars h l).
  { intros l Hl. unfold Mem.load_chars. by rewrite Hag. }
  destruct p as [| | | | | |[l|]| | | | | | | | | | | | | | | | | | | | | |];
    simpl in *; rewrite ?Hc by in_list; try done.
  all: assert (Ha : Mem.load_array h' arr = Mem.load_array h arr)
      by (apply load_array_agree; intros l Hl; apply Hag; in_list).
  all: unfold load_dir, load_dir_done; rewrite ?Hc by in_list;
    rewrite ?Ha; rewrite ?(Hag dir) by in_list; try done.
  all: split; [|done].
  all: destruct (Mem.load_chars h path); simpl; [|done].
  all: destruct (h !! dir) as [[]|]; simpl; try done.
  all: destruct (Mem.load_array h arr) as [cells|] eqn:Hcells; simpl; [|done].
  all: case_bool_decide; simpl; [|done].
  all: rewrite (load_all_agree h h' cells); [done|].
  all: intros l Hl; apply Hag; in_list.
Qed.

Lemma load_chars_Some (h : Mem.heap) l s :
  Mem.load_chars h l = Some s → h !! l = Some (Mem.Chars s).
Proof.
  unfold Mem.load_chars. destruct (h !! l) as [[]|]; intros; by simplify_eq.
Qed.

Lemma load_all_allocated (h : Mem.heap) cells paths l :
  load_all h cells = Some paths → l ∈ cells → is_Some (h !! l).
Proof.
  intros H Hl. apply mapM_Some_1 in H.
  apply list_elem_of_lookup in Hl as [i Hi].
  destruct (Forall2_lookup_l _ _ _ _ _ H Hi) as (s & _ & Hs).
  apply load_chars_Some in Hs. by eexists.
Qed.

Lemma load_array_allocated (h : Mem.heap) arr cells l :
  Mem.load_array h arr = Some cells → l ∈ opt_list arr → is_Some (h !! l).
Proof.
  destruct arr as [a|]; simpl; [|by intros _ ?%elem_of_nil].
  intros H Hl. apply list_elem_of_singleton in Hl as ->.
  destruct (h !! a); [by eexists|done].
Qed.

(** Whatever a program point depends on is allocated. *)
Lemma footprint_allocated (h : Mem.heap) p q l :
  erase h p = Some q → l ∈ footprint h p → is_Some (h !! l).
Proof.
  intros He Hl.
  destruct p as [| | | | | |[l0|]| | | | | | | | | | | | | | | | | | | | | |];
    simpl in *; try (by apply elem_of_nil in Hl).
  all: try (apply list_elem_of_singleton in Hl as ->;
            destruct (Mem.load_chars h _) as [s|] eqn:Hs; [|done];
            apply load_chars_Some in Hs; by eexists).
  all: unfold load_dir, load_dir_done in He.
  all: destruct (Mem.load_chars h path) as [s|] eqn:Hs; simpl in He; [|done].
  all: destruct (h !! dir) as [[]|] eqn:Hd; simpl in He; try done.
  all: destruct (Mem.load_array h arr) as [cells|] eqn:Hcells;
    simpl in He; [|done].
  all: apply load_chars_Some in Hs.
  all: apply elem_of_cons in Hl as [->|Hl]; [by eexists|].
  all: apply elem_of_cons in Hl as [->|Hl]; [by eexists|].
  all: try (by eapply load_array_allocated).
  all: apply elem_of_app in Hl as [Hl|Hl]; [by eapply load_array_allocated|].
  all: case_bool_decide; simpl in He; [|done].
  all: destruct (load_all h cells) as [paths|] eqn:Hp; [|done].
  all: by eapply load_all_allocated.
Qed.

Lemma owned_footprint h p l : l ∈ owned h p → l ∈ footprint h p.
Proof.
  destruct p; simpl; try done.
  intros Hl. repeat (apply elem_of_cons in Hl as [->|Hl]; [in_list|]).
  in_list.
Qed.

Lemma erase_mwake h p : erase h (mwake p) = wake <$> erase h p.
Proof.
  destruct p as [| | | | | |[l|]| | | | | | | | | | | | | | | | | | | | | |];
    simpl; try done.
  all: try (by destruct (Mem.load_chars h _)).
  all: try (destruct (load_dir h _ _ _ _); simpl; [|done];
            by destruct (load_all h _)).
  all: by destruct (load_dir_done h _ _ _).
Qed.

Lemma owned_mwake h p : owned h (mwake p) = owned h p.
Proof. by destruct p. Qed.

Lemma footprint_mwake h p : footprint h (mwake p) = footprint h p.
Proof. by destruct p. Qed.

(** What the other workers own is a part of what all workers own. *)
Lemma owned_split h (ps : list mpc) w p :
  ps !! w = Some p →
  concat (owned h <$> ps) ≡ₚ owned h p ++ concat (owned h <$> delete w ps).
Proof.
  revert w. induction ps as [|x ps IH]; intros w Hw; [done|].
  destruct w as [|w]; simpl in *.
  - by simplify_eq.
  - rewrite (IH w Hw). solve_Permutation.
Qed.

Lemma delete_mpcs_after w p' bc (ps : list mpc) :
  delete w (mpcs_after w p' bc ps)
  = delete w (if bc then map mwake ps else ps).
Proof.
  unfold mpcs_after.
  generalize (if bc then map mwake ps else ps). intros l. revert w.
  induction l as [|x l IH]; intros [|w]; simpl; try done.
  by rewrite IH.
Qed.

Lemma delete_lookup {A} (l : list A) w w' x :
  delete w l !! w' = Some x →
  ∃ v, v ≠ w ∧ l !! v = Some x.
Proof.
  revert w w'. induction l as [|y l IH]; intros w w' H; [done|].
  destruct w as [|w]; simpl in *.
  - exists (S w'). by split.
  - destruct w' as [|w']; simpl in *.
    + exists 0%nat. by split.
    + destruct (IH _ _ H) as (v & Hne & Hv). exists (S v). split; [lia|done].
Qed.

Lemma queue_rep_agree (h h' : Mem.heap) d nodes paths :
  Mem.queue_rep h d nodes paths →
  (∀ l, l ∈ nodes.*1 ++ nodes.*2 → h' !! l = h !! l) →
  Mem.queue_rep h' d nodes paths.
Proof.
  intros [Hseg Htail Hnd Hpaths] Hag. split; [|done|done|].
  - eapply segment_agree; [done|]. intros l Hl. apply Hag.
    apply elem_of_app. by left.
  - eapply paths_agree; [done|]. intros l Hl. apply Hag.
    apply elem_of_app. by right.
Qed.

Lemma queue_rep_allocated (h : Mem.heap) d nodes paths l :
  Mem.queue_rep h d nodes paths → l ∈ nodes.*1 ++ nodes.*2 →
  is_Some (h !! l).
Proof.
  intros [Hseg _ _ Hpaths] [Hl|Hl]%elem_of_app.
  - destruct (segment_allocated _ _ _ _ Hseg Hl) as (? & ? & ?). by eexists.
  - destruct (paths_allocated _ _ _ _ Hpaths Hl) as (? & ?). by eexists.
Qed.

Lemma models_agree (h h' : Mem.heap) d nodes D :
  models h d nodes D →
  (∀ l, l ∈ nodes.*1 ++ nodes.*2 → h' !! l = h !! l) →
  models h' d nodes D.
Proof.
  intros (Hrep & H) Hag. split; [|done]. by eapply queue_rep_agree.
Qed.

(** The blocks of the pool, with those of one worker in front. *)
Lemma pool_blocks_split h nodes (ps : list mpc) w p :
  ps !! w = Some p →
  pool_blocks h nodes ps
  ≡ₚ owned h p ++ nodes.*1 ++ nodes.*2 ++ concat (owned h <$> delete w ps).
Proof.
  intros Hw. unfold pool_blocks. rewrite (owned_split h ps w p Hw).
  solve_Permutation.
Qed.

Lemma owned_others_agree (h h' : Mem.heap) (ps : list mpc) :
  (∀ p l, p ∈ ps → l ∈ footprint h p → h' !! l = h !! l) →
  owned h' <$> ps = owned h <$> ps.
Proof.
  intros Hag. apply list_fmap_ext. intros i p Hp.
  apply erase_agree. intros l Hl. eapply Hag; [|done].
  apply list_elem_of_lookup. by exists i.
Qed.

(** The others after a step of worker [w]: whoever is parked has been
    woken up or not, and nobody owns anything else than before. *)
Lemma others_after (h h' : Mem.heap) w p' bc (ps : list mpc) :
  (∀ v q l, v ≠ w → ps !! v = Some q → l ∈ footprint h q →
            h' !! l = h !! l) →
  concat (owned h' <$> delete w (mpcs_after w p' bc ps))
  = concat (owned h <$> delete w ps).
Proof.
  intros Hag. rewrite delete_mpcs_after. f_equal.
  assert (Hd : owned h' <$> delete w ps = owned h <$> delete w ps).
  { apply owned_others_agree. intros q l Hq Hl.
    apply list_elem_of_lookup in Hq as [i Hi].
    apply delete_lookup in Hi as (v & Hne & Hv). by eapply Hag. }
  destruct bc; [|done].
  rewrite <- Hd.
  assert (delete w (map mwake ps) = mwake <$> delete w ps) as ->.
  { clear. revert w. induction ps as [|x ps IH]; intros [|w]; simpl; try done.
    by rewrite IH. }
  rewrite <- list_fmap_compose. apply list_fmap_ext.
  intros i q _. simpl. apply owned_mwake.
Qed.

Lemma elem_of_concat {A} (x : A) (ls : list (list A)) :
  x ∈ concat ls ↔ ∃ l, x ∈ l ∧ l ∈ ls.
Proof.
  induction ls as [|k ls IH]; simpl.
  - split; [by intros ?%elem_of_nil|by intros (l & _ & ?%elem_of_nil)].
  - rewrite elem_of_app, IH. split.
    + intros [H|(l & H1 & H2)]; [exists k|exists l];
        (split; [done|]); [by left|by right].
    + intros (l & H1 & [->|H2]%elem_of_cons); [by left|right; by exists l].
Qed.

Lemma mwake_pending q l dir arr n :
  mwake q = M_hd_pending l dir arr n → q = M_hd_pending l dir arr n.
Proof. by destruct q. Qed.

Lemma mpcs_after_self w p p' bc (ps : list mpc) :
  ps !! w = Some p → mpcs_after w p' bc ps !! w = Some p'.
Proof.
  intros H. unfold mpcs_after. apply list_lookup_insert_eq.
  apply lookup_lt_Some in H. destruct bc; [by rewrite length_map|done].
Qed.

Lemma mpcs_after_other w w' p' bc (ps : list mpc) q' :
  w ≠ w' → mpcs_after w p' bc ps !! w' = Some q' →
  ∃ q, ps !! w' = Some q ∧ q' = (if bc then mwake q else q).
Proof.
  intros Hne. unfold mpcs_after. rewrite list_lookup_insert_ne by done.
  destruct bc; [|by eauto].
  change (map mwake ps) with (mwake <$> ps). rewrite list_lookup_fmap.
  destruct (ps !! w') as [q|]; intros; simplify_eq/=. by eauto.
Qed.

(** The blocks of the other workers are neither nodes of the queue
    nor blocks of worker [w]. *)
Lemma others_apart h nodes (ps : list mpc) w mp v q l :
  NoDup (pool_blocks h nodes ps) →
  (∀ v l dir arr n c,
     ps !! v = Some (M_hd_pending l dir arr n) →
     c ∈ default [] (Mem.load_array h arr) → c ∈ nodes.*2) →
  ps !! w = Some mp → v ≠ w → ps !! v = Some q → l ∈ footprint h q →
  (l ∉ nodes.*1) ∧ (l ∉ owned h mp).
Proof.
  intros Hnd Hpend Hw Hne Hv Hl.
  rewrite (pool_blocks_split h nodes ps w mp Hw) in Hnd.
  apply NoDup_app in Hnd as (_ & Hd1 & Hnd).
  apply NoDup_app in Hnd as (_ & Hd2 & Hnd).
  apply NoDup_app in Hnd as (_ & Hd3 & _).
  assert (Hrest : ∀ x, x ∈ owned h q →
                       x ∈ concat (owned h <$> delete w ps)).
  { intros x Hx. apply elem_of_concat. exists (owned h q). split; [done|].
    apply list_elem_of_fmap. exists q. split; [done|].
    apply list_elem_of_lookup.
    clear -Hne Hv. revert w v Hne Hv.
    induction ps as [|y ps IH]; intros w v Hne Hv; [done|].
    destruct w as [|w], v as [|v]; simpl in *; try done.
    - by exists v.
    - by exists 0%nat.
    - destruct (IH w v) as [i Hi]; [lia|done|]. by exists (S i). }
  assert (Hcase : l ∈ owned h q ∨ l ∈ nodes.*2).
  { destruct q; try (by left). simpl in Hl.
    apply elem_of_cons in Hl as [->|Hl]; [left; in_list|].
    apply elem_of_cons in Hl as [->|Hl]; [left; in_list|].
    apply elem_of_app in Hl as [Hl|Hl]; [left; simpl; in_list|].
    right. by eapply Hpend. }
  destruct Hcase as [Ho|Hn].
  - apply Hrest in Ho. split.
    + intros Hin. apply (Hd2 l Hin). apply elem_of_app. by right.
    + intros Hin. apply (Hd1 l Hin). apply elem_of_app. right.
      apply elem_of_app. by right.
  - split.
    + intros Hin. apply (Hd2 l Hin). apply elem_of_app. by left.
    + intros Hin. apply (Hd1 l Hin). apply elem_of_app. right.
      apply elem_of_app. by left.
Qed.

(** The pool after a step of worker [w] that changes no block of the
    heap but nodes of the queue and blocks of its own. *)
Lemma sim_rebuild h0 ms s w mp p nodes sh' mp' bc D' p' nodes' :
  Forall2 (λ mp p, erase (sh_heap (mshared ms)) mp = Some p)
    (mpcs ms) (pcs s) →
  NoDup (pool_blocks (sh_heap (mshared ms)) nodes (mpcs ms)) →
  (∀ v l dir arr n c,
     mpcs ms !! v = Some (M_hd_pending l dir arr n) →
     c ∈ default [] (Mem.load_array (sh_heap (mshared ms)) arr) →
     c ∈ nodes.*2) →
  mpcs ms !! w = Some mp → pcs s !! w = Some p →
  (∀ l, is_Some (sh_heap (mshared ms) !! l) → l ∉ nodes.*1 →
        l ∉ owned (sh_heap (mshared ms)) mp →
        sh_heap sh' !! l = sh_heap (mshared ms) !! l) →
  erase (sh_heap sh') mp' = Some p' →
  models (sh_heap sh') (sh_data sh') nodes' D' →
  sh_owner sh' = mutex D' →
  heap_inv h0 (sh_heap sh')
    (owned (sh_heap sh') mp' ++ nodes'.*1 ++ nodes'.*2
     ++ concat (owned (sh_heap (mshared ms)) <$> delete w (mpcs ms))) →
  (∀ v l dir arr n c,
     v ≠ w → mpcs ms !! v = Some (M_hd_pending l dir arr n) →
     c ∈ nodes.*2 → c ∈ nodes'.*2) →
  (∀ l dir arr n c,
     mp' = M_hd_pending l dir arr n →
     c ∈ default [] (Mem.load_array (sh_heap sh') arr) → c ∈ nodes'.*2) →
  sim h0 (mkMState sh' (mpcs_after w mp' bc (mpcs ms)))
    (mkState D' (pcs_after w p' bc (pcs s))).
Proof.
  set (h := sh_heap (mshared ms)). set (h' := sh_heap sh').
  intros HF Hnd Hpend Hw Hp Hframe He' Hm' Ho' Hinv Hkeep Hown.
  assert (Hothers : ∀ v q l, v ≠ w → mpcs ms !! v = Some q →
                             l ∈ footprint h q → h' !! l = h !! l).
  { intros v q l Hne Hv Hl.
    destruct (Forall2_lookup_l _ _ _ _ _ HF Hv) as (q0 & _ & Hq0).
    destruct (others_apart h nodes (mpcs ms) w mp v q l) as [H1 H2];
      try done.
    apply Hframe; [|done..]. by eapply footprint_allocated. }
  split; [|split; [done|]].
  - (* worker by worker *)
    cbn [mshared mpcs pcs sh_heap]. fold h'.
    apply Forall2_same_length_lookup. split.
    + rewrite pcs_after_length. unfold mpcs_after. rewrite length_insert.
      apply Forall2_length in HF. destruct bc; [by rewrite length_map|done].
    + intros v q' q0' Hq' Hq0'.
      destruct (decide (w = v)) as [<-|Hne].
      * rewrite (mpcs_after_self _ _ _ _ _ Hw) in Hq'.
        rewrite (pcs_after_self _ _ _ _ _ Hp) in Hq0'. by simplify_eq.
      * apply mpcs_after_other in Hq' as (q & Hq & ->); [|done].
        apply pcs_after_other in Hq0' as (q0 & Hq0 & ->); [|done].
        destruct (Forall2_lookup_l _ _ _ _ _ HF Hq) as (q1 & Hq1 & He).
        rewrite Hq0 in Hq1. simplify_eq.
        assert (erase h' q = Some q1) as He1.
        { rewrite <- He. apply erase_agree. intros l Hl.
          eapply (Hothers v); [by intros ->|done..]. }
        destruct bc; [|done]. by rewrite erase_mwake, He1.
  - exists nodes'. cbn [mshared mpcs data sh_heap sh_data]. fold h'.
    split; [done|]. split.
    + eapply heap_inv_perm; [|exact Hinv].
      rewrite (pool_blocks_split h' nodes' _ w mp'
                 (mpcs_after_self _ _ _ _ _ Hw)).
      by rewrite (others_after h h' w mp' bc (mpcs ms)).
    + intros v l dir arr n c Hv Hc.
      destruct (decide (w = v)) as [<-|Hne].
      * rewrite (mpcs_after_self _ _ _ _ _ Hw) in Hv. simplify_eq.
        by eapply Hown.
      * apply mpcs_after_other in Hv as (q & Hq & Hq'); [|done].
        assert (q = M_hd_pending l dir arr n) as ->.
        { destruct bc; [by apply mwake_pending|done]. }
        eapply (Hkeep v); [by intros ->|done|].
        eapply Hpend; [done|].
        assert (Mem.load_array h' arr = Mem.load_array h arr) as <-; [|done].
        apply load_array_agree. intros a Ha.
        eapply (Hothers v); [by intros ->|done|]. simpl. in_list.
Qed.

(** *** Allocation *)

Lemma heap_inv_extend h0 (h h' : Mem.heap) B new :
  heap_inv h0 h B → NoDup new →
  (∀ l, l ∈ new → h !! l = None ∧ is_Some (h' !! l)) →
  (∀ l, is_Some (h !! l) → is_Some (h' !! l)) →
  (∀ l, l ∉ new → l ∉ B → h' !! l = h !! l) →
  heap_inv h0 h' (new ++ B).
Proof.
  intros (Hnd & Hin & Hout) Hnew Hfresh Hmono Hframe.
  assert (Hdisj : ∀ l, l ∈ new → l ∉ B).
  { intros l Hl HB. destruct (Hin l HB) as [[x Hx] _].
    destruct (Hfresh l Hl) as [Hn _]. congruence. }
  split; [|split].
  - apply NoDup_app. by split.
  - intros l [Hl|Hl]%elem_of_app.
    + destruct (Hfresh l Hl) as [Hn Ha]. split; [done|].
      rewrite <- Hout; [done|]. by apply Hdisj.
    + destruct (Hin l Hl) as [Ha H0]. split; [|done]. by apply Hmono.
  - intros l Hl. apply not_elem_of_app in Hl as [Hl1 Hl2].
    rewrite Hframe by done. by apply Hout.
Qed.

Lemma enqueue_inv h0 (h : Mem.heap) d nodes q n path s B :
  heap_inv h0 h B → (∀ l, l ∈ nodes.*1 → l ∈ B) →
  Mem.queue_rep h d nodes q →
  h !! n = None → h !! path = Some (Mem.Chars s) → path ∉ nodes.*2 →
  ∃ h' d',
    Mem.enqueue (Some n) h d path = Some (0, h', d') ∧
    Mem.queue_rep h' d' (nodes ++ [(n, path)]) (q ++ [s]) ∧
    scalars d' = scalars d ∧
    (∀ l, l ≠ n → l ∉ nodes.*1 → h' !! l = h !! l) ∧
    heap_inv h0 h' (n :: B).
Proof.
  intros Hinv Hsub Hrep Hn Hpath Hnot.
  destruct (enqueue_rep h d nodes q n path s Hrep Hn Hpath Hnot)
    as (h' & d' & Hrun & Hrep' & Hsc & Hframe).
  exists h', d'. split; [done|]. split; [done|]. split; [done|].
  split; [done|].
  change (n :: B) with ([n] ++ B). apply (heap_inv_extend h0 h); [done|..].
  - apply NoDup_singleton.
  - intros l ->%list_elem_of_singleton. split; [done|].
    eapply queue_rep_allocated; [exact Hrep'|].
    apply elem_of_app. left. rewrite fst_snoc. apply elem_of_app. right.
    by apply list_elem_of_singleton.
  - intros l Hl. destruct (decide (l ∈ nodes.*1)) as [Hin|Hin].
    + eapply queue_rep_allocated; [exact Hrep'|].
      apply elem_of_app. left. rewrite fst_snoc. apply elem_of_app. by left.
    + rewrite Hframe; [done| |done]. intros ->. rewrite Hn in Hl.
      by destruct Hl.
  - intros l Hl HB. apply Hframe.
    + intros ->. apply Hl. by apply list_elem_of_singleton.
    + intros Hin. by apply HB, Hsub.
Qed.

Section Allocator.

Variable malloc : Mem.heap → Mem.loc.
Hypothesis malloc_fresh : ∀ h, h !! malloc h = None.

(** The loop of lines 207-214 with the allocator: the queue grows by
    the cells, and the heap by one node for each. *)
Lemma enqueue_all_inv h0 cells :
  ∀ (h : Mem.heap) d nodes q strs B,
    heap_inv h0 h B → (∀ l, l ∈ nodes.*1 → l ∈ B) →
    Mem.queue_rep h d nodes q →
    NoDup cells →
    Forall2 (λ p s, h !! p = Some (Mem.Chars s)) cells strs →
    (∀ p, p ∈ cells → p ∉ nodes.*2) →
    ∃ h' d' new,
      Mem.enqueue_all malloc h d cells = Some (h', d') ∧
      Mem.queue_rep h' d' (nodes ++ zip new cells) (q ++ strs) ∧
      scalars d' = scalars d ∧ length new = length cells ∧
      (∀ l, is_Some (h !! l) → l ∉ nodes.*1 → h' !! l = h !! l) ∧
      heap_inv h0 h' (new ++ B).
Proof.
  induction cells as [|c cells IH];
    intros h d nodes q strs B Hinv Hsub Hrep Hnd Hchars Hdisj.
  - apply Forall2_nil_inv_l in Hchars as ->.
    exists h, d, []. simpl. rewrite !app_nil_r.
    split; [done|]. split; [done|]. split; [done|]. split; [done|].
    split; [done|]. exact Hinv.
  - destruct strs as [|s ss]; [by apply Forall2_cons_nil_inv in Hchars|].
    set (n := malloc h).
    destruct (enqueue_paths_step h d nodes q n [] c cells s ss)
      as (h1 & d1 & Hrun & Hrep1 & Hsc1 & Hframe1 & _ & _ & Hnd1 & Hchars1
          & Hdisj1); try done.
    { apply NoDup_singleton. }
    { intros n' ->%list_elem_of_singleton. apply malloc_fresh. }
    destruct (enqueue_inv h0 h d nodes q n c s B)
      as (h1' & d1' & Hrun' & _ & _ & _ & Hinv1); try done.
    { apply malloc_fresh. }
    { by apply Forall2_cons in Hchars as [? _]. }
    { apply Hdisj. apply elem_of_cons. by left. }
    rewrite Hrun in Hrun'.
    assert (h1' = h1 ∧ d1' = d1) as [-> ->] by (split; congruence).
    clear Hrun'.
    destruct (IH h1 d1 (nodes ++ [(n, c)]) (q ++ [s]) ss (n :: B))
      as (h' & d' & new & Hall & Hrep' & Hsc' & Hlen & Hframe' & Hinv');
      try done.
    { intros l. rewrite fst_snoc. intros [Hl|Hl]%elem_of_app.
      - apply elem_of_cons. right. by apply Hsub.
      - apply elem_of_cons. left. by apply list_elem_of_singleton in Hl. }
    exists h', d', (n :: new). split; [|split; [|split; [|split; [|split]]]].
    + cbn [Mem.enqueue_all]. fold n. rewrite Hrun. exact Hall.
    + cbn [zip zip_with]. by rewrite <- !app_assoc in Hrep'.
    + by rewrite Hsc'.
    + simpl. by rewrite Hlen.
    + intros l Hl Hin.
      assert (l ≠ n) as Hne.
      { intros ->. unfold n in Hl. rewrite malloc_fresh in Hl.
        by destruct Hl. }
      rewrite Hframe'.
      * by apply Hframe1.
      * by rewrite Hframe1.
      * rewrite fst_snoc. intros [?|?%list_elem_of_singleton]%elem_of_app;
          done.
    + eapply heap_inv_perm; [|exact Hinv'].
      by rewrite <- Permutation_middle.
Qed.

(** The calls of [construct_path] of one readdir loop: a new block
    for every path, and nothing else changed. *)
Lemma alloc_paths_inv h0 paths :
  ∀ (h : Mem.heap) B h' cells,
    heap_inv h0 h B → Mem.alloc_paths malloc h paths = (h', cells) →
    heap_inv h0 h' (cells ++ B) ∧ load_all h' cells = Some paths ∧
    (∀ l, is_Some (h !! l) → h' !! l = h !! l).
Proof.
  induction paths as [|s paths IH]; intros h B h' cells Hinv Hrun;
    cbn [Mem.alloc_paths] in Hrun.
  - by simplify_eq.
  - set (l0 := malloc h) in *.
    destruct (Mem.alloc_paths malloc (<[l0:=Mem.Chars s]> h) paths)
      as [h1 ls] eqn:Hrest. simplify_eq.
    destruct (IH _ (l0 :: B) _ _ (heap_inv_alloc _ _ _ l0 (Mem.Chars s) Hinv
                                    (malloc_fresh h)) Hrest)
      as (Hinv' & Hload & Hframe).
    split; [|split].
    + eapply heap_inv_perm; [|exact Hinv']. by rewrite <- Permutation_middle.
    + assert (Mem.load_chars h' l0 = Some s) as Hl0.
      { unfold Mem.load_chars.
        rewrite Hframe by (rewrite lookup_insert_eq; by eexists).
        by rewrite lookup_insert_eq. }
      unfold load_all in *. cbn [mapM]. rewrite Hl0, Hload. reflexivity.
    + intros l Hl.
      assert (l ≠ l0) as Hne.
      { intros ->. unfold l0 in Hl. rewrite malloc_fresh in Hl.
        by destruct Hl. }
      rewrite Hframe; rewrite lookup_insert_ne; done.
Qed.

End Allocator.

(** *** The fields *)

Lemma models_null h d nodes D :
  models h d nodes D →
  is_null (Mem.queue_head d) = bool_decide (queue D = []).
Proof.
  intros ([Hseg _ _ Hpaths] & _).
  destruct nodes as [|[l p] nodes].
  - apply Forall2_nil_inv_l in Hpaths as ->. simpl in Hseg.
    by rewrite Hseg.
  - destruct (queue D) as [|s q]; [by apply Forall2_cons_nil_inv in Hpaths|].
    destruct Hseg as [-> _]. done.
Qed.

Lemma models_done h d nodes D :
  models h d nodes D → (Mem.done d =? 0) = negb (done D).
Proof.
  intros (_ & _ & _ & Hd & _).
  destruct (Z.eqb_spec (Mem.done d) 0) as [H0|H0], (done D);
    simpl; try done.
  - destruct (proj2 Hd eq_refl H0).
  - by apply Hd in H0.
Qed.

Lemma models_fields h d nodes D d' D' :
  models h d nodes D →
  Mem.queue_head d' = Mem.queue_head d →
  Mem.queue_tail d' = Mem.queue_tail d →
  queue D' = queue D →
  Mem.total_size d' = total_size D' →
  Mem.pending d' = pending D' →
  (Mem.done d' ≠ 0 ↔ done D' = true) →
  (Mem.error_occurred d' ≠ 0 ↔ error_occurred D' = true) →
  models h d' nodes D'.
Proof.
  intros ([Hseg Htail Hnd Hpaths] & _) Hh Ht Hq ? ? ? ?.
  split; [|done]. rewrite Hq. split; [by rewrite Hh|by rewrite Ht|done..].
Qed.

Lemma load_dir_done_of h l dir arr n cells :
  load_dir h l dir arr n = Some cells → load_dir_done h l dir arr = Some ().
Proof.
  unfold load_dir, load_dir_done.
  destruct (Mem.load_chars h l); [|done]. cbn [mbind option_bind].
  destruct (h !! dir) as [[]|]; try done.
  destruct (Mem.load_array h arr); [|done]. done.
Qed.

Lemma load_dir_inv h l dir arr n cells :
  load_dir h l dir arr n = Some cells →
  (∃ s, Mem.load_chars h l = Some s) ∧ h !! dir = Some Mem.DirStream ∧
  Mem.load_array h arr = Some cells ∧ length cells = n.
Proof.
  unfold load_dir.
  destruct (Mem.load_chars h l) as [s|]; [|done]. cbn [mbind option_bind].
  destruct (h !! dir) as [[]|]; try done.
  destruct (Mem.load_array h arr) as [cs|]; [|done]. cbn [mbind option_bind].
  case_bool_decide; [|done]. intros; simplify_eq. by eauto.
Qed.

Lemma load_dir_done_inv h l dir arr :
  load_dir_done h l dir arr = Some () →
  (∃ s, Mem.load_chars h l = Some s) ∧ h !! dir = Some Mem.DirStream ∧
  ∃ cells, Mem.load_array h arr = Some cells.
Proof.
  unfold load_dir_done.
  destruct (Mem.load_chars h l) as [s|]; [|done]. cbn [mbind option_bind].
  destruct (h !! dir) as [[]|]; try done.
  destruct (Mem.load_array h arr) as [cs|]; [|done]. by eauto.
Qed.

Lemma load_all_length h cells paths :
  load_all h cells = Some paths → length paths = length cells.
Proof. intros H. symmetry. by eapply length_mapM. Qed.

Section Steps.

Variable lstat : string → option stat.
Variable opendir : string → option (list string).
Variable malloc : Mem.heap → Mem.loc.
Hypothesis malloc_fresh : ∀ h, h !! malloc h = None.

Ltac load_known :=
  repeat match goal with
         | H : Mem.load_chars _ _ = Some _ |- _ => rewrite H
         | H : load_dir _ _ _ _ _ = Some _ |- _ => rewrite H
         | H : load_dir_done _ _ _ _ = Some _ |- _ => rewrite H
         | H : load_all _ _ = Some _ |- _ => rewrite H
         | |- _ => progress cbn [mbind option_bind]
         end.

Ltac pure_ok Hm :=
  split; [reflexivity|]; split; [reflexivity|]; split; [by intros|];
  eexists _, _; split; [reflexivity|];
  split; [cbn [erase]; load_known; reflexivity|];
  split; [|reflexivity];
  apply (models_fields _ _ _ _ _ _ Hm); try reflexivity; try apply Hm;
  simpl; try done.

(** The statements that leave the heap as it is. *)
Lemma mlocal_step_pure w mp sh nodes D p :
  models (sh_heap sh) (sh_data sh) nodes D →
  sh_owner sh = mutex D →
  erase (sh_heap sh) mp = Some p →
  changes_heap mp = false →
  match mlocal_step lstat opendir malloc w mp sh with
  | Ok (sh', mp', bc) =>
      sh_heap sh' = sh_heap sh ∧
      owned (sh_heap sh) mp' = owned (sh_heap sh) mp ∧
      (∀ l dir arr n, mp' ≠ M_hd_pending l dir arr n) ∧
      ∃ D' p',
        local_step lstat opendir w p D = Some (D', p', bc) ∧
        erase (sh_heap sh) mp' = Some p' ∧
        models (sh_heap sh) (sh_data sh') nodes D' ∧
        sh_owner sh' = mutex D'
  | Blocked => local_step lstat opendir w p D = None
  | Fault => False
  end.
Proof.
  destruct sh as [h d o]. cbn [sh_heap sh_data sh_owner].
  intros Hm -> He Hpure.
  pose proof (models_null _ _ _ _ Hm) as Hnull.
  pose proof (models_done _ _ _ _ Hm) as Hdone.
  destruct mp as [| | | | | |[l0|]| | | | | | | | | | | | | | | | | | | | | |];
    try discriminate Hpure; clear Hpure; cbn [erase] in He.
  all: try (destruct (Mem.load_chars h _) as [s|] eqn:Hs;
            cbn [mbind option_bind] in He; [|discriminate He]).
  all: try (destruct (load_dir h _ _ _ _) as [cells|] eqn:Hdir;
            cbn [mbind option_bind] in He; [|discriminate He];
            destruct (load_all h cells) as [paths|] eqn:Hall;
            cbn [mbind option_bind] in He; [|discriminate He];
            pose proof (load_dir_done_of _ _ _ _ _ _ Hdir) as Hdd;
            pose proof (load_all_length _ _ _ Hall) as Hlen;
            destruct (load_dir_inv _ _ _ _ _ _ Hdir) as (_ & _ & _ & Hn)).
  all: try (destruct (load_dir_done h _ _ _) as [[]|] eqn:Hdir;
            cbn [mbind option_bind] in He; [|discriminate He]).
  all: injection He as <-.
  all: cbn [mlocal_step local_step].
  all: unfold mlock, munlock, with_data, pthread_mutex_lock,
         pthread_mutex_unlock.
  all: cbn [sh_heap sh_data sh_owner].
  all: pose proof (proj1 (proj2 Hm)) as Hts.
  all: pose proof (proj1 (proj2 (proj2 Hm))) as Hpe.
  all: rewrite ?Hnull, ?Hdone, ?negb_involutive, ?Hpe, ?Hts, ?Hs.
  all: try (rewrite Hlen, Hn).
  all: try (destruct (mutex D) as [o|] eqn:Hmx; cbn [mbind option_bind];
            [reflexivity|]).
  all: try (destruct (lstat _) as [st'|]).
  all: repeat match goal with
              | |- context [if ?b then _ else _] => destruct b
              end.
  all: cbn [sh_heap sh_data sh_owner].
  all: try (pure_ok Hm; fail).
  all: reflexivity.
Qed.

(** What the relation says about worker [w]. *)
Lemma sim_at h0 ms s w mp :
  sim h0 ms s → mpcs ms !! w = Some mp →
  ∃ p nodes,
    pcs s !! w = Some p ∧ erase (sh_heap (mshared ms)) mp = Some p ∧
    models (sh_heap (mshared ms)) (sh_data (mshared ms)) nodes (data s) ∧
    NoDup (pool_blocks (sh_heap (mshared ms)) nodes (mpcs ms)) ∧
    heap_inv h0 (sh_heap (mshared ms))
      (owned (sh_heap (mshared ms)) mp ++ nodes.*1 ++ nodes.*2
       ++ concat (owned (sh_heap (mshared ms)) <$> delete w (mpcs ms))) ∧
    (∀ v l dir arr n c,
       mpcs ms !! v = Some (M_hd_pending l dir arr n) →
       c ∈ default [] (Mem.load_array (sh_heap (mshared ms)) arr) →
       c ∈ nodes.*2).
Proof.
  intros (HF & Ho & nodes & Hm & Hinv & Hpend) Hw.
  destruct (Forall2_lookup_l _ _ _ _ _ HF Hw) as (p & Hp & He).
  exists p, nodes. split; [done|]. split; [done|]. split; [done|].
  split; [apply Hinv|]. split; [|done].
  eapply heap_inv_perm; [|exact Hinv]. by apply pool_blocks_split.
Qed.

(** A step that changes none but the nodes of the queue and the
    blocks of worker [w]. *)
Lemma frame_untouched ms s w mp nodes (h' : Mem.heap) :
  Forall2 (λ mp p, erase (sh_heap (mshared ms)) mp = Some p)
    (mpcs ms) (pcs s) →
  NoDup (pool_blocks (sh_heap (mshared ms)) nodes (mpcs ms)) →
  (∀ v l dir arr n c,
     mpcs ms !! v = Some (M_hd_pending l dir arr n) →
     c ∈ default [] (Mem.load_array (sh_heap (mshared ms)) arr) →
     c ∈ nodes.*2) →
  mpcs ms !! w = Some mp →
  (∀ l, is_Some (sh_heap (mshared ms) !! l) → l ∉ nodes.*1 →
        l ∉ owned (sh_heap (mshared ms)) mp →
        h' !! l = sh_heap (mshared ms) !! l) →
  untouched ms w h'.
Proof.
  intros HF Hnd Hpend Hw Hframe v q l Hne Hv Hl.
  destruct (Forall2_lookup_l _ _ _ _ _ HF Hv) as (q0 & _ & Hq0).
  apply owned_footprint in Hl.
  destruct (others_apart (sh_heap (mshared ms)) nodes (mpcs ms) w mp v q l)
    as [H1 H2]; try done.
  apply Hframe; [|done..]. by eapply footprint_allocated.
Qed.

(** A step of worker [w] on the heap that is a step of the list
    model. *)
Lemma sim_moves h0 ms s w mp p nodes sh' mp' bc D' p' nodes' :
  sim h0 ms s →
  NoDup (pool_blocks (sh_heap (mshared ms)) nodes (mpcs ms)) →
  (∀ v l dir arr n c,
     mpcs ms !! v = Some (M_hd_pending l dir arr n) →
     c ∈ default [] (Mem.load_array (sh_heap (mshared ms)) arr) →
     c ∈ nodes.*2) →
  mpcs ms !! w = Some mp → pcs s !! w = Some p →
  local_step lstat opendir w p (data s) = Some (D', p', bc) →
  (∀ l, is_Some (sh_heap (mshared ms) !! l) → l ∉ nodes.*1 →
        l ∉ owned (sh_heap (mshared ms)) mp →
        sh_heap sh' !! l = sh_heap (mshared ms) !! l) →
  erase (sh_heap sh') mp' = Some p' →
  models (sh_heap sh') (sh_data sh') nodes' D' →
  sh_owner sh' = mutex D' →
  heap_inv h0 (sh_heap sh')
    (owned (sh_heap sh') mp' ++ nodes'.*1 ++ nodes'.*2
     ++ concat (owned (sh_heap (mshared ms)) <$> delete w (mpcs ms))) →
  (∀ v l dir arr n c,
     v ≠ w → mpcs ms !! v = Some (M_hd_pending l dir arr n) →
     c ∈ nodes.*2 → c ∈ nodes'.*2) →
  (∀ l dir arr n c,
     mp' = M_hd_pending l dir arr n →
     c ∈ default [] (Mem.load_array (sh_heap sh') arr) → c ∈ nodes'.*2) →
  ∃ s', ((s' = s ∧ only_frees mp = true) ∨
         wstep lstat opendir w s = Some s') ∧
        sim h0 (mkMState sh' (mpcs_after w mp' bc (mpcs ms))) s' ∧
        untouched ms w (sh_heap sh').
Proof.
  intros Hsim Hnd Hpend Hw Hp Hl Hframe He' Hm' Ho' Hinv' Hkeep Hown.
  exists (mkState D' (pcs_after w p' bc (pcs s))). split; [|split].
  - right. unfold wstep. rewrite Hp. cbn [mbind option_bind].
    by rewrite Hl.
  - eapply sim_rebuild; try done. apply Hsim.
  - eapply frame_untouched; try done. apply Hsim.
Qed.

(** A step of worker [w] on the heap that the list model does not
    see. *)
Lemma sim_stutters h0 ms s w mp p nodes sh' mp' :
  sim h0 ms s →
  NoDup (pool_blocks (sh_heap (mshared ms)) nodes (mpcs ms)) →
  (∀ v l dir arr n c,
     mpcs ms !! v = Some (M_hd_pending l dir arr n) →
     c ∈ default [] (Mem.load_array (sh_heap (mshared ms)) arr) →
     c ∈ nodes.*2) →
  mpcs ms !! w = Some mp → pcs s !! w = Some p →
  (∀ l, is_Some (sh_heap (mshared ms) !! l) → l ∉ nodes.*1 →
        l ∉ owned (sh_heap (mshared ms)) mp →
        sh_heap sh' !! l = sh_heap (mshared ms) !! l) →
  erase (sh_heap sh') mp' = Some p →
  models (sh_heap sh') (sh_data sh') nodes (data s) →
  sh_owner sh' = mutex (data s) →
  heap_inv h0 (sh_heap sh')
    (owned (sh_heap sh') mp' ++ nodes.*1 ++ nodes.*2
     ++ concat (owned (sh_heap (mshared ms)) <$> delete w (mpcs ms))) →
  (∀ l dir arr n, mp' ≠ M_hd_pending l dir arr n) →
  only_frees mp = true →
  ∃ s', ((s' = s ∧ only_frees mp = true) ∨
         wstep lstat opendir w s = Some s') ∧
        sim h0 (mkMState sh' (mpcs_after w mp' false (mpcs ms))) s' ∧
        untouched ms w (sh_heap sh').
Proof.
  intros Hsim Hnd Hpend Hw Hp Hframe He' Hm' Ho' Hinv' Hnp Hfr.
  exists s. split; [by left|].
  split; [|eapply frame_untouched; try done; apply Hsim].
  assert (s = mkState (data s) (pcs_after w p false (pcs s))) as Hs.
  { destruct s as [D ps]. cbn [data pcs] in *. f_equal. unfold pcs_after.
    symmetry. by apply list_insert_id. }
  rewrite Hs at 1. eapply sim_rebuild; try done.
  - apply Hsim.
  - intros l dir arr n c ->. by destruct (Hnp l dir arr n).
Qed.


Lemma step_pure h0 ms s w mp :
  sim h0 ms s → mpcs ms !! w = Some mp → changes_heap mp = false →
  match mlocal_step lstat opendir malloc w mp (mshared ms) with
  | Ok (sh', mp', bc) =>
      ∃ s', ((s' = s ∧ only_frees mp = true) ∨
         wstep lstat opendir w s = Some s') ∧
            sim h0 (mkMState sh' (mpcs_after w mp' bc (mpcs ms))) s' ∧
            untouched ms w (sh_heap sh')
  | Blocked => wstep lstat opendir w s = None
  | Fault => False
  end.
Proof.
  intros Hsim Hw Hpure.
  destruct (sim_at _ _ _ _ _ Hsim Hw)
    as (p & nodes & Hp & He & Hm & Hnd & Hinv & Hpend).
  pose proof (mlocal_step_pure w mp (mshared ms) nodes (data s) p Hm
                (proj1 (proj2 Hsim)) He Hpure) as Hstep.
  destruct (mlocal_step lstat opendir malloc w mp (mshared ms))
    as [[[sh' mp'] bc]| |]; [|  |done].
  - destruct Hstep as (Hh & Hown & Hnp & D' & p' & Hl & He' & Hm' & Ho').
    eapply (sim_moves h0 ms s w mp p nodes sh' mp' bc D' p' nodes);
      try done; rewrite ?Hh; try done.
    + by rewrite Hown.
    + intros l dir arr n c ->. by destruct (Hnp l dir arr n).
  - unfold wstep. rewrite Hp. cbn [mbind option_bind]. by rewrite Hstep.
Qed.

Lemma step_free h0 ms s w l :
  sim h0 ms s → mpcs ms !! w = Some (M_free l) →
  match mlocal_step lstat opendir malloc w (M_free l) (mshared ms) with
  | Ok (sh', mp', bc) =>
      ∃ s', ((s' = s ∧ only_frees (M_free l) = true) ∨
         wstep lstat opendir w s = Some s') ∧
            sim h0 (mkMState sh' (mpcs_after w mp' bc (mpcs ms))) s' ∧
            untouched ms w (sh_heap sh')
  | Blocked => wstep lstat opendir w s = None
  | Fault => False
  end.
Proof.
  intros Hsim Hw.
  destruct (sim_at _ _ _ _ _ Hsim Hw)
    as (p & nodes & Hp & He & Hm & Hnd & Hinv & Hpend).
  destruct ms as [[h d o] ps]. cbn [mshared mpcs sh_heap sh_data] in *.
  cbn [erase] in He.
  destruct (Mem.load_chars h l) as [s0|] eqn:Hs; [|done].
  cbn [mbind option_bind] in He. injection He as <-.
  apply load_chars_Some in Hs.
  cbn [mlocal_step sh_heap sh_data sh_owner]. unfold Mem.free. rewrite Hs.
  cbn [owned app] in Hinv.
  assert (Hout : ∀ l', l' ∈ nodes.*1 ++ nodes.*2 → l' ≠ l).
  { intros l' Hl' ->. destruct Hinv as (Hd & _).
    apply NoDup_cons in Hd as [Hd _]. apply Hd.
    apply elem_of_app in Hl' as [?|?]; apply elem_of_app; [by left|].
    right. apply elem_of_app. by left. }
  eapply (sim_stutters h0 (mkMState (mkShared h d o) ps) s w (M_free l)
            WT_lock nodes); try done;
    cbn [mshared mpcs sh_heap sh_data sh_owner owned app].
  - intros l' _ _ Hl'. rewrite lookup_delete_ne; [done|].
    intros <-. apply Hl'. by apply list_elem_of_singleton.
  - eapply models_agree; [exact Hm|]. intros l' Hl'.
    rewrite lookup_delete_ne; [done|]. intros <-. by eapply Hout.
  - apply Hsim.
  - by apply heap_inv_free in Hinv.
Qed.


Lemma step_cleanup h0 ms s w l dir arr :
  sim h0 ms s → mpcs ms !! w = Some (M_hd_cleanup l dir arr) →
  match mlocal_step lstat opendir malloc w (M_hd_cleanup l dir arr)
          (mshared ms) with
  | Ok (sh', mp', bc) =>
      ∃ s', ((s' = s ∧ only_frees (M_hd_cleanup l dir arr) = true) ∨
         wstep lstat opendir w s = Some s') ∧
            sim h0 (mkMState sh' (mpcs_after w mp' bc (mpcs ms))) s' ∧
            untouched ms w (sh_heap sh')
  | Blocked => wstep lstat opendir w s = None
  | Fault => False
  end.
Proof.
  intros Hsim Hw.
  destruct (sim_at _ _ _ _ _ Hsim Hw)
    as (p & nodes & Hp & He & Hm & Hnd & Hinv & Hpend).
  destruct ms as [[h d o] ps]. cbn [mshared mpcs sh_heap sh_data] in *.
  cbn [erase] in He.
  destruct (load_dir_done h l dir arr) as [[]|] eqn:Hdd; [|done].
  cbn [mbind option_bind] in He. injection He as <-.
  destruct (load_dir_done_inv _ _ _ _ Hdd)
    as ((s0 & Hs) & Hdir & cells & Harr).
  apply load_chars_Some in Hs.
  cbn [owned] in Hinv.
  set (X := nodes.*1 ++ nodes.*2 ++ concat (owned h <$> delete w ps)) in *.
  pose proof (proj1 Hinv) as Hd. cbn [app] in Hd.
  apply NoDup_cons in Hd as [Hl Hd]. apply NoDup_cons in Hd as [Hdr Hd].
  apply not_elem_of_cons in Hl as [Hld Hl].
  apply not_elem_of_app in Hl as [Hla HlX].
  apply not_elem_of_app in Hdr as [Hda HdX].
  apply NoDup_app in Hd as (_ & HaX & _).
  set (h' := delete dir (match arr with
                         | Some a => delete a h
                         | None => h
                         end)).
  assert (Hfr : ∀ l', l' ≠ dir → l' ∉ opt_list arr → h' !! l' = h !! l').
  { intros l' H1 H2. unfold h'. rewrite lookup_delete_ne by done.
    destruct arr as [a|]; [|done]. rewrite lookup_delete_ne; [done|].
    intros <-. apply H2. by apply list_elem_of_singleton. }
  assert (Hstep : mlocal_step lstat opendir malloc w (M_hd_cleanup l dir arr)
                    (mkShared h d o)
                  = Ok (mkShared h' d o, M_ues_lock l false, false)).
  { cbn [mlocal_step sh_heap sh_data sh_owner]. unfold h'.
    destruct arr as [a|].
    - unfold Mem.free. cbn [Mem.load_array] in Harr.
      destruct (h !! a) as [b|] eqn:Ha; [|done].
      rewrite lookup_delete_ne, Hdir; [done|].
      intros <-. apply Hda. by apply list_elem_of_singleton.
    - by rewrite Hdir. }
  rewrite Hstep.
  assert (HX : ∀ l', l' ∈ X → l' ≠ dir ∧ l' ∉ opt_list arr).
  { intros l' Hl'. split; [by intros ->|]. intros Ha. by apply (HaX l'). }
  eapply (sim_stutters h0 (mkMState (mkShared h d o) ps) s w
            (M_hd_cleanup l dir arr) (UES_lock false) nodes); try done;
    cbn [mshared mpcs sh_heap sh_data sh_owner owned].
  - intros l' _ _ Hl'. apply not_elem_of_cons in Hl' as [_ Hl'].
    apply not_elem_of_cons in Hl' as [H1 H2]. by apply Hfr.
  - cbn [erase]. unfold Mem.load_chars. rewrite Hfr by done.
    by rewrite Hs.
  - eapply models_agree; [exact Hm|]. intros l' Hl'.
    destruct (HX l') as [H1 H2]; [|by apply Hfr].
    unfold X. rewrite app_assoc. apply elem_of_app. by left.
  - apply Hsim.
  - assert (heap_inv h0 h (opt_list arr ++ dir :: l :: X)) as Hinv1.
    { eapply heap_inv_perm; [|exact Hinv]. cbn [app].
      rewrite <- Permutation_middle. rewrite <- Permutation_middle.
      apply perm_swap. }
    unfold h'. destruct arr as [a|]; cbn [opt_list app] in Hinv1.
    + by apply heap_inv_free, heap_inv_free in Hinv1.
    + by apply heap_inv_free in Hinv1.
Qed.


Lemma step_dequeue h0 ms s w :
  sim h0 ms s → mpcs ms !! w = Some M_dequeue →
  (∀ v l dir arr n,
     v ≠ w → mpcs ms !! v ≠ Some (M_hd_pending l dir arr n)) →
  match mlocal_step lstat opendir malloc w M_dequeue (mshared ms) with
  | Ok (sh', mp', bc) =>
      ∃ s', ((s' = s ∧ only_frees M_dequeue = true) ∨
         wstep lstat opendir w s = Some s') ∧
            sim h0 (mkMState sh' (mpcs_after w mp' bc (mpcs ms))) s' ∧
            untouched ms w (sh_heap sh')
  | Blocked => wstep lstat opendir w s = None
  | Fault => False
  end.
Proof.
  intros Hsim Hw Hex.
  destruct (sim_at _ _ _ _ _ Hsim Hw)
    as (p & nodes & Hp & He & Hm & Hnd & Hinv & Hpend).
  destruct ms as [[h d o] ps]. cbn [mshared mpcs sh_heap sh_data] in *.
  cbn [erase] in He. injection He as <-.
  cbn [owned app] in Hinv. pose proof Hm as (Hrep & _).
  cbn [mlocal_step sh_heap sh_data sh_owner].
  destruct nodes as [|[n pth] rest].
  - destruct (dequeue_empty _ _ _ Hrep) as [Hrun Hq]. rewrite Hrun.
    eapply (sim_moves h0 (mkMState (mkShared h d o) ps) s w M_dequeue
              WT_dequeue [] (mkShared h d o) (M_unlock None) false
              (data s) (WT_unlock None) []); try done;
      cbn [mshared mpcs sh_heap sh_data sh_owner].
    + cbn [local_step]. unfold dequeue. by rewrite Hq.
    + apply Hsim.
  - destruct (queue (data s)) as [|s0 q] eqn:Hq.
    { destruct Hrep as [_ _ _ Hpaths].
      by apply Forall2_cons_nil_inv in Hpaths. }
    destruct (dequeue_rep h d n pth rest s0 q Hrep)
      as (d' & Hrun & Hrep' & Hsc' & Hpth).
    rewrite Hrun.
    eapply (sim_moves h0 (mkMState (mkShared h d o) ps) s w M_dequeue
              WT_dequeue ((n, pth) :: rest) (mkShared (delete n h) d' o)
              (M_unlock (Some pth)) false (set_queue q (data s))
              (WT_unlock (Some s0)) rest); try done;
      cbn [mshared mpcs sh_heap sh_data sh_owner].
    + cbn [local_step]. unfold dequeue. by rewrite Hq.
    + intros l _ Hl _. rewrite lookup_delete_ne; [done|].
      intros <-. apply Hl. cbn [fmap list_fmap fst]. apply elem_of_cons.
      by left.
    + cbn [erase]. unfold Mem.load_chars. by rewrite Hpth.
    + by eapply models_with.
    + apply Hsim.
    + cbn [fmap list_fmap fst snd app] in Hinv.
      apply heap_inv_free in Hinv.
      eapply heap_inv_perm; [|exact Hinv]. cbn [owned app].
      by rewrite <- Permutation_middle.
    + intros v l dir arr k c Hne Hv. by destruct (Hex v l dir arr k Hne).
Qed.


(** [paths_to_enqueue]: no array as long as there is nothing to store. *)
Lemma alloc_array_inv h0 (h : Mem.heap) B cells :
  heap_inv h0 h B →
  ∃ h' arr,
    match cells with
    | [] => (h, None)
    | _ :: _ => (<[malloc h := Mem.Array cells]> h, Some (malloc h))
    end = (h', arr) ∧
    Mem.load_array h' arr = Some cells ∧
    heap_inv h0 h' (opt_list arr ++ B) ∧
    (∀ x, is_Some (h !! x) → h' !! x = h !! x).
Proof.
  intros Hinv. destruct cells as [|c cells].
  - exists h, None. split; [done|]. split; [done|]. split; [exact Hinv|done].
  - exists (<[malloc h := Mem.Array (c :: cells)]> h), (Some (malloc h)).
    split; [done|]. split; [|split].
    + cbn [Mem.load_array]. by rewrite lookup_insert_eq.
    + cbn [opt_list app]. by apply heap_inv_alloc.
    + intros x Hx. rewrite lookup_insert_ne; [done|]. intros <-.
      rewrite malloc_fresh in Hx. by destruct Hx.
Qed.

Lemma step_opendir h0 ms s w l :
  sim h0 ms s → mpcs ms !! w = Some (M_opendir l) →
  match mlocal_step lstat opendir malloc w (M_opendir l) (mshared ms) with
  | Ok (sh', mp', bc) =>
      ∃ s', ((s' = s ∧ only_frees (M_opendir l) = true) ∨
         wstep lstat opendir w s = Some s') ∧
            sim h0 (mkMState sh' (mpcs_after w mp' bc (mpcs ms))) s' ∧
            untouched ms w (sh_heap sh')
  | Blocked => wstep lstat opendir w s = None
  | Fault => False
  end.
Proof.
  intros Hsim Hw.
  destruct (sim_at _ _ _ _ _ Hsim Hw)
    as (p & nodes & Hp & He & Hm & Hnd & Hinv & Hpend).
  destruct ms as [[h d o] ps]. cbn [mshared mpcs sh_heap sh_data] in *.
  cbn [erase] in He.
  destruct (Mem.load_chars h l) as [s0|] eqn:Hs; [|done].
  cbn [mbind option_bind] in He. injection He as <-.
  cbn [mlocal_step sh_heap sh_data sh_owner]. rewrite Hs.
  destruct (opendir s0) as [names|] eqn:Hod.
  2: { eapply (sim_moves h0 (mkMState (mkShared h d o) ps) s w (M_opendir l)
                 (HD_opendir s0) nodes (mkShared h d o) (M_err_lock l) false
                 (data s) HD_err_lock nodes); try done;
         cbn [mshared mpcs sh_heap sh_data sh_owner].
       - cbn [local_step]. by rewrite Hod.
       - cbn [erase]. by rewrite Hs.
       - apply Hsim. }
  cbn [owned] in Hinv.
  set (X := nodes.*1 ++ nodes.*2 ++ concat (owned h <$> delete w ps)) in *.
  set (dir := malloc h).
  pose proof (heap_inv_alloc h0 h _ dir Mem.DirStream Hinv (malloc_fresh h))
    as Hinv1.
  destruct (Mem.alloc_paths malloc (<[dir:=Mem.DirStream]> h)
              (children s0 names)) as [h2 cells] eqn:Hal.
  destruct (alloc_paths_inv malloc malloc_fresh h0 _ _ _ _ _ Hinv1 Hal)
    as (Hinv2 & Hload & Hfr2).
  destruct (alloc_array_inv h0 h2 _ cells Hinv2)
    as (h3 & arr & Hr & Harr & Hinv3 & Hfr3).
  assert (Hfr : ∀ x, is_Some (h !! x) → h3 !! x = h !! x).
  { intros x Hx.
    assert (x ≠ dir) as Hne.
    { intros ->. unfold dir in Hx. rewrite malloc_fresh in Hx.
      by destruct Hx. }
    assert (h2 !! x = h !! x) as H2.
    { rewrite Hfr2; rewrite lookup_insert_ne; done. }
    rewrite Hfr3; [done|]. by rewrite H2. }
  assert (Hdir : h3 !! dir = Some Mem.DirStream).
  { assert (h2 !! dir = Some Mem.DirStream) as H2.
    { rewrite Hfr2; rewrite lookup_insert_eq; [done|by eexists]. }
    rewrite Hfr3; [done|]. rewrite H2. by eexists. }
  assert (Hall : load_all h3 cells = Some (children s0 names)).
  { rewrite <- Hload. apply load_all_agree. intros c Hc. apply Hfr3.
    by eapply load_all_allocated. }
  rewrite Hr.
  eapply (sim_moves h0 (mkMState (mkShared h d o) ps) s w (M_opendir l)
            (HD_opendir s0) nodes (mkShared h3 d o)
            (M_hd_lock l dir arr (length cells)) false
            (data s) (HD_lock (children s0 names)) nodes); try done;
    cbn [mshared mpcs sh_heap sh_data sh_owner].
  - cbn [local_step]. by rewrite Hod.
  - intros x Hx _ _. by apply Hfr.
  - cbn [erase]. unfold load_dir, Mem.load_chars.
    apply load_chars_Some in Hs. rewrite (Hfr l) by (by eexists).
    rewrite Hs. cbn [mbind option_bind].
    rewrite Hdir, Harr. cbn [mbind option_bind].
    rewrite bool_decide_eq_true_2 by done. cbn [mbind option_bind].
    by rewrite Hall.
  - eapply models_agree; [exact Hm|]. intros x Hx. apply Hfr.
    eapply queue_rep_allocated; [apply Hm|done].
  - apply Hsim.
  - cbn [owned]. rewrite Harr. cbn [default].
    eapply heap_inv_perm; [|exact Hinv3]. cbn [app].
    rewrite <- !Permutation_middle. rewrite app_assoc. apply perm_swap.
Qed.


Lemma step_enqueue h0 ms s w l dir arr n :
  sim h0 ms s → mpcs ms !! w = Some (M_hd_enqueue l dir arr n) →
  match mlocal_step lstat opendir malloc w (M_hd_enqueue l dir arr n)
          (mshared ms) with
  | Ok (sh', mp', bc) =>
      ∃ s', ((s' = s ∧ only_frees (M_hd_enqueue l dir arr n) = true) ∨
         wstep lstat opendir w s = Some s') ∧
            sim h0 (mkMState sh' (mpcs_after w mp' bc (mpcs ms))) s' ∧
            untouched ms w (sh_heap sh')
  | Blocked => wstep lstat opendir w s = None
  | Fault => False
  end.
Proof.
  intros Hsim Hw.
  destruct (sim_at _ _ _ _ _ Hsim Hw)
    as (p & nodes & Hp & He & Hm & Hnd & Hinv & Hpend).
  destruct ms as [[h d o] ps]. cbn [mshared mpcs sh_heap sh_data] in *.
  cbn [erase] in He.
  destruct (load_dir h l dir arr n) as [cells|] eqn:Hdir; [|done].
  cbn [mbind option_bind] in He.
  destruct (load_all h cells) as [paths|] eqn:Hall; [|done].
  cbn [mbind option_bind] in He. injection He as <-.
  destruct (load_dir_inv _ _ _ _ _ _ Hdir)
    as ((s0 & Hs) & Hd & Harr & Hn).
  cbn [owned] in Hinv. rewrite Harr in Hinv. cbn [default] in Hinv.
  set (R := concat (owned h <$> delete w ps)) in *.
  pose proof (proj1 Hinv) as Hdup. cbn [app] in Hdup.
  apply NoDup_cons in Hdup as [Hl Hdup].
  apply NoDup_cons in Hdup as [Hdr Hdup].
  rewrite <- app_assoc in Hdup.
  apply NoDup_app in Hdup as (_ & Ha & Hdup).
  apply NoDup_app in Hdup as (Hcells & Hc & _).
  assert (Hchars : Forall2 (λ p s, h !! p = Some (Mem.Chars s)) cells paths).
  { apply mapM_Some_1 in Hall. eapply Forall2_impl; [exact Hall|].
    intros c s1 H. by apply load_chars_Some. }
  destruct (enqueue_all_inv malloc malloc_fresh h0 cells h d nodes
              (queue (data s)) paths _ Hinv)
    as (h' & d' & new & Hrun & Hrep' & Hsc & Hlen & Hfr & Hinv'); try done.
  { intros x Hx. apply elem_of_app. right. apply elem_of_app. by left. }
  { apply Hm. }
  { intros c Hc1 Hc2. apply (Hc c Hc1). apply elem_of_app. right.
    apply elem_of_app. by left. }
  assert (Hmine : ∀ x, x ∈ l :: dir :: opt_list arr ++ cells →
                       h' !! x = h !! x).
  { intros x Hx. apply Hfr.
    - apply (proj1 (proj2 Hinv)). apply elem_of_app. by left.
    - intros Hin. destruct Hinv as (Hdd & _). cbn [app] in Hdd.
      rewrite app_comm_cons, app_comm_cons in Hdd.
      apply NoDup_app in Hdd as (_ & Hdd & _). apply (Hdd x Hx).
      apply elem_of_app. by left. }
  assert (Hze1 : (nodes ++ zip new cells).*1 = nodes.*1 ++ new).
  { rewrite fmap_app, fst_zip; [done|lia]. }
  assert (Hze2 : (nodes ++ zip new cells).*2 = nodes.*2 ++ cells).
  { rewrite fmap_app, snd_zip; [done|lia]. }
  assert (Harr' : Mem.load_array h' arr = Some cells).
  { rewrite <- Harr. apply load_array_agree. intros x Hx. apply Hmine.
    in_list. }
  cbn [mlocal_step sh_heap sh_data sh_owner]. rewrite Harr.
  rewrite (proj2 (Nat.leb_le n (length cells))) by lia.
  rewrite take_ge by lia. rewrite Hrun.
  eapply (sim_moves h0 (mkMState (mkShared h d o) ps) s w
            (M_hd_enqueue l dir arr n) (HD_enqueue paths) nodes
            (mkShared h' d' o) (M_hd_pending l dir arr n) false
            (fold_left enqueue paths (data s)) (HD_pending paths)
            (nodes ++ zip new cells)); try done;
    cbn [mshared mpcs sh_heap sh_data sh_owner].
  - intros x Hx Hx1 _. by apply Hfr.
  - destruct (erase_agree h h' (M_hd_pending l dir arr n)) as (-> & _).
    + intros x Hx. apply Hmine. cbn [footprint] in Hx.
      by rewrite Harr in Hx.
    + cbn [erase]. rewrite Hdir. cbn [mbind option_bind].
      by rewrite Hall.
  - rewrite fold_enqueue. by eapply models_with.
  - rewrite fold_enqueue. apply Hsim.
  - cbn [owned]. rewrite Hze1, Hze2.
    eapply heap_inv_perm; [|exact Hinv']. fold R. unfold id.
    solve_Permutation.
  - intros v l' dir' arr' k c _ _ Hc1. rewrite Hze2. apply elem_of_app.
    by left.
  - intros l' dir' arr' k c Heq Hc1. injection Heq as <- <- <- <-.
    rewrite Harr' in Hc1. rewrite Hze2. apply elem_of_app. by right.
Qed.


Lemma erase_pending h mp paths :
  erase h mp = Some (HD_pending paths) →
  ∃ l dir arr n, mp = M_hd_pending l dir arr n.
Proof.
  destruct mp as [| | | | | |[l0|]| | | | | | | | | | | | | | | | | | | | | |];
    cbn [erase]; intros H; try discriminate H.
  all: try (destruct (Mem.load_chars h _); discriminate H).
  all: try (destruct (load_dir_done h _ _ _); discriminate H).
  all: try (destruct (load_dir h _ _ _ _) as [cells|]; [|discriminate H];
            cbn [mbind option_bind] in H;
            destruct (load_all h cells); discriminate H).
  by eauto.
Qed.

Lemma erase_wait h mp : erase h mp = Some WT_wait → mp = M_wait.
Proof.
  destruct mp as [| | | | | |[l0|]| | | | | | | | | | | | | | | | | | | | | |];
    cbn [erase]; intros H; try discriminate H; try done.
  all: try (destruct (Mem.load_chars h _); discriminate H).
  all: try (destruct (load_dir_done h _ _ _); discriminate H).
  all: destruct (load_dir h _ _ _ _) as [cells|]; [|discriminate H];
    cbn [mbind option_bind] in H; destruct (load_all h cells); discriminate H.
Qed.

Lemma erase_exit h mp : erase h mp = Some WT_exit → mp = M_exit.
Proof.
  destruct mp as [| | | | | |[l0|]| | | | | | | | | | | | | | | | | | | | | |];
    cbn [erase]; intros H; try discriminate H; try done.
  all: try (destruct (Mem.load_chars h _); discriminate H).
  all: try (destruct (load_dir_done h _ _ _); discriminate H).
  all: destruct (load_dir h _ _ _ _) as [cells|]; [|discriminate H];
    cbn [mbind option_bind] in H; destruct (load_all h cells); discriminate H.
Qed.

(** A step of a worker on the heap is a step of the list model, or
    frees memory the list model does not have; it never faults, and
    it is blocked only where the list model is. *)
Lemma sim_wstep h0 ms s w :
  mutex_inv s → sim h0 ms s →
  match mwstep lstat opendir malloc w ms with
  | Ok ms' =>
      ∃ s', ((s' = s ∧ ∃ mp, mpcs ms !! w = Some mp ∧ only_frees mp = true) ∨
             wstep lstat opendir w s = Some s') ∧ sim h0 ms' s' ∧
            untouched ms w (sh_heap (mshared ms'))
  | Blocked => wstep lstat opendir w s = None
  | Fault => False
  end.
Proof.
  intros Hmx Hsim. unfold mwstep.
  destruct (mpcs ms !! w) as [mp|] eqn:Hw.
  - assert (match mlocal_step lstat opendir malloc w mp (mshared ms) with
            | Ok (sh', mp', bc) =>
                ∃ s', ((s' = s ∧ only_frees mp = true) ∨
         wstep lstat opendir w s = Some s') ∧
                      sim h0 (mkMState sh' (mpcs_after w mp' bc (mpcs ms))) s' ∧
            untouched ms w (sh_heap sh')
            | Blocked => wstep lstat opendir w s = None
            | Fault => False
            end) as H.
    { destruct (changes_heap mp) eqn:Hc; [|by apply step_pure].
      destruct mp; try discriminate Hc.
      - apply step_dequeue; [done..|].
        intros v l dir arr n Hne Hv.
        destruct Hsim as (HF & _).
        destruct (Forall2_lookup_l _ _ _ _ _ HF Hw) as (p & Hp & He).
        destruct (Forall2_lookup_l _ _ _ _ _ HF Hv) as (q & Hq & Heq).
        cbn [erase] in He. injection He as <-.
        cbn [erase] in Heq.
        destruct (load_dir _ l dir arr n) as [cells|]; [|done].
        cbn [mbind option_bind] in Heq.
        destruct (load_all _ cells) as [paths|]; [|done].
        cbn [mbind option_bind] in Heq. injection Heq as <-.
        apply Hne.
        pose proof (proj1 (Hmx w _ Hp) eq_refl) as H1.
        pose proof (proj1 (Hmx v _ Hq) eq_refl) as H2. congruence.
      - by apply step_opendir.
      - by apply step_enqueue.
      - by apply step_cleanup.
      - by apply step_free. }
    destruct (mlocal_step lstat opendir malloc w mp (mshared ms))
      as [[[sh' mp'] bc]| |]; [|done..].
    destruct H as (s' & [[-> Hfr]|Hs'] & Hsim' & Hun).
    + exists s. split; [|done]. left. split; [done|]. by exists mp.
    + exists s'. split; [by right|done].
  - destruct Hsim as (HF & _). unfold wstep.
    assert (pcs s !! w = None) as ->; [|done].
    apply lookup_ge_None. apply lookup_ge_None in Hw.
    apply Forall2_length in HF. lia.
Qed.

Lemma sim_spurious h0 ms s w :
  sim h0 ms s →
  match mspurious w ms with
  | Ok ms' => ∃ s', spurious w s = Some s' ∧ sim h0 ms' s'
  | Blocked => spurious w s = None
  | Fault => False
  end.
Proof.
  intros Hsim. unfold mspurious.
  destruct (mpcs ms !! w) as [mp|] eqn:Hw.
  - destruct (sim_at _ _ _ _ _ Hsim Hw)
      as (p & nodes & Hp & He & Hm & Hnd & Hinv & Hpend).
    assert (mp ≠ M_wait → spurious w s = None) as Hno.
    { intros Hne. unfold spurious. rewrite Hp.
      destruct p; try done. by apply erase_wait in He. }
    destruct mp; try (by apply Hno).
    cbn [erase] in He. injection He as <-.
    exists (mkState (data s) (pcs_after w WT_woken false (pcs s))). split.
    + unfold spurious. by rewrite Hp.
    + change (<[w:=M_woken]> (mpcs ms))
        with (mpcs_after w M_woken false (mpcs ms)).
      eapply (sim_rebuild h0 ms s w M_wait WT_wait nodes (mshared ms)
                M_woken false (data s) WT_woken nodes); try done;
        apply Hsim.
  - destruct Hsim as (HF & _). unfold spurious.
    assert (pcs s !! w = None) as ->; [|done].
    apply lookup_ge_None. apply lookup_ge_None in Hw.
    apply Forall2_length in HF. lia.
Qed.

Lemma heap_inv_refl h0 : heap_inv h0 h0 [].
Proof.
  split; [apply NoDup_nil_2|]. split; [|done].
  by intros l ?%elem_of_nil.
Qed.

Lemma owned_replicate h n : concat (owned h <$> replicate n M_lock) = [].
Proof. induction n as [|n IH]; [done|]. simpl. exact IH. Qed.

(** mdu.c, lines 58-85: the pool starts, and stands for the initial
    state of the list model. *)
Lemma sim_init n h0 path :
  ∃ ms, minit malloc n h0 path = Some ms ∧
        sim h0 ms (init n path).
Proof.
  unfold minit.
  set (d0 := Mem.set_pending 1 (Mem.thread_data_init 0 0).2).
  set (dup := malloc h0).
  set (h := <[dup := Mem.Chars path]> h0).
  assert (Hrep0 : Mem.queue_rep h d0 [] []).
  { split; [done|done|apply NoDup_nil_2|constructor]. }
  destruct (enqueue_inv h0 h d0 [] [] (malloc h) dup path [dup])
    as (h' & d' & Hrun & Hrep & Hsc & Hfr & Hinv).
  { apply heap_inv_alloc; [apply heap_inv_refl|apply malloc_fresh]. }
  { by intros l ?%elem_of_nil. }
  { exact Hrep0. }
  { apply malloc_fresh. }
  { unfold h. by rewrite lookup_insert_eq. }
  { by intros ?%elem_of_nil. }
  rewrite Hrun. cbn [mbind option_bind].
  eexists. split; [reflexivity|].
  split; [|split; [done|]]; cbn [mshared mpcs sh_heap sh_data sh_owner].
  - unfold init. cbn [pcs]. by apply Forall2_replicate.
  - exists [(malloc h, dup)]. split; [|split].
    + unfold scalars in Hsc. injection Hsc as _ _ Hts Hpe Hdn Her.
      split; [exact Hrep|]. cbn [init data seed].
      split; [by rewrite Hts|]. split; [by rewrite Hpe|].
      split; [rewrite Hdn|rewrite Her]; by split.
    + unfold pool_blocks. rewrite owned_replicate. exact Hinv.
    + intros w l dir arr k c Hw. by apply lookup_replicate in Hw as [? _].
Qed.


(** Whatever the pool reaches on the heap, the list model reaches. *)
Lemma mreachable_sim n h0 path ms :
  Z.of_nat n ≤ INT_MAX →
  mreachable lstat opendir malloc n h0 path ms →
  ∃ s, reachable lstat opendir n path s ∧ sim h0 ms s.
Proof.
  intros HN. induction 1 as [ms Hi|ms c ms' Hr (s & Hrs & Hsim) Hstep].
  - destruct (sim_init n h0 path) as (ms0 & Hi0 & Hsim).
    rewrite Hi in Hi0. injection Hi0 as <-.
    exists (init n path). split; [constructor|done].
  - pose proof (reachable_inv _ _ _ _ _ HN Hrs) as [Hmx _ _ _ _ _].
    destruct c as [w|w]; cbn [mcstep] in Hstep.
    + pose proof (sim_wstep h0 ms s w Hmx Hsim) as Hw.
      rewrite Hstep in Hw.
      destruct Hw as (s' & [[-> _]|Hs'] & Hsim' & _).
      * by exists s.
      * exists s'. split; [|done].
        eapply reachable_step; [exact Hrs|]. by exists (Run w).
    + pose proof (sim_spurious h0 ms s w Hsim) as Hw.
      rewrite Hstep in Hw. destruct Hw as (s' & Hs' & Hsim').
      exists s'. split; [|done].
      eapply reachable_step; [exact Hrs|]. by exists (Spurious w).
Qed.

Lemma sim_all_exited h0 ms s :
  sim h0 ms s → all_exited s = all_mexited ms.
Proof.
  intros (HF & _). unfold all_exited, all_mexited.
  induction HF as [|mp p mps ps He _ IH]; [done|].
  cbn [forallb]. rewrite IH. f_equal.
  destruct (is_mexit mp) eqn:Hx.
  - destruct mp; try discriminate Hx. cbn [erase] in He. by injection He as <-.
  - destruct p; try done. apply erase_exit in He. by subst.
Qed.

Lemma sim_exited_clean h0 ms s :
  sim h0 ms s → all_mexited ms = true → queue (data s) = [] →
  sh_heap (mshared ms) = h0 ∧
  Mem.queue_head (sh_data (mshared ms)) = None ∧
  Mem.queue_tail (sh_data (mshared ms)) = None.
Proof.
  intros (HF & Ho & nodes & Hm & Hinv & _) Hx Hq.
  destruct Hm as ([Hseg Htail _ Hpaths] & _). rewrite Hq in Hpaths.
  apply Forall2_nil_inv_r in Hpaths as ->.
  cbn [Mem.segment] in Hseg. split; [|by split].
  apply heap_inv_nil.
  assert (concat (owned (sh_heap (mshared ms)) <$> mpcs ms) = []) as Hnone.
  { unfold all_mexited in Hx. clear -Hx.
    induction (mpcs ms) as [|mp mps IH]; [done|].
    cbn [forallb] in Hx. apply andb_true_iff in Hx as [H1 H2].
    destruct mp; try discriminate H1. cbn. by apply IH. }
  unfold pool_blocks in Hinv. by rewrite Hnone in Hinv.
Qed.


(** Whatever a schedule leads to is reachable. *)
Lemma mexec_mreachable n h0 path sched ms ms' :
  mreachable lstat opendir malloc n h0 path ms →
  mexec lstat opendir malloc sched ms = Ok ms' →
  mreachable lstat opendir malloc n h0 path ms'.
Proof.
  revert ms. induction sched as [|c sched IH]; intros ms Hr H;
    cbn [mexec] in H.
  - by injection H as <-.
  - destruct (mcstep lstat opendir malloc c ms) as [ms1| |] eqn:Hc;
      try discriminate H.
    eapply IH; [|exact H]. by eapply mreachable_step.
Qed.

(** X20. With an allocator that returns blocks not in use and at most
    [INT_MAX] workers, the pool starts, and every state it reaches on
    the heap stands for a state the list model reaches: every worker
    at the same statement, its pointers leading to the strings the
    list model has; the fields of [struct ThreadData] as in the list
    model, the queue a chain of nodes that ends in NULL with
    [queue_tail] at its last node; and the heap made of the heap at
    the start and, apart from it, the nodes of the queue, the
    character arrays they carry and the blocks of the workers, each
    block with one owner. *)
Theorem pool_on_heap_refines n h0 path :
  Z.of_nat n ≤ INT_MAX →
  (∃ ms, minit malloc n h0 path = Some ms) ∧
  ∀ ms, mreachable lstat opendir malloc n h0 path ms →
        ∃ s, reachable lstat opendir n path s ∧ sim h0 ms s.
Proof.
  intros HN. split.
  - destruct (sim_init n h0 path) as (ms & Hi & _). by exists ms.
  - intros ms Hr. by apply mreachable_sim.
Qed.

(** X21. No statement of a worker faults: whatever the schedule, a
    worker never reads or writes through a pointer to a block that is
    not allocated, never frees a block twice, never closes a directory
    stream that is not open, [dequeue] and [enqueue] always find the
    chain of nodes intact, and line 208 never reads beyond the cells
    of [paths_to_enqueue]. *)
Theorem pool_never_faults n h0 path ms c :
  Z.of_nat n ≤ INT_MAX →
  mreachable lstat opendir malloc n h0 path ms →
  mcstep lstat opendir malloc c ms ≠ Fault.
Proof.
  intros HN Hr Hf.
  destruct (mreachable_sim n h0 path ms HN Hr) as (s & Hrs & Hsim).
  pose proof (reachable_inv _ _ _ _ _ HN Hrs) as [Hmx _ _ _ _ _].
  destruct c as [w|w]; cbn [mcstep] in Hf.
  - pose proof (sim_wstep h0 ms s w Hmx Hsim) as Hw. by rewrite Hf in Hw.
  - pose proof (sim_spurious h0 ms s w Hsim) as Hw. by rewrite Hf in Hw.
Qed.

(** X22. On the heap, too, the pool cannot get stuck: as long as some
    worker has not left, some worker can execute its next statement. *)
Theorem pool_on_heap_no_deadlock n h0 path ms :
  Z.of_nat n ≤ INT_MAX →
  mreachable lstat opendir malloc n h0 path ms →
  all_mexited ms = false →
  ∃ w ms', mwstep lstat opendir malloc w ms = Ok ms'.
Proof.
  intros HN Hr Hx.
  destruct (mreachable_sim n h0 path ms HN Hr) as (s & Hrs & Hsim).
  pose proof (reachable_inv _ _ _ _ _ HN Hrs) as [Hmx _ _ _ _ _].
  rewrite <- (sim_all_exited h0 ms s Hsim) in Hx.
  destruct (no_deadlock _ _ _ _ _ HN Hrs Hx) as (w & s' & Hs').
  exists w. pose proof (sim_wstep h0 ms s w Hmx Hsim) as Hw.
  destruct (mwstep lstat opendir malloc w ms) as [ms'| |]; [|congruence|done].
  by exists ms'.
Qed.

(** X23. Nothing leaks: once the workers of a pool of at least one
    have all left, every block that was allocated during the traversal
    has been freed.  The heap is the heap at the start, the queue is
    empty with [queue_head] and [queue_tail] NULL, the mutex is free,
    and [thread_data_destroy] finds no node to free. *)
Theorem pool_frees_all_blocks n h0 path ms :
  (0 < n)%nat → Z.of_nat n ≤ INT_MAX →
  mreachable lstat opendir malloc n h0 path ms →
  all_mexited ms = true →
  sh_heap (mshared ms) = h0 ∧
  Mem.queue_head (sh_data (mshared ms)) = None ∧
  Mem.queue_tail (sh_data (mshared ms)) = None ∧
  sh_owner (mshared ms) = None ∧
  ∃ d', Mem.thread_data_destroy (sh_heap (mshared ms)) (sh_data (mshared ms))
        = Some (h0, d').
Proof.
  intros Hn HN Hr Hx.
  destruct (mreachable_sim n h0 path ms HN Hr) as (s & Hrs & Hsim).
  pose proof (reachable_inv _ _ _ _ _ HN Hrs) as [Hmx _ Hdn _ _ Hex].
  pose proof (reachable_queue_inv _ _ _ _ _ HN Hrs) as [Hown _ _ _].
  pose proof (reachable_length _ _ _ _ _ Hrs) as Hlen.
  pose proof Hx as Hxs. rewrite <- (sim_all_exited h0 ms s Hsim) in Hxs.
  assert (Hall : ∀ w p, pcs s !! w = Some p → p = WT_exit).
  { intros w p Hp. pose proof (forallb_true_lookup _ _ _ _ Hxs Hp).
    by destruct p. }
  destruct (lookup_lt_is_Some_2 (pcs s) 0%nat) as [p0 Hp0]; [lia|].
  pose proof (Hall _ _ Hp0) as ->.
  destruct (Hdn (Hex _ _ Hp0 (or_intror eq_refl))) as (Hq & _).
  destruct (sim_exited_clean h0 ms s Hsim Hx Hq) as (Hh & Hhd & Htl).
  split; [done|]. split; [done|]. split; [done|]. split.
  - destruct Hsim as (_ & -> & _).
    destruct (mutex (data s)) as [w|] eqn:Hm; [|done].
    destruct (Hown w Hm) as [p Hp]. pose proof (Hall _ _ Hp) as ->.
    by pose proof (proj2 (Hmx w _ Hp) Hm).
  - rewrite Hh. unfold Mem.thread_data_destroy.
    eexists. destruct (size h0); cbn [Mem.destroy_loop Mem.queue_head
      Mem.set_cond Mem.set_mutex]; rewrite Hhd; reflexivity.
Qed.

(** X24. What [main] reads after the joins: once the workers of a
    pool of at least one have all left, [total_size] in the heap model
    is 512 times the blocks of the tree, wrapped to [off_t],
    [error_occurred] is non-zero exactly when some node of the tree
    could not be read, [pending] is 0 and [done] is set. *)
Theorem pool_on_heap_result n h0 path ms B e nn :
  (0 < n)%nat → Z.of_nat n ≤ INT_MAX →
  usage lstat opendir path B e nn →
  mreachable lstat opendir malloc n h0 path ms →
  all_mexited ms = true →
  Mem.total_size (sh_data (mshared ms)) = wrap_off (512 * B) ∧
  (Mem.error_occurred (sh_data (mshared ms)) ≠ 0 ↔ e = true) ∧
  Mem.pending (sh_data (mshared ms)) = 0 ∧
  Mem.done (sh_data (mshared ms)) ≠ 0.
Proof.
  intros Hn HN Hu Hr Hx.
  destruct (mreachable_sim n h0 path ms HN Hr) as (s & Hrs & Hsim).
  rewrite <- (sim_all_exited h0 ms s Hsim) in Hx.
  destruct (exited_settled _ _ n path s B e nn Hn HN Hu Hrs Hx)
    as (Hd & _ & Hp & Ht & He).
  destruct Hsim as (_ & _ & nodes & (_ & Hts & Hpe & Hdn & Her) & _).
  split; [by rewrite Hts|]. split; [by rewrite <- He|].
  split; [by rewrite Hpe|]. by apply Hdn.
Qed.

(** *** The length of a run *)

Lemma frees_ahead_nonneg p : 0 ≤ frees_ahead p.
Proof. destruct p as [| | | | | |[?|]| | | | | | | | | | | | | | | | | | | | | |]; simpl; lia. Qed.

Lemma mranks_nonneg ps : 0 ≤ mranks ps.
Proof.
  induction ps as [|p ps IH]; simpl; [lia|].
  pose proof (frees_ahead_nonneg p). lia.
Qed.

Lemma mranks_insert ps w p p' :
  ps !! w = Some p →
  mranks (<[w := p']> ps) = mranks ps - frees_ahead p + frees_ahead p'.
Proof.
  revert w. induction ps as [|x ps IH]; intros [|w] H; simplify_eq/=; try lia.
  rewrite (IH _ H). lia.
Qed.

Lemma mranks_wake ps : mranks (map mwake ps) = mranks ps.
Proof.
  induction ps as [|p ps IH]; simpl; [done|]. rewrite IH.
  by destruct p.
Qed.

Lemma mranks_after ps w p p' bc :
  ps !! w = Some p →
  mranks (mpcs_after w p' bc ps) = mranks ps - frees_ahead p + frees_ahead p'.
Proof.
  intros Hw. unfold mpcs_after. destruct bc.
  - rewrite (mranks_insert _ _ (mwake p)).
    + rewrite mranks_wake. by destruct p.
    + change (map mwake ps) with (mwake <$> ps).
      by rewrite list_lookup_fmap, Hw.
  - by apply mranks_insert.
Qed.

Lemma mranks_replicate n : mranks (replicate n M_lock) = 0.
Proof. induction n as [|n IH]; simpl; [done|]. by rewrite IH. Qed.

Lemma mwstep_inv w ms ms' :
  mwstep lstat opendir malloc w ms = Ok ms' →
  ∃ mp sh' mp' bc,
    mpcs ms !! w = Some mp ∧
    mlocal_step lstat opendir malloc w mp (mshared ms) = Ok (sh', mp', bc) ∧
    ms' = mkMState sh' (mpcs_after w mp' bc (mpcs ms)).
Proof.
  unfold mwstep. destruct (mpcs ms !! w) as [mp|] eqn:Hw; [|done].
  destruct (mlocal_step lstat opendir malloc w mp (mshared ms))
    as [[[sh' mp'] bc]| |] eqn:Hl; try done.
  intros [= <-]. by exists mp, sh', mp', bc.
Qed.

Lemma mlocal_step_frees w mp sh sh' mp' bc :
  mlocal_step lstat opendir malloc w mp sh = Ok (sh', mp', bc) →
  frees_ahead mp' ≤ frees_ahead mp + 2 ∧
  (only_frees mp = true → frees_ahead mp' + 1 = frees_ahead mp).
Proof.
  destruct mp as [| | | | | |[?|]| | | | | | | | | | | | | | | | | | | | | |];
    cbn [mlocal_step]; unfold mlock; intros H;
    repeat case_match; simplify_eq; repeat case_match; cbn;
    repeat case_match; (split; [lia|intros ?; (done || lia)]).
Qed.


(** Every statement of the pool on the heap uses up some of what is
    left: three times the measure of the list model, and the
    statements that only free memory. *)
Lemma mcstep_measure h0 ms s T c ms' B e :
  dequeue_inv s → mutex_inv s →
  sim h0 ms s → settle_inv lstat opendir B e T s →
  mcstep lstat opendir malloc c ms = Ok ms' →
  ∃ s' T',
    (s' = s ∨ cstep lstat opendir c s = Some s') ∧
    sim h0 ms' s' ∧ settle_inv lstat opendir B e T' s' ∧
    3 * potential s' T' + mranks (mpcs ms') + 1
    ≤ 3 * potential s T + mranks (mpcs ms)
      + (match c with Spurious _ => 24 | Run _ => 0 end).
Proof.
  intros Hdq Hmx Hsim Hset Hstep. destruct c as [w|w]; cbn [mcstep] in Hstep.
  - pose proof (sim_wstep h0 ms s w
                  Hmx Hsim) as Hw.
    rewrite Hstep in Hw.
    apply mwstep_inv in Hstep
      as (mp & sh' & mp' & bc & Hmp & Hl & ->).
    destruct (mlocal_step_frees w mp _ _ _ _ Hl) as [Hle Hfr].
    pose proof (mranks_after _ _ _ mp' bc Hmp) as Hr.
    cbn [mpcs].
    destruct Hw as (s' & [[-> (mp0 & Hmp0 & Hof)]|Hs'] & Hsim' & _).
    + rewrite Hmp in Hmp0. injection Hmp0 as <-.
      exists s, T. split; [by left|]. split; [done|]. split; [done|].
      specialize (Hfr Hof). lia.
    + destruct (settle_inv_cstep _ _ _ _ _ (Run w) _ _ Hdq Hset Hs')
        as (T' & Hset' & Hpot).
      exists s', T'. split; [by right|]. split; [done|]. split; [done|].
      lia.
  - pose proof (sim_spurious h0 ms s w Hsim) as Hw.
    rewrite Hstep in Hw. destruct Hw as (s' & Hs' & Hsim').
    destruct (settle_inv_cstep _ _ _ _ _ (Spurious w) _ _ Hdq Hset Hs')
      as (T' & Hset' & Hpot).
    exists s', T'. split; [by right|]. split; [done|]. split; [done|].
    unfold mspurious in Hstep.
    destruct (mpcs ms !! w) as [mp|] eqn:Hmp; [|done].
    destruct mp; try done. injection Hstep as <-. cbn [mpcs].
    rewrite (mranks_insert _ _ M_wait) by done. cbn [frees_ahead]. lia.
Qed.

Lemma mexec_measure n h0 path B e sched :
  Z.of_nat n ≤ INT_MAX →
  ∀ ms s T ms',
    reachable lstat opendir n path s → sim h0 ms s →
    settle_inv lstat opendir B e T s →
    mexec lstat opendir malloc sched ms = Ok ms' →
    ∃ s' T',
      reachable lstat opendir n path s' ∧ sim h0 ms' s' ∧
      settle_inv lstat opendir B e T' s' ∧
      3 * potential s' T' + mranks (mpcs ms') + Z.of_nat (length sched)
      ≤ 3 * potential s T + mranks (mpcs ms) + 24 * spurious_count sched.
Proof.
  intros HN. induction sched as [|c sched IH];
    intros ms s T ms' Hr Hsim Hset Hx; cbn [mexec] in Hx.
  - injection Hx as <-. exists s, T. cbn [length spurious_count].
    split; [done|]. split; [done|]. split; [done|]. lia.
  - destruct (mcstep lstat opendir malloc c ms) as [ms1| |] eqn:Hc;
      try discriminate Hx.
    pose proof (reachable_inv _ _ _ _ _ HN Hr) as [Hmx _ _ _ _ _].
    pose proof (reachable_queue_inv _ _ _ _ _ HN Hr) as [_ _ _ Hdq].
    destruct (mcstep_measure h0 ms s T c ms1 B e Hdq Hmx Hsim Hset Hc)
      as (s1 & T1 & Hs1 & Hsim1 & Hset1 & Hle1).
    assert (Hr1 : reachable lstat opendir n path s1).
    { destruct Hs1 as [->|Hs1]; [done|].
      eapply reachable_step; [exact Hr|]. by exists c. }
    destruct (IH ms1 s1 T1 ms' Hr1 Hsim1 Hset1 Hx)
      as (s' & T' & Hr' & Hsim' & Hset' & Hle').
    exists s', T'. split; [done|]. split; [done|]. split; [done|].
    cbn [length spurious_count]. destruct c; lia.
Qed.

(** As long as some worker has not left, some worker can go on. *)
Lemma sim_enabled n h0 path ms s :
  Z.of_nat n ≤ INT_MAX →
  reachable lstat opendir n path s → sim h0 ms s →
  all_mexited ms = false →
  ∃ w ms', mwstep lstat opendir malloc w ms = Ok ms'.
Proof.
  intros HN Hrs Hsim Hx.
  pose proof (reachable_inv _ _ _ _ _ HN Hrs) as [Hmx _ _ _ _ _].
  rewrite <- (sim_all_exited h0 ms s Hsim) in Hx.
  destruct (no_deadlock _ _ _ _ _ HN Hrs Hx) as (w & s' & Hs').
  exists w.
  pose proof (sim_wstep h0 ms s w
                Hmx Hsim) as Hw.
  destruct (mwstep lstat opendir malloc w ms) as [ms'| |]; [|congruence|done].
  by exists ms'.
Qed.

(** From wherever the pool is, some schedule lets all workers leave. *)
Lemma sim_finishes n h0 path B e (k : nat) :
  Z.of_nat n ≤ INT_MAX →
  ∀ ms s T,
    reachable lstat opendir n path s → sim h0 ms s →
    settle_inv lstat opendir B e T s →
    3 * potential s T + mranks (mpcs ms) ≤ Z.of_nat k →
    ∃ ws ms',
      mexec lstat opendir malloc (map Run ws) ms = Ok ms' ∧
      all_mexited ms' = true.
Proof.
  intros HN. induction k as [|k IH]; intros ms s T Hr Hsim Hset Hk.
  - destruct (all_mexited ms) eqn:Hx; [by exists [], ms|].
    destruct (sim_enabled n h0 path ms s HN Hr Hsim Hx) as (w & ms1 & Hw).
    pose proof (reachable_inv _ _ _ _ _ HN Hr) as [Hmx _ _ _ _ _].
    pose proof (reachable_queue_inv _ _ _ _ _ HN Hr) as [_ _ _ Hdq].
    destruct (mcstep_measure h0 ms s T (Run w) ms1 B e Hdq Hmx Hsim Hset Hw)
      as (s1 & T1 & _ & _ & _ & Hle).
    pose proof (potential_nonneg s1 T1). pose proof (mranks_nonneg (mpcs ms1)).
    lia.
  - destruct (all_mexited ms) eqn:Hx; [by exists [], ms|].
    destruct (sim_enabled n h0 path ms s HN Hr Hsim Hx) as (w & ms1 & Hw).
    pose proof (reachable_inv _ _ _ _ _ HN Hr) as [Hmx _ _ _ _ _].
    pose proof (reachable_queue_inv _ _ _ _ _ HN Hr) as [_ _ _ Hdq].
    destruct (mcstep_measure h0 ms s T (Run w) ms1 B e Hdq Hmx Hsim Hset Hw)
      as (s1 & T1 & Hs1 & Hsim1 & Hset1 & Hle).
    assert (Hr1 : reachable lstat opendir n path s1).
    { destruct Hs1 as [->|Hs1]; [done|].
      eapply reachable_step; [exact Hr|]. by exists (Run w). }
    destruct (IH ms1 s1 T1 Hr1 Hsim1 Hset1) as (ws & ms' & Hrun & Hx');
      [lia|].
    exists (w :: ws), ms'. split; [|done].
    cbn [map mexec mcstep]. by rewrite Hw.
Qed.

(** From every state the pool reaches, some schedule without spurious
    wake-ups lets all workers leave. *)
Lemma mreachable_finishes n h0 path B e nn ms :
  Z.of_nat n ≤ INT_MAX →
  usage lstat opendir path B e nn →
  mreachable lstat opendir malloc n h0 path ms →
  ∃ ws ms',
    mexec lstat opendir malloc (map Run ws) ms = Ok ms' ∧
    all_mexited ms' = true.
Proof.
  intros HN Hu Hr.
  destruct (mreachable_sim n h0 path ms
              HN Hr) as (s & Hrs & Hsim).
  destruct (reachable_settle _ _ _ _ _ _ _ _ HN Hu Hrs) as [T Hset].
  pose proof (potential_nonneg s T). pose proof (mranks_nonneg (mpcs ms)).
  eapply (sim_finishes n h0 path B e
            (Z.to_nat (3 * potential s T + mranks (mpcs ms))) HN ms s T);
    try done.
  lia.
Qed.

(** X26. The pool on the heap finishes.  From the start, no run has
    more than [3 * (7n + (20 + 14n) * nn)] statements, and 24 more for
    each spurious wake-up, where [nn] is the number of nodes of the
    tree; and from every state the pool reaches, some schedule
    without spurious wake-ups lets all workers leave. *)
Theorem pool_on_heap_terminates n h0 path B e nn :
  Z.of_nat n ≤ INT_MAX →
  usage lstat opendir path B e nn →
  (∀ ms0 sched ms,
     minit malloc n h0 path = Some ms0 →
     mexec lstat opendir malloc sched ms0 = Ok ms →
     Z.of_nat (length sched)
     ≤ 3 * (7 * Z.of_nat n + (20 + 14 * Z.of_nat n) * Z.of_nat nn)
       + 24 * spurious_count sched) ∧
  (∀ ms,
     mreachable lstat opendir malloc n h0 path ms →
     ∃ ws ms',
       mexec lstat opendir malloc (map Run ws) ms = Ok ms' ∧
       all_mexited ms' = true).
Proof.
  intros HN Hu. split.
  - intros ms0 sched ms Hi Hx.
    destruct (sim_init n h0 path) as (ms0' & Hi' & Hsim).
    rewrite Hi in Hi'. injection Hi' as <-.
    destruct (mexec_measure n h0 path B e sched HN ms0 (init n path) nn ms)
      as (s' & T' & _ & _ & _ & Hle);
      [constructor|done|by apply settle_inv_init|done|].
    rewrite potential_init in Hle.
    assert (mranks (mpcs ms0) = 0) as Hz.
    { unfold minit in Hi. destruct (Mem.enqueue _ _ _ _) as [[[? ?] ?]|];
        [|done]. cbn [mbind option_bind] in Hi. injection Hi as <-.
      apply mranks_replicate. }
    pose proof (potential_nonneg s' T'). pose proof (mranks_nonneg (mpcs ms)).
    lia.
  - intros ms Hr. by eapply mreachable_finishes.
Qed.

(** *** Who writes what *)

Lemma alloc_paths_keeps paths :
  ∀ (h h' : Mem.heap) cells,
    Mem.alloc_paths malloc h paths = (h', cells) →
    ∀ l, is_Some (h !! l) → h' !! l = h !! l.
Proof.
  induction paths as [|s paths IH]; intros h h' cells Hrun l Hl;
    cbn [Mem.alloc_paths] in Hrun.
  - by simplify_eq.
  - destruct (Mem.alloc_paths malloc (<[malloc h:=Mem.Chars s]> h) paths)
      as [h1 ls] eqn:Hrest. simplify_eq.
    assert (l ≠ malloc h) as Hne.
    { intros ->. rewrite malloc_fresh in Hl. by destruct Hl. }
    rewrite (IH _ _ _ Hrest l); rewrite lookup_insert_ne; done.
Qed.

Ltac unchanged :=
  split; [intros Hne; by destruct Hne|intros l Hl Hne; by destruct Hne].
Ltac holding :=
  split; [intros _; split; reflexivity|intros l Hl Hne; by destruct Hne].

(** What a statement writes: the fields of the context only with the
    mutex, and of the blocks that exist only its own, unless it holds
    the mutex. *)
Lemma mlocal_step_writes w mp sh sh' mp' bc p :
  mlocal_step lstat opendir malloc w mp sh = Ok (sh', mp', bc) →
  erase (sh_heap sh) mp = Some p →
  (sh_data sh' ≠ sh_data sh → holds p = true ∧ sh_owner sh' = sh_owner sh) ∧
  (∀ l, is_Some (sh_heap sh !! l) →
        sh_heap sh' !! l ≠ sh_heap sh !! l →
        holds p = true ∨ l ∈ owned (sh_heap sh) mp).
Proof.
  destruct sh as [h d o]. cbn [sh_heap sh_data sh_owner].
  intros Hstep He.
  destruct mp as [| | | | | |[l0|]| | | | | | | | | | | | | | | | | | | | | |];
    cbn [mlocal_step erase sh_heap sh_data sh_owner] in Hstep, He;
    unfold mlock, munlock, with_data in Hstep;
    cbn [sh_heap sh_data sh_owner] in Hstep.
  all: try (destruct (Mem.load_chars h _) as [s0|] eqn:Hs;
            cbn [mbind option_bind] in He; [|discriminate He]).
  all: try (destruct (load_dir h _ _ _ _) as [cells|] eqn:Hdir;
            cbn [mbind option_bind] in He; [|discriminate He];
            destruct (load_all h cells) as [paths|] eqn:Hall;
            cbn [mbind option_bind] in He; [|discriminate He]).
  all: try (destruct (load_dir_done h _ _ _) as [[]|] eqn:Hdir;
            cbn [mbind option_bind] in He; [|discriminate He]).
  all: injection He as <-.
  all: try (repeat case_match; simplify_eq; cbn [sh_heap sh_data sh_owner];
            (unchanged || holding); fail).
  - (* dequeue *)
    destruct (Mem.dequeue h d) as [[[path h'] d']|]; [|done].
    injection Hstep as <- <- <-. cbn [sh_heap sh_data sh_owner].
    split; [by intros _|intros ? _ _; by left].
  - (* opendir and the readdir loop *)
    try rewrite Hs in Hstep. destruct (opendir s0) as [names|].
    2: { injection Hstep as <- <- <-. unchanged. }
    destruct (Mem.alloc_paths malloc (<[malloc h:=Mem.DirStream]> h)
                (children s0 names)) as [h2 cells] eqn:Hal.
    assert (Hkeep : ∀ l, is_Some (h !! l) → h2 !! l = h !! l).
    { intros l Hl.
      assert (l ≠ malloc h) as Hne.
      { intros ->. rewrite malloc_fresh in Hl. by destruct Hl. }
      rewrite (alloc_paths_keeps _ _ _ _ Hal l); rewrite lookup_insert_ne;
        done. }
    destruct cells as [|c cells]; injection Hstep as <- <- <-;
      cbn [sh_heap sh_data sh_owner].
    + split; [intros Hne; by destruct Hne|].
      intros l Hl Hne. destruct Hne. by apply Hkeep.
    + split; [intros Hne; by destruct Hne|].
      intros l Hl Hne. destruct Hne.
      rewrite lookup_insert_ne; [by apply Hkeep|].
      intros <-. rewrite <- (Hkeep _ Hl) in Hl.
      rewrite malloc_fresh in Hl. by destruct Hl.
  - (* the enqueue loop *)
    repeat case_match; simplify_eq. cbn [sh_heap sh_data sh_owner].
    split; [by intros _|intros ? _ _; by left].
  - (* free(paths_to_enqueue), closedir *)
    assert (∃ h', sh' = mkShared h' d o ∧
                  ∀ l, l ≠ dir → l ∉ opt_list arr → h' !! l = h !! l)
      as (h' & -> & Hkeep).
    { destruct arr as [a|]; unfold Mem.free in Hstep;
        repeat case_match; simplify_eq; eexists; (split; [reflexivity|]);
        intros x Hx1 Hx2; rewrite !lookup_delete_ne; try done.
      intros <-. apply Hx2. by apply list_elem_of_singleton. }
    cbn [sh_heap sh_data sh_owner].
    split; [intros Hne; by destruct Hne|].
    intros l Hl Hne. right. cbn [owned].
    destruct (decide (l = dir)) as [->|Hd]; [in_list|].
    destruct (decide (l ∈ opt_list arr)) as [Ha|Ha]; [in_list|].
    destruct Hne. by apply Hkeep.
  - (* free(path) *)
    unfold Mem.free in Hstep. destruct (h !! path); [|done].
    injection Hstep as <- <- <-. cbn [sh_heap sh_data sh_owner owned].
    split; [intros Hne; by destruct Hne|].
    intros l Hl Hne. right.
    destruct (decide (l = path)) as [->|Hp]; [in_list|].
    destruct Hne. by rewrite lookup_delete_ne.
Qed.

(** X27. No data race.  A statement of a worker changes a field of
    the context only when the worker holds the mutex, and the worker
    still holds it afterwards.  Of the blocks that exist, a worker
    that does not hold the mutex changes or frees only its own: the
    nodes of the queue are written and freed under the mutex.  No
    statement of a worker touches a block that another worker owns,
    and none touches a block that was there before the pool started. *)
Theorem pool_on_heap_race_free n h0 path ms w ms' :
  Z.of_nat n ≤ INT_MAX →
  mreachable lstat opendir malloc n h0 path ms →
  mwstep lstat opendir malloc w ms = Ok ms' →
  (sh_data (mshared ms') ≠ sh_data (mshared ms) →
   sh_owner (mshared ms) = Some w ∧ sh_owner (mshared ms') = Some w) ∧
  (∀ l, is_Some (sh_heap (mshared ms) !! l) →
        sh_heap (mshared ms') !! l ≠ sh_heap (mshared ms) !! l →
        sh_owner (mshared ms) = Some w ∨
        ∃ mp, mpcs ms !! w = Some mp ∧
              l ∈ owned (sh_heap (mshared ms)) mp) ∧
  untouched ms w (sh_heap (mshared ms')) ∧
  (∀ l, is_Some (h0 !! l) → sh_heap (mshared ms') !! l = h0 !! l).
Proof.
  intros HN Hr Hstep.
  destruct (mreachable_sim n h0 path ms HN Hr) as (s & Hrs & Hsim).
  pose proof (reachable_inv _ _ _ _ _ HN Hrs) as [Hmx _ _ _ _ _].
  pose proof (sim_wstep h0 ms s w Hmx Hsim) as Hw. rewrite Hstep in Hw.
  destruct Hw as (_ & _ & _ & Hun).
  assert (Hr' : mreachable lstat opendir malloc n h0 path ms').
  { eapply (mreachable_step _ _ _ _ _ _ _ (Run w)); [exact Hr|].
    exact Hstep. }
  destruct (mreachable_sim n h0 path ms' HN Hr') as (s' & _ & Hsim').
  apply mwstep_inv in Hstep as (mp & sh' & mp' & bc & Hmp & Hl & ->).
  destruct (sim_at _ _ _ _ _ Hsim Hmp) as (p & nodes & Hp & He & _).
  destruct (mlocal_step_writes w mp _ _ _ _ p Hl He) as [Hdata Hheap].
  assert (Hown : holds p = true → sh_owner (mshared ms) = Some w).
  { intros Hh. destruct Hsim as (_ & -> & _). by apply (Hmx w p Hp). }
  cbn [mshared sh_heap sh_data sh_owner] in *.
  split; [|split; [|split; [done|]]].
  - intros Hne. destruct (Hdata Hne) as [Hh Ho]. split; [by apply Hown|].
    rewrite Ho. by apply Hown.
  - intros l Hal Hne. destruct (Hheap l Hal Hne) as [Hh|Hin].
    + left. by apply Hown.
    + right. by exists mp.
  - intros l Hl0. destruct Hsim' as (_ & _ & nodes' & _ & (_ & Hin & Hout) & _).
    cbn [mshared sh_heap] in *. apply Hout. intros HB.
    destruct (Hin l HB) as [_ Hnone]. rewrite Hnone in Hl0. by destruct Hl0.
Qed.

(** *** One turn of the loop of [main] *)

Lemma create_loop_spec f remaining :
  ∀ t ret t',
    create_loop f remaining t = (ret, t') →
    (ret = 0 ∧ t' = (t + remaining)%nat ∧
     ∀ i, (t ≤ i < t + remaining)%nat → f i = 0) ∨
    (ret = -1 ∧ (t ≤ t' < t + remaining)%nat ∧ f t' ≠ 0 ∧
     ∀ i, (t ≤ i < t')%nat → f i = 0).
Proof.
  induction remaining as [|r IH]; intros t ret t' H; cbn [create_loop] in H.
  - injection H as <- <-. left. split; [done|]. split; [lia|]. lia.
  - destruct (Z.eqb_spec (f t) 0) as [H0|H0]; cbn [negb] in H.
    + apply IH in H as [(-> & -> & Hall)|(-> & Hlt & Hne & Hall)].
      * left. split; [done|]. split; [lia|]. intros i Hi.
        destruct (decide (i = t)) as [->|]; [done|]. apply Hall. lia.
      * right. split; [done|]. split; [lia|]. split; [done|].
        intros i Hi. destruct (decide (i = t)) as [->|]; [done|].
        apply Hall. lia.
    + injection H as <- <-. right. split; [done|]. split; [lia|].
      split; [done|]. lia.
Qed.

Lemma destroy_empty (h : Mem.heap) d :
  Mem.queue_head d = None →
  ∃ d', Mem.thread_data_destroy h d = Some (h, d').
Proof.
  intros Hd. unfold Mem.thread_data_destroy. eexists.
  destruct (size h); cbn [Mem.destroy_loop Mem.queue_head Mem.set_cond
                          Mem.set_mutex]; rewrite Hd; reflexivity.
Qed.

Lemma heap_inv_freed h0 (h h' : Mem.heap) B :
  heap_inv h0 h B →
  (∀ l, l ∈ B → h' !! l = None) → (∀ l, l ∉ B → h' !! l = h !! l) →
  h' = h0.
Proof.
  intros (_ & Hin & Hout) Hfree Hkeep. apply map_eq. intros l.
  destruct (decide (l ∈ B)) as [Hl|Hl].
  - rewrite (Hfree l Hl). symmetry. by apply Hin.
  - rewrite (Hkeep l Hl). by apply Hout.
Qed.

(** The queue of line 73 and what [thread_data_destroy] makes of it. *)
Lemma seed_destroyed h0 path d0 :
  Mem.queue_head d0 = None → Mem.queue_tail d0 = None →
  ∃ h d,
    Mem.enqueue (Some (malloc (<[malloc h0 := Mem.Chars path]> h0)))
      (<[malloc h0 := Mem.Chars path]> h0) d0 (malloc h0) = Some (0, h, d) ∧
    ∃ d', Mem.thread_data_destroy h d = Some (h0, d').
Proof.
  intros Hhd Htl.
  set (dup := malloc h0). set (h := <[dup := Mem.Chars path]> h0).
  assert (Hrep0 : Mem.queue_rep h d0 [] []).
  { split; [done|done|apply NoDup_nil_2|constructor]. }
  destruct (enqueue_inv h0 h d0 [] [] (malloc h) dup path [dup])
    as (h' & d' & Hrun & Hrep & Hsc & Hfr & Hinv).
  { apply heap_inv_alloc; [apply heap_inv_refl|apply malloc_fresh]. }
  { by intros l ?%elem_of_nil. }
  { exact Hrep0. }
  { apply malloc_fresh. }
  { unfold h. by rewrite lookup_insert_eq. }
  { by intros ?%elem_of_nil. }
  exists h', d'. split; [done|].
  destruct Hrep as [Hseg Htail Hnd Hpaths].
  unfold Mem.thread_data_destroy.
  destruct (destroy_loop_rep [(malloc h, dup)] (size h') h'
              (Mem.set_cond false (Mem.set_mutex false d')) [path])
    as (h'' & Hd & Hin & Hout); [done..|].
  rewrite Hd. eexists. f_equal. f_equal.
  eapply (heap_inv_freed h0 h' h'' [malloc h; dup]); done.
Qed.


(** The lines 53-85 never go wrong, whatever fails. *)
Lemma main_setup_spec o n h0 path :
  ∃ r, main_setup malloc o n h0 path = Some r ∧
    match r with
    | Started h d =>
        setup_ok o n ∧
        minit malloc n h0 path
        = Some (mkMState (mkShared h d None) (replicate n M_lock))
    | Exited code h => code = EXIT_FAILURE ∧ h = h0 ∧ ¬ setup_ok o n
    | Exited_running code created =>
        code = EXIT_FAILURE ∧ (0 < created < n)%nat ∧
        create_ret o created ≠ 0 ∧
        (∀ t, (t < created)%nat → create_ret o t = 0)
    end.
Proof.
  destruct o as [dok mr cr sok nok tok cf]. unfold main_setup, setup_ok.
  cbn [data_ok mutex_ret cond_ret strdup_ok node_ok threads_ok create_ret].
  destruct dok; cbn [negb].
  2: { eexists. split; [reflexivity|]. split; [done|]. split; [done|].
       by intros (? & _). }
  unfold Mem.thread_data_init.
  destruct (Z.eqb_spec mr 0) as [->|Hmr]; cbn [negb].
  2: { eexists. split; [reflexivity|]. split; [done|]. split; [done|].
       by intros (_ & ? & _). }
  destruct (Z.eqb_spec cr 0) as [->|Hcr]; cbn [negb].
  2: { eexists. split; [reflexivity|]. split; [done|]. split; [done|].
       by intros (_ & _ & ? & _). }
  cbn [Z.eqb negb].
  set (d0 := Mem.set_pending 1 _).
  destruct sok; cbn [negb].
  2: { destruct (destroy_empty h0 d0 eq_refl) as [d' ->].
       eexists. split; [reflexivity|]. split; [done|]. split; [done|].
       by intros (_ & _ & _ & ? & _). }
  destruct nok.
  2: { cbn [Mem.enqueue mbind option_bind Z.eqb negb]. unfold Mem.free.
       rewrite lookup_insert_eq. cbn [mbind option_bind].
       rewrite delete_insert_id by apply malloc_fresh.
       destruct (destroy_empty h0 d0 eq_refl) as [d' ->].
       eexists. split; [reflexivity|]. split; [done|]. split; [done|].
       by intros (_ & _ & _ & _ & ? & _). }
  destruct (seed_destroyed h0 path d0 eq_refl eq_refl)
    as (h & d & Henq & d' & Hdes).
  rewrite Henq. cbn [mbind option_bind Z.eqb negb].
  unfold start_worker_threads. destruct tok; cbn [negb].
  2: { cbn [Z.eqb negb]. rewrite Hdes.
       eexists. split; [reflexivity|]. split; [done|]. split; [done|].
       by intros (_ & _ & _ & _ & _ & ? & _). }
  destruct (create_loop cf n 0) as [ret created] eqn:Hloop.
  apply create_loop_spec in Hloop
    as [(-> & -> & Hall)|(-> & Hlt & Hne & Hall)]; cbn [Z.eqb negb].
  - eexists. split; [reflexivity|]. split.
    + repeat (split; [done|]). intros t Ht. apply Hall. lia.
    + unfold minit. cbn [Mem.thread_data_init Z.eqb negb snd].
      fold d0. by rewrite Henq.
  - destruct created as [|created].
    + rewrite Hdes. eexists. split; [reflexivity|]. split; [done|].
      split; [done|]. intros (_ & _ & _ & _ & _ & _ & Hcf).
      apply Hne, Hcf. lia.
    + eexists. split; [reflexivity|]. split; [done|]. split; [lia|].
      split; [done|]. intros t Ht. apply Hall. lia.
Qed.


(** The lines 87-106, after the workers have left. *)
Lemma main_finish_spec n h0 path B e nn ms code :
  (0 < n)%nat → Z.of_nat n ≤ INT_MAX →
  usage lstat opendir path B e nn →
  mreachable lstat opendir malloc n h0 path ms →
  all_mexited ms = true →
  (r ← Mem.thread_data_destroy (sh_heap (mshared ms)) (sh_data (mshared ms));
   Some (Turn_done
           (if negb (Mem.error_occurred (sh_data (mshared ms)) =? 0)
            then EXIT_FAILURE else code)
           (total_blocks (Mem.total_size (sh_data (mshared ms))), path)
           r.1))
  = Some (Turn_done (if e then EXIT_FAILURE else code)
            (total_blocks (wrap_off (512 * B)), path) h0).
Proof.
  intros Hn HN Hu Hr Hx.
  destruct (mreachable_sim n h0 path ms HN Hr) as (s & Hrs & Hsim).
  pose proof Hx as Hxs. rewrite <- (sim_all_exited h0 ms s Hsim) in Hxs.
  destruct (exited_settled _ _ n path s B e nn Hn HN Hu Hrs Hxs)
    as (_ & Hq & _ & Ht & He).
  destruct (sim_exited_clean h0 ms s Hsim Hx Hq) as (Hh & Hhd & _).
  destruct (destroy_empty (sh_heap (mshared ms)) (sh_data (mshared ms)) Hhd)
    as [d' ->].
  cbn [mbind option_bind fst].
  destruct Hsim as (_ & _ & nodes & (_ & Hts & _ & _ & Her) & _).
  rewrite Hts, Ht, Hh. do 2 f_equal. rewrite <- He.
  destruct (Z.eqb_spec (Mem.error_occurred (sh_data (mshared ms))) 0)
    as [H0|H0]; cbn [negb].
  - destruct (error_occurred (data s)); [|done].
    by destruct (proj2 Her eq_refl).
  - apply Her in H0. by rewrite H0.
Qed.

(** X25. One turn of the loop of [main], for one top-level path, on
    the heap.  The lines up to the start of the workers never go
    wrong, whatever fails.  When an allocation or the initialisation
    of the mutex or of the condition variable fails, or no worker can
    be created, [main] calls [exit(EXIT_FAILURE)] after it has freed
    every block it allocated.  When [pthread_create] fails for a
    worker other than the first, [main] destroys and frees the
    context and calls [exit(EXIT_FAILURE)] while the workers created
    before are running.  When nothing fails, whatever the schedule of
    the workers, [main] prints the blocks of the tree with the path,
    sets the exit code to [EXIT_FAILURE] exactly when some node could
    not be read, and [thread_data_destroy] leaves the heap as it was
    before the turn; and some schedule lets the turn end so. *)
Theorem main_turn_outcomes o n h0 path B e nn :
  (0 < n)%nat → Z.of_nat n ≤ INT_MAX →
  usage lstat opendir path B e nn →
  (∃ r, main_setup malloc o n h0 path = Some r) ∧
  (∀ sched code t,
     main_turn lstat opendir malloc o n h0 path sched code = Some t →
     match t with
     | Turn_exit code' h => code' = EXIT_FAILURE ∧ h = h0 ∧ ¬ setup_ok o n
     | Turn_exit_running code' created =>
         code' = EXIT_FAILURE ∧ (0 < created < n)%nat ∧
         create_ret o created ≠ 0 ∧
         (∀ t, (t < created)%nat → create_ret o t = 0)
     | Turn_done code' line h =>
         setup_ok o n ∧
         code' = (if e then EXIT_FAILURE else code) ∧
         line = (total_blocks (wrap_off (512 * B)), path) ∧
         h = h0
     end) ∧
  (setup_ok o n →
   ∀ code, ∃ ws,
     main_turn lstat opendir malloc o n h0 path (map Run ws) code
     = Some (Turn_done (if e then EXIT_FAILURE else code)
               (total_blocks (wrap_off (512 * B)), path) h0)).
Proof.
  intros Hn HN Hu.
  destruct (main_setup_spec o n h0 path) as (r & Hr & Hspec).
  split; [by exists r|]. split.
  - intros sched code t. unfold main_turn. rewrite Hr.
    cbn [mbind option_bind]. destruct r as [h d|c h|c created].
    + destruct Hspec as [Hok Hinit].
      destruct (mexec lstat opendir malloc sched _) as [ms| |] eqn:Hrun;
        try done.
      destruct (all_mexited ms) eqn:Hx; [|done].
      assert (Hr' : mreachable lstat opendir malloc n h0 path ms).
      { eapply mexec_mreachable; [|exact Hrun]. by apply mreachable_init. }
      rewrite (main_finish_spec n h0 path B e nn ms code Hn HN Hu Hr' Hx).
      by intros [= <-].
    + by intros [= <-].
    + by intros [= <-].
  - intros Hok code. destruct r as [h d|c h|c created].
    + destruct Hspec as [_ Hinit].
      destruct (mreachable_finishes n h0 path B e nn _ HN Hu
                  (mreachable_init _ _ _ _ _ _ _ Hinit))
        as (ws & ms & Hrun & Hx).
      exists ws. unfold main_turn. rewrite Hr. cbn [mbind option_bind].
      rewrite Hrun, Hx.
      apply (main_finish_spec n h0 path B e nn ms code Hn HN Hu); [|done].
      eapply mexec_mreachable; [|exact Hrun]. by apply mreachable_init.
    + by destruct Hspec as (_ & _ & Hno).
    + destruct Hspec as (_ & Hlt & Hne & _).
      destruct Hok as (_ & _ & _ & _ & _ & _ & Hcf). destruct Hne.
      apply Hcf. lia.
Qed.

End Steps.


(** ** The model at work on the example file system *)

Module Demo.

Lemma exec_root : exec Example.lstat Example.opendir Example.sched_root (init 2 "root")
  = Some Example.finished_root.
Proof. vm_compute. reflexivity. Qed.

Lemma exec_root_solo :
  exec Example.lstat Example.opendir Example.sched_root_solo (init 1 "root")
    = Some Example.finished_root_solo.
Proof. vm_compute. reflexivity. Qed.

Lemma exec_listed : exec Example.lstat Example.opendir (replicate 9 (Run 0)) (init 2 "root")
  = Some Example.listed.
Proof. vm_compute. reflexivity. Qed.

Lemma exec_deciding :
  exec Example.lstat Example.opendir (replicate 11 (Run 0)) (init 2 "root/a.txt")
    = Some Example.deciding_state.
Proof. vm_compute. reflexivity. Qed.

Lemma exec_at_link : exec Example.lstat Example.opendir (replicate 4 (Run 0)) (init 1 "link")
  = Some Example.at_link.
Proof. vm_compute. reflexivity. Qed.

Lemma exec_at_vault : exec Example.lstat Example.opendir (replicate 4 (Run 0)) (init 1 "vault")
  = Some Example.at_vault.
Proof. vm_compute. reflexivity. Qed.

Lemma reachable_listed : reachable Example.lstat Example.opendir 2 "root" Example.listed.
Proof. eapply exec_reachable; [constructor|exact exec_listed]. Qed.

Lemma reachable_deciding : reachable Example.lstat Example.opendir
  2 "root/a.txt" Example.deciding_state.
Proof. eapply exec_reachable; [constructor|exact exec_deciding]. Qed.

Lemma usage_c : usage Example.lstat Example.opendir "root/b/c.txt" 16 false 1.
Proof. by apply (usage_leaf _ _ "root/b/c.txt" (mkStat S_IFREG 16)). Qed.

Lemma usage_b : usage Example.lstat Example.opendir "root/b" 24 false 2.
Proof.
  apply (usage_dir _ _ "root/b" (mkStat S_IFDIR 8) ["."; ".."; "c.txt"] 16 false 1);
    [done..|].
  apply (usage_cons _ _ "root/b/c.txt" [] 16 false 1 0 false 0);
    [exact usage_c|constructor].
Qed.

Lemma usage_a : usage Example.lstat Example.opendir "root/a.txt" 8 false 1.
Proof. by apply (usage_leaf _ _ "root/a.txt" (mkStat S_IFREG 8)). Qed.

Lemma usage_root : usage Example.lstat Example.opendir "root" 40 false 4.
Proof.
  apply (usage_dir _ _ "root" (mkStat S_IFDIR 8) ["."; ".."; "a.txt"; "b"] 32 false 3);
    [done..|].
  apply (usage_cons _ _ "root/a.txt" ["root/b"] 8 false 1 24 false 2);
    [exact usage_a|].
  apply (usage_cons _ _ "root/b" [] 24 false 2 0 false 0);
    [exact usage_b|constructor].
Qed.

Lemma usage_vault : usage Example.lstat Example.opendir "vault" 8 true 1.
Proof. by apply (usage_unreadable _ _ "vault" (mkStat S_IFDIR 8)). Qed.


Lemma atoi_int optarg : Example.atoi optarg ≤ INT_MAX.
Proof.
  unfold Example.atoi. pose proof (wrap_int_range (Example.strtol optarg)).
  unfold INT_MAX. lia.
Qed.

Lemma two_workers : Z.of_nat 2 ≤ INT_MAX.
Proof. unfold INT_MAX. lia. Qed.

Lemma one_worker : Z.of_nat 1 ≤ INT_MAX.
Proof. unfold INT_MAX. lia. Qed.

(** C1 on the example: worker 0 has listed [root], whose two children
    it registers in one critical section; before that [pending] is 1. *)
Lemma children_registered_before_decrement_witness :
  Z.of_nat 2 ≤ INT_MAX ∧ reachable Example.lstat Example.opendir 2 "root" Example.listed ∧
  (∃ s', critical_section Example.lstat Example.opendir 0 3 Example.listed = Some s' ∧
         queue (data s') = ["root/a.txt"; "root/b"] ∧
         pending (data s') = 3 ∧
         pcs s' !! 0%nat = Some (UES_lock false)) ∧
  done (data Example.listed) = false ∧ 1 ≤ pending (data Example.listed).
Proof.
  split; [exact two_workers|]. split; [exact reachable_listed|].
  destruct (children_registered_before_decrement Example.lstat Example.opendir
              2 "root" Example.listed two_workers reachable_listed)
    as (H1 & _ & _ & H4).
  split.
  - destruct (H1 0%nat ["root/a.txt"; "root/b"] eq_refl eq_refl)
      as (s' & Hcs & _ & Hq & Hp & Hw).
    exists s'. split; [exact Hcs|]. split; [exact Hq|]. split; [exact Hp|exact Hw].
  - destruct (H4 0%nat _ eq_refl eq_refl) as [Hd Hp].
    split; [exact Hd|]. apply Hp. vm_compute. discriminate.
Defined.

(** C2 as stated fails on the example: the critical section in which
    worker 0 queues the two children of [root] ends with [pending] at 3,
    not at 2, and no critical section of another length starts there. *)
Lemma decrement_outside_enqueue_section :
  ¬ single_section_claim Example.lstat Example.opendir.
Proof.
  intros H.
  destruct (H 2%nat "root" Example.listed 0%nat ["root/a.txt"; "root/b"]
              two_workers reachable_listed eq_refl eq_refl)
    as (k & s' & Hcs & _ & Hp).
  destruct k as [|[|[|[|k]]]]; vm_compute in Hcs; try discriminate Hcs.
  injection Hcs as <-. vm_compute in Hp. discriminate Hp.
Qed.

(** C2, amended, on the example. *)
Lemma enqueue_then_decrement_sections_witness :
  Z.of_nat 2 ≤ INT_MAX ∧ reachable Example.lstat Example.opendir 2 "root" Example.listed ∧
  pcs Example.listed !! 0%nat = Some (HD_lock ["root/a.txt"; "root/b"]) ∧
  mutex (data Example.listed) = None ∧
  ∃ s1 k s2,
    critical_section Example.lstat Example.opendir 0 3 Example.listed = Some s1 ∧
    pending (data s1) = 3 ∧
    critical_section Example.lstat Example.opendir 0 k s1 = Some s2 ∧
    pending (data s2) = 2 ∧
    queue (data s2) = ["root/a.txt"; "root/b"].
Proof.
  split; [exact two_workers|]. split; [exact reachable_listed|].
  split; [reflexivity|]. split; [reflexivity|].
  destruct (enqueue_then_decrement_sections Example.lstat Example.opendir
              2 "root" Example.listed 0 ["root/a.txt"; "root/b"]
              two_workers reachable_listed eq_refl eq_refl)
    as (s1 & k & s2 & Hcs1 & _ & Hq1 & Hp1 & _ & _ & _ & Hcs2 & _ & Hq2 & Hp2 & _).
  exists s1, k, s2. split; [exact Hcs1|]. split; [exact Hp1|].
  split; [exact Hcs2|]. split.
  - rewrite Hp2, Hp1. reflexivity.
  - rewrite Hq2, Hq1. reflexivity.
Defined.

(** C3 on the example: one worker and two workers both report the 40
    blocks of [root], and 64 workers can finish as well. *)
Lemma total_independent_of_worker_count_witness :
  usage Example.lstat Example.opendir "root" 40 false 4 ∧
  (∃ sched s, exec Example.lstat Example.opendir sched (init 64 "root")
    = Some s ∧ all_exited s = true) ∧
  total_blocks (total_size (data Example.finished_root_solo))
  = total_blocks (total_size (data Example.finished_root)) ∧
  total_blocks (total_size (data Example.finished_root_solo)) = 40.
Proof.
  split; [exact usage_root|].
  destruct (total_independent_of_worker_count Example.lstat Example.opendir
              "root" 40 false 4 usage_root) as (Hex & _ & _ & Hall).
  split.
  - apply Hex; [lia|unfold INT_MAX; lia].
  - destruct (Hall 1%nat 2%nat Example.sched_root_solo Example.sched_root
                Example.finished_root_solo Example.finished_root
                ltac:(lia) one_worker ltac:(lia) two_workers
                exec_root_solo eq_refl exec_root eq_refl)
      as (_ & Heq & HB).
    split; [exact Heq|]. apply HB; [lia|unfold OFF_MAX; lia].
Defined.

(** C4 on the example: the test of line 279 finds [pending] at 0 and
    the queue empty, and sets [done]. *)
Lemma done_monotone_and_exact_witness :
  Z.of_nat 2 ≤ INT_MAX ∧
    reachable Example.lstat Example.opendir 2 "root/a.txt" Example.deciding_state ∧
  ∃ s', wstep Example.lstat Example.opendir 0 Example.deciding_state = Some s' ∧
        done (data s') = true ∧ pcs s' !! 0%nat = Some UES_broadcast.
Proof.
  split; [exact two_workers|]. split; [exact reachable_deciding|].
  destruct (done_monotone_and_exact Example.lstat Example.opendir
              2 "root/a.txt" Example.deciding_state two_workers reachable_deciding)
    as (_ & _ & H3 & _).
  exact (H3 0%nat eq_refl eq_refl eq_refl).
Defined.

(** C5 on the example: for [root] and [vault] the lines carry 40 and
    8 blocks, the totals being 20480 and 4096 bytes. *)
Lemma report_is_ceiling_witness :
  main_loop Example.lstat Example.opendir 2 ["root"; "vault"]
    [Example.sched_root; Example.sched_vault] EXIT_SUCCESS []
  = Some (mkOutcome 1 [(40, "root"); (8, "vault")]) ∧
  ∃ sched s,
    [Example.sched_root; Example.sched_vault] !! 0%nat = Some sched ∧
    exec Example.lstat Example.opendir sched (init 2 "root") = Some s ∧
    all_exited s = true ∧
    stdout (mkOutcome 1 [(40, "root"); (8, "vault")]) !! (0 + 0)%nat
    = Some (total_blocks (total_size (data s)), "root") ∧
    (0 ≤ total_size (data s) →
     512 * (total_blocks (total_size (data s)) - 1)
     < total_size (data s)
     ≤ 512 * total_blocks (total_size (data s))) ∧
    (∀ B e nn,
       (0 < 2)%nat → Z.of_nat 2 ≤ INT_MAX →
       usage Example.lstat Example.opendir "root" B e nn →
       0 ≤ B → 512 * B ≤ OFF_MAX →
       0 ≤ total_size (data s) ∧ total_blocks (total_size (data s)) = B).
Proof.
  assert (H : main_loop Example.lstat Example.opendir 2 ["root"; "vault"]
                [Example.sched_root; Example.sched_vault] EXIT_SUCCESS []
              = Some (mkOutcome 1 [(40, "root"); (8, "vault")])).
  { vm_compute. reflexivity. }
  split; [exact H|].
  destruct (report_is_ceiling Example.lstat Example.opendir 2
              ["root"; "vault"]) as (_ & _ & Hlines & _).
  destruct (Hlines _ _ _ _ H) as (_ & _ & Hline).
  exact (Hline 0%nat "root" eq_refl).
Defined.

Lemma usage_operands :
  Forall2 (λ root (r : Z * bool), ∃ nn, usage Example.lstat Example.opendir
    root r.1 r.2 nn)
    (parse_paths ["root"; "vault"]) [(40, false); (8, true)].
Proof.
  constructor; [exists 4%nat; exact usage_root|].
  constructor; [exists 1%nat; exact usage_vault|constructor].
Qed.

Lemma main_root_vault :
  main Example.lstat Example.opendir Example.atoi [Opt_j "2"] ["root"; "vault"]
    [Example.sched_root; Example.sched_vault]
  = Some (mkOutcome 1 [(40, "root"); (8, "vault")]).
Proof. vm_compute. reflexivity. Qed.

(** C6 on the example: [vault] cannot be opened, so the exit code is
    not 0, and both paths get their line. *)
Lemma exit_code_reflects_errors_witness :
  (∀ optarg, Example.atoi optarg ≤ INT_MAX) ∧
  Forall2 (λ root (r : Z * bool), ∃ nn, usage Example.lstat Example.opendir
    root r.1 r.2 nn)
    (parse_paths ["root"; "vault"]) [(40, false); (8, true)] ∧
  main Example.lstat Example.opendir Example.atoi [Opt_j "2"] ["root"; "vault"]
    [Example.sched_root; Example.sched_vault]
  = Some (mkOutcome 1 [(40, "root"); (8, "vault")]) ∧
  exit_code (mkOutcome 1 [(40, "root"); (8, "vault")]) ≠ 0 ∧
  map snd (stdout (mkOutcome 1 [(40, "root"); (8, "vault")])) = ["root"; "vault"].
Proof.
  split; [exact atoi_int|]. split; [exact usage_operands|].
  split; [exact main_root_vault|].
  destruct (exit_code_reflects_errors Example.lstat Example.opendir Example.atoi
              [Opt_j "2"] ["root"; "vault"] [(40, false); (8, true)]
              atoi_int usage_operands) as [_ H].
  destruct (H _ _ main_root_vault) as [Hcode Hout].
  split.
  - intros H0. apply Hcode in H0 as [_ HF].
    inversion HF as [|? ? _ HF']. inversion HF' as [|? ? He _]. discriminate He.
  - apply Hout. exists 2. reflexivity.
Defined.

(** C7 on the example: [-j 0] after a valid [-j 4]. *)
Lemma invalid_thread_count_is_usage_error_witness :
  In (Opt_j "0") [Opt_j "4"; Opt_j "0"] ∧ Example.atoi "0" < 1 ∧
  main Example.lstat Example.opendir Example.atoi [Opt_j "4"; Opt_j "0"]
    ["root"] [Example.sched_root]
  = Some (mkOutcome EXIT_FAILURE []).
Proof.
  assert (Hin : In (Opt_j "0") [Opt_j "4"; Opt_j "0"]) by (right; left; reflexivity).
  assert (Hlt : Example.atoi "0" < 1) by (vm_compute; reflexivity).
  split; [exact Hin|]. split; [exact Hlt|].
  exact (proj1 (proj2 (invalid_thread_count_is_usage_error
                         Example.lstat Example.opendir Example.atoi))
           _ _ _ _ Hin Hlt).
Defined.

(** C8 on the example: 4096 bytes counted, 8 blocks, nothing rounded. *)
Lemma total_size_multiple_of_512_witness :
  reachable Example.lstat Example.opendir 2 "root" Example.listed ∧
  total_size (data Example.listed) mod 512 = 0 ∧
  total_blocks (total_size (data Example.listed)) = 4096 / 512.
Proof.
  split; [exact reachable_listed|].
  destruct (total_size_multiple_of_512 Example.lstat Example.opendir
              2 "root" Example.listed reachable_listed) as (Hmod & _ & Hex & _).
  split; [exact Hmod|].
  apply Hex. vm_compute. discriminate.
Defined.

(** C9 on the example: the blocks of a symbolic link are counted. *)
Lemma every_node_type_is_counted_witness :
  reachable Example.lstat Example.opendir 1 "link" Example.at_link ∧
  Example.lstat "link" = Some (mkStat S_IFLNK 8) ∧
  pcs Example.at_link !! 0%nat = Some (PP_lstat "link") ∧
  mutex (data Example.at_link) = None ∧
  ∃ s1 s2,
    wstep Example.lstat Example.opendir 0 Example.at_link = Some s1 ∧
    critical_section Example.lstat Example.opendir 0 1 s1 = Some s2 ∧
    total_size (data s2) = 4096 ∧
    pcs s2 !! 0%nat = Some (UES_lock false).
Proof.
  split; [eapply exec_reachable; [constructor|exact exec_at_link]|].
  split; [reflexivity|]. split; [reflexivity|]. split; [reflexivity|].
  destruct (every_node_type_is_counted Example.lstat Example.opendir
              0 Example.at_link "link" (mkStat S_IFLNK 8)
              eq_refl eq_refl eq_refl)
    as (s1 & s2 & Hs1 & _ & _ & Hcs & _ & Ht & Hpc).
  exists s1, s2. split; [exact Hs1|]. split; [exact Hcs|].
  split; [exact Ht|exact Hpc].
Defined.

(** C10 on the example: [vault] is measured, cannot be opened, and is
    settled with its 8 blocks counted. *)
Lemma unreadable_directory_still_counted_witness :
  Example.lstat "vault" = Some (mkStat S_IFDIR 8) ∧
  S_ISDIR (st_mode (mkStat S_IFDIR 8)) = true ∧
  Example.opendir "vault" = None ∧
  pcs Example.at_vault !! 0%nat = Some (PP_lstat "vault") ∧
  mutex (data Example.at_vault) = None ∧
  ∃ s5,
    reachable Example.lstat Example.opendir 1 "vault" s5 ∧
    total_size (data s5) = 4096 ∧ error_occurred (data s5) = true ∧
    pending (data s5) = 0 ∧ queue (data s5) = [] ∧
    pcs s5 !! 0%nat = Some WT_lock.
Proof.
  split; [reflexivity|]. split; [reflexivity|]. split; [reflexivity|].
  split; [reflexivity|]. split; [reflexivity|].
  destruct (unreadable_directory_still_counted Example.lstat Example.opendir
              0 Example.at_vault "vault" (mkStat S_IFDIR 8)
              eq_refl eq_refl eq_refl eq_refl eq_refl)
    as (s1 & s2 & s3 & s4 & k & s5 & Hs1 & Hcs2 & _ & _ & Hs3 & _ & Hcs4 & _ & _
        & Hcs5 & Hpc & Ht & He & Hp & Hq).
  exists s5. split.
  - eapply critical_section_reachable; [|exact Hcs5].
    eapply critical_section_reachable; [|exact Hcs4].
    eapply reachable_step; [|exists (Run 0); exact Hs3].
    eapply critical_section_reachable; [|exact Hcs2].
    eapply reachable_step; [|exists (Run 0); exact Hs1].
    eapply exec_reachable; [constructor|exact exec_at_vault].
  - split; [exact Ht|]. split; [exact He|]. split; [exact Hp|].
    split; [exact Hq|exact Hpc].
Defined.

(** *** The further properties of the pool on the example *)

Lemma exec_parked :
  exec Example.lstat Example.opendir
    [Run 0; Run 0; Run 0; Run 0; Run 1; Run 1]%nat (init 2 "root")
  = Some Example.parked.
Proof. vm_compute. reflexivity. Qed.

Lemma reachable_parked :
  reachable Example.lstat Example.opendir 2 "root" Example.parked.
Proof. eapply exec_reachable; [constructor|exact exec_parked]. Qed.

Lemma exec_taking :
  exec Example.lstat Example.opendir (replicate 2 (Run 0)) (init 2 "root")
  = Some Example.taking.
Proof. vm_compute. reflexivity. Qed.

Lemma reachable_taking :
  reachable Example.lstat Example.opendir 2 "root" Example.taking.
Proof. eapply exec_reachable; [constructor|exact exec_taking]. Qed.

Lemma exec_vault :
  exec Example.lstat Example.opendir Example.sched_vault (init 2 "vault")
  = Some Example.finished_vault.
Proof. vm_compute. reflexivity. Qed.

Lemma reachable_finished_vault :
  reachable Example.lstat Example.opendir 2 "vault" Example.finished_vault.
Proof. eapply exec_reachable; [constructor|exact exec_vault]. Qed.

Lemma reachable_finished_root :
  reachable Example.lstat Example.opendir 2 "root" Example.finished_root.
Proof. eapply exec_reachable; [constructor|exact exec_root]. Qed.

(** X1 on the example: worker 0 is inside [update_error_status] and
    owns the mutex. *)
Lemma mutual_exclusion_witness :
  Z.of_nat 2 ≤ INT_MAX ∧
  reachable Example.lstat Example.opendir 2 "root/a.txt"
    Example.deciding_state ∧
  mutex (data Example.deciding_state) = Some 0%nat.
Proof.
  split; [exact two_workers|]. split; [exact reachable_deciding|].
  destruct (mutual_exclusion Example.lstat Example.opendir
              2 "root/a.txt" Example.deciding_state
              two_workers reachable_deciding) as (_ & Hown & _).
  apply (Hown 0%nat UES_check eq_refl). reflexivity.
Defined.

Lemma root_fits : Z.of_nat 4 + Z.of_nat 2 ≤ INT_MAX.
Proof. unfold INT_MAX. lia. Qed.

(** X2 on the example: [root] is in flight and nothing is queued, so
    [pending] is 1. *)
Lemma pending_counts_tasks_witness :
  usage Example.lstat Example.opendir "root" 40 false 4 ∧
  Z.of_nat 4 + Z.of_nat 2 ≤ INT_MAX ∧
  reachable Example.lstat Example.opendir 2 "root" Example.listed ∧
  pending (data Example.listed) = 0 + 1.
Proof.
  split; [exact usage_root|]. split; [exact root_fits|].
  split; [exact reachable_listed|].
  destruct (pending_counts_tasks Example.lstat Example.opendir
              2 "root" Example.listed 40 false 4
              usage_root root_fits reachable_listed) as (_ & _ & Hp).
  exact (Hp eq_refl).
Defined.

(** X3 on the example: worker 1 is parked while worker 0 has [root]
    in flight. *)
Lemma parked_only_when_idle_witness :
  Z.of_nat 2 ≤ INT_MAX ∧
  reachable Example.lstat Example.opendir 2 "root" Example.parked ∧
  pcs Example.parked !! 1%nat = Some WT_wait ∧
  mutex (data Example.parked) = None ∧
  ∃ w' p', w' ≠ 1%nat ∧ pcs Example.parked !! w' = Some p' ∧
           in_flight p' = true.
Proof.
  split; [exact two_workers|]. split; [exact reachable_parked|].
  split; [reflexivity|]. split; [reflexivity|].
  destruct (parked_only_when_idle Example.lstat Example.opendir
              2 "root" Example.parked 1
              two_workers reachable_parked eq_refl eq_refl)
    as (_ & _ & H).
  exact H.
Defined.

(** X4 on the example: once [done] is set after the traversal of
    [root], the total is 40 blocks of 512 bytes and no error. *)
Lemma result_final_once_done_witness :
  Z.of_nat 2 ≤ INT_MAX ∧
  usage Example.lstat Example.opendir "root" 40 false 4 ∧
  reachable Example.lstat Example.opendir 2 "root" Example.finished_root ∧
  done (data Example.finished_root) = true ∧
  total_size (data Example.finished_root) = wrap_off (512 * 40) ∧
  error_occurred (data Example.finished_root) = false.
Proof.
  split; [exact two_workers|]. split; [exact usage_root|].
  split; [exact reachable_finished_root|]. split; [reflexivity|].
  destruct (result_final_once_done Example.lstat Example.opendir
              2 "root" Example.finished_root 40 false 4
              two_workers usage_root reachable_finished_root eq_refl)
    as (_ & _ & Ht & He & _).
  split; [exact Ht|exact He].
Defined.

(** X5 on the example: worker 0 has left, and [done] is set. *)
Lemma no_worker_leaves_early_witness :
  Z.of_nat 2 ≤ INT_MAX ∧
  reachable Example.lstat Example.opendir 2 "root" Example.finished_root ∧
  pcs Example.finished_root !! 0%nat = Some WT_exit ∧
  done (data Example.finished_root) = true ∧
  pending (data Example.finished_root) = 0.
Proof.
  split; [exact two_workers|]. split; [exact reachable_finished_root|].
  split; [reflexivity|].
  destruct (no_worker_leaves_early Example.lstat Example.opendir
              2 "root" Example.finished_root 0 WT_exit
              two_workers reachable_finished_root eq_refl
              (or_intror eq_refl))
    as (Hd & _ & Hp & _).
  split; [exact Hd|exact Hp].
Defined.

(** X6 on the example: worker 0 takes [root] from the queue. *)
Lemma dequeue_never_null_witness :
  Z.of_nat 2 ≤ INT_MAX ∧
  reachable Example.lstat Example.opendir 2 "root" Example.taking ∧
  pcs Example.taking !! 0%nat = Some WT_dequeue ∧
  ∃ path rest, queue (data Example.taking) = path :: rest.
Proof.
  split; [exact two_workers|]. split; [exact reachable_taking|].
  split; [reflexivity|].
  destruct (dequeue_never_null Example.lstat Example.opendir
              2 "root" Example.taking 0 WT_dequeue
              two_workers reachable_taking eq_refl) as [_ H].
  destruct (H eq_refl) as (path & rest & Hq & _).
  exists path, rest. exact Hq.
Defined.

(** X7 on the example: the only worker is at work on [link]. *)
Lemma single_worker_never_waits_witness :
  reachable Example.lstat Example.opendir 1 "link" Example.at_link ∧
  pcs Example.at_link !! 0%nat = Some (PP_lstat "link") ∧
  PP_lstat "link" ≠ WT_wait.
Proof.
  assert (Hr : reachable Example.lstat Example.opendir 1 "link"
                 Example.at_link).
  { eapply exec_reachable; [constructor|exact exec_at_link]. }
  split; [exact Hr|]. split; [reflexivity|].
  exact (proj1 (single_worker_never_waits Example.lstat Example.opendir
                  "link" Example.at_link 0 (PP_lstat "link") Hr eq_refl)).
Defined.

(** X8 on the example: every node of [root] can be read, so
    [error_occurred] is not set half way through its traversal. *)
Lemma error_flag_sound_witness :
  Z.of_nat 2 ≤ INT_MAX ∧
  usage Example.lstat Example.opendir "root" 40 false 4 ∧
  reachable Example.lstat Example.opendir 2 "root" Example.listed ∧
  error_occurred (data Example.listed) ≠ true.
Proof.
  split; [exact two_workers|]. split; [exact usage_root|].
  split; [exact reachable_listed|].
  intros He.
  pose proof (proj1 (error_flag_sound Example.lstat Example.opendir
                       2 "root" Example.listed 40 false 4
                       two_workers usage_root reachable_listed) He) as H.
  discriminate H.
Defined.


(** *** The queue on the heap, on the example *)

Lemma models_data0 : models Example.heap0 Example.data0 [] thread_data_init.
Proof.
  split; [|done]. split; [done|done|constructor|constructor].
Qed.

Lemma nodup_nodes2 : NoDup (Example.nodes2.*1 ++ Example.nodes2.*2).
Proof. apply (bool_decide_unpack _). vm_compute. exact I. Qed.

Lemma rep_data2 :
  Mem.queue_rep Example.heap2 Example.data2 Example.nodes2
    ["root/a.txt"; "root/b"].
Proof.
  split.
  - split; [done|]. exists (Some 4%positive). split; [done|].
    split; [done|]. by exists None.
  - done.
  - exact nodup_nodes2.
  - repeat constructor.
Qed.

Lemma models_data2 :
  models Example.heap2 Example.data2 Example.nodes2 Example.queued2.
Proof. split; [exact rep_data2|done]. Qed.

(** X9 on the example: the first child of [root] is queued. *)
Lemma enqueue_refines_witness :
  models Example.heap0 Example.data0 [] thread_data_init ∧
  Example.heap0 !! 3%positive = None ∧
  Example.heap0 !! 1%positive = Some (Mem.Chars "root/a.txt") ∧
  ∃ h' d',
    Mem.enqueue (Some 3%positive) Example.heap0 Example.data0 1%positive
    = Some (0, h', d') ∧
    models h' d' [(3%positive, 1%positive)]
      (enqueue thread_data_init "root/a.txt").
Proof.
  split; [exact models_data0|]. split; [reflexivity|]. split; [reflexivity|].
  assert (Hfresh : 1%positive ∉ ([] : list (Mem.loc * Mem.loc)).*2).
  { intros Hin. by apply elem_of_nil in Hin. }
  destruct (enqueue_refines Example.heap0 Example.data0 [] thread_data_init
              3%positive 1%positive "root/a.txt"
              models_data0 eq_refl eq_refl Hfresh)
    as [(h' & d' & Hrun & Hm & _) _].
  exists h', d'. split; [exact Hrun|exact Hm].
Defined.

(** X10 on the example: [dequeue] returns the array of the first
    child. *)
Lemma dequeue_refines_witness :
  models Example.heap2 Example.data2 Example.nodes2 Example.queued2 ∧
  ∃ r h' d',
    Mem.dequeue Example.heap2 Example.data2 = Some (r, h', d') ∧
    ∃ l p, head Example.nodes2 = Some (l, p) ∧ r = Some p ∧
           h' !! p = Some (Mem.Chars "root/a.txt").
Proof.
  split; [exact models_data2|].
  destruct (dequeue_refines Example.heap2 Example.data2 Example.nodes2
              Example.queued2 models_data2)
    as (r & h' & d' & Hrun & _ & l & p & Hh & Hr & _ & Hp).
  exists r, h', d'. split; [exact Hrun|].
  exists l, p. split; [exact Hh|]. split; [exact Hr|exact Hp].
Defined.

(** X11 on the example: the two nodes and the two arrays are freed. *)
Lemma thread_data_destroy_frees_witness :
  Mem.queue_rep Example.heap2 Example.data2 Example.nodes2
    ["root/a.txt"; "root/b"] ∧
  ∃ h' d',
    Mem.thread_data_destroy Example.heap2 Example.data2 = Some (h', d') ∧
    Mem.queue_head d' = None ∧
    h' !! 1%positive = None ∧ h' !! 3%positive = None.
Proof.
  split; [exact rep_data2|].
  destruct (thread_data_destroy_frees Example.heap2 Example.data2
              Example.nodes2 ["root/a.txt"; "root/b"] rep_data2)
    as (h' & d' & Hrun & _ & _ & Hh & _ & Hin & _).
  exists h', d'. split; [exact Hrun|]. split; [exact Hh|].
  split; apply Hin; apply (bool_decide_unpack _); vm_compute; exact I.
Defined.

Lemma fresh_nodes n :
  n ∈ [3%positive; 4%positive] → Example.heap0 !! n = None.
Proof.
  intros Hn. apply elem_of_cons in Hn as [->|Hn]; [reflexivity|].
  apply elem_of_cons in Hn as [->|Hn]; [reflexivity|].
  by apply elem_of_nil in Hn.
Qed.

Lemma nodup_34 : NoDup [3%positive; 4%positive].
Proof. apply (bool_decide_unpack _). vm_compute. exact I. Qed.

Lemma nodup_12 : NoDup [1%positive; 2%positive].
Proof. apply (bool_decide_unpack _). vm_compute. exact I. Qed.

Lemma chars_12 :
  Forall2 (λ p s, Example.heap0 !! p = Some (Mem.Chars s))
    [1%positive; 2%positive] ["root/a.txt"; "root/b"].
Proof. repeat constructor. Qed.

(** X12 on the example: the two children of [root] go through the
    queue and come out in order. *)
Lemma queue_round_trip_witness :
  Mem.queue_rep Example.heap0 Example.data0 [] [] ∧
  NoDup [3%positive; 4%positive] ∧ NoDup [1%positive; 2%positive] ∧
  ∃ h1 d1,
    Mem.enqueue_paths [Some 3%positive; Some 4%positive]
      Example.heap0 Example.data0 [1%positive; 2%positive]
    = Some (inr (h1, d1)) ∧
    Mem.dequeue_paths 2 h1 d1
    = Some ([Some 1%positive; Some 2%positive],
            Example.heap0, Example.data0).
Proof.
  split; [exact (proj1 models_data0)|].
  split; [exact nodup_34|]. split; [exact nodup_12|].
  destruct (queue_round_trip Example.heap0 Example.data0
              [3%positive; 4%positive] [1%positive; 2%positive]
              ["root/a.txt"; "root/b"]
              (proj1 models_data0) eq_refl nodup_34 fresh_nodes
              nodup_12 chars_12)
    as [(h1 & d1 & Hrun & _ & Hback) _].
  exists h1, d1. split; [exact Hrun|exact Hback].
Defined.


(** *** The buffers, on the example *)

(** X14 on the example: the path of [a.txt] in [root]. *)
Lemma construct_path_exact_witness :
  Buf.strlen "root" + Buf.strlen "a.txt" + 2 ≤ Buf.SIZE_MAX ∧
  Buf.construct_path true "root" "a.txt" = Some (Some "root/a.txt").
Proof.
  assert (Hfit : Buf.strlen "root" + Buf.strlen "a.txt" + 2 ≤ Buf.SIZE_MAX).
  { vm_compute. discriminate. }
  split; [exact Hfit|].
  exact (proj1 (construct_path_exact "root" "a.txt" Hfit)).
Defined.

Lemma root_entries_fit name :
  name ∈ ["."; ".."; "a.txt"; "b"] →
  Buf.strlen "root" + Buf.strlen name + 2 ≤ Buf.SIZE_MAX.
Proof.
  intros H. repeat (apply elem_of_cons in H as [->|H]; [vm_compute; discriminate|]).
  by apply elem_of_nil in H.
Qed.

Lemma four_entries :
  Z.of_nat (length ["."; ".."; "a.txt"; "b"]) ≤ 2 ^ 58.
Proof. vm_compute. discriminate. Qed.

(** X15 on the example: the entries of [root], every allocation
    successful. *)
Lemma readdir_loop_collects_witness :
  Z.of_nat (length ["."; ".."; "a.txt"; "b"]) ≤ 2 ^ 58 ∧
  ∃ r,
    Buf.readdir_loop (λ _, true) 0 "root" ["."; ".."; "a.txt"; "b"]
      (Buf.mkCollected 0 0 0 [])
    = Some r ∧
    match r with
    | inl code => code = EXIT_FAILURE ∧ ∃ k : nat, (λ _, true) k = false
    | inr c =>
        Buf.paths_count c
        = Z.of_nat (length (children "root" ["."; ".."; "a.txt"; "b"])) ∧
        take (length (children "root" ["."; ".."; "a.txt"; "b"]))
          (Buf.paths_to_enqueue c)
        = Some <$> children "root" ["."; ".."; "a.txt"; "b"]
    end.
Proof.
  split; [exact four_entries|].
  destruct (proj1 (readdir_loop_collects (λ _, true) "root"
                     ["."; ".."; "a.txt"; "b"] four_entries root_entries_fit))
    as (r & Hr & Hres).
  exists r. split; [exact Hr|].
  destruct r as [code|c]; [exact Hres|].
  destruct Hres as (H1 & H2 & _). split; [exact H1|exact H2].
Defined.

Lemma two_operands : Z.of_nat (length ["root"; "vault"]) ≤ 2 ^ 29.
Proof. vm_compute. discriminate. Qed.

(** X16 on the example: two operands, the allocation successful. *)
Lemma parse_paths_collects_witness :
  Z.of_nat (length ["root"; "vault"]) ≤ 2 ^ 29 ∧
  ∃ r,
    Buf.parse_paths (λ _, true) ["root"; "vault"] = Some r ∧
    match r with
    | inl code => code = EXIT_FAILURE ∧ ∃ k : nat, (λ _, true) k = false
    | inr c =>
        Buf.num_paths c = 2 ∧
        take 2 (Buf.paths c) = [Some "root"; Some "vault"]
    end.
Proof.
  split; [exact two_operands|].
  destruct (parse_paths_collects (λ _, true) ["root"; "vault"] two_operands)
    as (r & Hr & Hres).
  exists r. split; [exact Hr|].
  destruct r as [code|c]; [exact Hres|].
  destruct Hres as (H1 & _ & H2). split; [exact H1|exact H2].
Defined.



Lemma example_entries_no_slash dir names name :
  Example.opendir dir = Some names → name ∈ names → no_slash name = true.
Proof.
  unfold Example.opendir. intros Ho Hin.
  repeat case_match; simplify_eq;
    repeat (apply elem_of_cons in Hin as [->|Hin]; [reflexivity|]);
    by apply elem_of_nil in Hin.
Qed.

(** X19 on the example: the two children of [root] that worker 0 has
    collected are entries of [root]; and of the paths the traversal
    of [root] comes to, none ends in "." or "..". *)
Lemma traversal_stays_below_witness :
  reachable Example.lstat Example.opendir 2 "root" Example.listed ∧
  Forall (below Example.lstat Example.opendir "root")
    ["root/a.txt"; "root/b"] ∧
  (∀ dir name,
     is_dot name = true →
     below Example.lstat Example.opendir "root" (construct_path dir name) →
     construct_path dir name = "root").
Proof.
  split; [exact reachable_listed|].
  destruct (traversal_stays_below Example.lstat Example.opendir
              2 "root" Example.listed reachable_listed) as (_ & H & _ & Hfs).
  split; [exact (H 0%nat (HD_lock ["root/a.txt"; "root/b"]) eq_refl)|].
  exact (proj2 (Hfs example_entries_no_slash)).
Defined.


(** *** The pool on the heap *)

Lemma malloc_fresh (h : Mem.heap) : h !! Example.malloc h = None.
Proof. apply not_elem_of_dom. unfold Example.malloc. apply is_fresh. Qed.

Lemma reachable_heap_listed :
  mreachable Example.lstat Example.opendir Example.malloc 2 Example.heap0
    "root" Example.heap_listed.
Proof.
  eapply (mexec_mreachable _ _ _ _ _ _ Example.sched_heap_listed).
  - apply mreachable_init. vm_compute. reflexivity.
  - vm_compute. reflexivity.
Qed.

Lemma reachable_heap_finished :
  mreachable Example.lstat Example.opendir Example.malloc 2 Example.heap0
    "root" Example.heap_finished.
Proof.
  eapply (mexec_mreachable _ _ _ _ _ _ Example.sched_heap_rest).
  - exact reachable_heap_listed.
  - vm_compute. reflexivity.
Qed.

(** X20 on the example: the pool of two on [root]. *)
Lemma pool_on_heap_refines_witness :
  (∀ h : Mem.heap, h !! Example.malloc h = None) ∧ Z.of_nat 2 ≤ INT_MAX ∧
  (∃ ms, minit Example.malloc 2 Example.heap0 "root" = Some ms) ∧
  ∀ ms,
    mreachable Example.lstat Example.opendir Example.malloc 2 Example.heap0
      "root" ms →
    ∃ s, reachable Example.lstat Example.opendir 2 "root" s ∧
         sim Example.heap0 ms s.
Proof.
  split; [exact malloc_fresh|]. split; [exact two_workers|].
  exact (pool_on_heap_refines Example.lstat Example.opendir Example.malloc
           malloc_fresh 2 Example.heap0 "root" two_workers).
Defined.

(** X21 on the example: worker 0 queues the children of [root]. *)
Lemma pool_never_faults_witness :
  mreachable Example.lstat Example.opendir Example.malloc 2 Example.heap0
    "root" Example.heap_listed ∧
  mcstep Example.lstat Example.opendir Example.malloc (Run 0)
    Example.heap_listed ≠ Fault.
Proof.
  split; [exact reachable_heap_listed|].
  exact (pool_never_faults Example.lstat Example.opendir Example.malloc
           malloc_fresh 2 Example.heap0 "root" Example.heap_listed (Run 0)
           two_workers reachable_heap_listed).
Defined.

(** X22 on the example: with worker 1 parked, worker 0 can go on. *)
Lemma pool_on_heap_no_deadlock_witness :
  all_mexited Example.heap_listed = false ∧
  ∃ w ms', mwstep Example.lstat Example.opendir Example.malloc w
             Example.heap_listed = Ok ms'.
Proof.
  split; [reflexivity|].
  exact (pool_on_heap_no_deadlock Example.lstat Example.opendir
           Example.malloc malloc_fresh 2 Example.heap0 "root"
           Example.heap_listed two_workers reachable_heap_listed eq_refl).
Defined.

(** X23 on the example: after the traversal of [root] the heap is
    [heap0] again. *)
Lemma pool_frees_all_blocks_witness :
  all_mexited Example.heap_finished = true ∧
  sh_heap (mshared Example.heap_finished) = Example.heap0 ∧
  Mem.queue_head (sh_data (mshared Example.heap_finished)) = None ∧
  Mem.queue_tail (sh_data (mshared Example.heap_finished)) = None ∧
  sh_owner (mshared Example.heap_finished) = None ∧
  ∃ d', Mem.thread_data_destroy (sh_heap (mshared Example.heap_finished))
          (sh_data (mshared Example.heap_finished))
        = Some (Example.heap0, d').
Proof.
  split; [reflexivity|].
  apply (pool_frees_all_blocks Example.lstat Example.opendir Example.malloc
           malloc_fresh 2 Example.heap0 "root" Example.heap_finished);
    [lia|exact two_workers|exact reachable_heap_finished|reflexivity].
Defined.

(** X24 on the example: the 40 blocks of [root]. *)
Lemma pool_on_heap_result_witness :
  usage Example.lstat Example.opendir "root" 40 false 4 ∧
  Mem.total_size (sh_data (mshared Example.heap_finished))
  = wrap_off (512 * 40) ∧
  (Mem.error_occurred (sh_data (mshared Example.heap_finished)) ≠ 0
   ↔ false = true) ∧
  Mem.pending (sh_data (mshared Example.heap_finished)) = 0 ∧
  Mem.done (sh_data (mshared Example.heap_finished)) ≠ 0.
Proof.
  split; [exact usage_root|].
  apply (pool_on_heap_result Example.lstat Example.opendir Example.malloc
           malloc_fresh 2 Example.heap0 "root" Example.heap_finished
           40 false 4);
    [lia|exact two_workers|exact usage_root|exact reachable_heap_finished
    |reflexivity].
Defined.

(** X25 on the example: the turn of [main] for [root] with two
    workers prints 40 blocks and leaves the heap as it was; when the
    second worker cannot be created, [main] exits while the first is
    running. *)
Lemma main_turn_outcomes_witness :
  main_turn Example.lstat Example.opendir Example.malloc Example.oracle_ok
    2 Example.heap0 "root"
    (Example.sched_heap_listed ++ Example.sched_heap_rest) EXIT_SUCCESS
  = Some (Turn_done EXIT_SUCCESS (40, "root") Example.heap0) ∧
  main_turn Example.lstat Example.opendir Example.malloc
    Example.oracle_second_create_fails 2 Example.heap0 "root" [] EXIT_SUCCESS
  = Some (Turn_exit_running EXIT_FAILURE 1) ∧
  (∃ r, main_setup Example.malloc Example.oracle_ok 2 Example.heap0 "root"
        = Some r) ∧
  (∀ sched code t,
    main_turn Example.lstat Example.opendir Example.malloc Example.oracle_ok
      2 Example.heap0 "root" sched code = Some t →
    match t with
    | Turn_exit code' h =>
        code' = EXIT_FAILURE ∧ h = Example.heap0 ∧
        ¬ setup_ok Example.oracle_ok 2
    | Turn_exit_running code' created =>
        code' = EXIT_FAILURE ∧ (0 < created < 2)%nat ∧
        create_ret Example.oracle_ok created ≠ 0 ∧
        (∀ t, (t < created)%nat → create_ret Example.oracle_ok t = 0)
    | Turn_done code' line h =>
        setup_ok Example.oracle_ok 2 ∧
        code' = (if false then EXIT_FAILURE else code) ∧
        line = (total_blocks (wrap_off (512 * 40)), "root") ∧
        h = Example.heap0
    end) ∧
  (setup_ok Example.oracle_ok 2 →
   ∀ code, ∃ ws,
     main_turn Example.lstat Example.opendir Example.malloc
       Example.oracle_ok 2 Example.heap0 "root" (map Run ws) code
     = Some (Turn_done (if false then EXIT_FAILURE else code)
               (total_blocks (wrap_off (512 * 40)), "root") Example.heap0)).
Proof.
  split; [vm_compute; reflexivity|]. split; [vm_compute; reflexivity|].
  apply (main_turn_outcomes Example.lstat Example.opendir Example.malloc
           malloc_fresh Example.oracle_ok 2 Example.heap0 "root" 40 false 4);
    [lia|exact two_workers|exact usage_root].
Defined.

(** X26 on the example: no run of the pool of two on [root] has more
    than 618 statements; the run above has 79. *)
Lemma pool_on_heap_terminates_witness :
  usage Example.lstat Example.opendir "root" 40 false 4 ∧
  Z.of_nat (length (Example.sched_heap_listed ++ Example.sched_heap_rest))
  = 79 ∧
  (∀ ms0 sched ms,
     minit Example.malloc 2 Example.heap0 "root" = Some ms0 →
     mexec Example.lstat Example.opendir Example.malloc sched ms0 = Ok ms →
     Z.of_nat (length sched)
     ≤ 3 * (7 * Z.of_nat 2 + (20 + 14 * Z.of_nat 2) * Z.of_nat 4)
       + 24 * spurious_count sched) ∧
  (∀ ms,
     mreachable Example.lstat Example.opendir Example.malloc 2 Example.heap0
       "root" ms →
     ∃ ws ms',
       mexec Example.lstat Example.opendir Example.malloc (map Run ws) ms
       = Ok ms' ∧
       all_mexited ms' = true).
Proof.
  split; [exact usage_root|]. split; [reflexivity|].
  exact (pool_on_heap_terminates Example.lstat Example.opendir Example.malloc
           malloc_fresh 2 Example.heap0 "root" 40 false 4 two_workers
           usage_root).
Defined.

(** X27 on the example: worker 0 queues the children of [root]. *)
Lemma pool_on_heap_race_free_witness :
  ∃ ms',
    mwstep Example.lstat Example.opendir Example.malloc 0
      Example.heap_listed = Ok ms' ∧
    sh_data (mshared ms') ≠ sh_data (mshared Example.heap_listed) ∧
    (sh_data (mshared ms') ≠ sh_data (mshared Example.heap_listed) →
     sh_owner (mshared Example.heap_listed) = Some 0%nat ∧
     sh_owner (mshared ms') = Some 0%nat) ∧
    (∀ l, is_Some (sh_heap (mshared Example.heap_listed) !! l) →
          sh_heap (mshared ms') !! l
          ≠ sh_heap (mshared Example.heap_listed) !! l →
          sh_owner (mshared Example.heap_listed) = Some 0%nat ∨
          ∃ mp, mpcs Example.heap_listed !! 0%nat = Some mp ∧
                l ∈ owned (sh_heap (mshared Example.heap_listed)) mp) ∧
    untouched Example.heap_listed 0 (sh_heap (mshared ms')) ∧
    (∀ l, is_Some (Example.heap0 !! l) →
          sh_heap (mshared ms') !! l = Example.heap0 !! l).
Proof.
  eexists. split; [vm_compute; reflexivity|]. split; [by vm_compute|].
  apply (pool_on_heap_race_free Example.lstat Example.opendir Example.malloc
           malloc_fresh 2 Example.heap0 "root" Example.heap_listed 0);
    [exact two_workers|exact reachable_heap_listed|vm_compute; reflexivity].
Defined.

End Demo.
